(** * tryhard: Results, retrying wrappers, generator composition and [all]

    A shallow embedding of the TypeScript sources and the properties the
    specification states about them.

    - [src/src/all.ts] is embedded in [Module V1], where every factory
      returns a promise of its own, and its bounded loop once more in
      [Module V1S], where factories may return the same promise;
    - the rewritten [all.ts] (the unnamed parts 000 and 001, whose code is
      the same) is embedded in [Module V2];
    - [result.ts] is not among the sources: [Result.try], [Result.tryPromise]
      and [Result.gen] are modelled from the specification. *)

From Stdlib Require Import ZArith Lia.
From stdpp Require Import base tactics option list numbers.

Set Default Proof Using "Type".
Open Scope Z_scope.
Open Scope nat_scope.

(* ================================================================== *)
(** * The Result value *)
(* ================================================================== *)

Inductive Result (T E : Type) : Type :=
  | Ok (value : T)
  | Err (error : E).
Arguments Ok {T E} value.
Arguments Err {T E} error.

Definition isOk {T E} (r : Result T E) : bool :=
  match r with Ok _ => true | Err _ => false end.

Definition isErr {T E} (r : Result T E) : bool :=
  match r with Ok _ => false | Err _ => true end.

(* ================================================================== *)
(** * JavaScript arrays

    An array is a list of slots; [None] is a hole ([new Array(n)] is all
    holes).  Writing past the end extends the array, the skipped slots
    are holes. *)
(* ================================================================== *)

Definition new_Array {A} (n : nat) : list (option A) := replicate n None.

Definition array_set {A} (a : list (option A)) (i : nat) (x : A)
  : list (option A) :=
  if decide (i < length a) then <[i := Some x]> a
  else a ++ replicate (i - length a) None ++ [Some x].

(* ================================================================== *)
(** * The aggregator: shared vocabulary *)
(* ================================================================== *)

Inductive ModeSetting := Default | Settled.

(** [ConcurrencySetting = "unbounded" | number]; the number is an integer
    here (fractions and NaN are left out). *)
Inductive ConcurrencySetting := Unbounded | Num (k : Z).

Record Options := {
  opt_mode : option ModeSetting;
  opt_concurrency : option ConcurrencySetting }.

(** [options?.mode ?? "default"], [options?.concurrency ?? "unbounded"] *)
Definition mode_of (o : option Options) : ModeSetting :=
  default Default (o ≫= opt_mode).
Definition concurrency_of (o : option Options) : ConcurrencySetting :=
  default Unbounded (o ≫= opt_concurrency).

(** The state of one task's promise as the aggregator can observe it:
    its factory has not been called, its reaction has not run yet, its
    reaction has run. *)
Inductive pstatus := NotStarted | Pending | Done.

Global Instance pstatus_eq_dec : EqDecision pstatus.
Proof. solve_decision. Defined.

Definition in_flight (status : list pstatus) : nat :=
  length (filter (λ s, s = Pending) status).

Definition started (status : list pstatus) : nat :=
  length (filter (λ s, s ≠ NotStarted) status).

Section Aggregator.
Context {V E : Type}.

(** The buffers are [any[]]: in default mode they hold [result.value],
    in settled mode the Result itself. *)
Inductive any :=
  | AVal (v : V)
  | ARes (r : Result V E).

(** What the promise returned by [all] resolves to: a Result (default
    mode) or an array of Results (settled mode). *)
Inductive ret :=
  | RetResult (r : Result (list (option any)) E)
  | RetArray (a : list (option any)).

(** [resolve(x)] of a promise: the first call wins, later calls are
    no-ops. *)
Definition resolve (x : ret) (cur : option ret) : option ret :=
  match cur with
  | Some y => Some y
  | None => Some x
  end.

(** An input promise is given by what it settles to, if it ever does:
    [None] never settles. *)
Definition settles_to (ps : list (option (Result V E))) (i : nat)
  : option (Result V E) := mjoin (ps !! i).

(* ---------------------------------------------------------------- *)
(** ** allEager

    Every input promise carries one reaction: the callback of
    [promises.forEach((promise, index) => promise.then(...))] in
    default mode, the element function of [Promise.all] in settled
    mode.  Reaction jobs run in the order in which the promises settle,
    so a run is driven by the list of indices in settlement order. *)
(* ---------------------------------------------------------------- *)

Record eager := {
  e_status : list pstatus;
  e_data : list (option any);
  e_remaining : Z;
  e_resolved : option ret }.

(** [new Promise((resolve) => { const data = new Array(n); let
    remaining = n; ... })] *)
Definition eager_default_init (n : nat) : eager :=
  {| e_status := replicate n Pending;
     e_data := new_Array n;
     e_remaining := Z.of_nat n;
     e_resolved := None |}.

(** [Promise.all(promises)]: resolves at once with [[]] on an empty
    input, else when the count of unresolved elements reaches zero. *)
Definition promise_all_init (n : nat) : eager :=
  {| e_status := replicate n Pending;
     e_data := new_Array n;
     e_remaining := Z.of_nat n;
     e_resolved := if decide (n = 0) then Some (RetArray []) else None |}.

(** An aggregate that returns before any promise is looked at. *)
Definition eager_returned (n : nat) (x : ret) : eager :=
  {| e_status := replicate n Pending;
     e_data := [];
     e_remaining := Z.of_nat n;
     e_resolved := Some x |}.

(** The reaction of promise [index] to [result]. *)
Definition eager_then (mode : ModeSetting) (index : nat)
    (result : Result V E) (st : eager) : eager :=
  match mode with
  | Default =>
      match result with
      | Err e =>
          (* first error wins, subsequent calls are no-ops *)
          {| e_status := e_status st; e_data := e_data st;
             e_remaining := e_remaining st;
             e_resolved := resolve (RetResult (Err e)) (e_resolved st) |}
      | Ok v =>
          let data := array_set (e_data st) index (AVal v) in
          let remaining := (e_remaining st - 1)%Z in
          {| e_status := e_status st; e_data := data;
             e_remaining := remaining;
             e_resolved :=
               if decide (remaining = 0%Z)
               then resolve (RetResult (Ok data)) (e_resolved st)
               else e_resolved st |}
      end
  | Settled =>
      let data := array_set (e_data st) index (ARes result) in
      let remaining := (e_remaining st - 1)%Z in
      {| e_status := e_status st; e_data := data;
         e_remaining := remaining;
         e_resolved :=
           if decide (remaining = 0%Z)
           then resolve (RetArray data) (e_resolved st)
           else e_resolved st |}
  end.

Definition eager_mark (i : nat) (st : eager) : eager :=
  {| e_status := <[i := Done]> (e_status st); e_data := e_data st;
     e_remaining := e_remaining st; e_resolved := e_resolved st |}.

(** Promise [i] settles and its reaction runs.  An index that names no
    pending promise, or a promise that never settles, is skipped. *)
Definition eager_step (mode : ModeSetting)
    (ps : list (option (Result V E))) (st : eager) (i : nat) : eager :=
  match e_status st !! i, settles_to ps i with
  | Some Pending, Some r => eager_then mode i r (eager_mark i st)
  | _, _ => st
  end.

Definition eager_run (mode : ModeSetting)
    (ps : list (option (Result V E))) (st : eager) (sched : list nat)
  : eager := foldl (eager_step mode ps) st sched.

(* ---------------------------------------------------------------- *)
(** ** Inputs of [all] *)
(* ---------------------------------------------------------------- *)

(** A factory [() => Promise<Result>].  The promise it returns is
    either resolved already ([() => Promise.resolve(r)], an [async]
    function that returns without awaiting) or pending; a pending
    promise settles later to [o], or never when [o] is [None].  Every
    call returns a promise of its own; factories that return the same
    promise object are those of [V1S.factory]. *)
Inductive thunk :=
  | Resolved (r : Result V E)
  | Deferred (o : option (Result V E)).

Definition thunk_outcome (t : thunk) : option (Result V E) :=
  match t with
  | Resolved r => Some r
  | Deferred o => o
  end.

(** The two overloads: an array of promises, an array of factories. *)
Inductive input :=
  | Promises (ps : list (option (Result V E)))
  | Thunks (ts : list thunk).

(** [typeof promises[0] === "function"] *)
Definition first_is_function (inp : input) : bool :=
  match inp with
  | Thunks (_ :: _) => true
  | _ => false
  end.

Definition input_length (inp : input) : nat :=
  match inp with
  | Promises ps => length ps
  | Thunks ts => length ts
  end.

(** The input read as promises ([promises as any] on the eager path:
    only an empty array of factories gets there). *)
Definition as_promises (inp : input) : list (option (Result V E)) :=
  match inp with
  | Promises ps => ps
  | Thunks ts => thunk_outcome <$> ts
  end.

Definition as_thunks (inp : input) : list thunk :=
  match inp with
  | Promises ps => Deferred <$> ps
  | Thunks ts => ts
  end.

End Aggregator.

Arguments any : clear implicits.
Arguments ret : clear implicits.
Arguments eager : clear implicits.
Arguments thunk : clear implicits.
Arguments input : clear implicits.

(* ================================================================== *)
(** * The rewritten [all.ts] (unnamed parts 000 and 001) *)
(* ================================================================== *)

Module V2.
Section Defs.
Context {V E : Type}.

Definition allEager (promises : list (option (Result V E)))
    (mode : ModeSetting) : eager V E :=
  if decide (length promises = 0) then
    eager_returned 0
      (match mode with
       | Settled => RetArray []
       | Default => RetResult (Ok [])
       end)
  else
    match mode with
    | Settled => promise_all_init (length promises)
    | Default => eager_default_init (length promises)
    end.

(** The variables closed over by the promise executor of [allLazy],
    with the status of the tasks' promises. *)
Record pool := {
  status : list pstatus;
  results : list (option (any V E));
  nextIndex : nat;
  remaining : Z;
  done : bool;
  resolved : option (ret V E) }.

Definition resolveOuter (result : ret V E) (st : pool) : pool :=
  {| status := status st; results := results st;
     nextIndex := nextIndex st; remaining := remaining st;
     done := true;
     resolved := resolve result (resolved st) |}.

(** [runNext]: calls the next factory and registers its callback,
    unless the aggregate is done or no factory is left. *)
Definition runNext (n : nat) (st : pool) : pool :=
  if done st || bool_decide (n ≤ nextIndex st) then st
  else
    let i := nextIndex st in
    {| status := <[i := Pending]> (status st); results := results st;
       nextIndex := S i; remaining := remaining st;
       done := done st; resolved := resolved st |}.

Definition store (i : nat) (x : any V E) (st : pool) : pool :=
  {| status := status st; results := array_set (results st) i x;
     nextIndex := nextIndex st; remaining := remaining st;
     done := done st; resolved := resolved st |}.

(** [remaining--; if (remaining === 0) { resolveOuter(...); return; }
    runNext();] *)
Definition settle_one (mode : ModeSetting) (n : nat) (st : pool) : pool :=
  let st1 :=
    {| status := status st; results := results st;
       nextIndex := nextIndex st; remaining := (remaining st - 1)%Z;
       done := done st; resolved := resolved st |} in
  if decide (remaining st1 = 0%Z) then
    resolveOuter
      (match mode with
       | Settled => RetArray (results st1)
       | Default => RetResult (Ok (results st1))
       end) st1
  else runNext n st1.

(** The callback [lazyPromises[i]!().then((result) => ...)]. *)
Definition pool_then (mode : ModeSetting) (n : nat) (i : nat)
    (result : Result V E) (st : pool) : pool :=
  match mode with
  | Settled => settle_one mode n (store i (ARes result) st)
  | Default =>
      match result with
      | Err e => resolveOuter (RetResult (Err e)) st
      | Ok v => settle_one mode n (store i (AVal v) st)
      end
  end.

Definition pool_mark (i : nat) (st : pool) : pool :=
  {| status := <[i := Done]> (status st); results := results st;
     nextIndex := nextIndex st; remaining := remaining st;
     done := done st; resolved := resolved st |}.

(** The promise of task [i] settles and its callback runs; an index
    that names no pending promise, or a promise that never settles, is
    skipped. *)
Definition pool_step (mode : ModeSetting) (lazyPromises : list (thunk V E))
    (st : pool) (i : nat) : pool :=
  match status st !! i, (lazyPromises !! i) ≫= thunk_outcome with
  | Some Pending, Some r =>
      pool_then mode (length lazyPromises) i r (pool_mark i st)
  | _, _ => st
  end.

Definition pool_init (n : nat) : pool :=
  {| status := replicate n NotStarted;
     results := new_Array n;
     nextIndex := 0;
     remaining := Z.of_nat n;
     done := false;
     resolved := None |}.

(** [allLazy] returning before it builds its promise. *)
Definition pool_returned (x : ret V E) : pool :=
  {| status := [];
     results := [];
     nextIndex := 0;
     remaining := 0%Z;
     done := false;
     resolved := Some x |}.

(** A call of [all] in progress. *)
Inductive process :=
  | PEager (mode : ModeSetting) (promises : list (option (Result V E)))
      (st : eager V E)
  | PLazy (mode : ModeSetting) (lazyPromises : list (thunk V E))
      (st : pool).

Definition allLazy (lazyPromises : list (thunk V E)) (mode : ModeSetting)
    (concurrency : ConcurrencySetting) : process :=
  match concurrency with
  | Unbounded =>
      let promises := thunk_outcome <$> lazyPromises in
      PEager mode promises (allEager promises mode)
  | Num k =>
      let n := length lazyPromises in
      if decide (n = 0) then
        PLazy mode lazyPromises
          (pool_returned
             (match mode with
              | Settled => RetArray []
              | Default => RetResult (Ok [])
              end))
      else
        let poolSize := Z.min k (Z.of_nat n) in
        PLazy mode lazyPromises
          (Nat.iter (Z.to_nat poolSize) (runNext n) (pool_init n))
  end.

Definition all (promises : input V E) (options : option Options)
  : process :=
  if first_is_function promises then
    allLazy (as_thunks promises) (mode_of options) (concurrency_of options)
  else
    PEager (mode_of options) (as_promises promises)
      (allEager (as_promises promises) (mode_of options)).

(** Running a call against a settlement order. *)
Definition step (p : process) (i : nat) : process :=
  match p with
  | PEager mode ps st => PEager mode ps (eager_step mode ps st i)
  | PLazy mode ts st => PLazy mode ts (pool_step mode ts st i)
  end.

Definition run (p : process) (sched : list nat) : process :=
  foldl step p sched.

(** What the caller's [await all(...)] has got, if anything yet. *)
Definition returned (p : process) : option (ret V E) :=
  match p with
  | PEager _ _ st => e_resolved st
  | PLazy _ _ st => resolved st
  end.

Definition statuses (p : process) : list pstatus :=
  match p with
  | PEager _ _ st => e_status st
  | PLazy _ _ st => status st
  end.

End Defs.
Arguments pool : clear implicits.
Arguments process : clear implicits.
End V2.

(* ================================================================== *)
(** * [src/src/all.ts] *)
(* ================================================================== *)

Module V1.
Section Defs.
Context {V E : Type}.

Definition allEager (promises : list (option (Result V E)))
    (mode : ModeSetting) : eager V E :=
  match mode with
  | Settled => promise_all_init (length promises)
  | Default =>
      if decide (length promises = 0) then
        eager_returned 0 (RetResult (Ok []))
      else eager_default_init (length promises)
  end.

(** *** Promises and the job queue

    The bounded [allLazy] is an [async] function that awaits
    [Promise.race(executing)] in a loop while the callbacks registered
    with [promise.then] run as jobs of their own, so here the promise
    reactions and the queue of reaction jobs are explicit.

    In this module every factory returns a promise of its own.  A
    promise is then known by the index of the call that returned it,
    and [executing], a [Set] of promise objects, gains a member with
    every call.  [V1S] below is the same loop for factories that may
    return the same object; the two agree on factories with promises
    of their own ([shared_refines]). *)

(** What is registered on a task's promise. *)
Inductive reaction :=
  | RThen            (* the callback given to [promise.then] *)
  | RRace (k : nat). (* the [k]-th call of [Promise.race] *)

Inductive job :=
  | JReact (rc : reaction) (i : nat) (result : Result V E)
      (* a reaction of the promise of task [i], settled to [result] *)
  | JResume (winner : Result V E).
      (* [allLazy] continues after [await Promise.race(executing)] *)

Inductive promise :=
  | PPending (reactions : list reaction)
  | PFulfilled (result : Result V E).

Record loop := {
  promises : list promise;       (* the promises created so far, by task *)
  executing : list nat;          (* [Set<Promise>], in insertion order *)
  queue : list (thunk V E);
  results : list (option (any V E));
  index : nat;
  races : list bool;             (* per [Promise.race] call: resolved? *)
  jobs : list job;
  returned : option (ret V E) }.

Definition set_jobs (js : list job) (st : loop) : loop :=
  {| promises := promises st; executing := executing st;
     queue := queue st; results := results st; index := index st;
     races := races st; jobs := js; returned := returned st |}.

(** One round of the body of [while (executing.size < concurrency)]:
    [queue.shift()] has given [nextLazyPromise] and left [rest].  The
    promise that the call returns is a new object, so
    [executing.add(promise)] adds a member; [V1S.start] has the call
    that returns an object which may be a member already. *)
Definition start (nextLazyPromise : thunk V E) (rest : list (thunk V E))
    (st : loop) : loop :=
  let currentIndex := index st in
  {| promises :=
       promises st ++
         [match nextLazyPromise with
          | Resolved r => PFulfilled r
          | Deferred _ => PPending [RThen]
          end];
     executing := executing st ++ [currentIndex];
     queue := rest;
     results := results st;
     index := S currentIndex;
     races := races st;
     jobs :=
       jobs st ++
         match nextLazyPromise with
         | Resolved r => [JReact RThen currentIndex r]
         | Deferred _ => []
         end;
     returned := returned st |}.

(** [while (executing.size < concurrency) { const nextLazyPromise =
    queue.shift(); if (nextLazyPromise === undefined) break; ... }],
    by recursion on the queue [q] of [st]. *)
Fixpoint fill (concurrency : Z) (q : list (thunk V E)) (st : loop) : loop :=
  if decide (Z.of_nat (length (executing st)) < concurrency)%Z then
    match q with
    | [] => st
    | nextLazyPromise :: rest =>
        fill concurrency rest (start nextLazyPromise rest st)
    end
  else st.

(** [Promise.race] number [k] subscribes to the promise of task [i]: a
    pending promise records the reaction, a fulfilled one queues the
    reaction job at once. *)
Definition subscribe (k : nat) (st : loop) (i : nat) : loop :=
  match promises st !! i with
  | Some (PPending rs) =>
      {| promises := <[i := PPending (rs ++ [RRace k])]> (promises st);
         executing := executing st; queue := queue st;
         results := results st; index := index st; races := races st;
         jobs := jobs st; returned := returned st |}
  | Some (PFulfilled r) => set_jobs (jobs st ++ [JReact (RRace k) i r]) st
  | None => st
  end.

(** [await Promise.race(executing)]: a new race over the members of
    [executing], in insertion order. *)
Definition race (st : loop) : loop :=
  let k := length (races st) in
  foldl (subscribe k)
    {| promises := promises st; executing := executing st;
       queue := queue st; results := results st; index := index st;
       races := races st ++ [false]; jobs := jobs st;
       returned := returned st |}
    (executing st).

(** One pass of the [do] body up to the [await]. *)
Definition iterate (concurrency : Z) (st : loop) : loop :=
  race (fill concurrency (queue st) st).

(** The callback given to [promise.then] of the task [currentIndex];
    [executing.delete(promise)] removes that task's promise. *)
Definition loop_then (mode : ModeSetting) (currentIndex : nat)
    (result : Result V E) (st : loop) : loop :=
  {| promises := promises st;
     executing := filter (λ j, j ≠ currentIndex) (executing st);
     queue := queue st;
     results :=
       match mode with
       | Settled => array_set (results st) currentIndex (ARes result)
       | Default =>
           match result with
           | Ok v => array_set (results st) currentIndex (AVal v)
           | Err _ => results st
             (* Returning of error is handled after Promise.race *)
           end
       end;
     index := index st; races := races st; jobs := jobs st;
     returned := returned st |}.

(** The resolving function of race [k] is called with [result]: it
    resolves the race if it is unresolved, and the awaiting function is
    then queued to continue. *)
Definition race_react (k : nat) (result : Result V E) (st : loop) : loop :=
  match races st !! k with
  | Some false =>
      {| promises := promises st; executing := executing st;
         queue := queue st; results := results st; index := index st;
         races := <[k := true]> (races st);
         jobs :=
           if decide (S k = length (races st))
           then jobs st ++ [JResume result] else jobs st;
         returned := returned st |}
  | _ => st
  end.

Definition finish (x : ret V E) (st : loop) : loop :=
  {| promises := promises st; executing := executing st;
     queue := queue st; results := results st; index := index st;
     races := races st; jobs := jobs st; returned := Some x |}.

(** After the [await]: [if (winner.isErr() && mode === "default")
    return winner;], the loop condition, and what follows the loop. *)
Definition resume (mode : ModeSetting) (concurrency : Z)
    (winner : Result V E) (st : loop) : loop :=
  match mode, winner with
  | Default, Err e => finish (RetResult (Err e)) st
  | _, _ =>
      if decide (0 < length (executing st) ∨ 0 < length (queue st)) then
        iterate concurrency st
      else
        finish
          (match mode with
           | Settled => RetArray (results st)
           | Default => RetResult (Ok (results st))
           end) st
  end.

Definition run_job (mode : ModeSetting) (concurrency : Z) (j : job)
    (st : loop) : loop :=
  match j with
  | JReact RThen currentIndex result =>
      loop_then mode currentIndex result st
  | JReact (RRace k) _ result => race_react k result st
  | JResume winner => resume mode concurrency winner st
  end.

(** What happens next: the promise of a task settles, or the first job
    of the queue runs. *)
Inductive action :=
  | Settle (i : nat)
  | Tick.

(** [Settle i]: the pending promise of task [i] is fulfilled with what
    its factory said and its reactions are queued in the order of
    their registration; skipped when the promise is not pending or
    never settles. *)
Definition settle (lazyPromises : list (thunk V E)) (i : nat) (st : loop)
  : loop :=
  match promises st !! i, (lazyPromises !! i) ≫= thunk_outcome with
  | Some (PPending rs), Some r =>
      {| promises := <[i := PFulfilled r]> (promises st);
         executing := executing st; queue := queue st;
         results := results st; index := index st; races := races st;
         jobs := jobs st ++ ((λ rc, JReact rc i r) <$> rs);
         returned := returned st |}
  | _, _ => st
  end.

Definition tick (mode : ModeSetting) (concurrency : Z) (st : loop) : loop :=
  match jobs st with
  | [] => st
  | j :: js => run_job mode concurrency j (set_jobs js st)
  end.

Definition loop_step (mode : ModeSetting) (concurrency : Z)
    (lazyPromises : list (thunk V E)) (st : loop) (a : action) : loop :=
  match a with
  | Settle i => settle lazyPromises i st
  | Tick => tick mode concurrency st
  end.

(** [const executing = new Set(); const queue = [...lazyPromises];
    const results = []; let index = 0;] *)
Definition loop_init (lazyPromises : list (thunk V E)) : loop :=
  {| promises := []; executing := []; queue := lazyPromises;
     results := []; index := 0; races := []; jobs := [];
     returned := None |}.

Inductive process :=
  | PEager (mode : ModeSetting) (ps : list (option (Result V E)))
      (st : eager V E)
  | PLazy (mode : ModeSetting) (concurrency : Z)
      (lazyPromises : list (thunk V E)) (st : loop).

Definition allLazy (lazyPromises : list (thunk V E)) (mode : ModeSetting)
    (concurrency : ConcurrencySetting) : process :=
  match concurrency with
  | Unbounded =>
      let ps := thunk_outcome <$> lazyPromises in
      PEager mode ps (allEager ps mode)
  | Num k =>
      PLazy mode k lazyPromises (iterate k (loop_init lazyPromises))
  end.

Definition all (inp : input V E) (options : option Options) : process :=
  if first_is_function inp then
    allLazy (as_thunks inp) (mode_of options) (concurrency_of options)
  else
    PEager (mode_of options) (as_promises inp)
      (allEager (as_promises inp) (mode_of options)).

(** On the eager path the only job of a promise is its reaction, which
    runs when the promise settles; [Tick] finds nothing to do. *)
Definition step (p : process) (a : action) : process :=
  match p with
  | PEager mode ps st =>
      match a with
      | Settle i => PEager mode ps (eager_step mode ps st i)
      | Tick => p
      end
  | PLazy mode k ts st => PLazy mode k ts (loop_step mode k ts st a)
  end.

Definition run (p : process) (sched : list action) : process :=
  foldl step p sched.

Definition outcome (p : process) : option (ret V E) :=
  match p with
  | PEager _ _ st => e_resolved st
  | PLazy _ _ _ st => returned st
  end.

(** How many tasks have been started: on the eager path every input
    promise is running already, on the lazy path a task is started when
    its factory is called and its promise created. *)
Definition started_tasks (p : process) : nat :=
  match p with
  | PEager _ _ st => started (e_status st)
  | PLazy _ _ _ st => length (promises st)
  end.

(** The tasks that have been started and have not completed: their
    promise exists and is still pending. *)
Definition is_pending (st : loop) (i : nat) : Prop :=
  ∃ rs, promises st !! i = Some (PPending rs).

Global Instance is_pending_dec st i : Decision (is_pending st i).
Proof.
  unfold is_pending. destruct (promises st !! i) as [[rs|r]|].
  - left. by exists rs.
  - right. by intros [? ?].
  - right. by intros [? ?].
Defined.

Definition in_flight_tasks (st : loop) : list nat :=
  filter (is_pending st) (seq 0 (length (promises st))).

Definition pending (st : loop) : nat := length (in_flight_tasks st).

Definition tasks_in_flight (p : process) : nat :=
  match p with
  | PEager _ _ st => in_flight (e_status st)
  | PLazy _ _ _ st => pending st
  end.

(** A call is at rest when no job is queued: it waits for a promise to
    settle. *)
Definition at_rest (p : process) : Prop :=
  match p with
  | PEager _ _ _ => True
  | PLazy _ _ _ st => jobs st = []
  end.

(** The size of [executing] and the length of [queue]; on the eager path
    every promise is executing and nothing is queued. *)
Definition executing_size (p : process) : nat :=
  match p with
  | PEager _ _ st => length (e_status st)
  | PLazy _ _ _ st => length (executing st)
  end.

Definition queue_length (p : process) : nat :=
  match p with
  | PEager _ _ _ => 0
  | PLazy _ _ _ st => length (queue st)
  end.

End Defs.
Arguments loop : clear implicits.
Arguments process : clear implicits.
Arguments job : clear implicits.
Arguments promise : clear implicits.
End V1.

(* ================================================================== *)
(** * The fallible-call wrapper with retry *)
(* ================================================================== *)

Module Try.
Section Defs.
(** [W]: the state the wrapped operation reads and writes; [T]: what it
    returns; [X]: what it may throw; [E]: the caller's domain errors. *)
Context {W T X E : Type}.

Inductive Backoff := Constant | Exponential.

(** The domain error of a failed attempt: the mapped value, or the
    generic unhandled exception that carries the original cause. *)
Inductive TryError :=
  | Mapped (e : E)
  | UnhandledException (cause : X).

Record RetryPolicy := {
  attempts : nat;
  delayMs : Z;
  backoff : Backoff;
  shouldRetry : option (TryError → nat → bool) }.

(** How a call of the wrapper ends: with a Result, or with a Panic when
    the mapping function itself throws. *)
Inductive Outcome :=
  | Returned (r : Result T TryError)
  | Panic (cause : X).

Record Report := {
  outcome : Outcome;
  world : W;
  invocations : nat;      (* how often the operation was invoked *)
  waits : list Z }.       (* the delays waited for, in order *)

(** Modelled from the spec: the classification of a caught value, which
    [result.ts] (not among the sources) does in [Result.try] and
    [Result.tryPromise]: "maps the caught value through the mapping
    function if supplied, else wraps it in a generic unhandled
    exception domain error carrying the original cause"; a value thrown
    by the mapping function is the right component. *)
Definition classify (catch : option (X → E + X)) (x : X) : TryError + X :=
  match catch with
  | None => inl (UnhandledException x)
  | Some f =>
      match f x with
      | inl e => inl (Mapped e)
      | inr y => inr y
      end
  end.

(** Modelled from the spec: [shouldRetry(error, attemptNumber)],
    "default: always true". *)
Definition allows (p : RetryPolicy) (e : TryError) (attemptNumber : nat)
  : bool :=
  match shouldRetry p with
  | None => true
  | Some f => f e attemptNumber
  end.

(** Modelled from the spec: the delay before the [n]-th retry,
    "Constant: fixed delayMs every retry; Exponential: delayMs *
    2^(attemptIndex-1) for the Nth retry". *)
Definition delay (p : RetryPolicy) (n : nat) : Z :=
  match backoff p with
  | Constant => delayMs p
  | Exponential => (delayMs p * 2 ^ (Z.of_nat n - 1))%Z
  end.

(** Modelled from the spec: the attempts of the wrapper, which
    [result.ts] (not among the sources) implements.  [left] counts the
    tries that remain after this one, [attemptNumber] is the number of
    this try (from 1).  "Invokes the callable; on success returns
    Ok(value) immediately.  On throw: [classify].  If a RetryPolicy was
    supplied and shouldRetry allows it and attempts remain, retries,
    returning the first Ok, otherwise returning the Error from the
    final attempt.  A thrown value that escapes the mapping function is
    elevated to Panic, not retried."  [timed] tells the asynchronous
    form, which waits between tries, from the synchronous one. *)
Fixpoint attempt (timed : bool) (op : W → (T + X) * W)
    (catch : option (X → E + X)) (p : option RetryPolicy)
    (left : nat) (attemptNumber : nat) (w : W) (ws : list Z) : Report :=
  let '(res, w') := op w in
  match res with
  | inl v =>
      {| outcome := Returned (Ok v); world := w';
         invocations := attemptNumber; waits := ws |}
  | inr x =>
      match classify catch x with
      | inr y =>
          {| outcome := Panic y; world := w';
             invocations := attemptNumber; waits := ws |}
      | inl e =>
          match left, p with
          | S left', Some pol =>
              if allows pol e attemptNumber then
                attempt timed op catch p left' (S attemptNumber) w'
                  (if timed then ws ++ [delay pol attemptNumber] else ws)
              else
                {| outcome := Returned (Err e); world := w';
                   invocations := attemptNumber; waits := ws |}
          | _, _ =>
              {| outcome := Returned (Err e); world := w';
                 invocations := attemptNumber; waits := ws |}
          end
      end
  end.

(** Modelled from the spec: "retries up to [attempts] total tries", so
    [attempts - 1] tries may follow the first one; without a policy
    none does. *)
Definition tries_after_first (p : option RetryPolicy) : nat :=
  match p with
  | Some pol => attempts pol - 1
  | None => 0
  end.

(** Modelled from the spec: [Result.try], the synchronous form
    ([result.ts] is not among the sources). *)
Definition try (op : W → (T + X) * W) (catch : option (X → E + X))
    (retry : option RetryPolicy) (w : W) : Report :=
  attempt false op catch retry (tries_after_first retry) 1 w [].

(** Modelled from the spec: [Result.tryPromise], the asynchronous form
    ([result.ts] is not among the sources): "identical semantics over a
    promise-returning callable; between retries it suspends for a delay
    computed by the backoff policy". *)
Definition tryPromise (op : W → (T + X) * W) (catch : option (X → E + X))
    (retry : option RetryPolicy) (w : W) : Report :=
  attempt true op catch retry (tries_after_first retry) 1 w [].

(** The state before the [k]-th invocation (from 0) when every
    invocation so far was followed by another, and what the [k]-th
    invocation then does. *)
Fixpoint world_before (op : W → (T + X) * W) (k : nat) (w : W) : W :=
  match k with
  | 0 => w
  | S k' => world_before op k' (snd (op w))
  end.

Definition nth_try (op : W → (T + X) * W) (k : nat) (w : W) : T + X :=
  fst (op (world_before op k w)).

(** The [k]-th invocation fails with the domain error [e]: it throws,
    and what it throws is classified as [e]. *)
Definition fails_with (op : W → (T + X) * W) (catch : option (X → E + X))
    (k : nat) (w : W) (e : TryError) : Prop :=
  ∃ x, nth_try op k w = inr x ∧ classify catch x = inl e.

End Defs.
Arguments RetryPolicy : clear implicits.
Arguments TryError : clear implicits.
Arguments Outcome : clear implicits.
Arguments Report : clear implicits.
End Try.

(* ================================================================== *)
(** * The generator-driven composition engine *)
(* ================================================================== *)

Module Gen.
Section Defs.
(** [W]: the state the steps read and write (their effects); [V]: the
    values the steps unwrap; [T]: the declared value of the
    composition; [E]: domain errors; [X]: thrown values. *)
Context {W V T E X : Type}.

(** Modelled from the spec: the protocol state "GeneratorStep", a
    resumable computation that has run up to its next suspension point
    ([result.ts], whose [Result.gen] drives a JavaScript generator, is
    not among the sources).  It has yielded one Result and can be
    resumed with a value, or be told to terminate, which runs the
    cleanup registered around the suspension point; or it has returned
    its declared outcome; or it has thrown. *)
Inductive Suspended :=
  | Yielded (w : W) (r : Result V E) (resume : V → W → Suspended)
      (cleanup : W → W * option X)
  | Returned (w : W) (r : Result T E)
  | Threw (w : W) (x : X).

Inductive Outcome :=
  | Completed (r : Result T E)
  | Panic (cause : X).

(** Modelled from the spec: the driver of [Result.gen] ([result.ts] is
    not among the sources).  "If the yielded Result is Ok, the driver
    resumes the sequence with the unwrapped value and continues.  If it
    is Error, the driver does not resume normally: it signals
    termination into the step sequence so that any scoped cleanup runs,
    then the aggregate call returns that Error unchanged.  If the step
    sequence itself throws, the driver converts it to a Panic; a second
    throw raised from within a cleanup block during an Error
    short-circuit is likewise elevated to Panic." *)
Fixpoint drive (s : Suspended) : W * Outcome :=
  match s with
  | Returned w r => (w, Completed r)
  | Threw w x => (w, Panic x)
  | Yielded w (Ok v) resume _ => drive (resume v w)
  | Yielded w (Err e) _ cleanup =>
      match cleanup w with
      | (w', None) => (w', Completed (Err e))
      | (w', Some x) => (w', Panic x)
      end
  end.

(** Modelled from the spec: [Result.gen], the single entry point of the
    engine "accepting a step-sequence". *)
Definition gen (body : W → Suspended) (w : W) : W * Outcome :=
  drive (body w).

(** A step of a straight-line sequence: given the values unwrapped so
    far it runs its effects and yields a Result. *)
Definition Step := list V → W → W * Result V E.

(** The generator [function* () { const a = yield* s0(); const b =
    yield* s1(a); ...; return terminal(a, b, ...); }]. *)
Fixpoint sequence (steps : list Step)
    (terminal : list V → W → W * Result T E) (vals : list V) (w : W)
  : Suspended :=
  match steps with
  | [] => let '(w', r) := terminal vals w in Returned w' r
  | s :: rest =>
      let '(w', r) := s vals w in
      Yielded w' r (λ v w'', sequence rest terminal (vals ++ [v]) w'')
        (λ w'', (w'', None))
  end.

(** The steps [steps], run in sequence from the values [vals] and the
    state [w], all yield [Ok]; [vals'] are the values unwrapped when the
    last of them has run and [w'] is the state it leaves. *)
Inductive steps_ok : list Step → list V → W → list V → W → Prop :=
  | steps_ok_nil vals w : steps_ok [] vals w vals w
  | steps_ok_cons s rest vals w w1 v vals' w' :
      s vals w = (w1, Ok v) →
      steps_ok rest (vals ++ [v]) w1 vals' w' →
      steps_ok (s :: rest) vals w vals' w'.

End Defs.
Arguments Suspended : clear implicits.
Arguments Outcome : clear implicits.
Arguments Step : clear implicits.
End Gen.


(* ================================================================== *)
(** * [src/src/all.ts]: factories that return the same promise

    [executing] is a [Set] of promise objects.  In [V1] every factory
    returns a promise of its own, so every call adds a member to the
    set.  A factory may also return an object that another factory has
    returned ([const p = ...; all([() => p, () => p], ...)]):
    [executing.add(promise)] then finds the object in the set and the
    size of the set stays what it was.  Here the promise objects have
    identities, the set is a set of identities, and a promise has one
    [then] callback for every call that returned it.  [V1] is the case
    in which every factory returns a promise of its own
    ([shared_refines] below). *)
(* ================================================================== *)

Module V1S.
Section Defs.
Context {V E : Type}.

(** What a call of the factory returns: a promise of its own, as in
    [thunk], or the object that the factory at index [j] returned, where
    [j] is the first factory that returns this object.  The identity of
    an object is the index of the factory that returns it first. *)
Inductive factory :=
  | Own (t : thunk V E)
  | Same (j : nat).

(** What is registered on a promise. *)
Inductive reaction :=
  | RThen (currentIndex : nat)
      (* the callback given to [promise.then] by the call at
         [currentIndex] *)
  | RRace (k : nat). (* the [k]-th call of [Promise.race] *)

Inductive job :=
  | JReact (rc : reaction) (promise : nat) (result : Result V E)
      (* a reaction of the object [promise], settled to [result] *)
  | JResume (winner : Result V E).

Inductive promise :=
  | PPending (reactions : list reaction)
  | PFulfilled (result : Result V E).

Record loop := {
  promises : list (option promise);
    (* by call: the object that the call created, when it created one *)
  executing : list nat;
    (* [Set<Promise>]: identities in insertion order, each once *)
  queue : list factory;
  results : list (option (any V E));
  index : nat;
  races : list bool;
  jobs : list job;
  returned : option (ret V E) }.

Definition set_jobs (js : list job) (st : loop) : loop :=
  {| promises := promises st; executing := executing st;
     queue := queue st; results := results st; index := index st;
     races := races st; jobs := js; returned := returned st |}.

(** A reaction is registered on the object [p]: a pending promise
    records it, a fulfilled one queues its job at once. *)
Definition register (rc : reaction) (st : loop) (p : nat) : loop :=
  match promises st !! p with
  | Some (Some (PPending rs)) =>
      {| promises := <[p := Some (PPending (rs ++ [rc]))]> (promises st);
         executing := executing st; queue := queue st;
         results := results st; index := index st; races := races st;
         jobs := jobs st; returned := returned st |}
  | Some (Some (PFulfilled r)) => set_jobs (jobs st ++ [JReact rc p r]) st
  | _ => st
  end.

(** One round of the body of [while (executing.size < concurrency)]:
    [const promise = nextLazyPromise(); const currentIndex = index++;
    executing.add(promise); promise.then(...)]. *)
Definition start (nextLazyPromise : factory) (rest : list factory)
    (st : loop) : loop :=
  let currentIndex := index st in
  let promise :=
    match nextLazyPromise with
    | Own _ => currentIndex
    | Same j => j
    end in
  register (RThen currentIndex)
    {| promises :=
         promises st ++
           [match nextLazyPromise with
            | Own (Resolved r) => Some (PFulfilled r)
            | Own (Deferred _) => Some (PPending [])
            | Same _ => None
            end];
       executing :=
         if decide (promise ∈ executing st) then executing st
         else executing st ++ [promise];
       queue := rest;
       results := results st;
       index := S currentIndex;
       races := races st;
       jobs := jobs st;
       returned := returned st |}
    promise.

Fixpoint fill (concurrency : Z) (q : list factory) (st : loop) : loop :=
  if decide (Z.of_nat (length (executing st)) < concurrency)%Z then
    match q with
    | [] => st
    | nextLazyPromise :: rest =>
        fill concurrency rest (start nextLazyPromise rest st)
    end
  else st.

(** [await Promise.race(executing)]: a new race over the members of the
    set, in insertion order. *)
Definition race (st : loop) : loop :=
  let k := length (races st) in
  foldl (register (RRace k))
    {| promises := promises st; executing := executing st;
       queue := queue st; results := results st; index := index st;
       races := races st ++ [false]; jobs := jobs st;
       returned := returned st |}
    (executing st).

Definition iterate (concurrency : Z) (st : loop) : loop :=
  race (fill concurrency (queue st) st).

(** The callback given to [promise.then] by the call at [currentIndex];
    [executing.delete(promise)] removes the object, whoever added it. *)
Definition loop_then (mode : ModeSetting) (currentIndex : nat)
    (promise : nat) (result : Result V E) (st : loop) : loop :=
  {| promises := promises st;
     executing := filter (λ q, q ≠ promise) (executing st);
     queue := queue st;
     results :=
       match mode with
       | Settled => array_set (results st) currentIndex (ARes result)
       | Default =>
           match result with
           | Ok v => array_set (results st) currentIndex (AVal v)
           | Err _ => results st
           end
       end;
     index := index st; races := races st; jobs := jobs st;
     returned := returned st |}.

Definition race_react (k : nat) (result : Result V E) (st : loop) : loop :=
  match races st !! k with
  | Some false =>
      {| promises := promises st; executing := executing st;
         queue := queue st; results := results st; index := index st;
         races := <[k := true]> (races st);
         jobs :=
           if decide (S k = length (races st))
           then jobs st ++ [JResume result] else jobs st;
         returned := returned st |}
  | _ => st
  end.

Definition finish (x : ret V E) (st : loop) : loop :=
  {| promises := promises st; executing := executing st;
     queue := queue st; results := results st; index := index st;
     races := races st; jobs := jobs st; returned := Some x |}.

Definition resume (mode : ModeSetting) (concurrency : Z)
    (winner : Result V E) (st : loop) : loop :=
  match mode, winner with
  | Default, Err e => finish (RetResult (Err e)) st
  | _, _ =>
      if decide (0 < length (executing st) ∨ 0 < length (queue st)) then
        iterate concurrency st
      else
        finish
          (match mode with
           | Settled => RetArray (results st)
           | Default => RetResult (Ok (results st))
           end) st
  end.

Definition run_job (mode : ModeSetting) (concurrency : Z) (j : job)
    (st : loop) : loop :=
  match j with
  | JReact (RThen currentIndex) promise result =>
      loop_then mode currentIndex promise result st
  | JReact (RRace k) _ result => race_react k result st
  | JResume winner => resume mode concurrency winner st
  end.

(** [V1.Settle p]: the pending object [p] is fulfilled with what the
    factory that created it said, and its reactions are queued in the
    order of their registration. *)
Definition settle (lazyPromises : list factory) (p : nat) (st : loop)
  : loop :=
  match promises st !! p, lazyPromises !! p with
  | Some (Some (PPending rs)), Some (Own t) =>
      match thunk_outcome t with
      | Some r =>
          {| promises := <[p := Some (PFulfilled r)]> (promises st);
             executing := executing st; queue := queue st;
             results := results st; index := index st; races := races st;
             jobs := jobs st ++ ((λ rc, JReact rc p r) <$> rs);
             returned := returned st |}
      | None => st
      end
  | _, _ => st
  end.

Definition tick (mode : ModeSetting) (concurrency : Z) (st : loop) : loop :=
  match jobs st with
  | [] => st
  | j :: js => run_job mode concurrency j (set_jobs js st)
  end.

Definition loop_step (mode : ModeSetting) (concurrency : Z)
    (lazyPromises : list factory) (st : loop) (a : V1.action) : loop :=
  match a with
  | V1.Settle p => settle lazyPromises p st
  | V1.Tick => tick mode concurrency st
  end.

Definition loop_init (lazyPromises : list factory) : loop :=
  {| promises := []; executing := []; queue := lazyPromises;
     results := []; index := 0; races := []; jobs := [];
     returned := None |}.

(** [allLazy] with a number for [concurrency] (lines 97 to 134), up to
    the first [await]. *)
Definition allLazy (lazyPromises : list factory) (concurrency : Z) : loop :=
  iterate concurrency (loop_init lazyPromises).

Definition run (mode : ModeSetting) (concurrency : Z)
    (lazyPromises : list factory) (acts : list V1.action) : loop :=
  foldl (loop_step mode concurrency lazyPromises)
    (allLazy lazyPromises concurrency) acts.

(** The object that the call at index [i] returns. *)
Definition promise_of (lazyPromises : list factory) (i : nat) : nat :=
  match lazyPromises !! i with
  | Some (Same j) => j
  | _ => i
  end.

Definition is_pending (st : loop) (p : nat) : Prop :=
  ∃ rs, promises st !! p = Some (Some (PPending rs)).

Global Instance is_pending_dec st p : Decision (is_pending st p).
Proof.
  unfold is_pending. destruct (promises st !! p) as [[[rs|r]|]|].
  - left. by exists rs.
  - right. by intros [? ?].
  - right. by intros [? ?].
  - right. by intros [? ?].
Defined.

(** The factories that have been called, and those of them whose
    promise has not settled. *)
Definition started_tasks (st : loop) : nat := length (promises st).

Definition tasks_in_flight (lazyPromises : list factory) (st : loop) : nat :=
  length (filter (λ i, is_pending st (promise_of lazyPromises i))
            (seq 0 (length (promises st)))).

End Defs.
Arguments factory : clear implicits.
Arguments loop : clear implicits.
Arguments job : clear implicits.
Arguments promise : clear implicits.
End V1S.
Section EagerInvariant.
Context {V E : Type}.

(** What the reaction to [r] leaves in the buffer. *)
Definition cell (mode : ModeSetting) (r : Result V E) : option (any V E) :=
  match mode, r with
  | Settled, _ => Some (ARes r)
  | Default, Ok v => Some (AVal v)
  | Default, Err _ => None
  end.

(** What the aggregate resolves to when every task has been counted. *)
Definition final (mode : ModeSetting) (data : list (option (any V E)))
  : ret V E :=
  match mode with
  | Settled => RetArray data
  | Default => RetResult (Ok data)
  end.

(** The results on which default mode resolves at once. *)
Definition fails (mode : ModeSetting) (r : Result V E) : bool :=
  match mode, r with
  | Default, Err _ => true
  | _, _ => false
  end.

(** The state of [allEager] as long as no failing result has been
    seen. *)
Record eager_clean (mode : ModeSetting) (ps : list (option (Result V E)))
    (st : eager V E) : Prop := {
  ec_status_len : length (e_status st) = length ps;
  ec_data_len : length (e_data st) = length ps;
  ec_started : ∀ i, e_status st !! i ≠ Some NotStarted;
  ec_done : ∀ i, e_status st !! i = Some Done →
    ∃ r, settles_to ps i = Some r ∧ fails mode r = false ∧
         e_data st !! i = Some (cell mode r);
  ec_pending : ∀ i, e_status st !! i = Some Pending →
    e_data st !! i = Some None;
  ec_remaining : e_remaining st = Z.of_nat (in_flight (e_status st));
  ec_resolved :
    e_resolved st =
      if decide (in_flight (e_status st) = 0)
      then Some (final mode (e_data st)) else None }.
End EagerInvariant.
Section PoolInvariant.
Context {V E : Type}.

(** The shape of the status list of [allLazy]: the tasks below
    [nextIndex] have been started, the others have not. *)
Record pool_shape (ts : list (thunk V E)) (st : V2.pool V E) : Prop := {
  ps_status_len : length (V2.status st) = length ts;
  ps_next : V2.nextIndex st ≤ length ts;
  ps_started : ∀ i, i < V2.nextIndex st →
    V2.status st !! i ≠ Some NotStarted;
  ps_unstarted : ∀ i, V2.nextIndex st ≤ i → i < length ts →
    V2.status st !! i = Some NotStarted }.

(** The pool never exceeds [K], and it is full while the aggregate is
    not done and factories are left. *)
Record pool_bounded (K : Z) (ts : list (thunk V E)) (st : V2.pool V E)
  : Prop := {
  pb_shape : pool_shape ts st;
  pb_in_flight : (Z.of_nat (in_flight (V2.status st)) ≤ K)%Z;
  pb_full : V2.done st = false →
    Z.of_nat (in_flight (V2.status st)) = K ∨
    V2.nextIndex st = length ts;
  pb_flag : V2.resolved st = None → V2.done st = false }.

(** The bounded pool with every factory called already is [allEager] on
    the promises. *)
Record pool_is_eager (ts : list (thunk V E)) (st : V2.pool V E)
    (est : eager V E) : Prop := {
  pe_next : V2.nextIndex st = length ts;
  pe_status : V2.status st = e_status est;
  pe_results : V2.results st = e_data est;
  pe_remaining : V2.remaining st = e_remaining est;
  pe_resolved : V2.resolved st = e_resolved est }.

(** The state of the bounded [allLazy] as long as no failing result has
    been seen. *)
Record pool_clean (mode : ModeSetting) (ts : list (thunk V E))
    (st : V2.pool V E) : Prop := {
  pc_shape : pool_shape ts st;
  pc_results_len : length (V2.results st) = length ts;
  pc_done : ∀ i, V2.status st !! i = Some Done →
    ∃ r, (ts !! i) ≫= thunk_outcome = Some r ∧ fails mode r = false ∧
         V2.results st !! i = Some (cell mode r);
  pc_not_done : ∀ i s, V2.status st !! i = Some s → s ≠ Done →
    V2.results st !! i = Some None;
  pc_remaining :
    V2.remaining st =
      Z.of_nat (in_flight (V2.status st)
                + (length ts - V2.nextIndex st));
  pc_resolved :
    V2.resolved st =
      if decide (V2.remaining st = 0%Z)
      then Some (final mode (V2.results st)) else None;
  pc_flag : V2.done st = bool_decide (V2.remaining st = 0%Z) }.

(** How many factories the [for] loop of [allLazy] starts. *)
Definition poolSize (K : Z) (n : nat) : nat :=
  Z.to_nat (Z.min K (Z.of_nat n)).
End PoolInvariant.
Section ProcessInvariant.
Context {V E : Type}.

Definition process_clean (p : V2.process V E) : Prop :=
  match p with
  | V2.PEager mode ps st => eager_clean mode ps st
  | V2.PLazy mode ts st => pool_clean mode ts st
  end.

(** The indices of the promises that settle in a list of actions, in
    order. *)
Definition settlements (acts : list V1.action) : list nat :=
  omap (λ a, match a with V1.Settle i => Some i | V1.Tick => None end) acts.
End ProcessInvariant.
Section LoopInvariant.
Context {V E : Type}.

(** The number of the last call of [Promise.race], and whether the
    promise it returned is still unresolved. *)
Definition current (st : V1.loop V E) : nat := length (V1.races st) - 1.

Definition racing (st : V1.loop V E) : Prop :=
  V1.races st !! current st = Some false.

(** The last race has a reaction on the promise of task [i], registered
    or queued. *)
Definition subscribed (st : V1.loop V E) (i : nat) : Prop :=
  match V1.promises st !! i with
  | Some (V1.PPending rs) => V1.RRace (current st) ∈ rs
  | Some (V1.PFulfilled r) =>
      V1.JReact (V1.RRace (current st)) i r ∈ V1.jobs st
  | None => False
  end.

(** What holds of the loop of the bounded [allLazy] of [src/src/all.ts]
    between any two jobs. *)
Record loop_inv (K : Z) (ts : list (thunk V E)) (st : V1.loop V E)
  : Prop := {
  li_index : V1.index st = length (V1.promises st);
  li_queue : V1.queue st = drop (V1.index st) ts;
  li_bound : V1.index st ≤ length ts;
  li_exec_lt : ∀ i, i ∈ V1.executing st → i < V1.index st;
  li_exec_size : (Z.of_nat (length (V1.executing st)) ≤ K)%Z;
  li_pending : ∀ i rs, V1.promises st !! i = Some (V1.PPending rs) →
    i ∈ V1.executing st;
  li_fulfilled : ∀ i r, V1.promises st !! i = Some (V1.PFulfilled r) →
    (ts !! i) ≫= thunk_outcome = Some r;
  li_jobs : ∀ rc i r, V1.JReact rc i r ∈ V1.jobs st →
    V1.promises st !! i = Some (V1.PFulfilled r) }.

(** As long as the function has not returned, it will be resumed: the
    continuation is queued, or the last race is unresolved and has a
    member whose reaction will resolve it. *)
Record loop_live (K : Z) (st : V1.loop V E) : Prop := {
  ll_subscribed : V1.returned st = None → racing st →
    ∀ i, i ∈ V1.executing st → subscribed st i;
  ll_token : V1.returned st = None →
    (∃ w, V1.JResume w ∈ V1.jobs st) ∨
    (racing st ∧
     ((V1.executing st ≠ [] ∧
       (Z.of_nat (length (V1.executing st)) = K ∨ V1.queue st = [])) ∨
      ∃ i r, V1.JReact (V1.RRace (current st)) i r ∈ V1.jobs st)) }.

(** Settled mode: the results of the tasks whose callback has run are in
    the buffer, and the function returns the buffer when nothing is
    executing or queued. *)
Record loop_settled (st : V1.loop V E) : Prop := {
  ls_results_len : length (V1.results st) ≤ V1.index st;
  ls_done : ∀ i, i < V1.index st → i ∉ V1.executing st →
    ∃ r, V1.promises st !! i = Some (V1.PFulfilled r) ∧
         V1.results st !! i = Some (Some (ARes r));
  ls_returned : ∀ x, V1.returned st = Some x →
    V1.executing st = [] ∧ V1.queue st = [] ∧
    x = RetArray (V1.results st) }.

(** The order of the job queue: the callback given to [promise.then] is
    the first reaction of a task's promise, so its job runs before the
    job of any race on that promise; and the races that jobs and
    reactions refer to have been called. *)
Record loop_order (st : V1.loop V E) : Prop := {
  lo_race_jobs : ∀ k i r, V1.JReact (V1.RRace k) i r ∈ V1.jobs st →
    k < length (V1.races st);
  lo_race_reactions : ∀ i rs k,
    V1.promises st !! i = Some (V1.PPending rs) → V1.RRace k ∈ rs →
    k < length (V1.races st);
  lo_head : ∀ i rs, V1.promises st !! i = Some (V1.PPending rs) →
    ∃ rs', rs = V1.RThen :: rs';
  lo_callback : ∀ i r, V1.promises st !! i = Some (V1.PFulfilled r) →
    i ∈ V1.executing st → ∃ r', V1.JReact V1.RThen i r' ∈ V1.jobs st;
  lo_fifo : ∀ p k i r,
    V1.jobs st !! p = Some (V1.JReact (V1.RRace k) i r) →
    i ∈ V1.executing st →
    ∃ p' r', p' < p ∧ V1.jobs st !! p' = Some (V1.JReact V1.RThen i r') }.

(** A bound on the number of jobs that run before the queue is empty
    when no promise settles meanwhile.  A job of the last race can win
    it once the callback of its task has run. *)
Definition is_resume (j : @V1.job V E) : bool :=
  match j with V1.JResume _ => true | _ => false end.

Definition can_win (st : V1.loop V E) (j : @V1.job V E) : bool :=
  match j with
  | V1.JReact (V1.RRace k) i _ =>
      bool_decide (k = current st ∧ i ∉ V1.executing st)
  | _ => false
  end.

Definition winnable (st : V1.loop V E) : bool :=
  bool_decide (racing st) && existsb (can_win st) (V1.jobs st).

Definition base (k : nat) (st : V1.loop V E) : nat :=
  (k + 3) * length (V1.queue st) + (k + 1) * length (V1.executing st)
  + length (V1.jobs st)
  + k * length (filter (λ j, is_resume j = true) (V1.jobs st)).

Definition potential (k : nat) (st : V1.loop V E) : nat :=
  base k st + (if winnable st then k + 1 else 0).

(** The tasks whose promise has settled. *)
Definition is_fulfilled (p : @V1.promise V E) : bool :=
  match p with V1.PFulfilled _ => true | V1.PPending _ => false end.

Definition fulfilled (st : V1.loop V E) : nat :=
  length (filter (λ p, is_fulfilled p = true) (V1.promises st)).

(** With concurrency 1 the loop is sequential: the promise in
    [executing], the race jobs of the last race and the continuation all
    belong to the task that was started last, and the function is
    resumed at most once per race. *)
Record loop_seq (st : V1.loop V E) : Prop := {
  sq_executing : ∀ j, j ∈ V1.executing st → S j = V1.index st;
  sq_resume : ∀ w, V1.JResume w ∈ V1.jobs st →
    ∃ j, S j = V1.index st ∧ V1.promises st !! j = Some (V1.PFulfilled w);
  sq_race : ∀ k j r, V1.JReact (V1.RRace k) j r ∈ V1.jobs st →
    S k = length (V1.races st) → S j = V1.index st;
  sq_single :
    length (filter (λ j, is_resume j = true) (V1.jobs st))
    + (if decide (racing st) then 1 else 0) ≤ 1 }.
(** What a buffer holds at index [i]: nothing in a hole and past the
    end. *)
Definition slot (a : list (option (any V E))) (i : nat)
  : option (any V E) := mjoin (a !! i).

(** Default mode: the buffer holds the values of the tasks whose
    callback has run and that resolved to [Ok], nothing for the others;
    and the function returns [Ok] of the buffer only when nothing is
    executing or queued. *)
Record loop_default (st : V1.loop V E) : Prop := {
  ld_results_len : length (V1.results st) ≤ V1.index st;
  ld_done : ∀ i, i < V1.index st → i ∉ V1.executing st →
    ∃ r, V1.promises st !! i = Some (V1.PFulfilled r) ∧
         slot (V1.results st) i = cell Default r;
  ld_unwritten : ∀ i, i ∈ V1.executing st → slot (V1.results st) i = None;
  ld_returned : ∀ data, V1.returned st = Some (RetResult (Ok data)) →
    V1.executing st = [] ∧ V1.queue st = [] ∧ data = V1.results st }.

(** The winner handed to the continuation, and an error the function
    has returned, are Results of tasks that have settled. *)
Definition settled_as (st : V1.loop V E) (r : Result V E) : Prop :=
  ∃ j, V1.promises st !! j = Some (V1.PFulfilled r).

Record loop_relay (st : V1.loop V E) : Prop := {
  lr_resume : ∀ w, V1.JResume w ∈ V1.jobs st → settled_as st w;
  lr_returned : ∀ e, V1.returned st = Some (RetResult (Err e)) →
    settled_as st (Err e) }.

(** The function is resumed once per race, and after it has returned it
    is not resumed again. *)
Record loop_once (st : V1.loop V E) : Prop := {
  on_single :
    length (filter (λ j, is_resume j = true) (V1.jobs st))
    + (if decide (racing st) then 1 else 0) ≤ 1;
  on_returned : is_Some (V1.returned st) →
    ¬ racing st ∧ ∀ w, V1.JResume w ∉ V1.jobs st }.

Global Instance reaction_eq_dec : EqDecision V1.reaction.
Proof. solve_decision. Defined.

Global Instance racing_dec (st : V1.loop V E) : Decision (racing st).
Proof. unfold racing. apply _. Defined.

(** Task [i] has been started and its promise has not settled. *)
Definition task_pending (p : V1.process V E) (i : nat) : Prop :=
  match p with
  | V1.PEager _ _ st => e_status st !! i = Some Pending
  | V1.PLazy _ _ _ st => V1.is_pending st i
  end.
End LoopInvariant.
(** The inputs of the tests of [src/src/all.test.ts]. *)
Module Tests.

(** [makeFn(i)]: a factory whose promise is pending until the test
    resolves it, to [result]. *)
Definition makeFn (result : Result nat nat) : thunk nat nat :=
  Deferred (Some result).

Definition concurrency2 : option Options :=
  Some {| opt_mode := None; opt_concurrency := Some (Num 2) |}.

Definition settled : option Options :=
  Some {| opt_mode := Some Settled; opt_concurrency := None |}.

Definition settled2 : option Options :=
  Some {| opt_mode := Some Settled; opt_concurrency := Some (Num 2) |}.

(** [await new Promise((resolve) => setImmediate(resolve))]: the job
    queue runs empty; ten jobs are enough in these tests, and a [Tick]
    on an empty queue does nothing. *)
Definition immediate : list V1.action := replicate 10 V1.Tick.

Definition four_ok : input nat nat :=
  Thunks [makeFn (Ok 1); makeFn (Ok 2); makeFn (Ok 3); makeFn (Ok 4)].

Definition with_error : input nat nat :=
  Thunks [makeFn (Ok 1); makeFn (Ok 2); Resolved (Err 3); makeFn (Ok 4)].

Definition four_mixed : input nat nat :=
  Thunks [makeFn (Ok 1); makeFn (Err 2); makeFn (Ok 3); makeFn (Ok 4)].

End Tests.

(** Tasks and options of further examples. *)
Definition ok1_err2_err3 : list (thunk nat nat) :=
  [Deferred (Some (Ok 1)); Deferred (Some (Err 2)); Deferred (Some (Err 3))].

Definition ok1_err2_ok3 : list (thunk nat nat) :=
  [Deferred (Some (Ok 1)); Deferred (Some (Err 2)); Deferred (Some (Ok 3))].

Definition ok1_ok2_ok3 : list (thunk nat nat) :=
  [Deferred (Some (Ok 1)); Deferred (Some (Ok 2)); Deferred (Some (Ok 3))].

Definition with_concurrency (k : Z) : option Options :=
  Some {| opt_mode := None; opt_concurrency := Some (Num k) |}.

(** [const p = ...] pending, and [[() => p, () => p, () => p]]; three
    factories with promises of their own. *)
Definition one_shared_promise : list (V1S.factory nat nat) :=
  [V1S.Own (Deferred (Some (Ok 1))); V1S.Same 0; V1S.Same 0].

Definition three_own_promises : list (V1S.factory nat nat) :=
  V1S.Own <$> ok1_ok2_ok3.

(** Membership in a list that is written out. *)
Ltac list_cases H :=
  repeat (apply elem_of_cons in H as [H|H]);
  [..|by apply elem_of_nil in H].
Section SharedRefinement.
Context {V E : Type}.

(** A state of [V1] read as a state of [V1S]: the promise of the call
    at index [i] is the object [i], and its [then] callback is the one
    of that call. *)
Definition lift_reaction (i : nat) (rc : V1.reaction) : V1S.reaction :=
  match rc with
  | V1.RThen => V1S.RThen i
  | V1.RRace k => V1S.RRace k
  end.

Definition lift_promise (i : nat) (p : V1.promise V E) : V1S.promise V E :=
  match p with
  | V1.PPending rs => V1S.PPending (lift_reaction i <$> rs)
  | V1.PFulfilled r => V1S.PFulfilled r
  end.

Definition lift_job (j : V1.job V E) : V1S.job V E :=
  match j with
  | V1.JReact rc i r => V1S.JReact (lift_reaction i rc) i r
  | V1.JResume w => V1S.JResume w
  end.

Record refines (s : V1.loop V E) (g : V1S.loop V E) : Prop := {
  rf_promises : ∀ i,
    V1S.promises g !! i
    = (λ p, Some (lift_promise i p)) <$> (V1.promises s !! i);
  rf_created : length (V1S.promises g) = length (V1.promises s);
  rf_executing : V1S.executing g = V1.executing s;
  rf_queue : V1S.queue g = V1S.Own <$> V1.queue s;
  rf_results : V1S.results g = V1.results s;
  rf_index : V1S.index g = V1.index s;
  rf_races : V1S.races g = V1.races s;
  rf_jobs : V1S.jobs g = lift_job <$> V1.jobs s;
  rf_returned : V1S.returned g = V1.returned s;
  rf_length : V1.index s = length (V1.promises s);
  rf_members : ∀ i, i ∈ V1.executing s → i < V1.index s }.

(** Every factory returns a promise of its own. *)
Definition own_promises (fs : list (V1S.factory V E)) : Prop :=
  ∀ f, f ∈ fs → ∃ t, f = V1S.Own t.
End SharedRefinement.
(* ================================================================== *)
(** * Arrays and promise statuses: basic facts *)
(* ================================================================== *)

Section ArrayFacts.
Context {A : Type}.
Implicit Types (a : list (option A)) (x : A).

Lemma length_array_set a i x :
  length (array_set a i x) = length a `max` S i.
Proof.
  unfold array_set. case_decide.
  - rewrite length_insert. lia.
  - rewrite !length_app, length_replicate. simpl. lia.
Qed.

Lemma lookup_array_set_eq a i x : array_set a i x !! i = Some (Some x).
Proof.
  unfold array_set. case_decide.
  - by apply list_lookup_insert_eq.
  - rewrite lookup_app_r by lia.
    rewrite lookup_app_r by (rewrite length_replicate; lia).
    rewrite length_replicate.
    by replace (i - length a - (i - length a)) with 0 by lia.
Qed.

Lemma lookup_array_set_ne a i j x :
  i ≠ j → j < length a → array_set a i x !! j = a !! j.
Proof.
  intros Hne Hj. unfold array_set. case_decide.
  - by apply list_lookup_insert_ne.
  - by rewrite lookup_app_l.
Qed.

Lemma lookup_array_set_hole a i j x :
  length a ≤ j → j < i → array_set a i x !! j = Some None.
Proof.
  intros Hj Hji. unfold array_set. case_decide; [lia|].
  rewrite lookup_app_r by lia.
  rewrite lookup_app_l by (rewrite length_replicate; lia).
  apply lookup_replicate_2. lia.
Qed.

Lemma lookup_new_Array n i : i < n → @new_Array A n !! i = Some None.
Proof. intros. by apply lookup_replicate_2. Qed.

Lemma length_new_Array n : length (@new_Array A n) = n.
Proof. apply length_replicate. Qed.
End ArrayFacts.

Section CountFacts.
Context {A : Type} (P : A → Prop) `{!∀ x, Decision (P x)}.

Lemma filter_length_insert (l : list A) i x y :
  l !! i = Some x →
  length (filter P (<[i := y]> l)) + (if decide (P x) then 1 else 0)
  = length (filter P l) + (if decide (P y) then 1 else 0).
Proof.
  revert i. induction l as [|z l IH]; intros [|i] Hi; simplify_eq/=.
  - rewrite !filter_cons. repeat case_decide; simpl; lia.
  - rewrite !filter_cons. specialize (IH _ Hi).
    destruct (decide (P z)); simpl; lia.
Qed.

Lemma filter_length_zero (l : list A) :
  length (filter P l) = 0 ↔ ∀ i x, l !! i = Some x → ¬ P x.
Proof.
  rewrite length_zero_iff_nil. split.
  - intros Hnil i x Hi HP.
    assert (x ∈ filter P l) as Hin
      by (apply list_elem_of_filter; split; [done|by eapply list_elem_of_lookup_2]).
    rewrite Hnil in Hin. by apply not_elem_of_nil in Hin.
  - intros Hall. destruct (filter P l) as [|y l'] eqn:Hf; [done|].
    assert (y ∈ filter P l) as Hin by (rewrite Hf; left).
    apply list_elem_of_filter in Hin as [HP Hy].
    apply list_elem_of_lookup in Hy as [i Hi]. by destruct (Hall i y).
Qed.
End CountFacts.

Lemma in_flight_replicate_Pending n : in_flight (replicate n Pending) = n.
Proof.
  unfold in_flight. induction n as [|n IH]; [done|].
  rewrite replicate_S, filter_cons_True by done. simpl. by rewrite IH.
Qed.

Lemma in_flight_replicate_NotStarted n :
  in_flight (replicate n NotStarted) = 0.
Proof.
  unfold in_flight. induction n as [|n IH]; [done|].
  by rewrite replicate_S, filter_cons_False.
Qed.

Lemma started_replicate_NotStarted n : started (replicate n NotStarted) = 0.
Proof.
  unfold started. induction n as [|n IH]; [done|].
  rewrite replicate_S, filter_cons_False; [done|]. by intros [].
Qed.

Lemma in_flight_settle status i :
  status !! i = Some Pending →
  in_flight (<[i := Done]> status) + 1 = in_flight status.
Proof.
  intros Hi. unfold in_flight.
  pose proof (filter_length_insert (λ s, s = Pending) status i Pending Done Hi)
    as H.
  rewrite decide_True in H by done. rewrite decide_False in H by done. lia.
Qed.

Lemma in_flight_start status i :
  status !! i = Some NotStarted →
  in_flight (<[i := Pending]> status) = in_flight status + 1.
Proof.
  intros Hi. unfold in_flight.
  pose proof (filter_length_insert (λ s, s = Pending) status i
                NotStarted Pending Hi) as H.
  rewrite decide_False in H by done. rewrite decide_True in H by done. lia.
Qed.

Lemma started_start status i :
  status !! i = Some NotStarted →
  started (<[i := Pending]> status) = started status + 1.
Proof.
  intros Hi. unfold started.
  pose proof (filter_length_insert (λ s, s ≠ NotStarted) status i
                NotStarted Pending Hi) as H.
  rewrite decide_False in H by naive_solver.
  rewrite decide_True in H by done. lia.
Qed.

Lemma in_flight_zero status :
  in_flight status = 0 ↔ ∀ i, status !! i ≠ Some Pending.
Proof.
  unfold in_flight. rewrite filter_length_zero. split.
  - intros H i Hi. by eapply H.
  - intros H i x Hi ->. by eapply H.
Qed.
Section EagerFacts.
Context {V E : Type}.
Implicit Types (ps : list (option (Result V E))) (st : eager V E).
Implicit Types (mode : ModeSetting) (r : Result V E).

Lemma eager_then_status mode i r st :
  e_status (eager_then mode i r st) = e_status st.
Proof. by destruct mode, r. Qed.

Lemma eager_step_status mode ps st i :
  e_status (eager_step mode ps st i) =
    match e_status st !! i, settles_to ps i with
    | Some Pending, Some _ => <[i := Done]> (e_status st)
    | _, _ => e_status st
    end.
Proof.
  unfold eager_step.
  destruct (e_status st !! i) as [[]|], (settles_to ps i); try done.
  by rewrite eager_then_status.
Qed.

Lemma eager_step_effective mode ps st i r :
  e_status st !! i = Some Pending →
  settles_to ps i = Some r →
  eager_step mode ps st i = eager_then mode i r (eager_mark i st).
Proof. intros Hi Hr. unfold eager_step. by rewrite Hi, Hr. Qed.

Lemma eager_step_cases mode ps st i :
  eager_step mode ps st i = st ∨
  (∃ r, e_status st !! i = Some Pending ∧ settles_to ps i = Some r ∧
        eager_step mode ps st i = eager_then mode i r (eager_mark i st)).
Proof.
  unfold eager_step.
  destruct (e_status st !! i) as [[]|] eqn:Hi; try by left.
  destruct (settles_to ps i) as [r|] eqn:Hr; [|by left].
  right. by exists r.
Qed.

Lemma eager_step_status_length mode ps st i :
  length (e_status (eager_step mode ps st i)) = length (e_status st).
Proof.
  rewrite eager_step_status.
  destruct (e_status st !! i) as [[]|], (settles_to ps i); try done.
  by rewrite length_insert.
Qed.

Lemma eager_step_Done mode ps st i j :
  e_status st !! j = Some Done →
  e_status (eager_step mode ps st i) !! j = Some Done.
Proof.
  intros Hj. rewrite eager_step_status.
  destruct (e_status st !! i) as [[]|] eqn:Hi, (settles_to ps i); try done.
  destruct (decide (i = j)) as [->|]; [congruence|].
  by rewrite list_lookup_insert_ne.
Qed.

Lemma eager_run_Done mode ps sched st j :
  e_status st !! j = Some Done →
  e_status (eager_run mode ps st sched) !! j = Some Done.
Proof.
  revert st. induction sched as [|i sched IH]; intros st Hj; [done|].
  simpl. apply IH. by apply eager_step_Done.
Qed.

(** A promise that settles and whose index occurs in the schedule has
    had its reaction run by the end of the run. *)
Lemma eager_run_covered mode ps sched st j r :
  (∀ i, e_status st !! i ≠ Some NotStarted) →
  j < length (e_status st) →
  settles_to ps j = Some r →
  j ∈ sched →
  e_status (eager_run mode ps st sched) !! j = Some Done.
Proof.
  revert st. induction sched as [|i sched IH]; intros st Hns Hlen Hr Hin.
  { by apply not_elem_of_nil in Hin. }
  simpl. apply elem_of_cons in Hin as [->|Hin].
  - apply eager_run_Done. rewrite eager_step_status, Hr.
    destruct (lookup_lt_is_Some_2 _ _ Hlen) as [s Hs]. rewrite Hs.
    destruct s; [by destruct (Hns i)| |done].
    by apply list_lookup_insert_eq.
  - apply IH; [|by rewrite eager_step_status_length|done|done].
    intros k. rewrite eager_step_status.
    destruct (e_status st !! i) as [[]|] eqn:Hi, (settles_to ps i);
      try apply Hns.
    destruct (decide (i = k)) as [->|].
    + rewrite list_lookup_insert_eq; [done|by eapply lookup_lt_Some].
    + rewrite list_lookup_insert_ne by done. apply Hns.
Qed.

(** A reaction that has run was scheduled. *)
Lemma eager_run_touched mode ps sched st j :
  e_status st !! j ≠ Some Done →
  e_status (eager_run mode ps st sched) !! j = Some Done →
  j ∈ sched.
Proof.
  revert st. induction sched as [|i sched IH]; intros st Hj Hd; [done|].
  destruct (decide (i = j)) as [->|Hne]; [left|].
  right. apply (IH (eager_step mode ps st i)); [|done].
  rewrite eager_step_status.
  destruct (e_status st !! i) as [[]|] eqn:Hi, (settles_to ps i); try done.
  by rewrite list_lookup_insert_ne.
Qed.

Lemma V1_allEager_initial mode ps i :
  e_status (V1.allEager ps mode) !! i ≠ Some Done.
Proof.
  unfold V1.allEager, eager_returned, eager_default_init, promise_all_init.
  destruct mode; [case_decide|]; cbn [e_status].
  all: intros Hd; by apply lookup_replicate in Hd as [? _].
Qed.

(** Once resolved, the aggregate keeps its value. *)
Lemma eager_step_resolved mode ps st i x :
  e_resolved st = Some x → e_resolved (eager_step mode ps st i) = Some x.
Proof.
  intros Hx. unfold eager_step.
  destruct (e_status st !! i) as [[]|], (settles_to ps i) as [r|]; try done.
  destruct mode, r; simpl; rewrite ?Hx; try done; by case_decide.
Qed.

Lemma eager_run_resolved mode ps sched st x :
  e_resolved st = Some x → e_resolved (eager_run mode ps st sched) = Some x.
Proof.
  revert st. induction sched as [|i sched IH]; intros st Hx; [done|].
  simpl. apply IH. by apply eager_step_resolved.
Qed.

Lemma eager_clean_step mode ps st i :
  eager_clean mode ps st →
  (∀ r, settles_to ps i = Some r → fails mode r = false) →
  eager_clean mode ps (eager_step mode ps st i).
Proof.
  intros [Hsl Hdl Hns Hdone Hpend Hrem Hres] Hok.
  unfold eager_step.
  destruct (e_status st !! i) as [[]|] eqn:Hi; try done.
  destruct (settles_to ps i) as [r|] eqn:Hr; [|done].
  specialize (Hok r eq_refl).
  assert (i < length ps) as Hlt by (rewrite <-Hsl; by eapply lookup_lt_Some).
  pose proof (in_flight_settle _ _ Hi) as Hfl.
  assert (e_status (eager_then mode i r (eager_mark i st))
          = <[i := Done]> (e_status st)) as Hst
    by (by rewrite eager_then_status).
  assert (e_data (eager_then mode i r (eager_mark i st))
          = array_set (e_data st) i
              (match mode with Settled => ARes r | Default =>
                 match r with Ok v => AVal v | Err _ => ARes r end end))
    as Hdata by (by destruct mode, r).
  split; rewrite ?Hst, ?Hdata.
  - by rewrite length_insert.
  - rewrite length_array_set. lia.
  - intros k. destruct (decide (i = k)) as [->|].
    + rewrite list_lookup_insert_eq; [done|by eapply lookup_lt_Some].
    + rewrite list_lookup_insert_ne by done. apply Hns.
  - intros k. destruct (decide (i = k)) as [->|].
    + intros _. exists r. split_and!; [done..|].
      rewrite lookup_array_set_eq. by destruct mode, r.
    + rewrite list_lookup_insert_ne by done. intros Hk.
      destruct (Hdone k Hk) as (r' & ? & ? & ?). exists r'.
      split_and!; [done..|].
      rewrite lookup_array_set_ne; [done..|].
      rewrite Hdl, <-Hsl. by eapply lookup_lt_Some.
  - intros k. destruct (decide (i = k)) as [->|].
    + rewrite list_lookup_insert_eq; [done|by eapply lookup_lt_Some].
    + rewrite list_lookup_insert_ne by done. intros Hk.
      rewrite lookup_array_set_ne; [by apply Hpend|done|].
      rewrite Hdl, <-Hsl. by eapply lookup_lt_Some.
  - transitivity (e_remaining st - 1)%Z; [by destruct mode, r|lia].
  - transitivity
      (if decide (e_remaining st - 1 = 0)%Z
       then resolve (final mode (array_set (e_data st) i
              (match mode with Settled => ARes r | Default =>
                 match r with Ok v => AVal v | Err _ => ARes r end end)))
              (e_resolved st)
       else e_resolved st); [by destruct mode, r|].
    rewrite Hres. rewrite (decide_False (P := in_flight (e_status st) = 0))
      by lia.
    repeat case_decide; try done; lia.
Qed.

Lemma eager_clean_run mode ps sched st :
  eager_clean mode ps st →
  (∀ i r, i ∈ sched → settles_to ps i = Some r → fails mode r = false) →
  eager_clean mode ps (eager_run mode ps st sched).
Proof.
  revert st. induction sched as [|i sched IH]; intros st Hc Hok; [done|].
  simpl. apply IH.
  - apply eager_clean_step; [done|]. intros r. apply Hok. left.
  - intros k r Hk. apply Hok. by right.
Qed.

Lemma eager_default_init_clean ps :
  length ps ≠ 0 → eager_clean Default ps (eager_default_init (length ps)).
Proof.
  intros Hn. split; simpl.
  - apply length_replicate.
  - apply length_new_Array.
  - intros i Hi. by apply lookup_replicate in Hi as [? _].
  - intros i Hi. by apply lookup_replicate in Hi as [? _].
  - intros i Hi. apply lookup_replicate in Hi as [_ ?].
    by apply lookup_new_Array.
  - by rewrite in_flight_replicate_Pending.
  - rewrite in_flight_replicate_Pending. by rewrite decide_False.
Qed.

Lemma promise_all_init_clean ps :
  eager_clean Settled ps (promise_all_init (length ps)).
Proof.
  split; simpl.
  - apply length_replicate.
  - apply length_new_Array.
  - intros i Hi. by apply lookup_replicate in Hi as [? _].
  - intros i Hi. by apply lookup_replicate in Hi as [? _].
  - intros i Hi. apply lookup_replicate in Hi as [_ ?].
    by apply lookup_new_Array.
  - by rewrite in_flight_replicate_Pending.
  - rewrite in_flight_replicate_Pending.
    case_decide as Hn; [|done]. by rewrite Hn.
Qed.

Lemma eager_returned_clean mode ps :
  length ps = 0 →
  eager_clean mode ps (eager_returned 0 (final mode [])).
Proof.
  intros Hn. split; simpl; try done.
Qed.

Lemma V1_allEager_clean mode ps : eager_clean mode ps (V1.allEager ps mode).
Proof.
  unfold V1.allEager. destruct mode.
  - case_decide.
    + by apply (eager_returned_clean Default).
    + by apply eager_default_init_clean.
  - apply promise_all_init_clean.
Qed.

Lemma V2_allEager_clean mode ps : eager_clean mode ps (V2.allEager ps mode).
Proof.
  unfold V2.allEager. case_decide.
  - destruct mode; by apply eager_returned_clean.
  - destruct mode; [by apply eager_default_init_clean|].
    apply promise_all_init_clean.
Qed.

(** The two versions of [allEager] are the same function. *)
Lemma allEager_V1_V2 mode ps : V1.allEager ps mode = V2.allEager ps mode.
Proof.
  unfold V1.allEager, V2.allEager. destruct mode; [done|].
  case_decide as Hn; [|done]. by rewrite Hn.
Qed.

Lemma all_Some_fmap {A} (l : list (option A)) :
  (∀ i, i < length l → ∃ x, l !! i = Some (Some x)) →
  ∃ xs, l = Some <$> xs.
Proof.
  induction l as [|o l IH]; intros Hall; [by exists []|].
  destruct (Hall 0) as (x & Hx); [simpl; lia|]. simplify_eq/=.
  destruct IH as [xs ->].
  { intros i Hi. apply (Hall (S i)). lia. }
  by exists (x :: xs).
Qed.

(** A clean state with nothing in flight has resolved to the buffer,
    and the buffer holds what every promise settled to. *)
Lemma eager_clean_all_done mode ps st :
  eager_clean mode ps st →
  (∀ i, i < length ps → e_status st !! i = Some Done) →
  ∃ rs, ps = Some <$> rs ∧
        e_resolved st = Some (final mode (cell mode <$> rs)).
Proof.
  intros [Hsl Hdl Hns Hdone Hpend Hrem Hres] Hall.
  assert (∀ i, i < length ps → ∃ r, ps !! i = Some (Some r) ∧
             e_data st !! i = Some (cell mode r)) as Hcells.
  { intros i Hi. destruct (Hdone i (Hall i Hi)) as (r & Hr & _ & Hd).
    exists r. split; [|done]. unfold settles_to in Hr.
    destruct (ps !! i) as [[r'|]|]; by simplify_eq/=. }
  assert (∃ rs, ps = Some <$> rs) as [rs ->].
  { apply all_Some_fmap. intros i Hi.
    destruct (Hcells i Hi) as (r & Hr & _). by exists r. }
  exists rs. split; [done|]. rewrite Hres.
  rewrite decide_True.
  2:{ apply in_flight_zero. intros i Hi.
      assert (i < length (Some <$> rs)) as Hlt
        by (rewrite <-Hsl; by eapply lookup_lt_Some).
      specialize (Hall i Hlt). congruence. }
  do 2 f_equal. apply list_eq. intros i. rewrite list_lookup_fmap.
  destruct (decide (i < length (Some <$> rs))) as [Hi|Hi].
  - destruct (Hcells i Hi) as (r & Hr & ->).
    rewrite list_lookup_fmap in Hr.
    destruct (rs !! i); by simplify_eq/=.
  - rewrite lookup_ge_None_2 by lia.
    rewrite length_fmap in Hi. by rewrite lookup_ge_None_2 by lia.
Qed.

(** A clean state resolves no earlier than the last reaction. *)
Lemma eager_clean_resolved mode ps st x :
  eager_clean mode ps st →
  e_resolved st = Some x →
  ∀ i, i < length ps → e_status st !! i = Some Done.
Proof.
  intros Hc Hx i Hi. destruct Hc as [Hsl Hdl Hns Hdone Hpend Hrem Hres].
  rewrite Hres in Hx. case_decide as Hfl; [|done].
  rewrite in_flight_zero in Hfl.
  destruct (lookup_lt_is_Some_2 (e_status st) i) as [s Hs]; [lia|].
  destruct s; [by destruct (Hns i)|by destruct (Hfl i)|done].
Qed.
End EagerFacts.
Section PoolFacts.
Context {V E : Type}.
Implicit Types (ts : list (thunk V E)) (st : V2.pool V E).
Implicit Types (mode : ModeSetting) (r : Result V E) (K : Z).

Lemma runNext_skip n st :
  V2.done st = true ∨ n ≤ V2.nextIndex st → V2.runNext n st = st.
Proof.
  intros H. unfold V2.runNext.
  destruct (V2.done st); [done|]. simpl.
  destruct H as [?|?]; [done|]. by rewrite bool_decide_eq_true_2.
Qed.

Lemma runNext_start n st :
  V2.done st = false → V2.nextIndex st < n →
  V2.runNext n st =
    {| V2.status := <[V2.nextIndex st := Pending]> (V2.status st);
       V2.results := V2.results st;
       V2.nextIndex := S (V2.nextIndex st);
       V2.remaining := V2.remaining st;
       V2.done := V2.done st; V2.resolved := V2.resolved st |}.
Proof.
  intros Hd Hn. unfold V2.runNext. rewrite Hd. simpl.
  by rewrite bool_decide_eq_false_2 by lia.
Qed.

Lemma runNext_same n st :
  V2.results (V2.runNext n st) = V2.results st ∧
  V2.remaining (V2.runNext n st) = V2.remaining st ∧
  V2.done (V2.runNext n st) = V2.done st ∧
  V2.resolved (V2.runNext n st) = V2.resolved st.
Proof. unfold V2.runNext. by case_match. Qed.

Lemma runNext_shape ts st :
  pool_shape ts st → pool_shape ts (V2.runNext (length ts) st).
Proof.
  intros [Hlen Hnext Hst Hun].
  destruct (V2.done st) eqn:Hd; [by rewrite runNext_skip by auto|].
  destruct (decide (V2.nextIndex st < length ts)) as [Hlt|];
    [|by rewrite runNext_skip by (right; lia)].
  rewrite runNext_start by done. split; simpl.
  - by rewrite length_insert.
  - lia.
  - intros i Hi. destruct (decide (V2.nextIndex st = i)) as [->|].
    + rewrite list_lookup_insert_eq by lia. done.
    + rewrite list_lookup_insert_ne by done. apply Hst. lia.
  - intros i Hi Hi'. rewrite list_lookup_insert_ne by lia.
    apply Hun; lia.
Qed.

Lemma runNext_in_flight ts st :
  pool_shape ts st →
  in_flight (V2.status (V2.runNext (length ts) st)) =
    if V2.done st || bool_decide (length ts ≤ V2.nextIndex st)
    then in_flight (V2.status st) else S (in_flight (V2.status st)).
Proof.
  intros [Hlen Hnext Hst Hun]. unfold V2.runNext.
  case_match eqn:Hc; [done|]. simpl.
  apply orb_false_iff in Hc as [_ Hc%bool_decide_eq_false].
  rewrite in_flight_start; [lia|]. apply Hun; lia.
Qed.

Lemma pool_step_cases mode ts st i :
  (V2.pool_step mode ts st i = st ∧
     ¬ (V2.status st !! i = Some Pending ∧
        is_Some ((ts !! i) ≫= thunk_outcome))) ∨
  (∃ r, V2.status st !! i = Some Pending ∧
        (ts !! i) ≫= thunk_outcome = Some r ∧
        V2.pool_step mode ts st i =
          V2.pool_then mode (length ts) i r (V2.pool_mark i st)).
Proof.
  unfold V2.pool_step.
  destruct (V2.status st !! i) as [[]|] eqn:Hi;
    try (left; split; [done|by intros [? _]]).
  destruct ((ts !! i) ≫= thunk_outcome) as [r|] eqn:Hr.
  - right. by exists r.
  - left. split; [done|]. intros [_ [? ?]]. done.
Qed.

Lemma pool_step_effective mode ts st i r :
  V2.status st !! i = Some Pending →
  (ts !! i) ≫= thunk_outcome = Some r →
  V2.pool_step mode ts st i
  = V2.pool_then mode (length ts) i r (V2.pool_mark i st).
Proof. intros Hi Hr. unfold V2.pool_step. by rewrite Hi, Hr. Qed.

Lemma pool_then_fail n i e st :
  V2.pool_then Default n i (Err e) st
  = V2.resolveOuter (RetResult (Err e)) st.
Proof. done. Qed.

Lemma pool_mark_shape ts st i :
  pool_shape ts st → V2.status st !! i = Some Pending →
  pool_shape ts (V2.pool_mark i st).
Proof.
  intros [Hlen Hnext Hst Hun] Hi. split; simpl.
  - by rewrite length_insert.
  - done.
  - intros k Hk. destruct (decide (i = k)) as [->|].
    + rewrite list_lookup_insert_eq; [done|by eapply lookup_lt_Some].
    + rewrite list_lookup_insert_ne by done. by apply Hst.
  - intros k Hk Hk'. destruct (decide (i = k)) as [->|].
    + rewrite Hun in Hi by done. done.
    + rewrite list_lookup_insert_ne by done. by apply Hun.
Qed.

Lemma resolveOuter_shape ts st x :
  pool_shape ts st → pool_shape ts (V2.resolveOuter x st).
Proof. by intros []. Qed.

Lemma store_shape ts st i x :
  pool_shape ts st → pool_shape ts (V2.store i x st).
Proof. by intros []. Qed.

Lemma settle_one_shape mode ts st :
  pool_shape ts st → pool_shape ts (V2.settle_one mode (length ts) st).
Proof.
  intros Hs. unfold V2.settle_one. case_decide.
  - apply resolveOuter_shape. by destruct Hs.
  - apply runNext_shape. by destruct Hs.
Qed.

Lemma pool_then_shape mode ts st i r :
  pool_shape ts st → pool_shape ts (V2.pool_then mode (length ts) i r st).
Proof.
  intros Hs. unfold V2.pool_then.
  destruct mode; [destruct r|].
  - by apply settle_one_shape, store_shape.
  - by apply resolveOuter_shape.
  - by apply settle_one_shape, store_shape.
Qed.

Lemma pool_step_shape mode ts st i :
  pool_shape ts st → pool_shape ts (V2.pool_step mode ts st i).
Proof.
  intros Hs.
  destruct (pool_step_cases mode ts st i) as [[-> _]|(r & Hi & Hr & ->)];
    [done|].
  by apply pool_then_shape, pool_mark_shape.
Qed.

(** The status list after the callback of task [i]. *)
Lemma pool_then_in_flight mode ts st i r :
  pool_shape ts st →
  in_flight (V2.status (V2.pool_then mode (length ts) i r st))
    ≤ S (in_flight (V2.status st)) ∧
  (V2.done st = true →
     in_flight (V2.status (V2.pool_then mode (length ts) i r st))
     = in_flight (V2.status st)).
Proof.
  intros Hs. unfold V2.pool_then, V2.settle_one.
  destruct mode; [destruct r|]; simpl; try (split; [lia|done]).
  all: case_decide; simpl; try (split; [lia|done]).
  all: rewrite runNext_in_flight by (by destruct Hs); simpl.
  all: split; [case_match; lia|by intros ->].
Qed.

Lemma resolve_is_Some (x : ret V E) cur : resolve x cur ≠ None.
Proof. by destruct cur. Qed.

Lemma pool_then_flag mode n i r st :
  (V2.resolved st = None → V2.done st = false) →
  V2.resolved (V2.pool_then mode n i r st) = None →
  V2.done (V2.pool_then mode n i r st) = false.
Proof.
  intros Hflag. unfold V2.pool_then, V2.settle_one.
  destruct mode; [destruct r|]; simpl.
  2: { intros Hx. by apply resolve_is_Some in Hx. }
  all: case_decide; simpl; [intros Hx; by apply resolve_is_Some in Hx|].
  all: match goal with |- context [V2.runNext ?n ?s] =>
         destruct (runNext_same n s) as (_ & _ & -> & ->) end.
  all: done.
Qed.

Lemma pool_step_bounded mode K ts st i :
  pool_bounded K ts st → pool_bounded K ts (V2.pool_step mode ts st i).
Proof.
  intros [Hs Hfl Hfull Hflag].
  destruct (pool_step_cases mode ts st i) as [[-> _]|(r & Hi & Hr & ->)];
    [done|].
  pose proof (in_flight_settle _ _ Hi) as Hdec.
  pose proof (pool_mark_shape _ _ _ Hs Hi) as Hs'.
  split; [by apply pool_then_shape| | |by apply pool_then_flag].
  - pose proof (pool_then_in_flight mode ts (V2.pool_mark i st) i r Hs')
      as [Hle _]. simpl in Hle. lia.
  - unfold V2.pool_then, V2.settle_one.
    destruct mode; [destruct r|]; simpl; try done.
    all: case_decide; simpl; try done.
    all: destruct (V2.done st) eqn:Hd;
      [by rewrite runNext_skip by (by left)|].
    all: intros _; destruct (Hfull eq_refl) as [HK|HN].
    all: try (right; rewrite runNext_skip by (right; simpl; lia);
              simpl; lia).
    all: destruct (decide (V2.nextIndex st < length ts)) as [Hlt|Hge];
      [|right; rewrite runNext_skip by (right; simpl; lia); simpl;
        destruct Hs; lia].
    all: left; rewrite runNext_start by done; simpl.
    all: rewrite in_flight_start; [lia|].
    all: destruct Hs' as [_ _ _ Hun]; apply Hun; simpl; lia.
Qed.

Lemma pool_run_bounded mode K ts sched st :
  pool_bounded K ts st →
  pool_bounded K ts (foldl (V2.pool_step mode ts) st sched).
Proof.
  revert st. induction sched as [|i sched IH]; intros st Hb; [done|].
  simpl. by apply IH, pool_step_bounded.
Qed.
End PoolFacts.
Section PoolInit.
Context {V E : Type}.
Implicit Types (ts : list (thunk V E)) (st : V2.pool V E).
Implicit Types (mode : ModeSetting) (r : Result V E) (K : Z).

Lemma in_flight_app l1 l2 : in_flight (l1 ++ l2) = in_flight l1 + in_flight l2.
Proof. unfold in_flight. by rewrite list.filter_app, length_app. Qed.

Lemma started_app l1 l2 : started (l1 ++ l2) = started l1 + started l2.
Proof. unfold started. by rewrite list.filter_app, length_app. Qed.

Lemma started_replicate_Pending n : started (replicate n Pending) = n.
Proof.
  unfold started. induction n as [|n IH]; [done|].
  rewrite replicate_S, filter_cons_True by done. simpl. by rewrite IH.
Qed.

(** The pool after [m] calls of [runNext] on the fresh state. *)
Lemma pool_init_iter n m :
  m ≤ n →
  Nat.iter m (V2.runNext n) (@V2.pool_init V E n) =
    {| V2.status := replicate m Pending ++ replicate (n - m) NotStarted;
       V2.results := new_Array n;
       V2.nextIndex := m;
       V2.remaining := Z.of_nat n;
       V2.done := false;
       V2.resolved := None |}.
Proof.
  induction m as [|m IH]; intros Hm.
  - simpl. unfold V2.pool_init. by rewrite Nat.sub_0_r.
  - simpl. rewrite IH by lia. rewrite runNext_start by (simpl; lia).
    simpl. f_equal.
    rewrite insert_app_r_alt by (rewrite length_replicate; lia).
    rewrite length_replicate, Nat.sub_diag.
    replace (n - m) with (S (n - S m)) by lia.
    rewrite replicate_S. simpl.
    change (Pending :: replicate m Pending ++ replicate (n - S m) NotStarted)
      with (replicate (S m) Pending ++ replicate (n - S m) NotStarted).
    by rewrite replicate_S_end, <-app_assoc.
Qed.

Lemma poolSize_le K n : poolSize K n ≤ n.
Proof. unfold poolSize. lia. Qed.

Lemma pool_started_shape n m ts :
  length ts = n → m ≤ n →
  pool_shape ts (Nat.iter m (V2.runNext n) (V2.pool_init n)).
Proof.
  intros Hn Hm. rewrite pool_init_iter by done. split; simpl.
  - rewrite length_app, !length_replicate. lia.
  - lia.
  - intros i Hi. rewrite lookup_app_l by (rewrite length_replicate; lia).
    rewrite lookup_replicate_2 by lia. done.
  - intros i Hi Hi'. rewrite lookup_app_r by (rewrite length_replicate; lia).
    rewrite length_replicate. apply lookup_replicate_2. lia.
Qed.

Lemma pool_started_bounded K ts :
  (0 ≤ K)%Z →
  pool_bounded K ts
    (Nat.iter (poolSize K (length ts)) (V2.runNext (length ts))
       (V2.pool_init (length ts))).
Proof.
  intros HK. pose proof (poolSize_le K (length ts)) as Hle.
  split; [by apply pool_started_shape|..].
  all: rewrite pool_init_iter by done; simpl; try done.
  all: rewrite in_flight_app, in_flight_replicate_Pending,
         in_flight_replicate_NotStarted.
  all: unfold poolSize in *; lia.
Qed.

Lemma pool_started_clean mode K ts :
  length ts ≠ 0 →
  pool_clean mode ts
    (Nat.iter (poolSize K (length ts)) (V2.runNext (length ts))
       (V2.pool_init (length ts))).
Proof.
  intros Hn. pose proof (poolSize_le K (length ts)) as Hle.
  split; [by apply pool_started_shape|..].
  all: rewrite pool_init_iter by done; simpl.
  - apply length_new_Array.
  - intros i Hi. apply list_elem_of_lookup_2 in Hi.
    apply elem_of_app in Hi as [Hi|Hi];
      by apply elem_of_replicate in Hi as [? _].
  - intros i s Hi _. apply lookup_new_Array.
    apply lookup_lt_Some in Hi.
    rewrite length_app, !length_replicate in Hi. lia.
  - rewrite in_flight_app, in_flight_replicate_Pending,
      in_flight_replicate_NotStarted. lia.
  - rewrite decide_False by lia. done.
  - rewrite bool_decide_eq_false_2 by lia. done.
Qed.

Lemma pool_started_count K n :
  started (V2.status (Nat.iter (poolSize K n) (V2.runNext n)
                        (@V2.pool_init V E n)))
  = poolSize K n.
Proof.
  rewrite pool_init_iter by apply poolSize_le. simpl.
  rewrite started_app, started_replicate_Pending,
    started_replicate_NotStarted. lia.
Qed.
End PoolInit.
Section PoolClean.
Context {V E : Type}.
Implicit Types (ts : list (thunk V E)) (st : V2.pool V E).
Implicit Types (mode : ModeSetting) (r : Result V E) (K : Z).

Lemma pool_then_ok mode n i r st :
  fails mode r = false →
  ∃ x, cell mode r = Some x ∧
       V2.pool_then mode n i r st
       = V2.settle_one mode n (V2.store i x st).
Proof.
  intros Hok. destruct mode, r; try done; eexists; by split.
Qed.

Lemma pool_clean_pending_remaining mode ts st i :
  pool_clean mode ts st → V2.status st !! i = Some Pending →
  (0 < V2.remaining st)%Z ∧ V2.done st = false ∧ V2.resolved st = None.
Proof.
  intros [Hs Hrl Hd Hnd Hrem Hres Hflag] Hi.
  assert (in_flight (V2.status st) ≠ 0) as Hne.
  { intros H0. by apply (proj1 (in_flight_zero _) H0 i). }
  split_and!; [lia| |].
  - rewrite Hflag. apply bool_decide_eq_false_2. lia.
  - rewrite Hres. apply decide_False. lia.
Qed.

Lemma settle_one_clean mode ts st :
  pool_shape ts st →
  length (V2.results st) = length ts →
  (∀ k, V2.status st !! k = Some Done →
     ∃ r, (ts !! k) ≫= thunk_outcome = Some r ∧ fails mode r = false ∧
          V2.results st !! k = Some (cell mode r)) →
  (∀ k s, V2.status st !! k = Some s → s ≠ Done →
     V2.results st !! k = Some None) →
  (V2.remaining st - 1)%Z
    = Z.of_nat (in_flight (V2.status st) + (length ts - V2.nextIndex st)) →
  V2.done st = false →
  V2.resolved st = None →
  pool_clean mode ts (V2.settle_one mode (length ts) st).
Proof.
  intros Hs Hrl Hd Hnd Hrem Hdone Hnone.
  pose proof (settle_one_shape mode ts st Hs) as Hs'.
  split; [done|..]; clear Hs'; unfold V2.settle_one; simpl.
  all: destruct (decide (V2.remaining st - 1 = 0)%Z) as [Hz|Hz]; simpl.
  all: try done.
  all: try (rewrite Hnone; simpl; by rewrite ?decide_True, ?decide_False).
  all: try (rewrite Hz; simpl; lia).
  all: set (st2 := {| V2.status := V2.status st;
                      V2.results := V2.results st;
                      V2.nextIndex := V2.nextIndex st;
                      V2.remaining := (V2.remaining st - 1)%Z;
                      V2.done := V2.done st;
                      V2.resolved := V2.resolved st |}).
  all: destruct (decide (V2.nextIndex st < length ts)) as [Hn|Hn];
    [rewrite (runNext_start (length ts) st2) by done
    |rewrite (runNext_skip (length ts) st2) by (right; simpl; lia)];
    simpl; try done.
  all: try (rewrite Hnone; by rewrite decide_False).
  all: try (rewrite Hdone; by rewrite bool_decide_eq_false_2).
  all: try (destruct Hs; lia).
  all: assert (V2.status st !! V2.nextIndex st = Some NotStarted) as Hns
    by (destruct Hs as [_ _ _ Hun]; apply Hun; lia).
  - intros k. destruct (decide (V2.nextIndex st = k)) as [<-|].
    + rewrite list_lookup_insert_eq by (by eapply lookup_lt_Some). done.
    + rewrite list_lookup_insert_ne by done. apply Hd.
  - intros k s. destruct (decide (V2.nextIndex st = k)) as [<-|].
    + intros _ _. by eapply Hnd.
    + rewrite list_lookup_insert_ne by done. apply Hnd.
  - rewrite in_flight_start by done. lia.
Qed.

Lemma pool_clean_step mode ts st i :
  pool_clean mode ts st →
  (∀ r, (ts !! i) ≫= thunk_outcome = Some r → fails mode r = false) →
  pool_clean mode ts (V2.pool_step mode ts st i).
Proof.
  intros Hc Hok.
  destruct (pool_step_cases mode ts st i) as [[-> _]|(r & Hi & Hr & ->)];
    [done|].
  destruct (pool_clean_pending_remaining _ _ _ _ Hc Hi)
    as (Hpos & Hdone & Hnone).
  destruct Hc as [Hs Hrl Hd Hnd Hrem Hres Hflag].
  destruct (pool_then_ok mode (length ts) i r (V2.pool_mark i st)
              (Hok r Hr)) as (x & Hx & ->).
  assert (i < length ts) as Hlt
    by (destruct Hs as [<- _ _ _]; by eapply lookup_lt_Some).
  pose proof (in_flight_settle _ _ Hi) as Hdec.
  apply settle_one_clean; simpl; try done.
  - by apply store_shape, pool_mark_shape.
  - rewrite length_array_set. lia.
  - intros k. destruct (decide (i = k)) as [->|].
    + intros _. exists r. split; [done|].
      rewrite lookup_array_set_eq, Hx. split; [|done]. by apply Hok.
    + rewrite list_lookup_insert_ne by done. intros Hk.
      destruct (Hd k Hk) as (r' & ? & ? & ?). exists r'.
      split_and!; [done..|].
      rewrite lookup_array_set_ne; [done..|].
      rewrite Hrl. destruct Hs as [<- _ _ _]. by eapply lookup_lt_Some.
  - intros k s. destruct (decide (i = k)) as [->|].
    + rewrite list_lookup_insert_eq by (by eapply lookup_lt_Some).
      by intros [= <-].
    + rewrite list_lookup_insert_ne by done. intros Hk Hne.
      rewrite lookup_array_set_ne; [by eapply Hnd|done|].
      rewrite Hrl. destruct Hs as [<- _ _ _]. by eapply lookup_lt_Some.
  - lia.
Qed.

Lemma pool_clean_run mode ts sched st :
  pool_clean mode ts st →
  (∀ i r, i ∈ sched → (ts !! i) ≫= thunk_outcome = Some r →
          fails mode r = false) →
  pool_clean mode ts (foldl (V2.pool_step mode ts) st sched).
Proof.
  revert st. induction sched as [|i sched IH]; intros st Hc Hok; [done|].
  simpl. apply IH.
  - apply pool_clean_step; [done|]. intros r. apply Hok. left.
  - intros k r Hk. apply Hok. by right.
Qed.

(** Once resolved, the aggregate keeps its value. *)
Lemma pool_step_resolved mode ts st i x :
  V2.resolved st = Some x →
  V2.resolved (V2.pool_step mode ts st i) = Some x.
Proof.
  intros Hx.
  destruct (pool_step_cases mode ts st i) as [[-> _]|(r & Hi & Hr & ->)];
    [done|].
  unfold V2.pool_then, V2.settle_one.
  destruct mode; [destruct r|]; simpl; rewrite ?Hx; try done.
  all: case_decide; simpl; rewrite ?Hx; try done.
  all: by rewrite (proj2 (proj2 (proj2 (runNext_same _ _)))).
Qed.

Lemma pool_run_resolved mode ts sched st x :
  V2.resolved st = Some x →
  V2.resolved (foldl (V2.pool_step mode ts) st sched) = Some x.
Proof.
  revert st. induction sched as [|i sched IH]; intros st Hx; [done|].
  simpl. apply IH. by apply pool_step_resolved.
Qed.

(** A clean pool has resolved exactly when every task is done, and then
    to the buffer that holds what every task settled to. *)
Lemma pool_clean_all_done mode ts st :
  pool_clean mode ts st →
  (∀ i, i < length ts → V2.status st !! i = Some Done) →
  ∃ rs, thunk_outcome <$> ts = Some <$> rs ∧
        V2.resolved st = Some (final mode (cell mode <$> rs)).
Proof.
  intros [Hs Hrl Hd Hnd Hrem Hres Hflag] Hall.
  destruct Hs as [Hlen Hnext Hst Hun].
  assert (∀ i, i < length ts → ∃ r,
             (thunk_outcome <$> ts) !! i = Some (Some r) ∧
             V2.results st !! i = Some (cell mode r)) as Hcells.
  { intros i Hi. destruct (Hd i (Hall i Hi)) as (r & Hr & _ & Hc).
    exists r. split; [|done]. rewrite list_lookup_fmap.
    destruct (ts !! i) as [t|]; simpl in *; [by rewrite Hr|done]. }
  destruct (all_Some_fmap (thunk_outcome <$> ts)) as [rs Hrs].
  { intros i Hi. rewrite length_fmap in Hi.
    destruct (Hcells i Hi) as (r & Hr & _). by exists r. }
  exists rs. split; [done|]. rewrite Hres.
  assert (V2.nextIndex st = length ts) as HN.
  { destruct (decide (V2.nextIndex st = length ts)); [done|].
    specialize (Hall (V2.nextIndex st) ltac:(lia)).
    rewrite Hun in Hall by lia. done. }
  rewrite decide_True.
  2:{ rewrite Hrem, HN. rewrite (proj2 (in_flight_zero _)); [lia|].
      intros i Hi. assert (i < length ts) as Hlt
        by (rewrite <-Hlen; by eapply lookup_lt_Some).
      rewrite Hall in Hi by done. done. }
  do 2 f_equal. apply list_eq. intros i. rewrite list_lookup_fmap.
  assert (length rs = length ts) as Hrsl.
  { by rewrite <-(length_fmap Some rs), <-Hrs, length_fmap. }
  destruct (decide (i < length ts)) as [Hi|Hi].
  - destruct (Hcells i Hi) as (r & Hr & ->).
    rewrite Hrs, list_lookup_fmap in Hr.
    destruct (rs !! i); by simplify_eq/=.
  - rewrite lookup_ge_None_2 by lia. by rewrite lookup_ge_None_2 by lia.
Qed.

Lemma pool_clean_resolved mode ts st x :
  pool_clean mode ts st →
  V2.resolved st = Some x →
  ∀ i, i < length ts → V2.status st !! i = Some Done.
Proof.
  intros [Hs Hrl Hd Hnd Hrem Hres Hflag] Hx i Hi.
  destruct Hs as [Hlen Hnext Hst Hun].
  rewrite Hres in Hx. case_decide as Hz; [|done].
  assert (in_flight (V2.status st) = 0 ∧ V2.nextIndex st = length ts)
    as [Hfl HN] by lia.
  rewrite in_flight_zero in Hfl.
  destruct (lookup_lt_is_Some_2 (V2.status st) i) as [s Hs]; [lia|].
  destruct s; [|by destruct (Hfl i)|done].
  by destruct (Hst i ltac:(lia)).
Qed.
End PoolClean.
Section ProcessFacts.
Context {V E : Type}.
Implicit Types (inp : input V E) (opts : option Options).
Implicit Types (ts : list (thunk V E)) (ps : list (option (Result V E))).

Lemma settles_to_thunks ts i :
  settles_to (thunk_outcome <$> ts) i = (ts !! i) ≫= thunk_outcome.
Proof.
  unfold settles_to. rewrite list_lookup_fmap. by destruct (ts !! i).
Qed.

(** The two shapes of a call of [all]. *)
Lemma V2_all_cases inp opts :
  V2.all inp opts
    = V2.PEager (mode_of opts) (as_promises inp)
        (V2.allEager (as_promises inp) (mode_of opts))
  ∨ ∃ ts k, inp = Thunks ts ∧ ts ≠ [] ∧ concurrency_of opts = Num k ∧
      V2.all inp opts
      = V2.PLazy (mode_of opts) ts
          (Nat.iter (poolSize k (length ts)) (V2.runNext (length ts))
             (V2.pool_init (length ts))).
Proof.
  unfold V2.all. destruct inp as [ps|[|t ts]]; simpl; [by left..|].
  unfold V2.allLazy. destruct (concurrency_of opts) as [|k] eqn:Hk.
  - by left.
  - right. exists (t :: ts), k. split_and!; [done..|].
    by rewrite decide_False.
Qed.

Lemma V2_all_clean inp opts : process_clean (V2.all inp opts).
Proof.
  destruct (V2_all_cases inp opts) as [->|(ts & k & -> & Hne & Hk & ->)].
  - apply V2_allEager_clean.
  - apply pool_started_clean. by destruct ts.
Qed.

Lemma V2_step_clean (p : V2.process V E) i :
  process_clean p →
  (∀ r, match p with
        | V2.PEager mode ps _ => settles_to ps i = Some r → fails mode r = false
        | V2.PLazy mode ts _ =>
            (ts !! i) ≫= thunk_outcome = Some r → fails mode r = false
        end) →
  process_clean (V2.step p i).
Proof.
  destruct p as [mode ps st|mode ts st]; simpl; intros Hc Hok.
  - by apply eager_clean_step.
  - by apply pool_clean_step.
Qed.

Lemma V2_run_app (p : V2.process V E) s1 s2 :
  V2.run p (s1 ++ s2) = V2.run (V2.run p s1) s2.
Proof. apply foldl_app. Qed.

Lemma V2_run_returned (p : V2.process V E) sched x :
  V2.returned p = Some x → V2.returned (V2.run p sched) = Some x.
Proof.
  revert p. induction sched as [|i sched IH]; intros p Hx; [done|].
  simpl. apply IH. destruct p; simpl in *.
  - by apply eager_step_resolved.
  - by apply pool_step_resolved.
Qed.

(** On the eager path of [src/src/all.ts] a run is the run of
    [allEager] on the settlements. *)
Lemma V1_run_eager mode ps (st : eager V E) acts :
  V1.run (V1.PEager mode ps st) acts
  = V1.PEager mode ps (eager_run mode ps st (settlements acts)).
Proof.
  revert st. induction acts as [|[i|] acts IH]; intros st; simpl; [done|..].
  - apply IH.
  - apply IH.
Qed.

Lemma V1_all_eager inp opts :
  first_is_function inp = false ∨ concurrency_of opts = Unbounded →
  V1.all inp opts
  = V1.PEager (mode_of opts) (as_promises inp)
      (V1.allEager (as_promises inp) (mode_of opts)).
Proof.
  unfold V1.all. destruct inp as [ps|[|t ts]]; simpl; [done..|].
  intros [? | ->]; done.
Qed.

Lemma V2_all_eager inp opts :
  first_is_function inp = false ∨ concurrency_of opts = Unbounded →
  V2.all inp opts
  = V2.PEager (mode_of opts) (as_promises inp)
      (V2.allEager (as_promises inp) (mode_of opts)).
Proof.
  unfold V2.all. destruct inp as [ps|[|t ts]]; simpl; [done..|].
  intros [? | ->]; done.
Qed.

Lemma V2_run_eager mode ps (st : eager V E) sched :
  V2.run (V2.PEager mode ps st) sched
  = V2.PEager mode ps (eager_run mode ps st sched).
Proof.
  revert st. induction sched as [|i sched IH]; intros st; simpl; [done|].
  apply IH.
Qed.

Lemma V2_run_lazy mode ts (st : V2.pool V E) sched :
  V2.run (V2.PLazy mode ts st) sched
  = V2.PLazy mode ts (foldl (V2.pool_step mode ts) st sched).
Proof.
  revert st. induction sched as [|i sched IH]; intros st; simpl; [done|].
  apply IH.
Qed.

(** All promises resolve to [Ok]: [allEager] in default mode resolves to
    the values in index order once every reaction has run. *)
Lemma allEager_all_ok (vs : list V) (ps : list (option (Result V E)))
    sched :
  ps = (λ v, Some (Ok v)) <$> vs →
  (∀ i, i < length vs → i ∈ sched) →
  e_resolved (eager_run Default ps (V2.allEager ps Default) sched)
  = Some (RetResult (Ok ((λ v, Some (AVal v)) <$> vs))).
Proof.
  intros Hps Hcov.
  assert (∀ i r, settles_to ps i = Some r → fails Default r = false) as Hok.
  { intros i r. rewrite Hps. unfold settles_to.
    rewrite list_lookup_fmap. destruct (vs !! i); simpl; [|done].
    by intros [= <-]. }
  pose proof (eager_clean_run Default ps sched _
                (V2_allEager_clean Default ps)
                (λ i r _, Hok i r)) as Hc.
  destruct (eager_clean_all_done _ _ _ Hc) as (rs & Hrs & ->).
  { intros i Hi.
    destruct (lookup_lt_is_Some_2 ps i Hi) as [o Ho].
    assert (∃ r, settles_to ps i = Some r) as [r Hr].
    { unfold settles_to. rewrite Ho. rewrite Hps, list_lookup_fmap in Ho.
      destruct (vs !! i); simplify_eq/=. eauto. }
    pose proof (V2_allEager_clean Default ps) as [Hl _ Hns _ _ _ _].
    eapply eager_run_covered; [done|lia|done|].
    apply Hcov. rewrite Hps, length_fmap in Hi. done. }
  do 3 f_equal. rewrite Hps in Hrs.
  assert (rs = Ok <$> vs) as ->.
  { apply (inj (fmap Some)). rewrite <-Hrs. by rewrite <-list_fmap_compose. }
  rewrite <-list_fmap_compose. done.
Qed.
End ProcessFacts.
Section FirstError.
Context {V E : Type}.
Implicit Types (inp : input V E) (opts : option Options).
Implicit Types (ts : list (thunk V E)) (ps : list (option (Result V E))).

Lemma elem_of_settlements (acts : list V1.action) i :
  i ∈ settlements acts ↔ V1.Settle i ∈ acts.
Proof.
  unfold settlements. rewrite list_elem_of_omap. split.
  - intros ([j|] & Hin & Heq); by simplify_eq.
  - intros Hin. by exists (V1.Settle i).
Qed.

Lemma settlements_app (a b : list V1.action) :
  settlements (a ++ b) = settlements a ++ settlements b.
Proof. apply omap_app. Qed.

(** [allEager], default mode: the first reaction that sees an [Err]
    resolves the aggregate with it, whatever is still pending and
    whatever settles later. *)
Lemma eager_first_error_wins ps (st : eager V E) pre i e post :
  eager_clean Default ps st →
  (∀ j r, j ∈ pre → settles_to ps j = Some r → isErr r = false) →
  e_status (eager_run Default ps st pre) !! i = Some Pending →
  settles_to ps i = Some (Err e) →
  e_resolved (eager_run Default ps st (pre ++ i :: post))
  = Some (RetResult (Err e)).
Proof.
  intros Hc Hpre Hi He.
  unfold eager_run. rewrite foldl_app. cbn [foldl].
  apply eager_run_resolved.
  assert (eager_clean Default ps (eager_run Default ps st pre)) as Hc'.
  { apply eager_clean_run; [done|]. intros j r Hj Hr.
    specialize (Hpre j r Hj Hr). by destruct r. }
  fold (eager_run Default ps st pre).
  destruct Hc' as [_ _ _ _ _ _ Hres].
  rewrite (eager_step_effective _ _ _ _ _ Hi He). simpl. rewrite Hres.
  rewrite decide_False; [done|].
  intros H0. by apply (proj1 (in_flight_zero _) H0 i).
Qed.

(** The bounded [allLazy] of the rewritten [all.ts], default mode:
    likewise. *)
Lemma pool_first_error_wins ts (st : V2.pool V E) pre i e post :
  pool_clean Default ts st →
  (∀ j r, j ∈ pre → (ts !! j) ≫= thunk_outcome = Some r →
          isErr r = false) →
  V2.status (foldl (V2.pool_step Default ts) st pre) !! i = Some Pending →
  (ts !! i) ≫= thunk_outcome = Some (Err e) →
  V2.resolved (foldl (V2.pool_step Default ts) st (pre ++ i :: post))
  = Some (RetResult (Err e)).
Proof.
  intros Hc Hpre Hi He.
  rewrite foldl_app. cbn [foldl]. apply pool_run_resolved.
  assert (pool_clean Default ts (foldl (V2.pool_step Default ts) st pre))
    as Hc'.
  { apply pool_clean_run; [done|]. intros j r Hj Hr.
    specialize (Hpre j r Hj Hr). by destruct r. }
  destruct (pool_clean_pending_remaining _ _ _ _ Hc' Hi) as (_ & _ & Hnone).
  rewrite (pool_step_effective _ _ _ _ _ Hi He).
  rewrite pool_then_fail. simpl. by rewrite Hnone.
Qed.

(** [all] of the rewritten [all.ts], any input and concurrency, default
    mode: the aggregate returns the error of the task that is first to
    settle as an error. *)
Lemma V2_first_error_wins inp opts pre i e post :
  mode_of opts = Default →
  (∀ j r, j ∈ pre → settles_to (as_promises inp) j = Some r →
          isErr r = false) →
  V2.statuses (V2.run (V2.all inp opts) pre) !! i = Some Pending →
  settles_to (as_promises inp) i = Some (Err e) →
  V2.returned (V2.run (V2.all inp opts) (pre ++ i :: post))
  = Some (RetResult (Err e)).
Proof.
  intros Hm Hpre Hi He.
  pose proof (V2_all_clean inp opts) as Hc.
  destruct (V2_all_cases inp opts) as [Heq|(ts & k & -> & Hne & Hk & Heq)];
    rewrite Heq, Hm in *; clear Heq.
  - rewrite V2_run_eager in *. simpl in *.
    by apply eager_first_error_wins.
  - rewrite V2_run_lazy in *. simpl in *.
    apply pool_first_error_wins; try done.
    + intros j r Hj Hr. apply (Hpre j r Hj). by rewrite settles_to_thunks.
    + by rewrite <-settles_to_thunks.
Qed.

(** The eager path of [src/src/all.ts] (an array of promises, or
    factories with unbounded concurrency), default mode: likewise. *)
Lemma V1_eager_first_error_wins inp opts pre i e post :
  first_is_function inp = false ∨ concurrency_of opts = Unbounded →
  mode_of opts = Default →
  (∀ j r, V1.Settle j ∈ pre → settles_to (as_promises inp) j = Some r →
          isErr r = false) →
  V1.Settle i ∉ pre → i < input_length inp →
  settles_to (as_promises inp) i = Some (Err e) →
  V1.outcome (V1.run (V1.all inp opts) (pre ++ V1.Settle i :: post))
  = Some (RetResult (Err e)).
Proof.
  intros Hpath Hm Hpre Hi Hlt He.
  rewrite V1_all_eager by done. rewrite Hm, V1_run_eager.
  cbn [V1.outcome]. rewrite settlements_app.
  change (settlements (V1.Settle i :: post)) with (i :: settlements post).
  pose proof (V1_allEager_clean Default (as_promises inp)) as Hc.
  apply eager_first_error_wins; try done.
  - intros j r Hj. apply Hpre. by apply elem_of_settlements.
  - assert (eager_clean Default (as_promises inp)
              (eager_run Default (as_promises inp)
                 (V1.allEager (as_promises inp) Default)
                 (settlements pre))) as Hc'.
    { apply eager_clean_run; [done|]. intros j r Hj Hr.
      apply elem_of_settlements in Hj.
      specialize (Hpre j r Hj Hr). by destruct r. }
    assert (length (as_promises inp) = input_length inp) as Hlen.
    { destruct inp; simpl; [done|]. by rewrite length_fmap. }
    destruct Hc' as [Hsl _ Hns Hdone _ _ _].
    destruct (lookup_lt_is_Some_2
                (e_status (eager_run Default (as_promises inp)
                   (V1.allEager (as_promises inp) Default)
                   (settlements pre))) i) as [s Hs]; [lia|].
    rewrite Hs.
    destruct s; [by destruct (Hns i)|done|].
    exfalso. apply Hi, elem_of_settlements.
    apply (eager_run_touched Default (as_promises inp) (settlements pre)
             (V1.allEager (as_promises inp) Default) i); [|done].
    destruct Hc as [Hsl0 _ Hns0 _ _ _ Hres0].
    destruct (lookup_lt_is_Some_2
                (e_status (V1.allEager (as_promises inp) Default)) i)
      as [s0 Hs0]; [lia|].
    rewrite Hs0. intros [= ->].
    pose proof (V1_allEager_initial Default (as_promises inp) i) as Hinit.
    congruence.
Qed.
End FirstError.
Section PoolIsEager.
Context {V E : Type}.
Implicit Types (ts : list (thunk V E)) (st : V2.pool V E) (est : eager V E).
Implicit Types (mode : ModeSetting) (r : Result V E) (K : Z).

Lemma pool_is_eager_step mode ts st est i :
  pool_is_eager ts st est →
  pool_is_eager ts (V2.pool_step mode ts st i)
    (eager_step mode (thunk_outcome <$> ts) est i).
Proof.
  intros [Hn Hs Hd Hr Hx].
  unfold V2.pool_step, eager_step.
  rewrite settles_to_thunks, <-Hs.
  destruct (V2.status st !! i) as [[]|]; try done.
  destruct ((ts !! i) ≫= thunk_outcome) as [r|]; [|done].
  unfold V2.pool_then, V2.settle_one, eager_then.
  destruct mode; [destruct r as [v|e]|]; simpl.
  - case_decide as Hz; rewrite Hr in Hz; simpl.
    + rewrite decide_True by done.
      split; simpl; by rewrite ?Hs, ?Hd, ?Hr, ?Hx.
    + rewrite decide_False by done.
      rewrite runNext_skip by (right; simpl; lia).
      split; simpl; by rewrite ?Hs, ?Hd, ?Hr, ?Hx.
  - split; simpl; by rewrite ?Hs, ?Hd, ?Hr, ?Hx.
  - case_decide as Hz; rewrite Hr in Hz; simpl.
    + rewrite decide_True by done.
      split; simpl; by rewrite ?Hs, ?Hd, ?Hr, ?Hx.
    + rewrite decide_False by done.
      rewrite runNext_skip by (right; simpl; lia).
      split; simpl; by rewrite ?Hs, ?Hd, ?Hr, ?Hx.
Qed.

Lemma pool_is_eager_run mode ts sched st est :
  pool_is_eager ts st est →
  pool_is_eager ts (foldl (V2.pool_step mode ts) st sched)
    (eager_run mode (thunk_outcome <$> ts) est sched).
Proof.
  revert st est. induction sched as [|i sched IH]; intros st est H0; [done|].
  simpl. by apply IH, pool_is_eager_step.
Qed.

Lemma pool_is_eager_init mode ts K :
  length ts ≠ 0 → (Z.of_nat (length ts) ≤ K)%Z →
  pool_is_eager ts
    (Nat.iter (poolSize K (length ts)) (V2.runNext (length ts))
       (V2.pool_init (length ts)))
    (V2.allEager (thunk_outcome <$> ts) mode).
Proof.
  intros Hn HK.
  assert (poolSize K (length ts) = length ts) as -> by (unfold poolSize; lia).
  rewrite pool_init_iter by done.
  unfold V2.allEager. rewrite length_fmap, decide_False by done.
  rewrite Nat.sub_diag. simpl. rewrite app_nil_r.
  destruct mode; split; simpl; try done.
  by rewrite decide_False.
Qed.

Lemma pool_step_nil mode ts st i :
  V2.status st = [] → V2.pool_step mode ts st i = st.
Proof. intros Hs. unfold V2.pool_step. by rewrite Hs. Qed.

Lemma eager_step_nil mode ps est i :
  e_status est = [] → eager_step mode ps est i = est.
Proof. intros Hs. unfold eager_step. by rewrite Hs. Qed.

Lemma pool_run_nil mode ts sched st :
  V2.status st = [] → foldl (V2.pool_step mode ts) st sched = st.
Proof.
  intros Hs. induction sched as [|i sched IH]; [done|].
  simpl. by rewrite pool_step_nil.
Qed.

Lemma eager_run_nil mode ps sched est :
  e_status est = [] → eager_run mode ps est sched = est.
Proof.
  intros Hs. induction sched as [|i sched IH]; [done|].
  simpl. by rewrite eager_step_nil.
Qed.

(** In the rewritten [all.ts], a concurrency of at least the number of
    tasks is unbounded concurrency: against every settlement order the
    two calls return the same and the same tasks are in flight. *)
Lemma V2_wide_pool_is_unbounded ts mode K sched :
  (Z.of_nat (length ts) ≤ K)%Z →
  V2.returned (V2.run (V2.allLazy ts mode (Num K)) sched)
    = V2.returned (V2.run (V2.allLazy ts mode Unbounded) sched) ∧
  V2.statuses (V2.run (V2.allLazy ts mode (Num K)) sched)
    = V2.statuses (V2.run (V2.allLazy ts mode Unbounded) sched).
Proof.
  intros HK. unfold V2.allLazy. case_decide as Hn.
  - rewrite V2_run_lazy, V2_run_eager. simpl.
    rewrite pool_run_nil by done.
    unfold V2.allEager. rewrite length_fmap, decide_True by done.
    rewrite eager_run_nil by done. by destruct mode.
  - rewrite V2_run_lazy, V2_run_eager. cbn [V2.returned V2.statuses].
    destruct (pool_is_eager_run mode ts sched _ _
                (pool_is_eager_init mode ts K Hn HK)) as [_ Hs _ _ Hx].
    unfold poolSize in *. by rewrite Hs, Hx.
Qed.
End PoolIsEager.
Section PoolProgress.
Context {V E : Type}.
Implicit Types (ts : list (thunk V E)) (st : V2.pool V E) (est : eager V E).
Implicit Types (mode : ModeSetting) (r : Result V E) (K : Z).

Lemma in_flight_pos_pending status :
  in_flight status ≠ 0 → ∃ i, status !! i = Some Pending.
Proof.
  unfold in_flight. intros Hne.
  destruct (filter (λ s, s = Pending) status) as [|s l] eqn:Hf; [done|].
  assert (s ∈ filter (λ s, s = Pending) status) as Hin by (rewrite Hf; left).
  apply list_elem_of_filter in Hin as [-> Hin].
  by apply list_elem_of_lookup in Hin.
Qed.

Lemma in_flight_unique status a b :
  in_flight status ≤ 1 →
  status !! a = Some Pending → status !! b = Some Pending → a = b.
Proof.
  intros Hle Ha Hb. destruct (decide (a = b)) as [|Hne]; [done|].
  pose proof (in_flight_settle _ _ Ha) as Hdec.
  assert (in_flight (<[a:=Done]> status) ≠ 0); [|lia].
  intros H0. apply (proj1 (in_flight_zero _) H0 b).
  by rewrite list_lookup_insert_ne.
Qed.

Lemma settle_one_remaining mode n st :
  V2.remaining (V2.settle_one mode n st) = (V2.remaining st - 1)%Z.
Proof.
  unfold V2.settle_one. case_decide; [done|].
  by destruct (runNext_same n
    {| V2.status := V2.status st; V2.results := V2.results st;
       V2.nextIndex := V2.nextIndex st;
       V2.remaining := (V2.remaining st - 1)%Z;
       V2.done := V2.done st; V2.resolved := V2.resolved st |})
    as (_ & -> & _).
Qed.

(** While a clean pool of capacity at least one has not resolved, some
    task is in flight. *)
Lemma pool_progress mode K ts st :
  (1 ≤ K)%Z → pool_clean mode ts st → pool_bounded K ts st →
  (V2.remaining st ≠ 0)%Z → ∃ i, V2.status st !! i = Some Pending.
Proof.
  intros HK [Hs Hrl Hd Hnd Hrem Hres Hflag] [_ Hfl Hfull _] Hpos.
  apply in_flight_pos_pending.
  rewrite bool_decide_eq_false_2 in Hflag by done.
  destruct (Hfull Hflag) as [?|HN]; lia.
Qed.

(** If every task settles, a pool of capacity at least one can always be
    run until the aggregate resolves. *)
Lemma pool_completes mode K ts st :
  (1 ≤ K)%Z → pool_clean mode ts st → pool_bounded K ts st →
  (∀ i, i < length ts → is_Some ((ts !! i) ≫= thunk_outcome)) →
  ∃ more, is_Some (V2.resolved (foldl (V2.pool_step mode ts) st more)).
Proof.
  intros HK Hc Hb Hall.
  remember (Z.to_nat (V2.remaining st)) as m eqn:Hm.
  revert st Hc Hb Hm. induction m as [m IH] using lt_wf_ind.
  intros st Hc Hb Hm.
  destruct (decide (V2.remaining st = 0%Z)) as [Hz|Hz].
  { exists []. simpl. destruct Hc as [_ _ _ _ _ -> _].
    by rewrite decide_True. }
  destruct (pool_progress mode K ts st HK Hc Hb Hz) as [i Hi].
  assert (i < length ts) as Hlt.
  { destruct Hc as [[<- _ _ _] _ _ _ _ _ _]. by eapply lookup_lt_Some. }
  destruct (Hall i Hlt) as [r Hr].
  destruct (fails mode r) eqn:Hf.
  - exists [i]. simpl. rewrite (pool_step_effective _ _ _ _ _ Hi Hr).
    destruct mode, r; try done. simpl. by destruct (V2.resolved st).
  - assert (pool_clean mode ts (V2.pool_step mode ts st i)) as Hc'.
    { apply pool_clean_step; [done|]. intros r' Hr'. congruence. }
    assert (V2.remaining (V2.pool_step mode ts st i)
            = (V2.remaining st - 1)%Z) as Hrem'.
    { rewrite (pool_step_effective _ _ _ _ _ Hi Hr).
      destruct (pool_then_ok mode (length ts) i r (V2.pool_mark i st) Hf)
        as (x & _ & ->).
      by rewrite settle_one_remaining. }
    assert (0 < V2.remaining st)%Z as Hpos.
    { destruct Hc as [_ _ _ _ -> _ _].
      pose proof (in_flight_settle _ _ Hi). lia. }
    destruct (IH (Z.to_nat (V2.remaining (V2.pool_step mode ts st i))))
      with (st := V2.pool_step mode ts st i) as [more Hmore];
      [lia|done|by apply pool_step_bounded|done|].
    by exists (i :: more).
Qed.

Lemma eager_completes mode ps est :
  eager_clean mode ps est →
  (∀ i, i < length ps → is_Some (settles_to ps i)) →
  ∃ more, is_Some (e_resolved (eager_run mode ps est more)).
Proof.
  intros Hc Hall.
  remember (in_flight (e_status est)) as m eqn:Hm.
  revert est Hc Hm. induction m as [m IH] using lt_wf_ind.
  intros est Hc Hm.
  destruct (decide (in_flight (e_status est) = 0)) as [Hz|Hz].
  { exists []. simpl. destruct Hc as [_ _ _ _ _ _ ->].
    by rewrite decide_True. }
  destruct (in_flight_pos_pending _ Hz) as [i Hi].
  assert (i < length ps) as Hlt.
  { destruct Hc as [<- _ _ _ _ _ _]. by eapply lookup_lt_Some. }
  destruct (Hall i Hlt) as [r Hr].
  pose proof (in_flight_settle _ _ Hi) as Hdec.
  destruct (fails mode r) eqn:Hf.
  - exists [i]. simpl. rewrite (eager_step_effective _ _ _ _ _ Hi Hr).
    destruct mode, r; try done. simpl. by destruct (e_resolved est).
  - assert (eager_clean mode ps (eager_step mode ps est i)) as Hc'.
    { apply eager_clean_step; [done|]. intros r' Hr'. congruence. }
    destruct (IH (in_flight (e_status (eager_step mode ps est i))))
      with (est := eager_step mode ps est i) as [more Hmore]; [|done..|].
    { rewrite eager_step_status, Hi, Hr. lia. }
    by exists (i :: more).
Qed.

(** A run stays clean until the aggregate has resolved. *)
Lemma pool_run_clean_or_resolved mode ts sched st :
  pool_clean mode ts st →
  pool_clean mode ts (foldl (V2.pool_step mode ts) st sched) ∨
  is_Some (V2.resolved (foldl (V2.pool_step mode ts) st sched)).
Proof.
  revert st. induction sched as [|i sched IH]; intros st Hc; [by left|].
  simpl.
  destruct (pool_step_cases mode ts st i) as [[Heq _]|(r & Hi & Hr & Heq)].
  { rewrite Heq. by apply IH. }
  destruct (fails mode r) eqn:Hf.
  - right. destruct (pool_clean_pending_remaining _ _ _ _ Hc Hi)
      as (_ & _ & Hnone).
    destruct mode, r; try done.
    eexists. apply pool_run_resolved. rewrite Heq.
    simpl. rewrite Hnone. reflexivity.
  - apply IH, pool_clean_step; [done|]. intros r' Hr'. congruence.
Qed.

Lemma eager_run_clean_or_resolved mode ps sched est :
  eager_clean mode ps est →
  eager_clean mode ps (eager_run mode ps est sched) ∨
  is_Some (e_resolved (eager_run mode ps est sched)).
Proof.
  revert est. induction sched as [|i sched IH]; intros est Hc; [by left|].
  simpl.
  destruct (eager_step_cases mode ps est i) as [Heq|(r & Hi & Hr & Heq)].
  { rewrite Heq. by apply IH. }
  destruct (fails mode r) eqn:Hf.
  - right. destruct Hc as [_ _ _ _ _ _ Hres].
    destruct mode, r; try done.
    eexists. apply eager_run_resolved. rewrite Heq.
    simpl. rewrite Hres.
    rewrite decide_False; [reflexivity|].
    intros H0. by apply (proj1 (in_flight_zero _) H0 i).
  - apply IH, eager_clean_step; [done|]. intros r' Hr'. congruence.
Qed.
End PoolProgress.
Section V2Support.
Context {V E : Type}.
Implicit Types (inp : input V E) (opts : option Options).
Implicit Types (ts : list (thunk V E)) (ps : list (option (Result V E))).
Implicit Types (p : V2.process V E).

Lemma as_promises_length inp : length (as_promises inp) = input_length inp.
Proof. destruct inp; simpl; [done|]. by rewrite length_fmap. Qed.

Lemma fails_Settled (r : Result V E) : fails Settled r = false.
Proof. done. Qed.

Lemma cell_Settled (rs : list (Result V E)) :
  cell Settled <$> rs = (λ r, Some (ARes r)) <$> rs.
Proof. done. Qed.

Lemma V2_run_clean_settled inp opts sched :
  mode_of opts = Settled →
  process_clean (V2.run (V2.all inp opts) sched).
Proof.
  intros Hm. pose proof (V2_all_clean inp opts) as Hc.
  destruct (V2_all_cases inp opts) as [Heq|(ts & k & -> & Hne & Hk & Heq)];
    rewrite Heq, Hm in *; clear Heq.
  - rewrite V2_run_eager. simpl in *. by apply eager_clean_run.
  - rewrite V2_run_lazy. simpl in *. by apply pool_clean_run.
Qed.

Lemma eager_settled_spec ps (est : eager V E) :
  eager_clean Settled ps est →
  (∀ x, e_resolved est = Some x →
     (∀ i, i < length ps → e_status est !! i = Some Done) ∧
     ∃ rs, ps = Some <$> rs ∧ x = RetArray ((λ r, Some (ARes r)) <$> rs)) ∧
  ((∀ i, i < length ps → e_status est !! i = Some Done) →
   ∃ rs, ps = Some <$> rs ∧
         e_resolved est = Some (RetArray ((λ r, Some (ARes r)) <$> rs))).
Proof.
  intros Hc. split.
  - intros x Hx. pose proof (eager_clean_resolved _ _ _ _ Hc Hx) as Hall.
    split; [done|].
    destruct (eager_clean_all_done _ _ _ Hc Hall) as (rs & Hrs & Hres).
    exists rs. split; [done|]. rewrite Hx in Hres. by simplify_eq/=.
  - intros Hall.
    destruct (eager_clean_all_done _ _ _ Hc Hall) as (rs & Hrs & Hres).
    by exists rs.
Qed.

Lemma pool_settled_spec ts (st : V2.pool V E) :
  pool_clean Settled ts st →
  (∀ x, V2.resolved st = Some x →
     (∀ i, i < length ts → V2.status st !! i = Some Done) ∧
     ∃ rs, thunk_outcome <$> ts = Some <$> rs ∧
           x = RetArray ((λ r, Some (ARes r)) <$> rs)) ∧
  ((∀ i, i < length ts → V2.status st !! i = Some Done) →
   ∃ rs, thunk_outcome <$> ts = Some <$> rs ∧
         V2.resolved st = Some (RetArray ((λ r, Some (ARes r)) <$> rs))).
Proof.
  intros Hc. split.
  - intros x Hx. pose proof (pool_clean_resolved _ _ _ _ Hc Hx) as Hall.
    split; [done|].
    destruct (pool_clean_all_done _ _ _ Hc Hall) as (rs & Hrs & Hres).
    exists rs. split; [done|]. rewrite Hx in Hres. by simplify_eq/=.
  - intros Hall.
    destruct (pool_clean_all_done _ _ _ Hc Hall) as (rs & Hrs & Hres).
    by exists rs.
Qed.

(** Settled mode in the rewritten [all.ts]: the aggregate has returned
    exactly when every task is done, and what it returns is the array of
    the tasks' Results in index order. *)
Lemma V2_settled_waits_for_all inp opts sched :
  mode_of opts = Settled →
  (∀ x, V2.returned (V2.run (V2.all inp opts) sched) = Some x →
     (∀ i, i < input_length inp →
           V2.statuses (V2.run (V2.all inp opts) sched) !! i = Some Done) ∧
     ∃ rs, as_promises inp = Some <$> rs ∧
           x = RetArray ((λ r, Some (ARes r)) <$> rs)) ∧
  ((∀ i, i < input_length inp →
         V2.statuses (V2.run (V2.all inp opts) sched) !! i = Some Done) →
   ∃ rs, as_promises inp = Some <$> rs ∧
         V2.returned (V2.run (V2.all inp opts) sched)
         = Some (RetArray ((λ r, Some (ARes r)) <$> rs))).
Proof.
  intros Hm. pose proof (V2_run_clean_settled inp opts sched Hm) as Hc.
  rewrite <-as_promises_length.
  destruct (V2_all_cases inp opts) as [Heq|(ts & k & -> & Hne & Hk & Heq)];
    rewrite Heq, Hm in *; clear Heq.
  - rewrite V2_run_eager in *. by apply eager_settled_spec.
  - rewrite V2_run_lazy in *. cbn [as_promises]. rewrite length_fmap.
    by apply pool_settled_spec.
Qed.

(** If every task settles and the concurrency is unbounded or at least
    one, every run of [all] can be continued until the aggregate has
    returned. *)
Lemma V2_completes inp opts sched :
  match concurrency_of opts with Unbounded => True | Num k => (1 ≤ k)%Z end →
  (∀ i, i < input_length inp → is_Some (settles_to (as_promises inp) i)) →
  ∃ more,
    is_Some (V2.returned (V2.run (V2.all inp opts) (sched ++ more))).
Proof.
  intros HK Hall. rewrite <-as_promises_length in Hall.
  destruct (V2_all_cases inp opts) as [Heq|(ts & k & -> & Hne & Hk & Heq)];
    rewrite Heq; clear Heq.
  - destruct (eager_run_clean_or_resolved (mode_of opts) (as_promises inp)
                sched _ (V2_allEager_clean _ _)) as [Hc|Hres].
    + destruct (eager_completes _ _ _ Hc Hall) as [more Hmore].
      exists more. rewrite V2_run_app, !V2_run_eager. done.
    + exists []. by rewrite app_nil_r, V2_run_eager.
  - rewrite Hk in HK. assert (length ts ≠ 0) as Hn by (by destruct ts).
    destruct (pool_run_clean_or_resolved (mode_of opts) ts sched _
                (pool_started_clean (mode_of opts) k ts Hn)) as [Hc|Hres].
    + destruct (pool_completes (mode_of opts) k ts _ HK Hc) as [more Hmore].
      * apply pool_run_bounded, pool_started_bounded. lia.
      * intros i Hi. rewrite <-settles_to_thunks. apply Hall.
        cbn [as_promises]. by rewrite length_fmap.
      * exists more. rewrite V2_run_app, !V2_run_lazy. done.
    + exists []. by rewrite app_nil_r, V2_run_lazy.
Qed.
End V2Support.
Section V2Bound.
Context {V E : Type}.
Implicit Types (inp : input V E) (opts : option Options).
Implicit Types (ts : list (thunk V E)) (ps : list (option (Result V E))).
Implicit Types (st : V2.pool V E).

Lemma V2_all_thunks_cases ts opts K :
  concurrency_of opts = Num K →
  (ts = [] ∧
   V2.all (Thunks ts) opts
   = V2.PEager (mode_of opts) [] (V2.allEager [] (mode_of opts))) ∨
  (length ts ≠ 0 ∧
   V2.all (Thunks ts) opts
   = V2.PLazy (mode_of opts) ts
       (Nat.iter (poolSize K (length ts)) (V2.runNext (length ts))
          (V2.pool_init (length ts)))).
Proof.
  intros HK. destruct ts as [|t ts]; [by left|]. right. split; [done|].
  unfold V2.all, V2.allLazy. cbn [first_is_function as_thunks].
  rewrite HK. by rewrite decide_False.
Qed.

(** The bounded pool of the rewritten [all.ts]: at most [K] tasks are in
    flight at any time; [min K N] tasks are started by the call; and as
    long as the aggregate has not returned, [K] tasks are in flight or no
    task is left to start. *)
Lemma V2_pool_bound ts opts K sched :
  concurrency_of opts = Num K → (1 ≤ K)%Z →
  (Z.of_nat (in_flight (V2.statuses (V2.run (V2.all (Thunks ts) opts) sched)))
     ≤ K)%Z ∧
  started (V2.statuses (V2.all (Thunks ts) opts))
    = Z.to_nat (Z.min K (Z.of_nat (length ts))) ∧
  (V2.returned (V2.run (V2.all (Thunks ts) opts) sched) = None →
   Z.of_nat (in_flight (V2.statuses (V2.run (V2.all (Thunks ts) opts) sched)))
     = K ∨
   ∀ i, V2.statuses (V2.run (V2.all (Thunks ts) opts) sched) !! i
        ≠ Some NotStarted).
Proof.
  intros HK H1.
  destruct (V2_all_thunks_cases ts opts K HK) as [[-> Heq]|[Hn Heq]];
    rewrite Heq; clear Heq.
  - rewrite V2_run_eager. unfold V2.allEager.
    rewrite decide_True by done. rewrite eager_run_nil by done.
    cbn [V2.statuses eager_returned e_status replicate length].
    change (in_flight []) with 0. change (started []) with 0.
    split_and!; [lia|lia|].
    intros _. right. by intros i.
  - rewrite V2_run_lazy. cbn [V2.statuses V2.returned].
    rewrite pool_started_count.
    split_and!; [|done|].
    + eapply pool_run_bounded, pool_started_bounded. lia.
    + intros Hnone.
      destruct (pool_run_bounded (mode_of opts) K ts sched _
                  (pool_started_bounded K ts ltac:(lia)))
        as [[Hlen Hnext Hst Hun] Hfl Hfull Hflag].
      destruct (Hfull (Hflag Hnone)) as [?|HN]; [by left|right].
      intros i. destruct (decide (i < length ts)).
      * apply Hst. lia.
      * rewrite lookup_ge_None_2; [done|lia].
Qed.

(** After the aggregate is done no factory is called any more. *)
Lemma pool_step_done_next mode ts st i :
  V2.done st = true →
  V2.done (V2.pool_step mode ts st i) = true ∧
  V2.nextIndex (V2.pool_step mode ts st i) = V2.nextIndex st.
Proof.
  intros Hd.
  destruct (pool_step_cases mode ts st i) as [[-> _]|(r & Hi & Hr & ->)];
    [done|].
  unfold V2.pool_then, V2.settle_one.
  destruct mode; [destruct r|]; simpl; try done.
  all: case_decide; simpl; try done.
  all: by rewrite runNext_skip by (by left).
Qed.

(** A callback calls at most one factory, the next one. *)
Lemma pool_step_next mode ts st i :
  pool_shape ts st →
  V2.nextIndex (V2.pool_step mode ts st i) = V2.nextIndex st ∨
  (V2.nextIndex (V2.pool_step mode ts st i) = S (V2.nextIndex st) ∧
   V2.done (V2.pool_step mode ts st i) = false ∧
   V2.status (V2.pool_step mode ts st i) !! V2.nextIndex st = Some Pending).
Proof.
  intros Hs.
  destruct (pool_step_cases mode ts st i) as [[-> _]|(r & Hi & Hr & ->)];
    [by left|].
  pose proof (pool_mark_shape _ _ _ Hs Hi) as [Hlen _ _ _].
  simpl in Hlen.
  assert (∀ st', V2.status st' = <[i:=Done]> (V2.status st) →
            V2.nextIndex st' = V2.nextIndex st →
            V2.nextIndex (V2.runNext (length ts) st') = V2.nextIndex st ∨
            V2.nextIndex (V2.runNext (length ts) st') = S (V2.nextIndex st) ∧
            V2.done (V2.runNext (length ts) st') = false ∧
            V2.status (V2.runNext (length ts) st') !! V2.nextIndex st
            = Some Pending) as Hrun.
  { intros st' Hst' Hn'. unfold V2.runNext. case_match eqn:Hc; [by left|].
    apply orb_false_iff in Hc as [Hd Hc%bool_decide_eq_false].
    right. simpl. rewrite Hn'. split_and!; [done..|].
    apply list_lookup_insert_eq. rewrite Hst'. lia. }
  unfold V2.pool_then, V2.settle_one.
  destruct mode; [destruct r|]; simpl; try by left.
  all: case_decide; simpl; [by left|].
  all: by apply Hrun.
Qed.
End V2Bound.
Section V2SingleError.
Context {V E : Type}.
Implicit Types (inp : input V E) (opts : option Options).
Implicit Types (ts : list (thunk V E)) (ps : list (option (Result V E))).
Implicit Types (st : V2.pool V E) (est : eager V E).

Lemma pool_step_Done_inv mode ts st j i :
  V2.status (V2.pool_step mode ts st j) !! i = Some Done →
  i = j ∨ V2.status st !! i = Some Done.
Proof.
  intros Hd.
  destruct (pool_step_cases mode ts st j) as [[Heq _]|(r & Hj & Hr & Heq)];
    rewrite Heq in Hd; [by right|].
  destruct (decide (i = j)) as [|Hne]; [by left|right].
  assert (∀ st', V2.status st' = <[j:=Done]> (V2.status st) →
            V2.status (V2.runNext (length ts) st') !! i = Some Done →
            V2.status st !! i = Some Done) as Hrun.
  { intros st' Hst'. unfold V2.runNext. case_match.
    - rewrite Hst'. by rewrite list_lookup_insert_ne.
    - simpl. destruct (decide (V2.nextIndex st' = i)) as [<-|].
      + intros Hd'.
        apply list_lookup_insert_Some in Hd' as [[_ [? _]]|[? _]]; done.
      + rewrite list_lookup_insert_ne by done. rewrite Hst'.
        by rewrite list_lookup_insert_ne. }
  revert Hd. unfold V2.pool_then, V2.settle_one.
  destruct mode; [destruct r|]; simpl.
  2: by rewrite list_lookup_insert_ne.
  all: case_decide; simpl; [by rewrite list_lookup_insert_ne|].
  all: by apply Hrun.
Qed.

Lemma eager_step_Done_inv mode ps est j i :
  e_status (eager_step mode ps est j) !! i = Some Done →
  i = j ∨ e_status est !! i = Some Done.
Proof.
  rewrite eager_step_status. intros Hd.
  destruct (e_status est !! j) as [[]|] eqn:Hj, (settles_to ps j);
    try by right.
  destruct (decide (i = j)) as [|Hne]; [by left|right].
  by rewrite list_lookup_insert_ne in Hd.
Qed.

(** Exactly one task fails: once its callback has run the aggregate has
    returned its error. *)
Lemma pool_single_error ts i e sched st :
  pool_clean Default ts st →
  (ts !! i) ≫= thunk_outcome = Some (Err e) →
  (∀ j r, j ≠ i → (ts !! j) ≫= thunk_outcome = Some r → isErr r = false) →
  V2.status st !! i ≠ Some Done →
  (pool_clean Default ts (foldl (V2.pool_step Default ts) st sched) ∧
   V2.status (foldl (V2.pool_step Default ts) st sched) !! i ≠ Some Done) ∨
  V2.resolved (foldl (V2.pool_step Default ts) st sched)
  = Some (RetResult (Err e)).
Proof.
  intros Hc He Hok. revert st Hc.
  induction sched as [|j sched IH]; intros st Hc Hi; [by left|].
  simpl. destruct (decide (j = i)) as [->|Hne].
  - destruct (pool_step_cases Default ts st i)
      as [[Heq _]|(r & Hp & Hr & Heq)].
    + rewrite Heq. by apply IH.
    + right. apply pool_run_resolved. rewrite Heq.
      destruct (pool_clean_pending_remaining _ _ _ _ Hc Hp)
        as (_ & _ & Hnone).
      rewrite He in Hr. simplify_eq. simpl. by rewrite Hnone.
  - apply IH.
    + apply pool_clean_step; [done|]. intros r Hr.
      specialize (Hok j r Hne Hr). by destruct r.
    + intros Hd. apply pool_step_Done_inv in Hd as [?|?]; done.
Qed.

Lemma eager_single_error ps i e sched est :
  eager_clean Default ps est →
  settles_to ps i = Some (Err e) →
  (∀ j r, j ≠ i → settles_to ps j = Some r → isErr r = false) →
  e_status est !! i ≠ Some Done →
  (eager_clean Default ps (eager_run Default ps est sched) ∧
   e_status (eager_run Default ps est sched) !! i ≠ Some Done) ∨
  e_resolved (eager_run Default ps est sched) = Some (RetResult (Err e)).
Proof.
  intros Hc He Hok. revert est Hc.
  induction sched as [|j sched IH]; intros est Hc Hi; [by left|].
  simpl. destruct (decide (j = i)) as [->|Hne].
  - destruct (eager_step_cases Default ps est i)
      as [Heq|(r & Hp & Hr & Heq)].
    + rewrite Heq. by apply IH.
    + right. apply eager_run_resolved. rewrite Heq.
      rewrite He in Hr. simplify_eq. simpl.
      destruct Hc as [_ _ _ _ _ _ ->].
      rewrite decide_False; [done|].
      intros H0. by apply (proj1 (in_flight_zero _) H0 i).
  - apply IH.
    + apply eager_clean_step; [done|]. intros r Hr.
      specialize (Hok j r Hne Hr). by destruct r.
    + intros Hd. apply eager_step_Done_inv in Hd as [?|?]; done.
Qed.

Lemma pool_started_not_Done K n i :
  V2.status (Nat.iter (poolSize K n) (V2.runNext n) (@V2.pool_init V E n)) !! i
  ≠ Some Done.
Proof.
  rewrite pool_init_iter by apply poolSize_le. simpl. intros Hd.
  apply list_elem_of_lookup_2, elem_of_app in Hd as [Hd|Hd];
    by apply elem_of_replicate in Hd as [? _].
Qed.

Lemma V2_allEager_not_Done mode ps i :
  e_status (V2.allEager ps mode) !! i ≠ Some Done.
Proof. rewrite <-allEager_V1_V2. apply V1_allEager_initial. Qed.

(** [all] of the rewritten [all.ts], default mode, exactly the task [i]
    resolves to an error: once the callback of task [i] has run the
    aggregate has returned that error. *)
Lemma V2_single_error_returned inp opts i e sched :
  mode_of opts = Default →
  settles_to (as_promises inp) i = Some (Err e) →
  (∀ j r, j ≠ i → settles_to (as_promises inp) j = Some r →
          isErr r = false) →
  (V2.statuses (V2.run (V2.all inp opts) sched) !! i = Some Done →
   V2.returned (V2.run (V2.all inp opts) sched)
   = Some (RetResult (Err e))) ∧
  (is_Some (V2.returned (V2.run (V2.all inp opts) sched)) →
   V2.returned (V2.run (V2.all inp opts) sched)
   = Some (RetResult (Err e))).
Proof.
  intros Hm He Hok.
  pose proof (V2_all_clean inp opts) as Hc.
  assert (i < length (as_promises inp)) as Hlt.
  { unfold settles_to in He. apply lookup_lt_is_Some.
    destruct (as_promises inp !! i); [eauto|done]. }
  destruct (V2_all_cases inp opts) as [Heq|(ts & k & -> & Hne & Hk & Heq)];
    rewrite Heq, Hm in *; clear Heq.
  - rewrite V2_run_eager. cbn [V2.statuses V2.returned].
    destruct (eager_single_error (as_promises inp) i e sched _ Hc He Hok
                (V2_allEager_not_Done _ _ _)) as [[Hc' Hnd]|Hres].
    + split; [done|]. intros [x Hx].
      destruct Hnd. by eapply eager_clean_resolved.
    + by split.
  - rewrite V2_run_lazy. cbn [V2.statuses V2.returned].
    cbn [as_promises] in *. rewrite length_fmap in Hlt.
    destruct (pool_single_error ts i e sched _ Hc) as [[Hc' Hnd]|Hres].
    + by rewrite <-settles_to_thunks.
    + intros j r Hj Hr. apply (Hok j r Hj). by rewrite settles_to_thunks.
    + apply pool_started_not_Done.
    + split; [done|]. intros [x Hx].
      destruct Hnd. by eapply pool_clean_resolved.
    + by split.
Qed.

(** With concurrency 1 the tasks after a failing one are never
    started. *)
Lemma pool_sequential_step ts i e st j :
  pool_bounded 1 ts st →
  (ts !! i) ≫= thunk_outcome = Some (Err e) →
  V2.nextIndex st ≤ S i →
  (V2.nextIndex st = S i →
   V2.status st !! i = Some Pending ∨ V2.done st = true) →
  V2.nextIndex (V2.pool_step Default ts st j) ≤ S i ∧
  (V2.nextIndex (V2.pool_step Default ts st j) = S i →
   V2.status (V2.pool_step Default ts st j) !! i = Some Pending ∨
   V2.done (V2.pool_step Default ts st j) = true).
Proof.
  intros [Hs Hfl _ _] He Hle Hat.
  destruct (decide (V2.nextIndex st = S i)) as [Hn|Hn].
  - destruct (Hat Hn) as [Hp|Hd].
    + destruct (pool_step_cases Default ts st j)
        as [[-> _]|(r & Hj & Hr & ->)]; [split; [lia|by left]|].
      assert (j = i) as -> by (eapply in_flight_unique; [|done..]; lia).
      rewrite He in Hr. simplify_eq. simpl. split; [lia|by right].
    + destruct (pool_step_done_next Default ts st j Hd) as [-> ->].
      split; [lia|by right].
  - destruct (pool_step_next Default ts st j Hs) as [->|(-> & _ & Hp)].
    + split; [lia|]. intros ?. lia.
    + split; [lia|]. intros [= Heq]. rewrite Heq in Hp. by left.
Qed.

Lemma V2_sequential_stops ts opts i e sched j :
  mode_of opts = Default →
  concurrency_of opts = Num 1 →
  (ts !! i) ≫= thunk_outcome = Some (Err e) →
  i < j → j < length ts →
  V2.statuses (V2.run (V2.all (Thunks ts) opts) sched) !! j
  = Some NotStarted.
Proof.
  intros Hm HK He Hij Hj.
  destruct (V2_all_thunks_cases ts opts 1 HK) as [[-> Heq]|[Hn Heq]];
    [simpl in Hj; lia|].
  rewrite Heq, Hm, V2_run_lazy. cbn [V2.statuses]. clear Heq.
  assert (poolSize 1 (length ts) = 1) as Hps by (unfold poolSize; lia).
  assert (∀ st,
            pool_bounded 1 ts st →
            V2.nextIndex st ≤ S i →
            (V2.nextIndex st = S i →
             V2.status st !! i = Some Pending ∨ V2.done st = true) →
            V2.nextIndex (foldl (V2.pool_step Default ts) st sched) ≤ S i ∧
            pool_shape ts (foldl (V2.pool_step Default ts) st sched))
    as Hrun.
  { induction sched as [|k sched IH]; intros st Hb Hle Hat.
    { split; [done|by destruct Hb]. }
    simpl.
    destruct (pool_sequential_step ts i e st k Hb He Hle Hat) as [Hle' Hat'].
    apply IH; [by apply pool_step_bounded|done..]. }
  destruct (Hrun (Nat.iter (poolSize 1 (length ts)) (V2.runNext (length ts))
                    (V2.pool_init (length ts)))) as [Hle [_ _ _ Hun]].
  - by apply pool_started_bounded.
  - rewrite pool_init_iter by apply poolSize_le. simpl. lia.
  - rewrite pool_init_iter by apply poolSize_le. simpl. rewrite Hps.
    intros [= <-]. left. by rewrite lookup_app_l by (simpl; lia).
  - apply Hun; lia.
Qed.
End V2SingleError.
Section LoopFacts.
Context {V E : Type}.
Implicit Types (ts : list (thunk V E)) (st : V1.loop V E) (K : Z).
Implicit Types (mode : ModeSetting) (r : Result V E).

Lemma drop_cons_inv {A} (l : list A) n x rest :
  drop n l = x :: rest →
  l !! n = Some x ∧ drop (S n) l = rest ∧ n < length l.
Proof.
  revert n. induction l as [|y l IH]; intros [|n] Hd; simplify_eq/=.
  - split_and!; [done| |lia]. by rewrite drop_0.
  - destruct (IH n Hd) as (? & ? & ?). split_and!; [done..|lia].
Qed.

Lemma start_inv K ts st t rest :
  loop_inv K ts st → V1.queue st = t :: rest →
  (Z.of_nat (length (V1.executing st)) < K)%Z →
  loop_inv K ts (V1.start t rest st).
Proof.
  intros [Hidx Hq Hb Hlt Hsz Hpend Hful Hjobs] Hqueue Hsize.
  rewrite Hqueue in Hq. symmetry in Hq.
  apply drop_cons_inv in Hq as (Ht & Hrest & Hn).
  split; simpl.
  - rewrite length_app. simpl. lia.
  - done.
  - lia.
  - intros i Hi. apply elem_of_app in Hi as [Hi|Hi].
    + apply Hlt in Hi. lia.
    + apply list_elem_of_singleton in Hi. lia.
  - rewrite length_app. simpl. lia.
  - intros i rs Hi. apply elem_of_app.
    destruct (decide (i < length (V1.promises st))) as [Hl|Hl].
    + rewrite lookup_app_l in Hi by done. left. by eapply Hpend.
    + right. apply list_elem_of_singleton.
      apply lookup_lt_Some in Hi. rewrite length_app in Hi. simpl in Hi. lia.
  - intros i r Hi.
    destruct (decide (i < length (V1.promises st))) as [Hl|Hl].
    + rewrite lookup_app_l in Hi by done. by eapply Hful.
    + assert (i = V1.index st) as ->.
      { apply lookup_lt_Some in Hi. rewrite length_app in Hi.
        simpl in Hi. lia. }
      rewrite Hidx, lookup_app_r, Nat.sub_diag in Hi by lia.
      rewrite Ht. destruct t; by simplify_eq/=.
  - intros rc i r Hi. apply elem_of_app in Hi as [Hi|Hi].
    + rewrite lookup_app_l; [by eapply Hjobs|].
      eapply lookup_lt_Some, Hjobs, Hi.
    + destruct t as [r'|o]; [|by apply not_elem_of_nil in Hi].
      apply list_elem_of_singleton in Hi. simplify_eq.
      rewrite Hidx, lookup_app_r, Nat.sub_diag by lia. done.
Qed.

(** [fill] keeps the invariant and stops with [executing] full or the
    queue empty. *)
Lemma fill_inv K ts q st :
  loop_inv K ts st → V1.queue st = q →
  loop_inv K ts (V1.fill K q st) ∧
  (Z.of_nat (length (V1.executing (V1.fill K q st))) = K ∨
   (Z.of_nat (length (V1.executing (V1.fill K q st))) < K)%Z ∧
   V1.queue (V1.fill K q st) = []).
Proof.
  revert st. induction q as [|t rest IH]; intros st Hinv Hq; simpl.
  - case_decide as Hsz; [by auto|].
    split; [done|]. left. destruct Hinv. lia.
  - case_decide as Hsz.
    + apply IH; [by apply start_inv|done].
    + split; [done|]. left. destruct Hinv. lia.
Qed.

Lemma fill_same K q st :
  V1.results (V1.fill K q st) = V1.results st ∧
  V1.races (V1.fill K q st) = V1.races st ∧
  V1.returned (V1.fill K q st) = V1.returned st.
Proof.
  revert st. induction q as [|t rest IH]; intros st; simpl.
  - by case_decide.
  - case_decide; [|done]. by destruct (IH (V1.start t rest st)) as (-> & -> & ->).
Qed.

(** [fill] only adds to [executing], and it adds when it can. *)
Lemma fill_executing K q st :
  V1.queue st = q →
  (∀ i, i ∈ V1.executing st → i ∈ V1.executing (V1.fill K q st)) ∧
  ((1 ≤ K)%Z → V1.executing st ≠ [] ∨ q ≠ [] →
   V1.executing (V1.fill K q st) ≠ []).
Proof.
  revert st. induction q as [|t rest IH]; intros st Hq; simpl.
  - case_decide; split; try done; intros HK [?|?]; done.
  - case_decide as Hsz.
    + destruct (IH (V1.start t rest st) eq_refl) as [Hsub Hne]. split.
      * intros i Hi. apply Hsub. simpl. apply elem_of_app. by left.
      * intros HK _. apply Hne; [done|]. left. simpl.
        by destruct (V1.executing st).
    + split; [done|]. intros HK [?|_]; [done|].
      destruct (V1.executing st); [simpl in Hsz; lia|done].
Qed.
End LoopFacts.
Section LoopRace.
Context {V E : Type}.
Implicit Types (ts : list (thunk V E)) (st : V1.loop V E) (K : Z).
Implicit Types (mode : ModeSetting) (r : Result V E).

Lemma subscribe_same k st i :
  V1.executing (V1.subscribe k st i) = V1.executing st ∧
  V1.queue (V1.subscribe k st i) = V1.queue st ∧
  V1.results (V1.subscribe k st i) = V1.results st ∧
  V1.index (V1.subscribe k st i) = V1.index st ∧
  V1.races (V1.subscribe k st i) = V1.races st ∧
  V1.returned (V1.subscribe k st i) = V1.returned st.
Proof. unfold V1.subscribe. by destruct (V1.promises st !! i) as [[]|]. Qed.

Lemma subscribe_inv K ts st k i :
  loop_inv K ts st → loop_inv K ts (V1.subscribe k st i).
Proof.
  intros [Hidx Hq Hb Hlt Hsz Hpend Hful Hjobs]. unfold V1.subscribe.
  destruct (V1.promises st !! i) as [[rs|r]|] eqn:Hi; [| |done].
  - split; simpl; try done.
    + by rewrite length_insert.
    + intros j rs' Hj. destruct (decide (i = j)) as [->|].
      * by eapply Hpend.
      * rewrite list_lookup_insert_ne in Hj by done. by eapply Hpend.
    + intros j r Hj. destruct (decide (i = j)) as [->|].
      * rewrite list_lookup_insert_eq in Hj by (by eapply lookup_lt_Some).
        done.
      * rewrite list_lookup_insert_ne in Hj by done. by eapply Hful.
    + intros rc j r Hj. specialize (Hjobs _ _ _ Hj).
      destruct (decide (i = j)) as [->|]; [congruence|].
      by rewrite list_lookup_insert_ne.
  - split; simpl; try done.
    intros rc j r' Hj. apply elem_of_app in Hj as [Hj|Hj].
    + by eapply Hjobs.
    + apply list_elem_of_singleton in Hj. by simplify_eq.
Qed.

Lemma subscribes_inv K ts k l st :
  loop_inv K ts st → loop_inv K ts (foldl (V1.subscribe k) st l).
Proof.
  revert st. induction l as [|i l IH]; intros st Hinv; [done|].
  simpl. by apply IH, subscribe_inv.
Qed.

Lemma subscribes_same k l st :
  V1.executing (foldl (V1.subscribe k) st l) = V1.executing st ∧
  V1.queue (foldl (V1.subscribe k) st l) = V1.queue st ∧
  V1.results (foldl (V1.subscribe k) st l) = V1.results st ∧
  V1.index (foldl (V1.subscribe k) st l) = V1.index st ∧
  V1.races (foldl (V1.subscribe k) st l) = V1.races st ∧
  V1.returned (foldl (V1.subscribe k) st l) = V1.returned st.
Proof.
  revert st. induction l as [|i l IH]; intros st; [done|].
  simpl. destruct (IH (V1.subscribe k st i)) as (-> & -> & -> & -> & -> & ->).
  apply subscribe_same.
Qed.

Lemma race_inv K ts st : loop_inv K ts st → loop_inv K ts (V1.race st).
Proof.
  intros Hinv. unfold V1.race. apply subscribes_inv.
  by destruct Hinv.
Qed.

Lemma race_same st :
  V1.executing (V1.race st) = V1.executing st ∧
  V1.queue (V1.race st) = V1.queue st ∧
  V1.results (V1.race st) = V1.results st ∧
  V1.index (V1.race st) = V1.index st ∧
  V1.races (V1.race st) = V1.races st ++ [false] ∧
  V1.returned (V1.race st) = V1.returned st.
Proof.
  unfold V1.race.
  by destruct (subscribes_same (length (V1.races st)) (V1.executing st)
    {| V1.promises := V1.promises st; V1.executing := V1.executing st;
       V1.queue := V1.queue st; V1.results := V1.results st;
       V1.index := V1.index st; V1.races := V1.races st ++ [false];
       V1.jobs := V1.jobs st; V1.returned := V1.returned st |})
    as (-> & -> & -> & -> & -> & ->).
Qed.

Lemma race_racing st :
  current (V1.race st) = length (V1.races st) ∧ racing (V1.race st).
Proof.
  unfold racing, current. destruct (race_same st) as (_ & _ & _ & _ & -> & _).
  rewrite length_app. simpl.
  replace (length (V1.races st) + 1 - 1) with (length (V1.races st)) by lia.
  split; [done|]. rewrite lookup_app_r by lia.
  by rewrite Nat.sub_diag.
Qed.

(** A subscription stays, and [subscribe] makes one. *)
Lemma subscribe_keeps k st i j :
  subscribed st j → subscribed (V1.subscribe k st i) j.
Proof.
  unfold subscribed, current.
  destruct (subscribe_same k st i) as (_ & _ & _ & _ & -> & _).
  unfold V1.subscribe.
  destruct (V1.promises st !! i) as [[rs|r]|] eqn:Hi; simpl; [| |done].
  - destruct (decide (i = j)) as [->|].
    + rewrite Hi. rewrite list_lookup_insert_eq by (by eapply lookup_lt_Some).
      intros ?. apply elem_of_app. by left.
    + by rewrite list_lookup_insert_ne.
  - destruct (V1.promises st !! j) as [[rs'|r']|]; try done.
    intros ?. apply elem_of_app. by left.
Qed.

Lemma subscribe_makes st i :
  i < length (V1.promises st) →
  subscribed (V1.subscribe (current st) st i) i.
Proof.
  intros Hi. unfold subscribed, current.
  destruct (subscribe_same (length (V1.races st) - 1) st i)
    as (_ & _ & _ & _ & -> & _).
  unfold V1.subscribe.
  destruct (lookup_lt_is_Some_2 _ _ Hi) as [[rs|r] Hp]; rewrite Hp; simpl.
  - rewrite list_lookup_insert_eq by done.
    apply elem_of_app. right. by apply list_elem_of_singleton.
  - rewrite Hp. apply elem_of_app. right. by apply list_elem_of_singleton.
Qed.

Lemma subscribe_promises_length k st i :
  length (V1.promises (V1.subscribe k st i)) = length (V1.promises st).
Proof.
  unfold V1.subscribe. destruct (V1.promises st !! i) as [[]|]; simpl;
    by rewrite ?length_insert.
Qed.

Lemma subscribes_make k l st :
  k = current st →
  (∀ i, i ∈ l → i < length (V1.promises st)) →
  ∀ i, i ∈ l → subscribed (foldl (V1.subscribe k) st l) i.
Proof.
  assert (∀ l st j k, subscribed st j →
            subscribed (foldl (V1.subscribe k) st l) j) as Hkeep.
  { clear. induction l as [|i l IH]; intros st j k Hj; [done|].
    simpl. by apply IH, subscribe_keeps. }
  revert st. induction l as [|a l IH]; intros st Hk Hlt i Hi.
  { by apply not_elem_of_nil in Hi. }
  simpl. apply elem_of_cons in Hi as [->|Hi].
  - subst k. apply Hkeep, subscribe_makes, Hlt. left.
  - apply IH; [| |done].
    + subst k. unfold current.
      by destruct (subscribe_same (length (V1.races st) - 1) st a)
        as (_ & _ & _ & _ & -> & _).
    + intros j Hj. rewrite subscribe_promises_length. apply Hlt. by right.
Qed.

Lemma race_subscribed K ts st :
  loop_inv K ts st →
  ∀ i, i ∈ V1.executing st → subscribed (V1.race st) i.
Proof.
  intros [Hidx _ _ Hlt _ _ _ _] i Hi. unfold V1.race.
  set (st0 := {| V1.promises := V1.promises st;
                 V1.executing := V1.executing st;
                 V1.queue := V1.queue st; V1.results := V1.results st;
                 V1.index := V1.index st; V1.races := V1.races st ++ [false];
                 V1.jobs := V1.jobs st; V1.returned := V1.returned st |}).
  apply subscribes_make; [| |done].
  - unfold current. simpl. rewrite length_app. simpl. lia.
  - intros j Hj. simpl. rewrite <-Hidx. by apply Hlt.
Qed.
End LoopRace.
Section LoopStep.
Context {V E : Type}.
Implicit Types (ts : list (thunk V E)) (st : V1.loop V E) (K : Z).
Implicit Types (mode : ModeSetting) (r : Result V E).

Lemma iterate_inv K ts st :
  loop_inv K ts st → loop_inv K ts (V1.iterate K st).
Proof.
  intros Hinv. unfold V1.iterate. apply race_inv.
  by apply (fill_inv K ts (V1.queue st) st).
Qed.

Lemma loop_init_inv K ts : (0 ≤ K)%Z → loop_inv K ts (V1.loop_init ts).
Proof.
  intros HK. split; simpl; try done.
  - lia.
  - intros i Hi. by apply not_elem_of_nil in Hi.
  - intros rc i r Hi. by apply not_elem_of_nil in Hi.
Qed.

Lemma set_jobs_inv K ts st j js :
  loop_inv K ts st → V1.jobs st = j :: js →
  loop_inv K ts (V1.set_jobs js st).
Proof.
  intros [Hidx Hq Hb Hlt Hsz Hpend Hful Hjobs] Hj.
  split; simpl; try done.
  intros rc i r Hi. eapply Hjobs. rewrite Hj. by right.
Qed.

Lemma loop_then_inv mode K ts st i r :
  loop_inv K ts st → V1.promises st !! i = Some (V1.PFulfilled r) →
  loop_inv K ts (V1.loop_then mode i r st).
Proof.
  intros [Hidx Hq Hb Hlt Hsz Hpend Hful Hjobs] Hi.
  split; simpl; try done.
  - intros j Hj. apply list_elem_of_filter in Hj as [_ Hj]. by apply Hlt.
  - pose proof (length_filter (λ j, j ≠ i) (V1.executing st)). lia.
  - intros j rs Hj. apply list_elem_of_filter. split; [congruence|].
    by eapply Hpend.
Qed.

Lemma race_react_inv K ts st k r :
  loop_inv K ts st → loop_inv K ts (V1.race_react k r st).
Proof.
  intros [Hidx Hq Hb Hlt Hsz Hpend Hful Hjobs]. unfold V1.race_react.
  destruct (V1.races st !! k) as [[]|]; try done.
  split; simpl; try done.
  intros rc i r' Hi. case_decide; [|by eapply Hjobs].
  apply elem_of_app in Hi as [Hi|Hi]; [by eapply Hjobs|].
  by apply list_elem_of_singleton in Hi.
Qed.

Lemma finish_inv K ts st x :
  loop_inv K ts st → loop_inv K ts (V1.finish x st).
Proof. by intros []. Qed.

Lemma resume_inv mode K ts st w :
  loop_inv K ts st → loop_inv K ts (V1.resume mode K w st).
Proof.
  intros Hinv. unfold V1.resume.
  destruct mode, w; try by apply finish_inv.
  all: case_decide; [by apply iterate_inv|by apply finish_inv].
Qed.

Lemma tick_inv mode K ts st :
  loop_inv K ts st → loop_inv K ts (V1.tick mode K st).
Proof.
  intros Hinv. unfold V1.tick.
  destruct (V1.jobs st) as [|j js] eqn:Hj; [done|].
  pose proof (set_jobs_inv K ts st j js Hinv Hj) as Hinv'.
  destruct j as [[|k] i r|w]; simpl.
  - apply loop_then_inv; [done|]. simpl.
    destruct Hinv as [_ _ _ _ _ _ _ Hjobs]. eapply Hjobs.
    rewrite Hj. left.
  - by apply race_react_inv.
  - by apply resume_inv.
Qed.

Lemma settle_cases ts i st :
  V1.settle ts i st = st ∨
  ∃ rs r, V1.promises st !! i = Some (V1.PPending rs) ∧
          (ts !! i) ≫= thunk_outcome = Some r ∧
          V1.settle ts i st =
            {| V1.promises := <[i := V1.PFulfilled r]> (V1.promises st);
               V1.executing := V1.executing st; V1.queue := V1.queue st;
               V1.results := V1.results st; V1.index := V1.index st;
               V1.races := V1.races st;
               V1.jobs := V1.jobs st ++ ((λ rc, V1.JReact rc i r) <$> rs);
               V1.returned := V1.returned st |}.
Proof.
  unfold V1.settle.
  destruct (V1.promises st !! i) as [[rs|r]|]; try by left.
  destruct ((ts !! i) ≫= thunk_outcome) as [r|]; [|by left].
  right. by exists rs, r.
Qed.

Lemma settle_inv K ts st i :
  loop_inv K ts st → loop_inv K ts (V1.settle ts i st).
Proof.
  intros Hinv.
  destruct (settle_cases ts i st) as [->|(rs & r & Hi & Hr & ->)]; [done|].
  destruct Hinv as [Hidx Hq Hb Hlt Hsz Hpend Hful Hjobs].
  split; simpl; try done.
  - by rewrite length_insert.
  - intros j rs' Hj. destruct (decide (i = j)) as [->|].
    + by eapply Hpend.
    + rewrite list_lookup_insert_ne in Hj by done. by eapply Hpend.
  - intros j r' Hj. destruct (decide (i = j)) as [->|].
    + rewrite list_lookup_insert_eq in Hj by (by eapply lookup_lt_Some).
      by simplify_eq.
    + rewrite list_lookup_insert_ne in Hj by done. by eapply Hful.
  - intros rc j r' Hj. apply elem_of_app in Hj as [Hj|Hj].
    + specialize (Hjobs _ _ _ Hj).
      destruct (decide (i = j)) as [->|]; [congruence|].
      by rewrite list_lookup_insert_ne.
    + apply list_elem_of_fmap in Hj as (rc' & ? & _). simplify_eq.
      apply list_lookup_insert_eq. by eapply lookup_lt_Some.
Qed.

Lemma loop_step_inv mode K ts st a :
  loop_inv K ts st → loop_inv K ts (V1.loop_step mode K ts st a).
Proof.
  intros Hinv. destruct a as [i|]; simpl.
  - by apply settle_inv.
  - by apply tick_inv.
Qed.

Lemma loop_run_inv mode K ts acts st :
  loop_inv K ts st →
  loop_inv K ts (foldl (V1.loop_step mode K ts) st acts).
Proof.
  revert st. induction acts as [|a acts IH]; intros st Hinv; [done|].
  simpl. by apply IH, loop_step_inv.
Qed.

(** The tasks in flight are members of [executing]. *)
Lemma loop_pending_le K ts st :
  loop_inv K ts st → V1.pending st ≤ length (V1.executing st).
Proof.
  intros [_ _ _ _ _ Hpend _ _]. unfold V1.pending, V1.in_flight_tasks.
  apply submseteq_length, NoDup_submseteq.
  - apply list.NoDup_filter, NoDup_seq.
  - intros i Hi. apply list_elem_of_filter in Hi as [[rs Hi] _].
    by eapply Hpend.
Qed.
End LoopStep.
Section LoopLive.
Context {V E : Type}.
Implicit Types (ts : list (thunk V E)) (st : V1.loop V E) (K : Z).
Implicit Types (mode : ModeSetting) (r : Result V E).

Lemma filter_ne_id (l : list nat) i : i ∉ l → filter (λ j, j ≠ i) l = l.
Proof.
  induction l as [|a l IH]; intros Hi; [done|].
  apply not_elem_of_cons in Hi as [Hne Hi].
  rewrite filter_cons_True by done. by rewrite IH.
Qed.

Lemma iterate_live K ts st :
  (1 ≤ K)%Z → loop_inv K ts st →
  V1.executing st ≠ [] ∨ V1.queue st ≠ [] →
  loop_live K (V1.iterate K st).
Proof.
  intros HK Hinv Hne. unfold V1.iterate.
  destruct (fill_inv K ts (V1.queue st) st Hinv eq_refl) as [Hinv' Hfull].
  destruct (fill_executing K (V1.queue st) st eq_refl) as [_ Hexec].
  specialize (Hexec HK Hne).
  set (sf := V1.fill K (V1.queue st) st) in *.
  destruct (race_same sf) as (He & Hq & _ & _ & _ & _).
  destruct (race_racing sf) as [_ Hracing].
  split.
  - intros _ _ i Hi. rewrite He in Hi. by eapply race_subscribed.
  - intros _. right. split; [done|]. left. rewrite He, Hq.
    split; [done|]. destruct Hfull as [?|[_ ?]]; auto.
Qed.

Lemma settle_live K ts st i :
  loop_inv K ts st → loop_live K st → loop_live K (V1.settle ts i st).
Proof.
  intros Hinv [Hsub Htok].
  destruct (settle_cases ts i st) as [->|(rs & r & Hi & Hr & ->)]; [done|].
  split; simpl.
  - intros Hnone Hrace j Hj. specialize (Hsub Hnone Hrace j Hj).
    unfold subscribed, current in *. simpl.
    destruct (decide (i = j)) as [->|].
    + rewrite Hi in Hsub.
      rewrite list_lookup_insert_eq by (by eapply lookup_lt_Some).
      apply elem_of_app. right. apply list_elem_of_fmap. eauto.
    + rewrite list_lookup_insert_ne by done.
      destruct (V1.promises st !! j) as [[rs'|r']|]; try done.
      apply elem_of_app. by left.
  - intros Hnone. destruct (Htok Hnone) as [[w Hw]|[Hrace Hrest]].
    + left. exists w. apply elem_of_app. by left.
    + right. split; [done|]. destruct Hrest as [?|(j & r' & Hj)]; [by left|].
      right. exists j, r'. apply elem_of_app. by left.
Qed.

(** Taking a job from the queue that is neither the continuation nor a
    reaction of the unresolved last race leaves the loop live. *)
Lemma live_pop K st st' j js :
  loop_live K st → V1.jobs st = j :: js →
  (∀ w, j ≠ V1.JResume w) →
  (racing st → ∀ i r, j ≠ V1.JReact (V1.RRace (current st)) i r) →
  V1.promises st' = V1.promises st →
  V1.executing st' = V1.executing st →
  V1.queue st' = V1.queue st →
  V1.jobs st' = js →
  V1.returned st' = V1.returned st →
  current st' = current st →
  (racing st' ↔ racing st) →
  loop_live K st'.
Proof.
  intros [Hsub Htok] Hjobs Hnr Hnc Hp He Hq Hj Hr Hc Hrc. split.
  - intros Hnone Hrace i Hi. rewrite Hr in Hnone. rewrite He in Hi.
    apply Hrc in Hrace.
    specialize (Hsub Hnone Hrace i Hi).
    unfold subscribed in *. rewrite Hp, Hc, Hj.
    destruct (V1.promises st !! i) as [[rs|r]|]; try done.
    rewrite Hjobs in Hsub. apply elem_of_cons in Hsub as [Heq|?]; [|done].
    by destruct (Hnc Hrace i r).
  - intros Hnone. rewrite Hr in Hnone.
    destruct (Htok Hnone) as [[w Hw]|[Hrace Hrest]].
    + left. exists w. rewrite Hj. rewrite Hjobs in Hw.
      apply elem_of_cons in Hw as [Heq|?]; [|done]. by destruct (Hnr w).
    + right. split; [by apply Hrc|]. rewrite He, Hq, Hc, Hj.
      destruct Hrest as [?|(i & r & Hi)]; [by left|right].
      exists i, r. rewrite Hjobs in Hi.
      apply elem_of_cons in Hi as [Heq|?]; [|done].
      by destruct (Hnc Hrace i r).
Qed.

Lemma tick_live mode K ts st :
  (1 ≤ K)%Z → loop_inv K ts st → loop_live K st →
  loop_live K (V1.tick mode K st).
Proof.
  intros HK Hinv Hlive. unfold V1.tick.
  destruct (V1.jobs st) as [|j js] eqn:Hjobs; [done|].
  pose proof (set_jobs_inv K ts st j js Hinv Hjobs) as Hinv'.
  destruct j as [[|k] i r|w]; simpl.
  - (* the callback of task [i] *)
    assert (V1.promises st !! i = Some (V1.PFulfilled r)) as Hi.
    { destruct Hinv as [_ _ _ _ _ _ _ Hj]. eapply Hj. rewrite Hjobs. left. }
    destruct (decide (i ∈ V1.executing st)) as [Hin|Hout].
    2: { eapply (live_pop K st); try done. simpl. by apply filter_ne_id. }
    destruct Hlive as [Hsub Htok].
    assert (∀ j r', V1.JReact (V1.RRace (current st)) j r' ∈ V1.jobs st →
              V1.JReact (V1.RRace (current st)) j r' ∈ js) as Htail.
    { intros j r'. rewrite Hjobs. intros [?|?]%elem_of_cons; done. }
    split; simpl.
    + intros Hnone Hrace j Hj.
      apply list_elem_of_filter in Hj as [Hne Hj].
      specialize (Hsub Hnone Hrace j Hj). unfold subscribed in *. simpl.
      destruct (V1.promises st !! j) as [[rs'|r']|]; try done.
      by apply Htail.
    + intros Hnone. destruct (Htok Hnone) as [[w Hw]|[Hrace Hrest]].
      * left. exists w. rewrite Hjobs in Hw.
        by apply elem_of_cons in Hw as [?|?].
      * right. split; [done|]. right. exists i, r. apply Htail.
        specialize (Hsub Hnone Hrace i Hin). unfold subscribed in Hsub.
        by rewrite Hi in Hsub.
  - (* a reaction of race [k] *)
    unfold V1.race_react. simpl.
    destruct (V1.races st !! k) as [[|]|] eqn:Hk.
    2: destruct (decide (S k = length (V1.races st))) as [Hcur|Hcur].
    + eapply (live_pop K st); try done.
      intros Hr j r' [= ->]. unfold racing in Hr. congruence.
    + (* the last race is resolved: the function is queued *)
      split; simpl.
      * intros _ Hrace. unfold racing, current in Hrace. simpl in Hrace.
        rewrite length_insert in Hrace.
        replace (length (V1.races st) - 1) with k in Hrace by lia.
        rewrite list_lookup_insert_eq in Hrace; [done|lia].
      * intros _. left. exists r.
        apply elem_of_app. right. by apply list_elem_of_singleton.
    + apply lookup_lt_Some in Hk as Hlt.
      eapply (live_pop K st); try done; simpl.
      * intros _ j r' [= ->]. unfold current in Hcur. lia.
      * unfold current. simpl. by rewrite length_insert.
      * unfold racing, current. simpl. rewrite length_insert.
        rewrite list_lookup_insert_ne by lia. done.
    + eapply (live_pop K st); try done.
      intros Hr j r' [= ->]. unfold racing in Hr. congruence.
  - (* the function continues *)
    unfold V1.resume.
    assert (∀ x, loop_live K (V1.finish x (V1.set_jobs js st))) as Hfin.
    { intros x. by split. }
    assert (0 < length (V1.executing (V1.set_jobs js st)) ∨
            0 < length (V1.queue (V1.set_jobs js st)) →
            loop_live K (V1.iterate K (V1.set_jobs js st))) as Hit.
    { intros Hc. apply (iterate_live K ts); [done..|].
      simpl in *. destruct Hc as [Hc|Hc];
        [left; destruct (V1.executing st)
        |right; destruct (V1.queue st)]; simpl in Hc; try done; lia. }
    destruct mode, w; try apply Hfin;
      (case_decide as Hc; [by apply Hit|apply Hfin]).
Qed.

Lemma loop_step_live mode K ts st a :
  (1 ≤ K)%Z → loop_inv K ts st → loop_live K st →
  loop_live K (V1.loop_step mode K ts st a).
Proof.
  intros HK Hinv Hlive. destruct a as [i|]; simpl.
  - by apply settle_live.
  - by eapply tick_live.
Qed.

(** Every state that the bounded [allLazy] reaches satisfies both. *)
Lemma loop_run_live mode K ts acts st :
  (1 ≤ K)%Z → loop_inv K ts st → loop_live K st →
  loop_inv K ts (foldl (V1.loop_step mode K ts) st acts) ∧
  loop_live K (foldl (V1.loop_step mode K ts) st acts).
Proof.
  intros HK. revert st. induction acts as [|a acts IH]; intros st Hinv Hlive;
    [done|].
  simpl. apply IH; [by apply loop_step_inv|by apply loop_step_live].
Qed.

Lemma loop_start_live K ts :
  (1 ≤ K)%Z → ts ≠ [] →
  loop_inv K ts (V1.iterate K (V1.loop_init ts)) ∧
  loop_live K (V1.iterate K (V1.loop_init ts)).
Proof.
  intros HK Hne. split.
  - apply iterate_inv, loop_init_inv. lia.
  - apply (iterate_live K ts); [done|apply loop_init_inv; lia|].
    right. done.
Qed.
End LoopLive.
Section LoopSettled.
Context {V E : Type}.
Implicit Types (ts : list (thunk V E)) (st : V1.loop V E) (K : Z).
Implicit Types (r : Result V E).

Lemma start_settled st t rest :
  loop_settled st → V1.index st = length (V1.promises st) →
  V1.queue st = t :: rest →
  loop_settled (V1.start t rest st).
Proof.
  intros [Hlen Hdone Hret] Hidx Hq. split; simpl.
  - lia.
  - intros i Hi Hout. apply not_elem_of_app in Hout as [Hout Hne].
    rewrite list_elem_of_singleton in Hne.
    destruct (Hdone i) as (r & Hp & Hr); [lia|done|].
    exists r. split; [|done]. rewrite lookup_app_l; [done|].
    by eapply lookup_lt_Some.
  - intros x Hx. destruct (Hret x Hx) as (_ & Hq' & _). congruence.
Qed.

Lemma fill_settled K ts q st :
  loop_inv K ts st → loop_settled st → V1.queue st = q →
  loop_settled (V1.fill K q st).
Proof.
  revert st. induction q as [|t rest IH]; intros st Hinv Hs Hq; simpl.
  - by case_decide.
  - case_decide as Hsz; [|done].
    apply IH; [by apply start_inv| |done].
    apply start_settled; [done| |done]. by destruct Hinv.
Qed.

Lemma subscribe_fulfilled k st i j r :
  V1.promises st !! j = Some (V1.PFulfilled r) →
  V1.promises (V1.subscribe k st i) !! j = Some (V1.PFulfilled r).
Proof.
  intros Hj. unfold V1.subscribe.
  destruct (V1.promises st !! i) as [[rs|r']|] eqn:Hi; simpl; [|done..].
  destruct (decide (i = j)) as [->|]; [congruence|].
  by rewrite list_lookup_insert_ne.
Qed.

Lemma subscribe_settled k st i :
  loop_settled st → loop_settled (V1.subscribe k st i).
Proof.
  intros [Hlen Hdone Hret].
  destruct (subscribe_same k st i) as (He & Hq & Hr & Hi & _ & Hx).
  split; rewrite ?He, ?Hq, ?Hr, ?Hi, ?Hx; [done| |done].
  intros j Hj Hout. destruct (Hdone j Hj Hout) as (r & Hp & Hres).
  exists r. split; [|done]. by apply subscribe_fulfilled.
Qed.

Lemma race_settled st : loop_settled st → loop_settled (V1.race st).
Proof.
  intros Hs. unfold V1.race.
  assert (∀ k l st', loop_settled st' →
            loop_settled (foldl (V1.subscribe k) st' l)) as Hfold.
  { clear. intros k l. induction l as [|i l IH]; intros st' Hs; [done|].
    simpl. by apply IH, subscribe_settled. }
  apply Hfold. by destruct Hs.
Qed.

Lemma iterate_settled K ts st :
  loop_inv K ts st → loop_settled st → loop_settled (V1.iterate K st).
Proof.
  intros Hinv Hs. unfold V1.iterate. apply race_settled.
  by apply (fill_settled K ts).
Qed.

Lemma settle_settled K ts st i :
  loop_inv K ts st → loop_settled st → loop_settled (V1.settle ts i st).
Proof.
  intros Hinv [Hlen Hdone Hret].
  destruct (settle_cases ts i st) as [->|(rs & r & Hi & Hr & ->)]; [done|].
  split; simpl; [done| |done].
  intros j Hj Hout. destruct (Hdone j Hj Hout) as (r' & Hp & Hres).
  exists r'. split; [|done].
  destruct (decide (i = j)) as [->|]; [congruence|].
  by rewrite list_lookup_insert_ne.
Qed.

Lemma loop_then_settled K ts st i r :
  loop_inv K ts st → loop_settled st →
  V1.promises st !! i = Some (V1.PFulfilled r) →
  loop_settled (V1.loop_then Settled i r st).
Proof.
  intros [Hidx _ _ _ _ _ _ _] [Hlen Hdone Hret] Hi.
  assert (i < V1.index st) as Hlt.
  { rewrite Hidx. by eapply lookup_lt_Some. }
  split; simpl.
  - rewrite length_array_set. lia.
  - intros j Hj Hout. destruct (decide (j = i)) as [->|Hne].
    + exists r. split; [done|]. apply lookup_array_set_eq.
    + assert (j ∉ V1.executing st) as Hout'.
      { intros Hin. apply Hout. by apply list_elem_of_filter. }
      destruct (Hdone j Hj Hout') as (r' & Hp & Hres).
      exists r'. split; [done|].
      rewrite lookup_array_set_ne; [done..|]. by eapply lookup_lt_Some.
  - intros x Hx. destruct (Hret x Hx) as (He & Hq & ->).
    rewrite He. split_and!; [done..|]. f_equal.
    destruct (Hdone i Hlt) as (r' & Hp & Hres).
    { rewrite He. apply not_elem_of_nil. }
    rewrite Hi in Hp. simplify_eq. unfold array_set.
    rewrite decide_True by (by eapply lookup_lt_Some).
    by rewrite list_insert_id.
Qed.

Lemma tick_settled K ts st :
  loop_inv K ts st → loop_settled st →
  loop_settled (V1.tick Settled K st).
Proof.
  intros Hinv Hs. unfold V1.tick.
  destruct (V1.jobs st) as [|j js] eqn:Hj; [done|].
  pose proof (set_jobs_inv K ts st j js Hinv Hj) as Hinv'.
  assert (loop_settled (V1.set_jobs js st)) as Hs' by (by destruct Hs).
  destruct j as [[|k] i r|w]; simpl.
  - apply (loop_then_settled K ts); [done..|]. simpl.
    destruct Hinv as [_ _ _ _ _ _ _ Hjobs]. eapply Hjobs.
    rewrite Hj. left.
  - unfold V1.race_react. simpl.
    destruct (V1.races st !! k) as [[]|]; try done. by destruct Hs.
  - unfold V1.resume.
    assert (loop_settled
              (if decide (0 < length (V1.executing (V1.set_jobs js st)) ∨
                          0 < length (V1.queue (V1.set_jobs js st)))
               then V1.iterate K (V1.set_jobs js st)
               else V1.finish (RetArray (V1.results (V1.set_jobs js st)))
                      (V1.set_jobs js st))) as Hgoal; [|by destruct w].
    case_decide as Hc; [by apply (iterate_settled K ts)|].
    destruct Hs as [Hlen Hdone Hret]. split; simpl in *; [done..|].
    intros x [= <-]. split_and!; [| |done].
    + destruct (V1.executing st); [done|]. simpl in Hc. destruct Hc. left. lia.
    + destruct (V1.queue st); [done|]. simpl in Hc. destruct Hc. right. lia.
Qed.

Lemma loop_step_settled K ts st a :
  loop_inv K ts st → loop_settled st →
  loop_settled (V1.loop_step Settled K ts st a).
Proof.
  intros Hinv Hs. destruct a as [i|]; simpl.
  - by apply (settle_settled K).
  - by apply (tick_settled K ts).
Qed.

Lemma loop_run_settled K ts acts st :
  loop_inv K ts st → loop_settled st →
  loop_settled (foldl (V1.loop_step Settled K ts) st acts).
Proof.
  revert st. induction acts as [|a acts IH]; intros st Hinv Hs; [done|].
  simpl. apply IH; [by apply loop_step_inv|by apply loop_step_settled].
Qed.

Lemma loop_start_settled K ts :
  (0 ≤ K)%Z → loop_settled (V1.iterate K (V1.loop_init ts)).
Proof.
  intros HK. apply (iterate_settled K ts); [by apply loop_init_inv|].
  split; simpl; [done| |done]. intros i Hi. lia.
Qed.

(** When the function has returned in settled mode, every task has
    settled and its callback has run, and the array returned holds the
    Result of each task at the task's index. *)
Lemma loop_settled_returned K ts st x :
  loop_inv K ts st → loop_settled st → V1.returned st = Some x →
  length (V1.promises st) = length ts ∧
  V1.pending st = 0 ∧
  ∃ rs, thunk_outcome <$> ts = Some <$> rs ∧
        x = RetArray ((λ r, Some (ARes r)) <$> rs).
Proof.
  intros Hinv [Hlen Hdone Hret] Hx.
  pose proof (loop_pending_le K ts st Hinv) as Hple.
  destruct Hinv as [Hidx Hq Hb Hlt Hsz Hpend Hful Hjobs].
  destruct (Hret x Hx) as (He & Hqe & ->).
  assert (V1.index st = length ts) as HN.
  { rewrite Hqe in Hq. symmetry in Hq. apply drop_nil_inv in Hq. lia. }
  rewrite He in Hple. simpl in Hple.
  split_and!; [lia|lia|].
  assert (∀ i, i < length ts → ∃ r,
             (thunk_outcome <$> ts) !! i = Some (Some r) ∧
             V1.results st !! i = Some (Some (ARes r))) as Hcells.
  { intros i Hi. destruct (Hdone i) as (r & Hp & Hres); [lia| |].
    { rewrite He. apply not_elem_of_nil. }
    exists r. split; [|done]. rewrite list_lookup_fmap.
    specialize (Hful i r Hp).
    destruct (ts !! i) as [t|]; simpl in *; [by rewrite Hful|done]. }
  destruct (all_Some_fmap (thunk_outcome <$> ts)) as [rs Hrs].
  { intros i Hi. rewrite length_fmap in Hi.
    destruct (Hcells i Hi) as (r & Hr & _). by exists r. }
  exists rs. split; [done|]. f_equal. apply list_eq. intros i.
  rewrite list_lookup_fmap.
  assert (length rs = length ts) as Hrsl.
  { by rewrite <-(length_fmap Some rs), <-Hrs, length_fmap. }
  destruct (decide (i < length ts)) as [Hi|Hi].
  - destruct (Hcells i Hi) as (r & Hr & ->).
    rewrite Hrs, list_lookup_fmap in Hr.
    destruct (rs !! i); by simplify_eq/=.
  - rewrite lookup_ge_None_2 by lia. by rewrite lookup_ge_None_2 by lia.
Qed.

(** When no job is queued and no promise is pending, the function has
    returned: the loop cannot get stuck. *)
Lemma loop_quiescent_returned K ts st :
  loop_inv K ts st → loop_live K st →
  V1.jobs st = [] → V1.pending st = 0 →
  is_Some (V1.returned st).
Proof.
  intros Hinv [Hsub Htok] Hjobs Hpend.
  destruct (V1.returned st) as [x|] eqn:Hx; [by eexists|]. exfalso.
  destruct (Htok eq_refl) as [[w Hw]|[Hrace [[Hne _]|(i & r & Hi)]]].
  - rewrite Hjobs in Hw. by apply not_elem_of_nil in Hw.
  - destruct (V1.executing st) as [|i l] eqn:He; [done|].
    specialize (Hsub eq_refl Hrace i ltac:(left)).
    unfold subscribed in Hsub.
    destruct (V1.promises st !! i) as [[rs|r]|] eqn:Hi; [| |done].
    + unfold V1.pending, V1.in_flight_tasks in Hpend.
      apply length_zero_iff_nil in Hpend.
      assert (i ∈ filter (V1.is_pending st) (seq 0 (length (V1.promises st))))
        as Hin.
      { apply list_elem_of_filter. split; [by exists rs|].
        apply elem_of_seq. apply lookup_lt_Some in Hi. lia. }
      rewrite Hpend in Hin. by apply not_elem_of_nil in Hin.
    + rewrite Hjobs in Hsub. by apply not_elem_of_nil in Hsub.
  - rewrite Hjobs in Hi. by apply not_elem_of_nil in Hi.
Qed.
End LoopSettled.
Section V1Support.
Context {V E : Type}.
Implicit Types (inp : input V E) (opts : option Options).
Implicit Types (ts : list (thunk V E)) (st : V1.loop V E) (K : Z).

Lemma V1_all_thunks_cases ts opts K :
  concurrency_of opts = Num K →
  (ts = [] ∧
   V1.all (Thunks ts) opts
   = V1.PEager (mode_of opts) [] (V1.allEager [] (mode_of opts))) ∨
  (ts ≠ [] ∧
   V1.all (Thunks ts) opts
   = V1.PLazy (mode_of opts) K ts (V1.iterate K (V1.loop_init ts))).
Proof.
  intros HK. destruct ts as [|t ts]; [by left|]. right. split; [done|].
  unfold V1.all, V1.allLazy. cbn [first_is_function as_thunks].
  by rewrite HK.
Qed.

Lemma V1_run_lazy mode K ts st acts :
  V1.run (V1.PLazy mode K ts st) acts
  = V1.PLazy mode K ts (foldl (V1.loop_step mode K ts) st acts).
Proof.
  revert st. induction acts as [|a acts IH]; intros st; simpl; [done|].
  apply IH.
Qed.

Lemma V1_run_app (p : V1.process V E) a b :
  V1.run p (a ++ b) = V1.run (V1.run p a) b.
Proof. apply foldl_app. Qed.

(** How many factories [fill] calls. *)
Lemma fill_started K q st :
  V1.queue st = q → (Z.of_nat (length (V1.executing st)) ≤ K)%Z →
  length (V1.promises (V1.fill K q st))
  = length (V1.promises st)
    + Z.to_nat (Z.min (K - Z.of_nat (length (V1.executing st)))
                  (Z.of_nat (length q))).
Proof.
  revert st. induction q as [|t rest IH]; intros st Hq Hsz;
    cbn [V1.fill].
  - change (length (@nil (thunk V E))) with 0. case_decide; lia.
  - change (length (t :: rest)) with (S (length rest)).
    case_decide as Hlt; [|lia].
    rewrite IH; [|done|cbn [V1.start V1.executing]; rewrite length_app;
                       change (length [V1.index st]) with 1; lia].
    cbn [V1.start V1.executing V1.promises]. rewrite !length_app.
    change (length [V1.index st]) with 1.
    match goal with |- context [length [?x]] =>
      change (length [x]) with 1 end.
    lia.
Qed.

Lemma race_promises_length st :
  length (V1.promises (V1.race st)) = length (V1.promises st).
Proof.
  unfold V1.race.
  assert (∀ k l st', length (V1.promises (foldl (V1.subscribe k) st' l))
                     = length (V1.promises st')) as Hfold.
  { clear. intros k l. induction l as [|i l IH]; intros st'; [done|].
    simpl. by rewrite IH, subscribe_promises_length. }
  by rewrite Hfold.
Qed.

Lemma loop_started_count K ts :
  (0 ≤ K)%Z →
  length (V1.promises (V1.iterate K (V1.loop_init ts)))
  = Z.to_nat (Z.min K (Z.of_nat (length ts))).
Proof.
  intros HK. unfold V1.iterate. rewrite race_promises_length.
  rewrite fill_started; [|done|cbn [V1.loop_init V1.executing length]; lia].
  cbn [V1.loop_init V1.executing V1.promises V1.queue length]. lia.
Qed.

(** The bounded loop of [src/src/all.ts]: at most [K] tasks are in
    flight at any time; [min K N] tasks are started by the call; and
    whenever the function has not returned and no job is queued,
    [executing] holds [K] promises or no factory is left in the queue. *)
Lemma V1_loop_bound ts opts K acts :
  concurrency_of opts = Num K → (1 ≤ K)%Z →
  (Z.of_nat (V1.tasks_in_flight (V1.run (V1.all (Thunks ts) opts) acts))
     ≤ K)%Z ∧
  V1.started_tasks (V1.all (Thunks ts) opts)
    = Z.to_nat (Z.min K (Z.of_nat (length ts))) ∧
  (V1.outcome (V1.run (V1.all (Thunks ts) opts) acts) = None →
   V1.at_rest (V1.run (V1.all (Thunks ts) opts) acts) →
   Z.of_nat (V1.executing_size (V1.run (V1.all (Thunks ts) opts) acts)) = K ∨
   V1.queue_length (V1.run (V1.all (Thunks ts) opts) acts) = 0).
Proof.
  intros HK H1.
  destruct (V1_all_thunks_cases ts opts K HK) as [[-> Heq]|[Hn Heq]];
    rewrite Heq; clear Heq.
  - rewrite V1_run_eager. cbn [V1.tasks_in_flight V1.started_tasks
      V1.queue_length].
    assert (e_status (V1.allEager (V:=V) (E:=E) [] (mode_of opts)) = [])
      as Hnil by (by destruct (mode_of opts)).
    rewrite eager_run_nil by done. rewrite Hnil.
    change (in_flight []) with 0. change (started []) with 0.
    cbn [length]. split_and!; [lia|lia|by right].
  - rewrite V1_run_lazy. cbn [V1.tasks_in_flight V1.started_tasks
      V1.queue_length V1.outcome V1.at_rest V1.executing_size].
    destruct (loop_start_live K ts H1 Hn) as [Hinv0 Hlive0].
    destruct (loop_run_live (mode_of opts) K ts acts _ H1 Hinv0 Hlive0)
      as [Hinv Hlive].
    split_and!.
    + pose proof (loop_pending_le K ts _ Hinv). destruct Hinv. lia.
    + apply loop_started_count. lia.
    + intros Hnone Hrest. destruct Hlive as [_ Htok].
      destruct (Htok Hnone) as [[w Hw]|[_ [[_ Hfull]|(i & r & Hi)]]].
      * rewrite Hrest in Hw. by apply not_elem_of_nil in Hw.
      * destruct Hfull as [?|Hq]; [by left|right]. by rewrite Hq.
      * rewrite Hrest in Hi. by apply not_elem_of_nil in Hi.
Qed.

(** Settled mode on the bounded loop of [src/src/all.ts]: if the function
    has returned, every task has been started and has settled, and the
    array returned holds each task's Result at the task's index; and the
    function has returned whenever no job is queued and no task is in
    flight. *)
Lemma V1_loop_settled ts opts K acts :
  mode_of opts = Settled → concurrency_of opts = Num K → (1 ≤ K)%Z →
  ts ≠ [] →
  (∀ x, V1.outcome (V1.run (V1.all (Thunks ts) opts) acts) = Some x →
     V1.started_tasks (V1.run (V1.all (Thunks ts) opts) acts) = length ts ∧
     V1.tasks_in_flight (V1.run (V1.all (Thunks ts) opts) acts) = 0 ∧
     ∃ rs, thunk_outcome <$> ts = Some <$> rs ∧
           x = RetArray ((λ r, Some (ARes r)) <$> rs)) ∧
  (V1.at_rest (V1.run (V1.all (Thunks ts) opts) acts) →
   V1.tasks_in_flight (V1.run (V1.all (Thunks ts) opts) acts) = 0 →
   is_Some (V1.outcome (V1.run (V1.all (Thunks ts) opts) acts))).
Proof.
  intros Hm HK H1 Hn.
  destruct (V1_all_thunks_cases ts opts K HK) as [[-> Heq]|[_ Heq]]; [done|].
  rewrite Heq, Hm, V1_run_lazy. clear Heq.
  cbn [V1.tasks_in_flight V1.started_tasks V1.outcome V1.at_rest].
  destruct (loop_start_live K ts H1 Hn) as [Hinv0 Hlive0].
  destruct (loop_run_live Settled K ts acts _ H1 Hinv0 Hlive0)
    as [Hinv Hlive].
  pose proof (loop_run_settled K ts acts _ Hinv0
                (loop_start_settled K ts ltac:(lia))) as Hs.
  split.
  - intros x Hx. by eapply loop_settled_returned.
  - intros Hrest Hfl. by eapply loop_quiescent_returned.
Qed.
End V1Support.
Section V1Settled.
Context {V E : Type}.
Implicit Types (inp : input V E) (opts : option Options).
Implicit Types (ts : list (thunk V E)) (ps : list (option (Result V E))).

Lemma started_all status :
  (∀ i, status !! i ≠ Some NotStarted) → started status = length status.
Proof.
  intros Hall. unfold started.
  induction status as [|s status IH]; [done|].
  rewrite filter_cons. destruct (decide (s ≠ NotStarted)) as [_|Hs].
  - cbn [length]. f_equal. apply IH. intros i. apply (Hall (S i)).
  - exfalso. apply (Hall 0). simpl. f_equal.
    destruct s; [done|by destruct Hs..].
Qed.

Lemma V1_run_clean_settled ps acts :
  eager_clean Settled ps
    (eager_run Settled ps (V1.allEager ps Settled) (settlements acts)).
Proof. apply eager_clean_run; [apply V1_allEager_clean|done]. Qed.

(** Settled mode in [src/src/all.ts]: when the aggregate has returned,
    every task has been started and has completed, and what it returns
    is the array of the tasks' Results in index order; and when nothing
    is in flight and no job is queued, it has returned. *)
Lemma V1_settled_waits_for_all inp opts acts :
  mode_of opts = Settled →
  match concurrency_of opts with Unbounded => True | Num k => (1 ≤ k)%Z end →
  (∀ x, V1.outcome (V1.run (V1.all inp opts) acts) = Some x →
     V1.started_tasks (V1.run (V1.all inp opts) acts) = input_length inp ∧
     V1.tasks_in_flight (V1.run (V1.all inp opts) acts) = 0 ∧
     ∃ rs, as_promises inp = Some <$> rs ∧
           x = RetArray ((λ r, Some (ARes r)) <$> rs)) ∧
  (V1.at_rest (V1.run (V1.all inp opts) acts) →
   V1.tasks_in_flight (V1.run (V1.all inp opts) acts) = 0 →
   is_Some (V1.outcome (V1.run (V1.all inp opts) acts))).
Proof.
  intros Hm HK.
  assert ((first_is_function inp = false ∨ concurrency_of opts = Unbounded)
          ∨ ∃ t ts K, inp = Thunks (t :: ts) ∧ concurrency_of opts = Num K)
    as [Heager|(t & ts & K & -> & HKeq)].
  { destruct inp as [ps|[|t ts]]; [left; by left..|].
    destruct (concurrency_of opts) as [|K]; [left; by right|].
    right. by exists t, ts, K. }
  - rewrite V1_all_eager by done. rewrite Hm, V1_run_eager.
    cbn [V1.outcome V1.started_tasks V1.tasks_in_flight V1.at_rest].
    pose proof (V1_run_clean_settled (as_promises inp) acts) as Hc.
    pose proof (ec_resolved _ _ _ Hc) as Hres. split.
    + intros x Hx. case_decide as Hz; [|by rewrite Hx in Hres].
      split_and!; [|done|].
      * rewrite started_all by apply Hc.
        by rewrite (ec_status_len _ _ _ Hc), as_promises_length.
      * by apply (eager_settled_spec _ _ Hc).
    + intros _ Hz. rewrite Hres, decide_True by done. done.
  - rewrite HKeq in HK.
    destruct (V1_loop_settled (t :: ts) opts K acts) as [Hsafe Hlive];
      [done..|].
    split; [|done]. intros x Hx.
    destruct (Hsafe x Hx) as (? & ? & ?). done.
Qed.
End V1Settled.
Section V1Eager.
Context {V E : Type}.
Implicit Types (inp : input V E) (opts : option Options).

(** On the eager path of [src/src/all.ts], when one task fails and the
    others do not, the aggregate returns nothing but that task's
    error. *)
Lemma V1_eager_single_error_returned inp opts i e acts :
  first_is_function inp = false ∨ concurrency_of opts = Unbounded →
  mode_of opts = Default →
  settles_to (as_promises inp) i = Some (Err e) →
  (∀ j r, j ≠ i → settles_to (as_promises inp) j = Some r →
          isErr r = false) →
  is_Some (V1.outcome (V1.run (V1.all inp opts) acts)) →
  V1.outcome (V1.run (V1.all inp opts) acts) = Some (RetResult (Err e)).
Proof.
  intros Heager Hm He Hok.
  rewrite V1_all_eager by done. rewrite Hm, V1_run_eager.
  cbn [V1.outcome].
  assert (i < length (as_promises inp)) as Hlt.
  { unfold settles_to in He. apply lookup_lt_is_Some.
    destruct (as_promises inp !! i); [eauto|done]. }
  destruct (eager_single_error (as_promises inp) i e (settlements acts) _
              (V1_allEager_clean Default _) He Hok
              (V1_allEager_initial _ _ _)) as [[Hc' Hnd]|Hres]; [|done].
  intros [x Hx]. destruct Hnd. by eapply eager_clean_resolved.
Qed.

(** A call on which no action has an effect stays as it is. *)
Lemma V1_quiet_run (p : V1.process V E) acts :
  (∀ a, V1.step p a = p) → V1.run p acts = p.
Proof.
  intros Hq. induction acts as [|a acts IH]; [done|].
  simpl. by rewrite Hq.
Qed.
End V1Eager.
Section LoopOrder.
Context {V E : Type}.
Implicit Types (ts : list (thunk V E)) (st : V1.loop V E) (K : Z).

Lemma loop_order_ext st st' :
  V1.promises st' = V1.promises st →
  V1.executing st' = V1.executing st →
  V1.jobs st' = V1.jobs st →
  length (V1.races st) ≤ length (V1.races st') →
  loop_order st → loop_order st'.
Proof.
  intros Hp He Hj Hr [H1 H2 H3 H4 H5].
  split; rewrite ?Hp, ?He, ?Hj.
  - intros k i r Hin. specialize (H1 k i r Hin). lia.
  - intros i rs k Hi Hin. specialize (H2 i rs k Hi Hin). lia.
  - done.
  - done.
  - done.
Qed.

Lemma loop_init_order ts : loop_order (V1.loop_init ts).
Proof.
  split; cbn [V1.loop_init V1.jobs V1.promises V1.executing].
  - intros k i r Hin. by apply elem_of_nil in Hin.
  - intros i rs k Hi. by rewrite lookup_nil in Hi.
  - intros i rs Hi. by rewrite lookup_nil in Hi.
  - intros i r Hi. by rewrite lookup_nil in Hi.
  - intros p k i r Hp. by rewrite lookup_nil in Hp.
Qed.

Lemma start_order K ts st t rest :
  loop_inv K ts st → loop_order st →
  loop_order (V1.start t rest st).
Proof.
  intros Hinv [H1 H2 H3 H4 H5].
  pose proof (li_index _ _ _ Hinv) as Hidx.
  split; cbn [V1.start V1.jobs V1.promises V1.executing V1.races].
  - intros k i r Hin. apply elem_of_app in Hin as [Hin|Hin]; [by eapply H1|].
    destruct t; [|by apply elem_of_nil in Hin].
    by apply list_elem_of_singleton in Hin.
  - intros i rs k Hi Hin. apply lookup_app_Some in Hi as [Hi|[Hge Hi]];
      [by eapply H2|].
    apply list_lookup_singleton_Some in Hi as [_ Hi].
    destruct t; simplify_eq. by apply list_elem_of_singleton in Hin.
  - intros i rs Hi. apply lookup_app_Some in Hi as [Hi|[Hge Hi]];
      [by eapply H3|].
    apply list_lookup_singleton_Some in Hi as [_ Hi].
    destruct t; simplify_eq. by exists [].
  - intros i r Hi Hin. apply elem_of_app in Hin as [Hin|Hin].
    + pose proof (li_exec_lt _ _ _ Hinv i Hin) as Hlt.
      rewrite lookup_app_l in Hi by lia.
      destruct (H4 i r Hi Hin) as [r' Hr']. exists r'.
      apply elem_of_app. by left.
    + apply list_elem_of_singleton in Hin as ->.
      rewrite Hidx, lookup_app_r, Nat.sub_diag in Hi by lia.
      destruct t; simplify_eq/=. exists r. apply elem_of_app. right.
      by apply list_elem_of_singleton.
  - intros p k i r Hp Hin.
    assert (V1.jobs st !! p = Some (V1.JReact (V1.RRace k) i r)) as Hp'.
    { apply lookup_app_Some in Hp as [Hp|[Hge Hp]]; [done|].
      destruct t; [|by rewrite lookup_nil in Hp].
      by apply list_lookup_singleton_Some in Hp as [_ ?]. }
    assert (i ∈ V1.executing st) as Hin'.
    { apply elem_of_app in Hin as [Hin|Hin]; [done|].
      apply list_elem_of_singleton in Hin as ->.
      apply list_elem_of_lookup_2 in Hp'.
      apply (li_jobs _ _ _ Hinv) in Hp'.
      apply lookup_lt_Some in Hp'. lia. }
    destruct (H5 p k i r Hp' Hin') as (p' & r' & Hlt & Hp'').
    exists p', r'. split; [done|]. by apply lookup_app_l_Some.
Qed.

Lemma fill_order K ts q st :
  loop_inv K ts st → loop_order st → V1.queue st = q →
  loop_order (V1.fill K q st).
Proof.
  revert st. induction q as [|t rest IH]; intros st Hinv Hord Hq;
    cbn [V1.fill]; case_decide as Hlt; try done.
  apply IH; [by apply start_inv|by eapply start_order|done].
Qed.

Lemma subscribe_order k st i :
  loop_order st → k < length (V1.races st) → i ∈ V1.executing st →
  loop_order (V1.subscribe k st i).
Proof.
  intros [H1 H2 H3 H4 H5] Hk Hin. unfold V1.subscribe.
  destruct (V1.promises st !! i) as [[rs|r]|] eqn:Hi; [| |done].
  - split; cbn [V1.jobs V1.promises V1.executing V1.races]; [done| | | |done].
    + intros j rs' k' Hj Hin'.
      destruct (decide (j = i)) as [->|Hne].
      * rewrite list_lookup_insert_eq in Hj by (by eapply lookup_lt_Some).
        simplify_eq. apply elem_of_app in Hin' as [Hin'|Hin'];
          [by eapply H2|].
        apply list_elem_of_singleton in Hin'. by simplify_eq.
      * rewrite list_lookup_insert_ne in Hj by done. by eapply H2.
    + intros j rs' Hj.
      destruct (decide (j = i)) as [->|Hne].
      * rewrite list_lookup_insert_eq in Hj by (by eapply lookup_lt_Some).
        simplify_eq. destruct (H3 i rs Hi) as [rs0 ->]. by eexists.
      * rewrite list_lookup_insert_ne in Hj by done. by eapply H3.
    + intros j r Hj Hin'.
      destruct (decide (j = i)) as [->|Hne].
      * rewrite list_lookup_insert_eq in Hj by (by eapply lookup_lt_Some).
        done.
      * rewrite list_lookup_insert_ne in Hj by done. by eapply H4.
  - split; cbn [V1.set_jobs V1.jobs V1.promises V1.executing V1.races].
    + intros k' j r' Hin'. apply elem_of_app in Hin' as [Hin'|Hin'];
        [by eapply H1|].
      apply list_elem_of_singleton in Hin'. by simplify_eq.
    + done.
    + done.
    + intros j r' Hj Hin'. destruct (H4 j r' Hj Hin') as [r0 Hr0].
      exists r0. apply elem_of_app. by left.
    + intros p k' j r' Hp Hin'.
      apply lookup_app_Some in Hp as [Hp|[Hge Hp]].
      * destruct (H5 p k' j r' Hp Hin') as (p' & r0 & Hlt & Hp').
        exists p', r0. split; [done|]. by apply lookup_app_l_Some.
      * apply list_lookup_singleton_Some in Hp as [_ Hp]. simplify_eq.
        destruct (H4 j r' Hi Hin') as [r0 Hr0].
        apply list_elem_of_lookup in Hr0 as [p' Hp'].
        exists p', r0. split; [|by apply lookup_app_l_Some].
        apply lookup_lt_Some in Hp'. lia.
Qed.

Lemma subscribes_order k l st :
  loop_order st → k < length (V1.races st) →
  (∀ i, i ∈ l → i ∈ V1.executing st) →
  loop_order (foldl (V1.subscribe k) st l).
Proof.
  revert st. induction l as [|i l IH]; intros st Hord Hk Hl; [done|].
  simpl. destruct (subscribe_same k st i) as (He & _ & _ & _ & Hr & _).
  apply IH.
  - apply subscribe_order; [done..|]. apply Hl. by left.
  - by rewrite Hr.
  - intros j Hj. rewrite He. apply Hl. by right.
Qed.

Lemma race_order st : loop_order st → loop_order (V1.race st).
Proof.
  intros Hord. unfold V1.race. apply subscribes_order.
  - revert Hord. apply loop_order_ext; try done.
    cbn [V1.races]. rewrite length_app. lia.
  - cbn [V1.races]. rewrite length_app. simpl. lia.
  - done.
Qed.

Lemma iterate_order K ts st :
  loop_inv K ts st → loop_order st → loop_order (V1.iterate K st).
Proof.
  intros Hinv Hord. unfold V1.iterate. apply race_order.
  by eapply fill_order.
Qed.

(** Taking a job that is no callback from the head of the queue. *)
Lemma pop_order st j js :
  loop_order st → V1.jobs st = j :: js →
  (∀ i r, j ≠ V1.JReact V1.RThen i r) →
  loop_order (V1.set_jobs js st).
Proof.
  intros [H1 H2 H3 H4 H5] Hj Hne.
  split; cbn [V1.set_jobs V1.jobs V1.promises V1.executing V1.races];
    [|done|done| |].
  - intros k i r Hin. apply (H1 k i r). rewrite Hj. by right.
  - intros i r Hi Hin. destruct (H4 i r Hi Hin) as [r' Hr'].
    exists r'. rewrite Hj in Hr'.
    apply elem_of_cons in Hr' as [Hr'|Hr']; [|done].
    by destruct (Hne i r').
  - intros p k i r Hp Hin.
    destruct (H5 (S p) k i r) as (p' & r' & Hlt & Hp'); [by rewrite Hj|done|].
    rewrite Hj in Hp'. destruct p' as [|p']; simpl in Hp'.
    + simplify_eq. by destruct (Hne i r').
    + exists p', r'. split; [lia|done].
Qed.

Lemma loop_then_order mode st i r js :
  loop_order st → V1.jobs st = V1.JReact V1.RThen i r :: js →
  loop_order (V1.loop_then mode i r (V1.set_jobs js st)).
Proof.
  intros [H1 H2 H3 H4 H5] Hj.
  split; cbn [V1.loop_then V1.set_jobs V1.jobs V1.promises V1.executing
              V1.races]; [|done|done| |].
  - intros k j r' Hin. apply (H1 k j r'). rewrite Hj. by right.
  - intros j r' Hi Hin. apply list_elem_of_filter in Hin as [Hne Hin].
    destruct (H4 j r' Hi Hin) as [r0 Hr0]. exists r0.
    rewrite Hj in Hr0. apply elem_of_cons in Hr0 as [Hr0|Hr0]; [|done].
    by simplify_eq.
  - intros p k j r' Hp Hin. apply list_elem_of_filter in Hin as [Hne Hin].
    destruct (H5 (S p) k j r') as (p' & r0 & Hlt & Hp');
      [by rewrite Hj|done|].
    rewrite Hj in Hp'. destruct p' as [|p']; simpl in Hp'.
    + by simplify_eq.
    + exists p', r0. split; [lia|done].
Qed.

Lemma race_react_order k r st :
  loop_order st → loop_order (V1.race_react k r st).
Proof.
  intros Hord. unfold V1.race_react.
  destruct (V1.races st !! k) as [[|]|] eqn:Hk; [done| |done].
  destruct Hord as [H1 H2 H3 H4 H5].
  split; cbn [V1.jobs V1.promises V1.executing V1.races];
    rewrite ?length_insert; [|done|done| |].
  - intros k' i r' Hin. apply (H1 k' i r').
    case_decide; [|done].
    apply elem_of_app in Hin as [Hin|Hin]; [done|].
    by apply list_elem_of_singleton in Hin.
  - intros i r' Hi Hin. destruct (H4 i r' Hi Hin) as [r0 Hr0].
    exists r0. case_decide; [|done]. apply elem_of_app. by left.
  - intros p k' i r' Hp Hin.
    assert (V1.jobs st !! p = Some (V1.JReact (V1.RRace k') i r')) as Hp'.
    { case_decide; [|done].
      apply lookup_app_Some in Hp as [Hp|[Hge Hp]]; [done|].
      by apply list_lookup_singleton_Some in Hp as [_ ?]. }
    destruct (H5 p k' i r' Hp' Hin) as (p' & r0 & Hlt & Hp'').
    exists p', r0. split; [done|].
    case_decide; [|done]. by apply lookup_app_l_Some.
Qed.

Lemma finish_order x st : loop_order st → loop_order (V1.finish x st).
Proof. by apply loop_order_ext. Qed.

Lemma resume_order mode K ts w st :
  loop_inv K ts st → loop_order st → loop_order (V1.resume mode K w st).
Proof.
  intros Hinv Hord. unfold V1.resume.
  destruct mode, w; try case_decide;
    try (by apply finish_order); by eapply iterate_order.
Qed.

Lemma tick_order mode K ts st :
  loop_inv K ts st → loop_order st → loop_order (V1.tick mode K st).
Proof.
  intros Hinv Hord. unfold V1.tick.
  destruct (V1.jobs st) as [|j js] eqn:Hj; [done|].
  destruct j as [[|k] i r|w]; cbn [V1.run_job].
  - by apply loop_then_order.
  - apply race_react_order. by eapply pop_order.
  - eapply resume_order; [by eapply set_jobs_inv|by eapply pop_order].
Qed.

Lemma settle_order ts st i :
  loop_order st → loop_order (V1.settle ts i st).
Proof.
  intros Hord.
  destruct (settle_cases ts i st) as [->|(rs & r & Hi & Hr & ->)]; [done|].
  destruct Hord as [H1 H2 H3 H4 H5].
  destruct (H3 i rs Hi) as [rs' ->].
  split; cbn [V1.jobs V1.promises V1.executing V1.races].
  - intros k j r' Hin. apply elem_of_app in Hin as [Hin|Hin];
      [by eapply H1|].
    apply list_elem_of_fmap in Hin as (rc & Heq & Hin). simplify_eq.
    by eapply H2.
  - intros j rs0 k Hj Hin.
    destruct (decide (j = i)) as [->|Hne].
    + rewrite list_lookup_insert_eq in Hj by (by eapply lookup_lt_Some).
      done.
    + rewrite list_lookup_insert_ne in Hj by done. by eapply H2.
  - intros j rs0 Hj.
    destruct (decide (j = i)) as [->|Hne].
    + rewrite list_lookup_insert_eq in Hj by (by eapply lookup_lt_Some).
      done.
    + rewrite list_lookup_insert_ne in Hj by done. by eapply H3.
  - intros j r' Hj Hin.
    destruct (decide (j = i)) as [->|Hne].
    + exists r. apply elem_of_app. right. simpl. by left.
    + rewrite list_lookup_insert_ne in Hj by done.
      destruct (H4 j r' Hj Hin) as [r0 Hr0]. exists r0.
      apply elem_of_app. by left.
  - intros p k j r' Hp Hin.
    apply lookup_app_Some in Hp as [Hp|[Hge Hp]].
    + destruct (H5 p k j r' Hp Hin) as (p' & r0 & Hlt & Hp').
      exists p', r0. split; [done|]. by apply lookup_app_l_Some.
    + exists (length (V1.jobs st)), r.
      assert (j = i ∧ r' = r) as [-> ->].
      { apply list_elem_of_lookup_2, list_elem_of_fmap in Hp
          as (rc & Heq & _). by simplify_eq. }
      split.
      * destruct (decide (p = length (V1.jobs st))) as [->|]; [|lia].
        rewrite Nat.sub_diag in Hp. simpl in Hp. by simplify_eq.
      * rewrite lookup_app_r, Nat.sub_diag by lia. done.
Qed.

Lemma loop_step_order mode K ts st a :
  loop_inv K ts st → loop_order st →
  loop_order (V1.loop_step mode K ts st a).
Proof.
  intros Hinv Hord. destruct a as [i|]; cbn [V1.loop_step].
  - by apply settle_order.
  - by eapply tick_order.
Qed.

Lemma loop_run_order mode K ts acts st :
  loop_inv K ts st → loop_order st →
  loop_order (foldl (V1.loop_step mode K ts) st acts).
Proof.
  revert st. induction acts as [|a acts IH]; intros st Hinv Hord; [done|].
  simpl. apply IH; [by apply loop_step_inv|by eapply loop_step_order].
Qed.

Lemma loop_start_order K ts :
  (0 ≤ K)%Z → loop_order (V1.iterate K (V1.loop_init ts)).
Proof.
  intros HK. eapply iterate_order; [by apply loop_init_inv|].
  apply loop_init_order.
Qed.
End LoopOrder.
Section LoopMeasure.
Context {V E : Type}.
Implicit Types (ts : list (thunk V E)) (st : V1.loop V E) (K : Z) (k : nat).

Lemma existsb_false {A} (f : A → bool) (l : list A) :
  (∀ x, x ∈ l → f x = false) → existsb f l = false.
Proof.
  induction l as [|x l IH]; intros Hl; [done|]. simpl.
  rewrite (Hl x) by left. rewrite IH; [done|].
  intros y Hy. apply Hl. by right.
Qed.

Lemma existsb_elem {A} (f : A → bool) (l : list A) :
  existsb f l = true ↔ ∃ x, x ∈ l ∧ f x = true.
Proof.
  rewrite existsb_exists. split; intros (x & Hx & Hf); exists x;
    (split; [by apply list_elem_of_In|done]).
Qed.

Lemma filter_ne_length (l : list nat) i :
  i ∈ l → length (filter (λ j, j ≠ i) l) < length l.
Proof.
  induction l as [|j l IH]; intros Hin; [by apply elem_of_nil in Hin|].
  rewrite filter_cons. destruct (decide (j ≠ i)) as [Hne|Heq].
  - apply elem_of_cons in Hin as [->|Hin]; [done|].
    specialize (IH Hin). simpl. lia.
  - pose proof (length_filter (λ j, j ≠ i) l). simpl. lia.
Qed.

Lemma no_resume_filter (l : list (@V1.job V E)) :
  (∀ j, j ∈ l → is_resume j = false) →
  filter (λ j, is_resume j = true) l = [].
Proof.
  induction l as [|j l IH]; intros Hl; [done|].
  rewrite filter_cons, decide_False.
  - apply IH. intros j' Hj'. apply Hl. by right.
  - rewrite (Hl j) by left. done.
Qed.

Lemma can_win_ext st st' (j : @V1.job V E) :
  current st' = current st → V1.executing st' = V1.executing st →
  can_win st' j = can_win st j.
Proof.
  intros Hc He. unfold can_win. destruct j as [[|k] i r|w]; [done| |done].
  by rewrite Hc, He.
Qed.

(** Running a job that resolves no race does not make the last race
    winnable. *)
Lemma winnable_pop st st' j js :
  V1.jobs st = j :: js → V1.jobs st' = js →
  current st' = current st → V1.executing st' = V1.executing st →
  (racing st' → racing st) →
  winnable st' = true → winnable st = true.
Proof.
  intros Hj Hj' Hc He Hr. unfold winnable.
  rewrite !andb_true_iff, !bool_decide_eq_true, !existsb_elem, Hj, Hj'.
  intros [Hrace (x & Hx & Hwin)]. split; [by apply Hr|].
  exists x. split; [by right|]. by rewrite <-(can_win_ext st st').
Qed.

Lemma start_base k t rest st :
  V1.queue st = t :: rest → base k (V1.start t rest st) < base k st.
Proof.
  intros Hq. unfold base.
  cbn [V1.start V1.queue V1.executing V1.jobs]. rewrite Hq.
  rewrite !length_app, list.filter_app, length_app.
  change (length (t :: rest)) with (S (length rest)).
  change (length [V1.index st]) with 1.
  destruct t as [r|o]; simpl; nia.
Qed.

Lemma fill_base k K q st :
  V1.queue st = q → base k (V1.fill K q st) ≤ base k st.
Proof.
  revert st. induction q as [|t rest IH]; intros st Hq;
    cbn [V1.fill]; case_decide; try done.
  pose proof (start_base k t rest st Hq).
  specialize (IH (V1.start t rest st) eq_refl). lia.
Qed.

Lemma subscribes_jobs kk l st :
  ∃ extra,
    V1.jobs (foldl (V1.subscribe kk) st l) = V1.jobs st ++ extra ∧
    length extra ≤ length l ∧
    ∀ j, j ∈ extra → ∃ i r, j = V1.JReact (V1.RRace kk) i r ∧ i ∈ l.
Proof.
  revert st. induction l as [|i l IH]; intros st.
  { exists []. rewrite app_nil_r. split_and!; [done..|].
    intros j Hj. by apply elem_of_nil in Hj. }
  simpl. destruct (IH (V1.subscribe kk st i)) as (extra & -> & Hlen & Hex).
  unfold V1.subscribe.
  destruct (V1.promises st !! i) as [[rs|r]|] eqn:Hi;
    cbn [V1.jobs V1.set_jobs].
  - exists extra. split_and!; [done|lia|].
    intros j Hj. destruct (Hex j Hj) as (i' & r' & -> & Hin).
    exists i', r'. split; [done|by right].
  - exists (V1.JReact (V1.RRace kk) i r :: extra).
    rewrite <-app_assoc. split_and!; [done|simpl; lia|].
    intros j Hj. apply elem_of_cons in Hj as [->|Hj].
    + exists i, r. split; [done|by left].
    + destruct (Hex j Hj) as (i' & r' & -> & Hin).
      exists i', r'. split; [done|by right].
  - exists extra. split_and!; [done|lia|].
    intros j Hj. destruct (Hex j Hj) as (i' & r' & -> & Hin).
    exists i', r'. split; [done|by right].
Qed.

Lemma race_jobs st :
  ∃ extra,
    V1.jobs (V1.race st) = V1.jobs st ++ extra ∧
    length extra ≤ length (V1.executing st) ∧
    ∀ j, j ∈ extra →
         ∃ i r, j = V1.JReact (V1.RRace (length (V1.races st))) i r ∧
                i ∈ V1.executing st.
Proof.
  unfold V1.race.
  match goal with |- context [foldl _ ?s ?l] =>
    destruct (subscribes_jobs (length (V1.races st)) l s)
      as (extra & Hj & Hlen & Hex) end.
  by exists extra.
Qed.

Lemma race_base k st :
  base k (V1.race st) ≤ base k st + length (V1.executing st).
Proof.
  destruct (race_same st) as (He & Hq & _).
  destruct (race_jobs st) as (extra & Hj & Hlen & Hex).
  unfold base. rewrite He, Hq, Hj, list.filter_app, !length_app.
  rewrite (no_resume_filter extra).
  - simpl. lia.
  - intros j Hin. by destruct (Hex j Hin) as (i & r & -> & _).
Qed.

Lemma race_not_winnable st : loop_order st → winnable (V1.race st) = false.
Proof.
  intros Hord. unfold winnable. apply andb_false_iff. right.
  destruct (race_same st) as (He & _).
  destruct (race_racing st) as [Hcur _].
  destruct (race_jobs st) as (extra & Hj & Hlen & Hex).
  apply existsb_false. intros j Hin. rewrite Hj in Hin.
  apply elem_of_app in Hin as [Hin|Hin].
  - destruct j as [[|k'] i r|w]; [done| |done]. simpl.
    apply bool_decide_eq_false. intros [-> _].
    apply (lo_race_jobs _ Hord) in Hin. lia.
  - destruct (Hex j Hin) as (i & r & -> & Hi). simpl.
    apply bool_decide_eq_false. intros [_ Hni]. by rewrite He in Hni.
Qed.

Lemma iterate_potential k K ts st :
  loop_inv K ts st → loop_order st → k = Z.to_nat K →
  potential k (V1.iterate K st) ≤ base k st + k.
Proof.
  intros Hinv Hord Hk. unfold potential, V1.iterate.
  rewrite race_not_winnable by (by eapply fill_order).
  pose proof (race_base k (V1.fill K (V1.queue st) st)) as Hrace.
  pose proof (fill_base k K (V1.queue st) st eq_refl) as Hfill.
  destruct (fill_inv K ts (V1.queue st) st Hinv eq_refl) as [Hinv' _].
  pose proof (li_exec_size _ _ _ Hinv'). lia.
Qed.

Lemma potential_pop k st st' :
  base k st' < base k st →
  (winnable st' = true → winnable st = true) →
  potential k st' < potential k st.
Proof.
  intros Hb Hw. unfold potential.
  destruct (winnable st'); [rewrite Hw by done|]; destruct (winnable st);
    lia.
Qed.

(** Every job brings the end of the job queue nearer, unless it makes
    the function return. *)
Lemma tick_potential mode k K ts st :
  loop_inv K ts st → loop_order st → k = Z.to_nat K →
  V1.jobs st ≠ [] →
  is_Some (V1.returned (V1.tick mode K st)) ∨
  potential k (V1.tick mode K st) < potential k st.
Proof.
  intros Hinv Hord Hk Hne. unfold V1.tick.
  destruct (V1.jobs st) as [|j js] eqn:Hj; [done|]. clear Hne.
  destruct j as [[|k0] i r|w]; cbn [V1.run_job].
  - (* the callback of task [i] *)
    right. destruct (decide (i ∈ V1.executing st)) as [Hin|Hni].
    + pose proof (filter_ne_length _ _ Hin) as Hlt.
      unfold potential, base.
      cbn [V1.loop_then V1.set_jobs V1.queue V1.executing V1.jobs].
      rewrite Hj, filter_cons, decide_False by done.
      change (length (?x :: js)) with (S (length js)).
      destruct (winnable _), (winnable st); nia.
    + apply potential_pop.
      * unfold base.
        cbn [V1.loop_then V1.set_jobs V1.queue V1.executing V1.jobs].
        rewrite filter_ne_id by done.
        rewrite Hj, filter_cons, decide_False by done.
        simpl. lia.
      * apply (winnable_pop st _ _ js Hj); [done|done| |done].
        cbn [V1.loop_then V1.set_jobs V1.executing].
        by apply filter_ne_id.
  - (* a reaction of race [k0] *)
    right. unfold V1.race_react.
    cbn [V1.set_jobs V1.races V1.jobs V1.promises V1.executing V1.queue
         V1.results V1.index V1.returned].
    destruct (V1.races st !! k0) as [[|]|] eqn:Hk0.
    + apply potential_pop.
      * unfold base. cbn [V1.set_jobs V1.queue V1.executing V1.jobs].
        rewrite Hj, filter_cons, decide_False by done. simpl. lia.
      * by apply (winnable_pop st _ _ js Hj).
    + destruct (decide (S k0 = length (V1.races st))) as [Hlast|Hold].
      * assert (k0 = current st) as Hcur by (unfold current; lia).
        assert (winnable st = true) as Hwin.
        { unfold winnable. apply andb_true_iff. split.
          - apply bool_decide_eq_true. unfold racing. by rewrite <-Hcur.
          - rewrite Hj. simpl. apply orb_true_iff. left.
            apply bool_decide_eq_true. split; [done|]. intros Hin.
            destruct (lo_fifo _ Hord 0 k0 i r) as (p' & _ & Hlt & _);
              [by rewrite Hj|done|lia]. }
        assert (winnable
                  {| V1.promises := V1.promises st;
                     V1.executing := V1.executing st;
                     V1.queue := V1.queue st; V1.results := V1.results st;
                     V1.index := V1.index st;
                     V1.races := <[k0:=true]> (V1.races st);
                     V1.jobs := js ++ [V1.JResume r];
                     V1.returned := V1.returned st |} = false) as Hlose.
        { unfold winnable. apply andb_false_iff. left.
          apply bool_decide_eq_false. unfold racing, current.
          cbn [V1.races]. rewrite length_insert.
          fold (current st). rewrite <-Hcur.
          rewrite list_lookup_insert_eq by (by eapply lookup_lt_Some).
          done. }
        unfold potential. rewrite Hwin, Hlose. unfold base.
        cbn [V1.queue V1.executing V1.jobs].
        rewrite Hj, list.filter_app, !length_app.
        rewrite (filter_cons _ (V1.JReact (V1.RRace k0) i r)),
          decide_False by done.
        rewrite (filter_cons _ (V1.JResume r)), decide_True by done.
        rewrite filter_nil. simpl. lia.
      * apply potential_pop.
        -- unfold base. cbn [V1.queue V1.executing V1.jobs].
           rewrite Hj, filter_cons, decide_False by done. simpl. lia.
        -- apply (winnable_pop st _ _ js Hj); [done| |done|].
           ++ unfold current. cbn [V1.races]. by rewrite length_insert.
           ++ unfold racing, current. cbn [V1.races].
              rewrite length_insert. fold (current st).
              intros Hr. rewrite list_lookup_insert_ne in Hr; [done|].
              intros ->. rewrite list_lookup_insert_eq in Hr; [done|].
              by eapply lookup_lt_Some.
    + apply potential_pop.
      * unfold base. cbn [V1.set_jobs V1.queue V1.executing V1.jobs].
        rewrite Hj, filter_cons, decide_False by done. simpl. lia.
      * by apply (winnable_pop st _ _ js Hj).
  - (* the function continues *)
    assert (base k (V1.set_jobs js st) + k + 1 = base k st) as Hb.
    { unfold base. cbn [V1.set_jobs V1.queue V1.executing V1.jobs].
      rewrite Hj, filter_cons, decide_True by done. simpl. lia. }
    assert (is_Some (V1.returned (V1.iterate K (V1.set_jobs js st))) ∨
            potential k (V1.iterate K (V1.set_jobs js st)) < potential k st)
      as Hit.
    { right.
      pose proof (iterate_potential k K ts (V1.set_jobs js st)
                    (set_jobs_inv _ _ _ _ _ Hinv Hj)
                    (pop_order _ _ _ Hord Hj ltac:(done)) Hk) as Hi.
      unfold potential at 2. lia. }
    unfold V1.resume.
    destruct mode, w; try case_decide; try done;
      left; by eexists.
Qed.

(** Jobs fulfil no promise and leave the fulfilled ones fulfilled. *)
Lemma start_fulfilled t rest st :
  fulfilled st ≤ fulfilled (V1.start t rest st).
Proof.
  unfold fulfilled. cbn [V1.start V1.promises].
  rewrite list.filter_app, length_app. lia.
Qed.

Lemma fill_fulfilled K q st : fulfilled st ≤ fulfilled (V1.fill K q st).
Proof.
  revert st. induction q as [|t rest IH]; intros st;
    cbn [V1.fill]; case_decide; try done.
  pose proof (start_fulfilled t rest st).
  specialize (IH (V1.start t rest st)). lia.
Qed.

Lemma subscribe_fulfilled_count kk st i :
  fulfilled (V1.subscribe kk st i) = fulfilled st.
Proof.
  unfold V1.subscribe, fulfilled.
  destruct (V1.promises st !! i) as [[rs|r]|] eqn:Hi; [|done..].
  cbn [V1.promises].
  pose proof (filter_length_insert (λ p, is_fulfilled p = true)
                (V1.promises st) i (V1.PPending rs)
                (V1.PPending (rs ++ [V1.RRace kk])) Hi) as Heq.
  rewrite !decide_False in Heq by done. lia.
Qed.

Lemma race_fulfilled st : fulfilled (V1.race st) = fulfilled st.
Proof.
  unfold V1.race.
  assert (∀ kk l st', fulfilled (foldl (V1.subscribe kk) st' l)
                      = fulfilled st') as Hfold.
  { clear. intros kk l. induction l as [|i l IH]; intros st'; [done|].
    simpl. by rewrite IH, subscribe_fulfilled_count. }
  by rewrite Hfold.
Qed.

Lemma tick_fulfilled mode K st : fulfilled st ≤ fulfilled (V1.tick mode K st).
Proof.
  unfold V1.tick. destruct (V1.jobs st) as [|j js]; [done|].
  destruct j as [[|k0] i r|w]; cbn [V1.run_job]; [done| |].
  - unfold V1.race_react. cbn [V1.set_jobs V1.races].
    by destruct (V1.races st !! k0) as [[|]|].
  - assert (fulfilled st
            ≤ fulfilled (V1.iterate K (V1.set_jobs js st))) as Hit.
    { unfold V1.iterate. rewrite race_fulfilled.
      apply (fill_fulfilled K _ (V1.set_jobs js st)). }
    unfold V1.resume. destruct mode, w; try case_decide; done.
Qed.

Lemma settle_fulfilled ts st i rs r :
  V1.promises st !! i = Some (V1.PPending rs) →
  (ts !! i) ≫= thunk_outcome = Some r →
  fulfilled (V1.settle ts i st) = S (fulfilled st).
Proof.
  intros Hi Hr. unfold V1.settle, fulfilled. rewrite Hi, Hr.
  cbn [V1.promises].
  pose proof (filter_length_insert (λ p, is_fulfilled p = true)
                (V1.promises st) i (V1.PPending rs) (V1.PFulfilled r) Hi)
    as Heq.
  rewrite decide_False, decide_True in Heq by done. lia.
Qed.

Lemma fulfilled_le K ts st : loop_inv K ts st → fulfilled st ≤ length ts.
Proof.
  intros Hinv. unfold fulfilled.
  pose proof (length_filter (λ p, is_fulfilled p = true) (V1.promises st)).
  pose proof (li_index _ _ _ Hinv). pose proof (li_bound _ _ _ Hinv). lia.
Qed.

(** The job queue runs empty: after finitely many jobs, and with no
    promise settling meanwhile, the function has returned or no job is
    left. *)
Lemma loop_drain mode K ts n st :
  potential (Z.to_nat K) st ≤ n → loop_inv K ts st → loop_order st →
  ∃ m,
    (is_Some (V1.returned
                (foldl (V1.loop_step mode K ts) st (replicate m V1.Tick))) ∨
     V1.jobs (foldl (V1.loop_step mode K ts) st (replicate m V1.Tick)) = []) ∧
    fulfilled st
    ≤ fulfilled (foldl (V1.loop_step mode K ts) st (replicate m V1.Tick)).
Proof.
  revert st. induction n as [|n IH]; intros st Hn Hinv Hord.
  - exists 0. split; [|done]. right. simpl.
    unfold potential, base in Hn.
    destruct (V1.jobs st); [done|simpl in Hn; lia].
  - destruct (V1.jobs st) as [|j js] eqn:Hj.
    { exists 0. split; [by right|done]. }
    pose proof (tick_fulfilled mode K st) as Hmono.
    destruct (tick_potential mode (Z.to_nat K) K ts st Hinv Hord eq_refl)
      as [Hret|Hlt]; [by rewrite Hj|..].
    + exists 1. split; [by left|done].
    + destruct (IH (V1.tick mode K st)) as (m & Hm & Hf);
        [lia|by apply tick_inv|by eapply tick_order|].
      exists (S m). split; [done|]. simpl. lia.
Qed.

(** When no job is queued and the function has not returned, it waits
    for a task that is in flight. *)
Lemma loop_waits K ts st :
  loop_inv K ts st → loop_live K st →
  V1.jobs st = [] → V1.returned st = None →
  ∃ i rs, V1.promises st !! i = Some (V1.PPending rs).
Proof.
  intros Hinv Hlive Hj Hret.
  destruct (V1.in_flight_tasks st) as [|i l] eqn:Hfl.
  - destruct (loop_quiescent_returned K ts st Hinv Hlive Hj) as [x Hx].
    + unfold V1.pending. by rewrite Hfl.
    + by rewrite Hret in Hx.
  - assert (i ∈ V1.in_flight_tasks st) as Hin by (rewrite Hfl; left).
    apply list_elem_of_filter in Hin as [[rs Hi] _]. by exists i, rs.
Qed.

(** Every run of the bounded loop can be continued until the function
    has returned, when every task settles. *)
Lemma loop_completes mode K ts u st :
  (1 ≤ K)%Z → loop_inv K ts st → loop_live K st → loop_order st →
  (∀ i, i < length ts → is_Some ((ts !! i) ≫= thunk_outcome)) →
  length ts - fulfilled st ≤ u →
  ∃ more,
    is_Some (V1.returned (foldl (V1.loop_step mode K ts) st more)).
Proof.
  intros HK Hinv Hlive Hord Hall. revert st Hinv Hlive Hord.
  induction u as [|u IH]; intros st Hinv Hlive Hord Hu.
  all: destruct (loop_drain mode K ts _ st (Nat.le_refl _) Hinv Hord)
         as (m & Hm & Hf).
  all: destruct (loop_run_live mode K ts (replicate m V1.Tick) st
                   HK Hinv Hlive) as [Hinv' Hlive'].
  all: pose proof (loop_run_order mode K ts (replicate m V1.Tick) st
                     Hinv Hord) as Hord'.
  all: set (st' := foldl (V1.loop_step mode K ts) st (replicate m V1.Tick))
         in *.
  all: destruct (V1.returned st') as [x|] eqn:Hret;
         [exists (replicate m V1.Tick); fold st'; rewrite Hret; by eexists|].
  all: destruct Hm as [[x Hx]|Hjobs]; [done|].
  all: destruct (loop_waits K ts st' Hinv' Hlive' Hjobs Hret)
         as (i & rs & Hi).
  all: assert (i < length ts) as Hlt
         by (apply lookup_lt_Some in Hi;
             pose proof (li_index _ _ _ Hinv');
             pose proof (li_bound _ _ _ Hinv'); lia).
  all: destruct (Hall i Hlt) as [r Hr].
  all: pose proof (settle_fulfilled ts st' i rs r Hi Hr) as Hs.
  all: pose proof (fulfilled_le K ts _ (settle_inv K ts st' i Hinv'))
         as Hle.
  - lia.
  - destruct (IH (V1.settle ts i st')) as [more Hmore].
    + by apply settle_inv.
    + by eapply settle_live.
    + by apply settle_order.
    + lia.
    + exists (replicate m V1.Tick ++ V1.Settle i :: more).
      rewrite foldl_app. done.
Qed.

(** At rest the members of [executing] are the tasks in flight. *)
Lemma start_executing_NoDup K ts st t rest :
  loop_inv K ts st → NoDup (V1.executing st) →
  NoDup (V1.executing (V1.start t rest st)).
Proof.
  intros Hinv Hnd. cbn [V1.start V1.executing].
  apply list.NoDup_app. split_and!; [done| |apply list.NoDup_singleton].
  intros i Hi Hi'. apply list_elem_of_singleton in Hi' as ->.
  pose proof (li_exec_lt _ _ _ Hinv _ Hi). lia.
Qed.

Lemma fill_executing_NoDup K ts q st :
  loop_inv K ts st → V1.queue st = q → NoDup (V1.executing st) →
  NoDup (V1.executing (V1.fill K q st)).
Proof.
  revert st. induction q as [|t rest IH]; intros st Hinv Hq Hnd;
    cbn [V1.fill]; case_decide; try done.
  apply IH; [by apply start_inv|done|by eapply start_executing_NoDup].
Qed.

Lemma tick_executing_NoDup mode K ts st :
  loop_inv K ts st → NoDup (V1.executing st) →
  NoDup (V1.executing (V1.tick mode K st)).
Proof.
  intros Hinv Hnd. unfold V1.tick.
  destruct (V1.jobs st) as [|j js] eqn:Hj; [done|].
  destruct j as [[|k0] i r|w]; cbn [V1.run_job].
  - cbn [V1.loop_then V1.executing V1.set_jobs].
    by apply list.NoDup_filter.
  - unfold V1.race_react. cbn [V1.set_jobs V1.races].
    by destruct (V1.races st !! k0) as [[|]|].
  - assert (NoDup (V1.executing (V1.iterate K (V1.set_jobs js st))))
      as Hit.
    { unfold V1.iterate.
      destruct (race_same (V1.fill K (V1.queue (V1.set_jobs js st))
                             (V1.set_jobs js st))) as [-> _].
      eapply fill_executing_NoDup; [by eapply set_jobs_inv|done..]. }
    unfold V1.resume. destruct mode, w; try case_decide; done.
Qed.

Lemma loop_run_executing_NoDup mode K ts acts st :
  loop_inv K ts st → NoDup (V1.executing st) →
  NoDup (V1.executing (foldl (V1.loop_step mode K ts) st acts)).
Proof.
  revert st. induction acts as [|a acts IH]; intros st Hinv Hnd; [done|].
  simpl. apply IH; [by apply loop_step_inv|].
  destruct a as [i|]; cbn [V1.loop_step].
  - by destruct (settle_cases ts i st) as [->|(rs & r & _ & _ & ->)].
  - by eapply tick_executing_NoDup.
Qed.

Lemma loop_start_executing_NoDup K ts :
  (0 ≤ K)%Z → NoDup (V1.executing (V1.iterate K (V1.loop_init ts))).
Proof.
  intros HK. unfold V1.iterate.
  destruct (race_same (V1.fill K (V1.queue (V1.loop_init ts))
                         (V1.loop_init ts))) as [-> _].
  eapply fill_executing_NoDup; [by apply loop_init_inv|done|].
  apply NoDup_nil_2.
Qed.

Lemma loop_rest_executing K ts st :
  loop_inv K ts st → loop_order st → NoDup (V1.executing st) →
  V1.jobs st = [] → V1.pending st = length (V1.executing st).
Proof.
  intros Hinv Hord Hnd Hj.
  apply Nat.le_antisymm; [by eapply loop_pending_le|].
  unfold V1.pending, V1.in_flight_tasks.
  apply submseteq_length, NoDup_submseteq; [done|].
  intros i Hi. pose proof (li_exec_lt _ _ _ Hinv i Hi) as Hlt.
  rewrite (li_index _ _ _ Hinv) in Hlt.
  apply list_elem_of_filter. split; [|apply elem_of_seq; lia].
  destruct (lookup_lt_is_Some_2 _ _ Hlt) as [[rs|r] Hp]; [by exists rs|].
  destruct (lo_callback _ Hord i r Hp Hi) as [r' Hr'].
  rewrite Hj in Hr'. by apply elem_of_nil in Hr'.
Qed.
End LoopMeasure.
Section V1Complete.
Context {V E : Type}.
Implicit Types (inp : input V E) (opts : option Options).
Implicit Types (ts : list (thunk V E)) (K : Z).

Lemma settlements_Settle (sched : list nat) :
  settlements (V1.Settle <$> sched) = sched.
Proof. induction sched as [|i sched IH]; [done|]. simpl. by f_equal. Qed.

(** The bounded loop of [src/src/all.ts] returns: every run can be
    continued to one in which the function has returned, when every
    task settles. *)
Lemma V1_loop_completes ts opts K acts :
  concurrency_of opts = Num K → (1 ≤ K)%Z → ts ≠ [] →
  (∀ i, i < length ts → is_Some ((ts !! i) ≫= thunk_outcome)) →
  ∃ more,
    is_Some (V1.outcome (V1.run (V1.all (Thunks ts) opts) (acts ++ more))).
Proof.
  intros HK H1 Hn Hall.
  destruct (V1_all_thunks_cases ts opts K HK) as [[-> Heq]|[_ Heq]]; [done|].
  rewrite Heq. clear Heq.
  destruct (loop_start_live K ts H1 Hn) as [Hinv0 Hlive0].
  destruct (loop_run_live (mode_of opts) K ts acts _ H1 Hinv0 Hlive0)
    as [Hinv Hlive].
  pose proof (loop_run_order (mode_of opts) K ts acts _ Hinv0
                (loop_start_order K ts ltac:(lia))) as Hord.
  destruct (loop_completes (mode_of opts) K ts (length ts) _ H1 Hinv Hlive
              Hord Hall ltac:(lia)) as [more Hmore].
  exists more. rewrite V1_run_app, !V1_run_lazy. done.
Qed.

Lemma V1_completes inp opts acts :
  match concurrency_of opts with Unbounded => True | Num k => (1 ≤ k)%Z end →
  (∀ i, i < input_length inp → is_Some (settles_to (as_promises inp) i)) →
  ∃ more,
    is_Some (V1.outcome (V1.run (V1.all inp opts) (acts ++ more))).
Proof.
  intros HK Hall.
  assert ((first_is_function inp = false ∨ concurrency_of opts = Unbounded)
          ∨ ∃ t ts K, inp = Thunks (t :: ts) ∧ concurrency_of opts = Num K)
    as [Heager|(t & ts & K & -> & HKeq)].
  { destruct inp as [ps|[|t ts]]; [left; by left..|].
    destruct (concurrency_of opts) as [|K]; [left; by right|].
    right. by exists t, ts, K. }
  - rewrite V1_all_eager by done. rewrite <-as_promises_length in Hall.
    destruct (eager_run_clean_or_resolved (mode_of opts) (as_promises inp)
                (settlements acts) _ (V1_allEager_clean _ _)) as [Hc|Hres].
    + destruct (eager_completes _ _ _ Hc Hall) as [more Hmore].
      exists (V1.Settle <$> more).
      rewrite V1_run_eager, settlements_app, settlements_Settle.
      unfold eager_run. rewrite foldl_app. done.
    + exists []. by rewrite app_nil_r, V1_run_eager.
  - rewrite HKeq in HK. apply (V1_loop_completes _ _ K); [done..|].
    intros i Hi. rewrite <-settles_to_thunks. apply Hall.
    cbn [input_length]. done.
Qed.

(** When no job is queued, the promises in [executing] are those of the
    tasks in flight; so the pool of the bounded loop is full then, or no
    factory is left in the queue. *)
Lemma V1_loop_rest ts opts K acts :
  concurrency_of opts = Num K → (1 ≤ K)%Z →
  V1.at_rest (V1.run (V1.all (Thunks ts) opts) acts) →
  V1.executing_size (V1.run (V1.all (Thunks ts) opts) acts)
  = V1.tasks_in_flight (V1.run (V1.all (Thunks ts) opts) acts).
Proof.
  intros HK H1.
  destruct (V1_all_thunks_cases ts opts K HK) as [[-> Heq]|[Hn Heq]];
    rewrite Heq; clear Heq.
  - rewrite V1_run_eager. cbn [V1.tasks_in_flight V1.executing_size].
    assert (e_status (V1.allEager (V:=V) (E:=E) [] (mode_of opts)) = [])
      as Hnil by (by destruct (mode_of opts)).
    rewrite eager_run_nil by done. by rewrite Hnil.
  - rewrite V1_run_lazy.
    cbn [V1.tasks_in_flight V1.executing_size V1.at_rest].
    destruct (loop_start_live K ts H1 Hn) as [Hinv0 Hlive0].
    intros Hrest. symmetry. eapply loop_rest_executing; [| | |done].
    + by apply loop_run_inv.
    + apply loop_run_order; [done|]. apply loop_start_order. lia.
    + eapply loop_run_executing_NoDup; [done|].
      apply loop_start_executing_NoDup. lia.
Qed.

(** The promises in [executing], settled or not, are never more than
    [K], and the tasks in flight are among them. *)
Lemma V1_loop_executing_bound ts opts K acts :
  concurrency_of opts = Num K → (1 ≤ K)%Z →
  V1.tasks_in_flight (V1.run (V1.all (Thunks ts) opts) acts)
  ≤ V1.executing_size (V1.run (V1.all (Thunks ts) opts) acts) ∧
  (Z.of_nat (V1.executing_size (V1.run (V1.all (Thunks ts) opts) acts))
   ≤ K)%Z.
Proof.
  intros HK H1.
  destruct (V1_all_thunks_cases ts opts K HK) as [[-> Heq]|[Hn Heq]];
    rewrite Heq; clear Heq.
  - rewrite V1_run_eager. cbn [V1.tasks_in_flight V1.executing_size].
    assert (e_status (V1.allEager (V:=V) (E:=E) [] (mode_of opts)) = [])
      as Hnil by (by destruct (mode_of opts)).
    rewrite eager_run_nil by done. rewrite Hnil.
    change (in_flight []) with 0. cbn [length]. lia.
  - rewrite V1_run_lazy. cbn [V1.tasks_in_flight V1.executing_size].
    destruct (loop_start_live K ts H1 Hn) as [Hinv0 _].
    pose proof (loop_run_inv (mode_of opts) K ts acts _ Hinv0) as Hinv.
    split; [by eapply loop_pending_le|apply Hinv].
Qed.

Lemma V1_loop_full ts opts K acts :
  concurrency_of opts = Num K → (1 ≤ K)%Z →
  V1.outcome (V1.run (V1.all (Thunks ts) opts) acts) = None →
  V1.at_rest (V1.run (V1.all (Thunks ts) opts) acts) →
  Z.of_nat (V1.tasks_in_flight (V1.run (V1.all (Thunks ts) opts) acts)) = K ∨
  V1.queue_length (V1.run (V1.all (Thunks ts) opts) acts) = 0.
Proof.
  intros HK H1 Hnone Hrest.
  rewrite <-(V1_loop_rest ts opts K acts) by done.
  by apply V1_loop_bound.
Qed.
End V1Complete.
Section LoopSequential.
Context {V E : Type}.
Implicit Types (ts : list (thunk V E)) (st : V1.loop V E).

(** With concurrency 1 [fill] calls one factory, when nothing is
    executing and the queue is not empty. *)
Lemma fill_one q st :
  V1.fill 1 q st
  = match V1.executing st, q with
    | [], t :: rest => V1.start t rest st
    | _, _ => st
    end.
Proof.
  destruct q as [|t rest]; cbn [V1.fill];
    destruct (V1.executing st) as [|j l] eqn:He; cbn [length];
    case_decide; try lia; try done.
  destruct rest as [|t' rest']; cbn [V1.fill V1.start V1.executing];
    rewrite He; cbn [app length]; case_decide; try lia; done.
Qed.

Lemma no_resume_count (l : list (@V1.job V E)) :
  length (filter (λ j, is_resume j = true) l) = 0 →
  ∀ w, V1.JResume w ∉ l.
Proof.
  intros Hz w Hin. apply length_zero_iff_nil in Hz.
  assert (V1.JResume w ∈ filter (λ j, is_resume j = true) l) as Hf
    by (by apply list_elem_of_filter).
  rewrite Hz in Hf. by apply elem_of_nil in Hf.
Qed.

Lemma count_no_resume (l : list (@V1.job V E)) :
  (∀ w, V1.JResume w ∉ l) →
  length (filter (λ j, is_resume j = true) l) = 0.
Proof.
  intros Hno. rewrite no_resume_filter; [done|].
  intros [rc i r|w] Hin; [done|]. by destruct (Hno w).
Qed.

Lemma iterate_seq ts st :
  loop_inv 1 ts st → loop_order st →
  (∀ j, j ∈ V1.executing st → S j = V1.index st) →
  (∀ w, V1.JResume w ∉ V1.jobs st) →
  loop_seq (V1.iterate 1 st) ∧ V1.index (V1.iterate 1 st) ≤ S (V1.index st).
Proof.
  intros Hinv Hord Hex Hno. unfold V1.iterate.
  pose proof (fill_order 1 ts (V1.queue st) st Hinv Hord eq_refl) as Hord1.
  set (st1 := V1.fill 1 (V1.queue st) st) in *.
  assert ((∀ j, j ∈ V1.executing st1 → S j = V1.index st1) ∧
          (∀ w, V1.JResume w ∉ V1.jobs st1) ∧
          V1.index st1 ≤ S (V1.index st)) as (Hex1 & Hno1 & Hidx1).
  { subst st1. rewrite fill_one.
    destruct (decide (V1.executing st = [])) as [He|He]; cycle 1.
    { assert (∀ q, match V1.executing st, q with
                   | [], t :: rest => V1.start t rest st
                   | _, _ => st
                   end = st) as ->; [|by auto].
      intros q. by destruct (V1.executing st). }
    rewrite He. destruct (V1.queue st) as [|t rest]; [by auto|].
    cbn [V1.start V1.executing V1.index V1.jobs]. split_and!; [| |lia].
    - intros j Hj. rewrite He in Hj.
      by apply list_elem_of_singleton in Hj as ->.
    - intros w Hw. apply elem_of_app in Hw as [Hw|Hw]; [by eapply Hno|].
      destruct t; [|by apply elem_of_nil in Hw].
      by apply list_elem_of_singleton in Hw. }
  destruct (race_same st1) as (He & _ & _ & Hi & Hr & _).
  destruct (race_jobs st1) as (extra & Hj & _ & Hextra).
  destruct (race_racing st1) as [_ Hracing].
  split; [|by rewrite Hi]. split; rewrite ?He, ?Hi, ?Hj, ?Hr.
  - done.
  - intros w Hw. apply elem_of_app in Hw as [Hw|Hw]; [by destruct (Hno1 w)|].
    by destruct (Hextra _ Hw) as (i & r & ? & _).
  - intros k j r Hin Hk. rewrite length_app in Hk. simpl in Hk.
    apply elem_of_app in Hin as [Hin|Hin].
    + apply (lo_race_jobs _ Hord1) in Hin. lia.
    + destruct (Hextra _ Hin) as (i & r' & Heq & Hi'). simplify_eq.
      by apply Hex1.
  - rewrite list.filter_app, length_app, (count_no_resume _ Hno1).
    rewrite (no_resume_filter extra).
    + rewrite decide_True by done. simpl. lia.
    + intros j Hin. by destruct (Hextra _ Hin) as (i & r & -> & _).
Qed.

Lemma loop_start_seq ts : loop_seq (V1.iterate 1 (V1.loop_init ts)).
Proof.
  apply (iterate_seq ts).
  - by apply loop_init_inv.
  - apply loop_init_order.
  - intros j Hj. by apply elem_of_nil in Hj.
  - intros w Hw. by apply elem_of_nil in Hw.
Qed.

(** Taking a job off the queue in a state that differs only in what
    the sequential invariant does not look at. *)
Lemma seq_pop st st' j js :
  loop_seq st → V1.jobs st = j :: js →
  V1.jobs st' = js →
  V1.promises st' = V1.promises st →
  V1.index st' = V1.index st →
  length (V1.races st') = length (V1.races st) →
  (∀ i, i ∈ V1.executing st' → i ∈ V1.executing st) →
  (racing st' → racing st) →
  loop_seq st'.
Proof.
  intros [H1 H2 H3 H4] Hj Hj' Hp Hi Hr He Hrace.
  split; rewrite ?Hj', ?Hp, ?Hi, ?Hr.
  - intros i Hin. by apply H1, He.
  - intros w Hin. apply H2. rewrite Hj. by right.
  - intros k i r Hin. apply (H3 k i r). rewrite Hj. by right.
  - rewrite Hj, filter_cons in H4.
    destruct (decide (racing st')) as [Hrc|_];
      [rewrite (decide_True (P:=racing st)) in H4 by auto|];
      destruct (decide (is_resume j = true)); simpl in H4; lia.
Qed.

Lemma finish_seq x st : loop_seq st → loop_seq (V1.finish x st).
Proof. by intros []. Qed.

Lemma tick_seq mode ts st :
  loop_inv 1 ts st → loop_order st → loop_seq st →
  loop_seq (V1.tick mode 1 st).
Proof.
  intros Hinv Hord Hseq. unfold V1.tick.
  destruct (V1.jobs st) as [|j js] eqn:Hj; [done|].
  destruct j as [[|k0] i r|w]; cbn [V1.run_job].
  - apply (seq_pop st _ _ js Hseq Hj); try done.
    cbn [V1.loop_then V1.executing V1.set_jobs]. intros j Hin.
    by apply list_elem_of_filter in Hin as [_ ?].
  - unfold V1.race_react.
    cbn [V1.set_jobs V1.races V1.jobs V1.promises V1.executing V1.queue
         V1.results V1.index V1.returned].
    destruct (V1.races st !! k0) as [[|]|] eqn:Hk0.
    + by apply (seq_pop st _ _ js Hseq Hj).
    + destruct (decide (S k0 = length (V1.races st))) as [Hlast|Hold].
      * assert (k0 = current st) as Hcur by (unfold current; lia).
        assert (racing st) as Hracing
          by (unfold racing; by rewrite <-Hcur).
        destruct Hseq as [H1 H2 H3 H4].
        rewrite decide_True in H4 by done.
        assert (∀ w, V1.JResume w ∉ js) as Hno.
        { intros w Hw. apply (no_resume_count (V1.jobs st) ltac:(lia) w).
          rewrite Hj. by right. }
        split; cbn [V1.jobs V1.promises V1.executing V1.index V1.races];
          rewrite ?length_insert.
        -- done.
        -- intros w Hw. apply elem_of_app in Hw as [Hw|Hw];
             [by destruct (Hno w)|].
           apply list_elem_of_singleton in Hw.
           assert (w = r) as -> by congruence.
           exists i. split.
           ++ apply (H3 k0 i r); [rewrite Hj; by left|done].
           ++ apply (li_jobs _ _ _ Hinv (V1.RRace k0)). rewrite Hj. by left.
        -- intros k j r' Hin. apply elem_of_app in Hin as [Hin|Hin].
           ++ apply (H3 k j r'). rewrite Hj. by right.
           ++ by apply list_elem_of_singleton in Hin.
        -- rewrite list.filter_app, length_app, (count_no_resume _ Hno).
           rewrite decide_False; [simpl; lia|].
           unfold racing, current. cbn [V1.races].
           rewrite length_insert. fold (current st). rewrite <-Hcur.
           rewrite list_lookup_insert_eq by (by eapply lookup_lt_Some).
           done.
      * apply (seq_pop st _ _ js Hseq Hj); try done.
        -- cbn [V1.races]. by rewrite length_insert.
        -- unfold racing, current. cbn [V1.races].
           rewrite length_insert. fold (current st).
           intros Hr. rewrite list_lookup_insert_ne in Hr; [done|].
           intros ->. rewrite list_lookup_insert_eq in Hr; [done|].
           by eapply lookup_lt_Some.
    + by apply (seq_pop st _ _ js Hseq Hj).
  - assert (loop_seq (V1.set_jobs js st)) as Hseq'
      by (by apply (seq_pop st _ _ js Hseq Hj)).
    assert (loop_seq (V1.iterate 1 (V1.set_jobs js st))) as Hit.
    { apply (iterate_seq ts).
      - by eapply set_jobs_inv.
      - by eapply pop_order.
      - apply Hseq'.
      - destruct Hseq as [_ _ _ H4].
        rewrite Hj, filter_cons, decide_True in H4 by done.
        apply no_resume_count. simpl in H4. cbn [V1.set_jobs V1.jobs].
        lia. }
    unfold V1.resume.
    destruct mode, w; try case_decide; try done; by apply finish_seq.
Qed.

Lemma settle_seq ts st i :
  loop_inv 1 ts st → loop_seq st → loop_seq (V1.settle ts i st).
Proof.
  intros Hinv Hseq.
  destruct (settle_cases ts i st) as [->|(rs & r & Hi & Hr & ->)]; [done|].
  destruct Hseq as [H1 H2 H3 H4].
  split; cbn [V1.jobs V1.promises V1.executing V1.index V1.races].
  - done.
  - intros w Hw. apply elem_of_app in Hw as [Hw|Hw].
    + destruct (H2 w Hw) as (j & Hj & Hp). exists j. split; [done|].
      rewrite list_lookup_insert_ne; [done|]. intros ->. congruence.
    + apply list_elem_of_fmap in Hw as (rc & Heq & _). done.
  - intros k j r' Hin Hk. apply elem_of_app in Hin as [Hin|Hin].
    + by eapply H3.
    + apply list_elem_of_fmap in Hin as (rc & Heq & _). simplify_eq.
      apply H1. by eapply (li_pending _ _ _ Hinv).
  - rewrite list.filter_app, length_app.
    rewrite (no_resume_filter (_ <$> rs));
      [cbn [length]; destruct (decide _); lia|].
    intros j Hin. by apply list_elem_of_fmap in Hin as (rc & -> & _).
Qed.

Lemma loop_run_seq mode ts acts st :
  loop_inv 1 ts st → loop_order st → loop_seq st →
  loop_seq (foldl (V1.loop_step mode 1 ts) st acts).
Proof.
  revert st. induction acts as [|a acts IH]; intros st Hinv Hord Hseq;
    [done|].
  simpl. apply IH.
  - by apply loop_step_inv.
  - by eapply loop_step_order.
  - destruct a as [i|]; cbn [V1.loop_step].
    + by eapply settle_seq.
    + by eapply tick_seq.
Qed.
End LoopSequential.
Section V1Sequential.
Context {V E : Type}.
Implicit Types (ts : list (thunk V E)) (st : V1.loop V E).
Implicit Types (opts : option Options).

Lemma iterate_index st : V1.index (V1.iterate 1 st) ≤ S (V1.index st).
Proof.
  unfold V1.iterate.
  destruct (race_same (V1.fill 1 (V1.queue st) st)) as (_ & _ & _ & -> & _).
  rewrite fill_one.
  destruct (V1.executing st), (V1.queue st); cbn [V1.start V1.index]; lia.
Qed.

Lemma iterate_returned K st :
  V1.returned (V1.iterate K st) = V1.returned st.
Proof.
  unfold V1.iterate.
  destruct (race_same (V1.fill K (V1.queue st) st))
    as (_ & _ & _ & _ & _ & ->).
  apply fill_same.
Qed.

(** Default mode with concurrency 1, task [i] failing with [e]: no task
    after [i] is started, and if no other task fails, nothing but
    [Err e] is returned. *)
Lemma tick_seq_stops ts st i e :
  loop_inv 1 ts st → loop_seq st →
  (ts !! i) ≫= thunk_outcome = Some (Err e) →
  V1.index st ≤ S i → V1.index (V1.tick Default 1 st) ≤ S i.
Proof.
  intros Hinv Hseq He Hidx. unfold V1.tick.
  destruct (V1.jobs st) as [|j js] eqn:Hj; [done|].
  destruct j as [[|k0] j r|w]; cbn [V1.run_job]; [done| |].
  - unfold V1.race_react. cbn [V1.set_jobs V1.races].
    by destruct (V1.races st !! k0) as [[|]|].
  - unfold V1.resume. destruct w as [v|e']; [|done].
    case_decide; [|done].
    destruct (sq_resume _ Hseq (Ok v)) as (j & Hjx & Hp);
      [rewrite Hj; by left|].
    pose proof (li_fulfilled _ _ _ Hinv j _ Hp) as Hout.
    assert (j ≠ i) as Hne by (intros ->; congruence).
    pose proof (iterate_index (V1.set_jobs js st)) as Hit.
    cbn [V1.set_jobs V1.index] in Hit. lia.
Qed.

Lemma tick_seq_returned ts st i e :
  loop_inv 1 ts st → loop_seq st →
  (ts !! i) ≫= thunk_outcome = Some (Err e) →
  (∀ j r, j ≠ i → (ts !! j) ≫= thunk_outcome = Some r → isErr r = false) →
  V1.index st ≤ S i →
  (∀ x, V1.returned st = Some x → x = RetResult (Err e)) →
  ∀ x, V1.returned (V1.tick Default 1 st) = Some x → x = RetResult (Err e).
Proof.
  intros Hinv Hseq He Hok Hidx Hret. unfold V1.tick.
  destruct (V1.jobs st) as [|j js] eqn:Hj; [done|].
  destruct j as [[|k0] j r|w]; cbn [V1.run_job]; [done| |].
  - unfold V1.race_react. cbn [V1.set_jobs V1.races].
    by destruct (V1.races st !! k0) as [[|]|].
  - destruct (sq_resume _ Hseq w) as (j & Hjx & Hp);
      [rewrite Hj; by left|].
    pose proof (li_fulfilled _ _ _ Hinv j _ Hp) as Hout.
    unfold V1.resume. destruct w as [v|e'].
    + assert (j ≠ i) as Hne by (intros ->; congruence).
      case_decide as Hgo.
      * by rewrite iterate_returned.
      * exfalso. cbn [V1.set_jobs V1.executing V1.queue] in Hgo.
        assert (i < length ts) as Hlt.
        { apply lookup_lt_is_Some. destruct (ts !! i); [eauto|done]. }
        pose proof (li_queue _ _ _ Hinv) as Hq.
        assert (length (V1.queue st) = 0) as Hq0 by lia.
        rewrite Hq, length_drop in Hq0. lia.
    + intros x Hx. cbn [V1.finish V1.returned] in Hx. simplify_eq.
      destruct (decide (j = i)) as [->|Hne]; [congruence|].
      by specialize (Hok j _ Hne Hout).
Qed.

Lemma loop_run_sequential ts acts st i e :
  loop_inv 1 ts st → loop_order st → loop_seq st →
  (ts !! i) ≫= thunk_outcome = Some (Err e) →
  V1.index st ≤ S i →
  V1.index (foldl (V1.loop_step Default 1 ts) st acts) ≤ S i ∧
  ((∀ j r, j ≠ i → (ts !! j) ≫= thunk_outcome = Some r →
           isErr r = false) →
   (∀ x, V1.returned st = Some x → x = RetResult (Err e)) →
   ∀ x, V1.returned (foldl (V1.loop_step Default 1 ts) st acts) = Some x →
        x = RetResult (Err e)).
Proof.
  intros Hinv Hord Hseq He. revert st Hinv Hord Hseq.
  induction acts as [|a acts IH]; intros st Hinv Hord Hseq Hidx; [done|].
  simpl.
  assert (V1.index (V1.loop_step Default 1 ts st a) ≤ S i) as Hidx'.
  { destruct a as [j|]; cbn [V1.loop_step].
    - by destruct (settle_cases ts j st) as [->|(rs & r & _ & _ & ->)].
    - by eapply tick_seq_stops. }
  assert (loop_seq (V1.loop_step Default 1 ts st a)) as Hseq'.
  { destruct a as [j|]; cbn [V1.loop_step].
    - by eapply settle_seq.
    - by eapply tick_seq. }
  destruct (IH (V1.loop_step Default 1 ts st a)) as [Hb Hr];
    [by apply loop_step_inv|by eapply loop_step_order|done..|].
  split; [done|]. intros Hok Hret. apply Hr; [done|].
  destruct a as [j|]; cbn [V1.loop_step].
  - by destruct (settle_cases ts j st) as [->|(rs & r & _ & _ & ->)].
  - by eapply tick_seq_returned.
Qed.

(** With concurrency 1 the bounded loop of [src/src/all.ts] is
    sequential and stops at the first task that fails. *)
Lemma V1_sequential_stops ts opts i e acts :
  mode_of opts = Default → concurrency_of opts = Num 1 →
  (ts !! i) ≫= thunk_outcome = Some (Err e) →
  V1.started_tasks (V1.run (V1.all (Thunks ts) opts) acts) ≤ S i ∧
  ((∀ j r, j ≠ i → (ts !! j) ≫= thunk_outcome = Some r →
           isErr r = false) →
   ∀ x, V1.outcome (V1.run (V1.all (Thunks ts) opts) acts) = Some x →
        x = RetResult (Err e)).
Proof.
  intros Hm HK He.
  destruct (V1_all_thunks_cases ts opts 1 HK) as [[-> Heq]|[Hn Heq]];
    [by rewrite lookup_nil in He|].
  rewrite Heq, Hm, V1_run_lazy. clear Heq.
  cbn [V1.started_tasks V1.outcome].
  destruct (loop_start_live 1 ts ltac:(lia) Hn) as [Hinv0 _].
  pose proof (loop_start_order 1 ts ltac:(lia)) as Hord0.
  pose proof (loop_start_seq ts) as Hseq0.
  pose proof (iterate_index (V1.loop_init ts)) as Hidx0.
  cbn [V1.loop_init V1.index] in Hidx0.
  destruct (loop_run_sequential ts acts _ i e Hinv0 Hord0 Hseq0 He
              ltac:(lia)) as [Hb Hr].
  split.
  - by rewrite <-(li_index _ _ _ (loop_run_inv Default 1 ts acts _ Hinv0)).
  - intros Hok. apply Hr; [done|].
    intros x. by rewrite iterate_returned.
Qed.
End V1Sequential.
Section LoopDefault.
Context {V E : Type}.
Implicit Types (ts : list (thunk V E)) (st : V1.loop V E) (K : Z).
Implicit Types (r : Result V E) (a : list (option (any V E))).

Lemma slot_array_set_eq a i x : slot (array_set a i x) i = Some x.
Proof. unfold slot. by rewrite lookup_array_set_eq. Qed.

Lemma slot_array_set_ne a i j x :
  i ≠ j → slot (array_set a i x) j = slot a j.
Proof.
  intros Hne. unfold slot.
  destruct (decide (j < length a)) as [Hj|Hj].
  { by rewrite lookup_array_set_ne. }
  rewrite (lookup_ge_None_2 a j) by lia.
  destruct (decide (j < i)) as [Hji|Hji].
  - by rewrite lookup_array_set_hole by lia.
  - rewrite lookup_ge_None_2; [done|]. rewrite length_array_set. lia.
Qed.

Lemma slot_past a i : length a ≤ i → slot a i = None.
Proof. intros Hi. unfold slot. by rewrite lookup_ge_None_2. Qed.

Lemma slot_Some a i x : slot a i = Some x → a !! i = Some (Some x).
Proof. unfold slot. by destruct (a !! i) as [[y|]|]; intros; simplify_eq/=. Qed.

Lemma array_set_same a i x : slot a i = Some x → array_set a i x = a.
Proof.
  intros Hs. apply slot_Some in Hs. unfold array_set.
  rewrite decide_True by (by eapply lookup_lt_Some).
  by apply list_insert_id.
Qed.

Lemma start_default st t rest :
  loop_default st → V1.index st = length (V1.promises st) →
  V1.queue st = t :: rest →
  loop_default (V1.start t rest st).
Proof.
  intros [Hlen Hdone Hun Hret] Hidx Hq.
  split; cbn [V1.start V1.results V1.index V1.executing V1.promises
              V1.returned V1.queue].
  - lia.
  - intros i Hi Hout. apply not_elem_of_app in Hout as [Hout Hne].
    rewrite list_elem_of_singleton in Hne.
    destruct (Hdone i) as (r & Hp & Hr); [lia|done|].
    exists r. split; [|done]. rewrite lookup_app_l; [done|].
    by eapply lookup_lt_Some.
  - intros i Hi. apply elem_of_app in Hi as [Hi|Hi]; [by apply Hun|].
    apply list_elem_of_singleton in Hi as ->. by apply slot_past.
  - intros data Hx. destruct (Hret data Hx) as (_ & Hq' & _). congruence.
Qed.

Lemma fill_default K ts q st :
  loop_inv K ts st → loop_default st → V1.queue st = q →
  loop_default (V1.fill K q st).
Proof.
  revert st. induction q as [|t rest IH]; intros st Hinv Hs Hq;
    cbn [V1.fill].
  - by case_decide.
  - case_decide as Hsz; [|done].
    apply IH; [by apply start_inv| |done].
    apply start_default; [done| |done]. by destruct Hinv.
Qed.

Lemma subscribe_default k st i :
  loop_default st → loop_default (V1.subscribe k st i).
Proof.
  intros [Hlen Hdone Hun Hret].
  destruct (subscribe_same k st i) as (He & Hq & Hr & Hi & _ & Hx).
  split; rewrite ?He, ?Hq, ?Hr, ?Hi, ?Hx; [done| |done|done].
  intros j Hj Hout. destruct (Hdone j Hj Hout) as (r & Hp & Hres).
  exists r. split; [|done]. by apply subscribe_fulfilled.
Qed.

Lemma race_default st : loop_default st → loop_default (V1.race st).
Proof.
  intros Hs. unfold V1.race.
  assert (∀ k l st', loop_default st' →
            loop_default (foldl (V1.subscribe k) st' l)) as Hfold.
  { clear. intros k l. induction l as [|i l IH]; intros st' Hs; [done|].
    simpl. by apply IH, subscribe_default. }
  apply Hfold. by destruct Hs.
Qed.

Lemma iterate_default K ts st :
  loop_inv K ts st → loop_default st → loop_default (V1.iterate K st).
Proof.
  intros Hinv Hs. unfold V1.iterate. apply race_default.
  by apply (fill_default K ts).
Qed.

Lemma settle_default ts st i :
  loop_default st → loop_default (V1.settle ts i st).
Proof.
  intros [Hlen Hdone Hun Hret].
  destruct (settle_cases ts i st) as [->|(rs & r & Hi & Hr & ->)]; [done|].
  split; cbn [V1.results V1.index V1.executing V1.promises V1.returned
              V1.queue]; [done| |done|done].
  intros j Hj Hout. destruct (Hdone j Hj Hout) as (r' & Hp & Hres).
  exists r'. split; [|done].
  destruct (decide (i = j)) as [->|]; [congruence|].
  by rewrite list_lookup_insert_ne.
Qed.

Lemma loop_then_default K ts st i r :
  loop_inv K ts st → loop_default st →
  V1.promises st !! i = Some (V1.PFulfilled r) →
  loop_default (V1.loop_then Default i r st).
Proof.
  intros Hinv [Hlen Hdone Hun Hret] Hi.
  assert (i < V1.index st) as Hlt.
  { rewrite (li_index _ _ _ Hinv). by eapply lookup_lt_Some. }
  assert (slot (V1.results (V1.loop_then Default i r st)) i
          = cell Default r) as Hcell.
  { cbn [V1.loop_then V1.results]. destruct r as [v|e].
    - apply slot_array_set_eq.
    - destruct (decide (i ∈ V1.executing st)) as [Hin|Hout];
        [by apply Hun|].
      destruct (Hdone i Hlt Hout) as (r' & Hp & Hres). congruence. }
  assert (∀ j, j ≠ i →
            slot (V1.results (V1.loop_then Default i r st)) j
            = slot (V1.results st) j) as Hother.
  { intros j Hne. cbn [V1.loop_then V1.results].
    destruct r as [v|e]; [|done]. by apply slot_array_set_ne. }
  split; cbn [V1.loop_then V1.index V1.executing V1.promises V1.returned
              V1.queue].
  - cbn [V1.loop_then V1.results]. destruct r as [v|e]; [|done].
    rewrite length_array_set. lia.
  - intros j Hj Hout. destruct (decide (j = i)) as [->|Hne].
    + by exists r.
    + assert (j ∉ V1.executing st) as Hout'.
      { intros Hin. apply Hout. by apply list_elem_of_filter. }
      destruct (Hdone j Hj Hout') as (r' & Hp & Hres).
      exists r'. split; [done|]. by rewrite Hother.
  - intros j Hin. apply list_elem_of_filter in Hin as [Hne Hin].
    rewrite Hother by done. by apply Hun.
  - intros data Hx. destruct (Hret data Hx) as (He & Hq & ->).
    rewrite He. split_and!; [done..|].
    cbn [V1.loop_then V1.results]. destruct r as [v|e]; [|done].
    symmetry. apply array_set_same.
    destruct (Hdone i Hlt) as (r' & Hp & Hres).
    { rewrite He. apply not_elem_of_nil. }
    rewrite Hi in Hp. by simplify_eq.
Qed.

Lemma tick_default K ts st :
  loop_inv K ts st → loop_default st →
  loop_default (V1.tick Default K st).
Proof.
  intros Hinv Hs. unfold V1.tick.
  destruct (V1.jobs st) as [|j js] eqn:Hj; [done|].
  pose proof (set_jobs_inv K ts st j js Hinv Hj) as Hinv'.
  assert (loop_default (V1.set_jobs js st)) as Hs' by (by destruct Hs).
  destruct j as [[|k] i r|w]; cbn [V1.run_job].
  - apply (loop_then_default K ts); [done..|].
    cbn [V1.set_jobs V1.promises].
    apply (li_jobs _ _ _ Hinv V1.RThen). rewrite Hj. left.
  - unfold V1.race_react. cbn [V1.set_jobs V1.races].
    destruct (V1.races st !! k) as [[]|]; try done. by destruct Hs.
  - unfold V1.resume. destruct w as [v|e].
    + case_decide as Hc; [by apply (iterate_default K ts)|].
      destruct Hs as [Hlen Hdone Hun Hret].
      split; cbn [V1.finish V1.set_jobs V1.results V1.index V1.executing
                  V1.promises V1.returned V1.queue] in *; [done..|].
      intros data [= <-]. split_and!; [| |done].
      * destruct (V1.executing st); [done|]. destruct Hc. left.
        simpl. lia.
      * destruct (V1.queue st); [done|]. destruct Hc. right. simpl. lia.
    + destruct Hs as [Hlen Hdone Hun Hret].
      split; cbn [V1.finish V1.set_jobs V1.results V1.index V1.executing
                  V1.promises V1.returned V1.queue]; done.
Qed.

Lemma loop_run_default K ts acts st :
  loop_inv K ts st → loop_default st →
  loop_default (foldl (V1.loop_step Default K ts) st acts).
Proof.
  revert st. induction acts as [|a acts IH]; intros st Hinv Hs; [done|].
  simpl. apply IH; [by apply loop_step_inv|].
  destruct a as [i|]; cbn [V1.loop_step].
  - by apply settle_default.
  - by apply (tick_default K ts).
Qed.

Lemma loop_start_default K ts :
  (0 ≤ K)%Z → loop_default (V1.iterate K (V1.loop_init ts)).
Proof.
  intros HK. apply (iterate_default K ts); [by apply loop_init_inv|].
  split; cbn [V1.loop_init V1.results V1.index V1.executing V1.returned];
    [done| | |done].
  - intros i Hi. lia.
  - intros i Hi. by apply elem_of_nil in Hi.
Qed.

(** When the function has returned [Ok] of an array in default mode,
    every task has been started and has settled, and the array holds the
    value of each task that resolved to [Ok] at the task's index and
    nothing at the index of a task that failed. *)
Lemma loop_default_returned K ts st data :
  loop_inv K ts st → loop_default st →
  V1.returned st = Some (RetResult (Ok data)) →
  length (V1.promises st) = length ts ∧
  length data ≤ length ts ∧
  ∀ i, i < length ts →
       ∃ r, (ts !! i) ≫= thunk_outcome = Some r ∧
            slot data i = cell Default r.
Proof.
  intros Hinv [Hlen Hdone Hun Hret] Hx.
  destruct (Hret data Hx) as (He & Hqe & ->).
  assert (V1.index st = length ts) as HN.
  { pose proof (li_queue _ _ _ Hinv) as Hq. pose proof (li_bound _ _ _ Hinv).
    rewrite Hqe in Hq. symmetry in Hq. apply drop_nil_inv in Hq. lia. }
  split_and!.
  - by rewrite <-(li_index _ _ _ Hinv).
  - lia.
  - intros i Hi. destruct (Hdone i) as (r & Hp & Hres); [lia| |].
    { rewrite He. apply not_elem_of_nil. }
    exists r. split; [|done]. by apply (li_fulfilled _ _ _ Hinv).
Qed.

Lemma all_fmap {A B} (f : A → B) (l : list B) :
  (∀ i, i < length l → ∃ x, l !! i = Some (f x)) →
  ∃ xs, l = f <$> xs.
Proof.
  induction l as [|y l IH]; intros Hl; [by exists []|].
  destruct (Hl 0) as [x Hx]; [simpl; lia|]. simpl in Hx. simplify_eq.
  destruct IH as [xs ->].
  { intros i Hi. apply (Hl (S i)). simpl. lia. }
  by exists (x :: xs).
Qed.

(** An array whose slots hold the values [vs] is the array of [vs]. *)
Lemma slots_all_ok (outs : list (option (Result V E))) data :
  length data ≤ length outs →
  (∀ i, i < length outs →
        ∃ r, outs !! i = Some (Some r) ∧ isErr r = false ∧
             slot data i = cell Default r) →
  ∃ vs, outs = (λ v, Some (Ok v)) <$> vs ∧
        data = (λ v, Some (AVal v)) <$> vs.
Proof.
  intros Hlen Hcells.
  destruct (all_fmap (λ v : V, Some (@Ok V E v)) outs) as [vs Hvs].
  { intros i Hi. destruct (Hcells i Hi) as ([v|e] & Hr & Hok & _); [|done].
    by exists v. }
  exists vs. split; [done|]. apply list_eq. intros i.
  rewrite list_lookup_fmap.
  assert (length vs = length outs) as Hl by (by rewrite Hvs, length_fmap).
  destruct (decide (i < length outs)) as [Hi|Hi].
  - destruct (Hcells i Hi) as ([v|e] & Hr & Hok & Hs); [|done].
    rewrite Hvs, list_lookup_fmap in Hr.
    destruct (vs !! i) as [v'|]; simplify_eq/=.
    by apply slot_Some in Hs.
  - rewrite lookup_ge_None_2 by lia. by rewrite lookup_ge_None_2 by lia.
Qed.
End LoopDefault.
Section LoopRelay.
Context {V E : Type}.
Implicit Types (ts : list (thunk V E)) (st : V1.loop V E) (K : Z).
Implicit Types (r : Result V E).

(** A settled promise stays as it is. *)
Lemma start_settled_as st t rest r :
  settled_as st r → settled_as (V1.start t rest st) r.
Proof.
  intros [j Hj]. exists j. cbn [V1.start V1.promises].
  by apply lookup_app_l_Some.
Qed.

Lemma fill_settled_as K q st r :
  settled_as st r → settled_as (V1.fill K q st) r.
Proof.
  revert st. induction q as [|t rest IH]; intros st Hs; cbn [V1.fill];
    case_decide; try done.
  by apply IH, start_settled_as.
Qed.

Lemma race_settled_as st r : settled_as st r → settled_as (V1.race st) r.
Proof.
  unfold V1.race.
  assert (∀ k l st', settled_as st' r →
            settled_as (foldl (V1.subscribe k) st' l) r) as Hfold.
  { clear. intros k l. induction l as [|i l IH]; intros st' Hs; [done|].
    simpl. apply IH. destruct Hs as [j Hj]. exists j.
    by apply subscribe_fulfilled. }
  intros [j Hj]. apply Hfold. by exists j.
Qed.

Lemma iterate_settled_as K st r :
  settled_as st r → settled_as (V1.iterate K st) r.
Proof. intros Hs. unfold V1.iterate. by apply race_settled_as, fill_settled_as. Qed.

Lemma settle_settled_as ts st i r :
  settled_as st r → settled_as (V1.settle ts i st) r.
Proof.
  intros [j Hj].
  destruct (settle_cases ts i st) as [->|(rs & r' & Hi & Hr & ->)];
    [by exists j|].
  exists j. cbn [V1.promises].
  destruct (decide (i = j)) as [->|]; [congruence|].
  by rewrite list_lookup_insert_ne.
Qed.

(** The jobs that [fill] and [race] queue are reaction jobs. *)
Lemma fill_jobs K q st :
  ∃ extra, V1.jobs (V1.fill K q st) = V1.jobs st ++ extra ∧
           ∀ j, j ∈ extra → is_resume j = false.
Proof.
  revert st. induction q as [|t rest IH]; intros st; cbn [V1.fill];
    case_decide;
    try (exists []; rewrite app_nil_r; split; [done|];
         intros j Hj; by apply elem_of_nil in Hj).
  destruct (IH (V1.start t rest st)) as (extra & -> & Hex).
  cbn [V1.start V1.jobs]. rewrite <-app_assoc. eexists. split; [done|].
  intros j Hj. apply elem_of_app in Hj as [Hj|Hj]; [|by apply Hex].
  destruct t; [|by apply elem_of_nil in Hj].
  by apply list_elem_of_singleton in Hj as ->.
Qed.

Lemma iterate_jobs K st :
  ∃ extra, V1.jobs (V1.iterate K st) = V1.jobs st ++ extra ∧
           ∀ j, j ∈ extra → is_resume j = false.
Proof.
  unfold V1.iterate.
  destruct (race_jobs (V1.fill K (V1.queue st) st))
    as (extra2 & -> & _ & Hex2).
  destruct (fill_jobs K (V1.queue st) st) as (extra1 & -> & Hex1).
  rewrite <-app_assoc. eexists. split; [done|].
  intros j Hj. apply elem_of_app in Hj as [Hj|Hj]; [by apply Hex1|].
  by destruct (Hex2 j Hj) as (i & r & -> & _).
Qed.

Lemma iterate_relay K st :
  loop_relay st → V1.returned st = None → loop_relay (V1.iterate K st).
Proof.
  intros [Hres Hret] Hnone. split.
  - intros w Hw. destruct (iterate_jobs K st) as (extra & Hj & Hex).
    rewrite Hj in Hw. apply elem_of_app in Hw as [Hw|Hw].
    + by apply iterate_settled_as, Hres.
    + by specialize (Hex _ Hw).
  - intros e He. rewrite iterate_returned in He. congruence.
Qed.

Lemma tick_relay mode K ts st :
  loop_inv K ts st → loop_once st → loop_relay st →
  loop_relay (V1.tick mode K st).
Proof.
  intros Hinv Honce Hrel. unfold V1.tick.
  destruct (V1.jobs st) as [|j js] eqn:Hj; [done|].
  destruct Hrel as [Hres Hret]. rewrite Hj in Hres.
  assert (loop_relay (V1.set_jobs js st)) as Hpop.
  { split; cbn [V1.set_jobs V1.jobs V1.returned]; [|done].
    intros w Hw. apply Hres. by right. }
  destruct j as [[|k] i r|w]; cbn [V1.run_job].
  - destruct Hpop as [Hres' Hret']. by split.
  - unfold V1.race_react. cbn [V1.set_jobs V1.races].
    destruct (V1.races st !! k) as [[|]|] eqn:Hk; [done| |done].
    destruct Hpop as [Hres' Hret']. split; [|done].
    cbn [V1.jobs]. intros w Hw. case_decide; [|by apply Hres'].
    apply elem_of_app in Hw as [Hw|Hw]; [by apply Hres'|].
    apply list_elem_of_singleton in Hw. assert (w = r) as -> by congruence.
    exists i. cbn [V1.promises].
    apply (li_jobs _ _ _ Hinv (V1.RRace k)). rewrite Hj. by left.
  - assert (V1.returned st = None) as Hnone.
    { destruct (V1.returned st) as [x|] eqn:Hx; [|done].
      destruct (on_returned _ Honce) as [_ Hno]; [by eexists|].
      destruct (Hno w). rewrite Hj. by left. }
    assert (settled_as st w) as Hw by (apply Hres; by left).
    assert (loop_relay (V1.iterate K (V1.set_jobs js st))) as Hit
      by (by apply iterate_relay).
    assert (∀ x, (∀ e, x = RetResult (Err e) → settled_as st (Err e)) →
              loop_relay (V1.finish x (V1.set_jobs js st))) as Hfin.
    { intros x Hx. destruct Hpop as [Hres' _]. split; [done|].
      cbn [V1.finish V1.returned]. intros e [= ->]. by apply Hx. }
    unfold V1.resume. destruct mode, w as [v|e]; try case_decide; try done.
    all: apply Hfin; intros e' Heq; by simplify_eq.
Qed.

Lemma settle_relay ts st i :
  loop_relay st → loop_relay (V1.settle ts i st).
Proof.
  intros [Hres Hret]. split.
  - intros w Hw. apply settle_settled_as.
    destruct (settle_cases ts i st) as [Heq|(rs & r & Hi & Hr & Heq)];
      rewrite Heq in Hw; [by apply Hres|].
    cbn [V1.jobs] in Hw. apply elem_of_app in Hw as [Hw|Hw];
      [by apply Hres|].
    by apply list_elem_of_fmap in Hw as (rc & ? & _).
  - intros e He. apply settle_settled_as, Hret.
    by destruct (settle_cases ts i st) as [Heq|(rs & r & Hi & Hr & Heq)];
      rewrite Heq in He.
Qed.
End LoopRelay.
Section LoopOnce.
Context {V E : Type}.
Implicit Types (ts : list (thunk V E)) (st : V1.loop V E) (K : Z).

Lemma iterate_once K st :
  (∀ w, V1.JResume w ∉ V1.jobs st) → V1.returned st = None →
  loop_once (V1.iterate K st).
Proof.
  intros Hno Hnone.
  destruct (iterate_jobs K st) as (extra & Hj & Hex).
  assert (racing (V1.iterate K st)) as Hracing.
  { unfold V1.iterate. apply race_racing. }
  split.
  - rewrite Hj, list.filter_app, length_app, (count_no_resume _ Hno).
    rewrite (no_resume_filter extra) by done.
    rewrite decide_True by done. simpl. lia.
  - rewrite iterate_returned, Hnone. by intros [? ?].
Qed.

Lemma loop_start_once K ts : loop_once (V1.iterate K (V1.loop_init ts)).
Proof.
  apply iterate_once; [|done]. intros w Hw. by apply elem_of_nil in Hw.
Qed.

(** Taking a job that is no continuation off the queue, in a state that
    differs only in what the invariant does not look at. *)
Lemma once_pop st st' j js :
  loop_once st → V1.jobs st = j :: js →
  V1.jobs st' = js →
  V1.returned st' = V1.returned st →
  (racing st' → racing st) →
  loop_once st'.
Proof.
  intros [H1 H2] Hj Hj' Hr Hrace. split; rewrite ?Hj', ?Hr.
  - rewrite Hj, filter_cons in H1.
    destruct (decide (racing st')) as [Hrc|_];
      [rewrite (decide_True (P:=racing st)) in H1 by auto|];
      destruct (decide (is_resume j = true)); simpl in H1; lia.
  - intros Hx. destruct (H2 Hx) as [Hnr Hno]. split; [by auto|].
    intros w Hw. apply (Hno w). rewrite Hj. by right.
Qed.

Lemma tick_once mode K st :
  loop_once st → loop_once (V1.tick mode K st).
Proof.
  intros Honce. unfold V1.tick.
  destruct (V1.jobs st) as [|j js] eqn:Hj; [done|].
  destruct j as [[|k0] i r|w]; cbn [V1.run_job].
  - by apply (once_pop st _ _ js Honce Hj).
  - unfold V1.race_react.
    cbn [V1.set_jobs V1.races V1.jobs V1.promises V1.executing V1.queue
         V1.results V1.index V1.returned].
    destruct (V1.races st !! k0) as [[|]|] eqn:Hk0.
    + by apply (once_pop st _ _ js Honce Hj).
    + destruct (decide (S k0 = length (V1.races st))) as [Hlast|Hold].
      * assert (k0 = current st) as Hcur by (unfold current; lia).
        assert (racing st) as Hracing
          by (unfold racing; by rewrite <-Hcur).
        destruct Honce as [H1 H2].
        rewrite decide_True in H1 by done.
        assert (∀ w, V1.JResume w ∉ js) as Hno.
        { intros w Hw. apply (no_resume_count (V1.jobs st) ltac:(lia) w).
          rewrite Hj. by right. }
        assert (¬ racing
                    {| V1.promises := V1.promises st;
                       V1.executing := V1.executing st;
                       V1.queue := V1.queue st;
                       V1.results := V1.results st;
                       V1.index := V1.index st;
                       V1.races := <[k0:=true]> (V1.races st);
                       V1.jobs := js ++ [V1.JResume r];
                       V1.returned := V1.returned st |}) as Hnr.
        { unfold racing, current. cbn [V1.races].
          rewrite length_insert. fold (current st). rewrite <-Hcur.
          rewrite list_lookup_insert_eq by (by eapply lookup_lt_Some).
          done. }
        split; cbn [V1.jobs V1.returned].
        -- rewrite list.filter_app, length_app, (count_no_resume _ Hno).
           rewrite decide_False by done. simpl. lia.
        -- intros Hx. by destruct (H2 Hx) as [? _].
      * apply (once_pop st _ _ js Honce Hj); try done.
        unfold racing, current. cbn [V1.races].
        rewrite length_insert. fold (current st).
        intros Hr. rewrite list_lookup_insert_ne in Hr; [done|].
        intros ->. rewrite list_lookup_insert_eq in Hr; [done|].
        by eapply lookup_lt_Some.
    + by apply (once_pop st _ _ js Honce Hj).
  - destruct Honce as [H1 H2].
    rewrite Hj, filter_cons, decide_True in H1 by done. simpl in H1.
    assert (¬ racing st) as Hnr.
    { intros Hr. rewrite decide_True in H1 by done. lia. }
    assert (∀ w', V1.JResume w' ∉ js) as Hno.
    { apply no_resume_count. lia. }
    assert (V1.returned st = None) as Hnone.
    { destruct (V1.returned st) as [x|] eqn:Hx; [|done].
      destruct H2 as [_ Hno']; [by eexists|].
      destruct (Hno' w). rewrite Hj. by left. }
    assert (loop_once (V1.iterate K (V1.set_jobs js st))) as Hit
      by (by apply iterate_once).
    assert (∀ x, loop_once (V1.finish x (V1.set_jobs js st))) as Hfin.
    { intros x. split; cbn [V1.finish V1.set_jobs V1.jobs V1.returned].
      - rewrite (count_no_resume _ Hno).
        change (racing _) with (racing st).
        rewrite decide_False by done. simpl. lia.
      - done. }
    unfold V1.resume.
    destruct mode, w; try destruct (decide (_ ∨ _)); done.
Qed.

Lemma settle_once ts st i : loop_once st → loop_once (V1.settle ts i st).
Proof.
  intros [H1 H2].
  destruct (settle_cases ts i st) as [->|(rs & r & Hi & Hr & ->)]; [done|].
  assert (∀ j, j ∈ (λ rc, V1.JReact rc i r) <$> rs → is_resume j = false)
    as Hre.
  { intros j Hin. by apply list_elem_of_fmap in Hin as (rc & -> & _). }
  split; cbn [V1.jobs V1.returned].
  - rewrite list.filter_app, length_app, (no_resume_filter _ Hre).
    cbn [length]. destruct (decide _); lia.
  - intros Hx. destruct (H2 Hx) as [Hnr Hno]. split; [done|].
    intros w Hw. apply elem_of_app in Hw as [Hw|Hw]; [by destruct (Hno w)|].
    by specialize (Hre _ Hw).
Qed.

Lemma loop_run_once mode K ts acts st :
  loop_once st → loop_once (foldl (V1.loop_step mode K ts) st acts).
Proof.
  revert st. induction acts as [|a acts IH]; intros st Honce; [done|].
  simpl. apply IH. destruct a as [i|]; cbn [V1.loop_step].
  - by apply settle_once.
  - by apply tick_once.
Qed.

(** After the function has returned, what it returned does not change
    and no factory is called. *)
Lemma loop_step_after_return mode K ts st a x :
  loop_once st → V1.returned st = Some x →
  V1.returned (V1.loop_step mode K ts st a) = Some x ∧
  length (V1.promises (V1.loop_step mode K ts st a))
  = length (V1.promises st).
Proof.
  intros [_ H2] Hx. destruct (H2 ltac:(by eexists)) as [_ Hno].
  destruct a as [i|]; cbn [V1.loop_step].
  - destruct (settle_cases ts i st) as [->|(rs & r & Hi & Hr & ->)];
      [done|].
    cbn [V1.returned V1.promises]. by rewrite length_insert.
  - unfold V1.tick. destruct (V1.jobs st) as [|j js] eqn:Hj; [done|].
    destruct j as [[|k0] i r|w]; cbn [V1.run_job]; [done| |].
    + unfold V1.race_react. cbn [V1.set_jobs V1.races].
      by destruct (V1.races st !! k0) as [[|]|].
    + destruct (Hno w). by left.
Qed.

Lemma loop_run_after_return mode K ts acts st x :
  loop_once st → V1.returned st = Some x →
  V1.returned (foldl (V1.loop_step mode K ts) st acts) = Some x ∧
  length (V1.promises (foldl (V1.loop_step mode K ts) st acts))
  = length (V1.promises st).
Proof.
  revert st. induction acts as [|a acts IH]; intros st Honce Hx; [done|].
  simpl.
  destruct (loop_step_after_return mode K ts st a x Honce Hx) as [Hx' Hl].
  destruct (IH (V1.loop_step mode K ts st a)) as [? ?]; [|done|].
  - destruct a as [i|]; cbn [V1.loop_step].
    + by apply settle_once.
    + by apply tick_once.
  - split; [done|]. congruence.
Qed.
End LoopOnce.
Section DefaultOutcome.
Context {V E : Type}.
Implicit Types (inp : input V E) (opts : option Options).
Implicit Types (ts : list (thunk V E)) (ps : list (option (Result V E))).

(** A run in default mode stays clean, or it has resolved to the error
    of a task. *)
Lemma eager_run_clean_or_failed ps sched est :
  eager_clean Default ps est →
  eager_clean Default ps (eager_run Default ps est sched) ∨
  ∃ i e, settles_to ps i = Some (Err e) ∧
         e_resolved (eager_run Default ps est sched)
         = Some (RetResult (Err e)).
Proof.
  revert est. induction sched as [|i sched IH]; intros est Hc; [by left|].
  simpl.
  destruct (eager_step_cases Default ps est i) as [Heq|(r & Hi & Hr & Heq)].
  { rewrite Heq. by apply IH. }
  destruct r as [v|e].
  - apply IH, eager_clean_step; [done|]. intros r' Hr'.
    rewrite Hr in Hr'. by simplify_eq.
  - right. exists i, e. split; [done|].
    apply eager_run_resolved. rewrite Heq. simpl.
    rewrite (ec_resolved _ _ _ Hc), decide_False; [done|].
    intros H0. by apply (proj1 (in_flight_zero _) H0 i).
Qed.

Lemma pool_run_clean_or_failed ts sched st :
  pool_clean Default ts st →
  pool_clean Default ts (foldl (V2.pool_step Default ts) st sched) ∨
  ∃ i e, (ts !! i) ≫= thunk_outcome = Some (Err e) ∧
         V2.resolved (foldl (V2.pool_step Default ts) st sched)
         = Some (RetResult (Err e)).
Proof.
  revert st. induction sched as [|i sched IH]; intros st Hc; [by left|].
  simpl.
  destruct (pool_step_cases Default ts st i)
    as [[Heq _]|(r & Hi & Hr & Heq)].
  { rewrite Heq. by apply IH. }
  destruct r as [v|e].
  - apply IH, pool_clean_step; [done|]. intros r' Hr'.
    rewrite Hr in Hr'. by simplify_eq.
  - right. exists i, e. split; [done|].
    destruct (pool_clean_pending_remaining _ _ _ _ Hc Hi)
      as (_ & _ & Hnone).
    apply pool_run_resolved. rewrite Heq. simpl. by rewrite Hnone.
Qed.

(** What a clean state has resolved to in default mode: [Ok] of the
    values of all the tasks, in index order. *)
Lemma eager_clean_ok ps est x :
  eager_clean Default ps est → e_resolved est = Some x →
  ∃ vs, ps = (λ v, Some (Ok v)) <$> vs ∧
        x = RetResult (Ok ((λ v, Some (AVal v)) <$> vs)).
Proof.
  intros Hc Hx. pose proof (eager_clean_resolved _ _ _ _ Hc Hx) as Hall.
  destruct (slots_all_ok ps (e_data est)) as (vs & Hvs & Hdata).
  - by rewrite (ec_data_len _ _ _ Hc).
  - intros i Hi.
    destruct (ec_done _ _ _ Hc i (Hall i Hi)) as (r & Hr & Hf & Hd).
    exists r. split_and!.
    + unfold settles_to in Hr. destruct (ps !! i) as [[r'|]|];
        by simplify_eq/=.
    + by destruct r.
    + unfold slot. by rewrite Hd.
  - exists vs. split; [done|].
    rewrite (ec_resolved _ _ _ Hc) in Hx. case_decide; [|done].
    simplify_eq. by rewrite Hdata.
Qed.

Lemma pool_clean_ok ts st x :
  pool_clean Default ts st → V2.resolved st = Some x →
  ∃ vs, thunk_outcome <$> ts = (λ v, Some (Ok v)) <$> vs ∧
        x = RetResult (Ok ((λ v, Some (AVal v)) <$> vs)).
Proof.
  intros Hc Hx. pose proof (pool_clean_resolved _ _ _ _ Hc Hx) as Hall.
  destruct (slots_all_ok (thunk_outcome <$> ts) (V2.results st))
    as (vs & Hvs & Hdata).
  - by rewrite length_fmap, (pc_results_len _ _ _ Hc).
  - intros i Hi. rewrite length_fmap in Hi.
    destruct (pc_done _ _ _ Hc i (Hall i Hi)) as (r & Hr & Hf & Hd).
    exists r. split_and!.
    + rewrite list_lookup_fmap.
      destruct (ts !! i) as [t|]; simpl in *; [by rewrite Hr|done].
    + by destruct r.
    + unfold slot. by rewrite Hd.
  - exists vs. split; [done|].
    rewrite (pc_resolved _ _ _ Hc) in Hx. case_decide; [|done].
    simplify_eq. by rewrite Hdata.
Qed.

(** Default mode in the rewritten [all.ts]: what [all] returns is [Ok]
    of the values of all tasks in index order, every task having
    resolved to [Ok], or the error of one of the tasks. *)
Lemma V2_default_outcome inp opts sched x :
  mode_of opts = Default →
  V2.returned (V2.run (V2.all inp opts) sched) = Some x →
  (∃ vs, as_promises inp = (λ v, Some (Ok v)) <$> vs ∧
         x = RetResult (Ok ((λ v, Some (AVal v)) <$> vs))) ∨
  (∃ i e, settles_to (as_promises inp) i = Some (Err e) ∧
          x = RetResult (Err e)).
Proof.
  intros Hm. pose proof (V2_all_clean inp opts) as Hc.
  destruct (V2_all_cases inp opts) as [Heq|(ts & k & -> & Hne & Hk & Heq)];
    rewrite Heq, Hm in *; clear Heq.
  - rewrite V2_run_eager. cbn [V2.returned]. intros Hx.
    destruct (eager_run_clean_or_failed (as_promises inp) sched _ Hc)
      as [Hc'|(i & e & Hi & He)].
    + left. by eapply eager_clean_ok.
    + right. exists i, e. split; [done|]. congruence.
  - rewrite V2_run_lazy. cbn [V2.returned as_promises]. intros Hx.
    destruct (pool_run_clean_or_failed ts sched _ Hc)
      as [Hc'|(i & e & Hi & He)].
    + left. by eapply pool_clean_ok.
    + right. exists i, e. rewrite settles_to_thunks.
      split; [done|]. congruence.
Qed.
End DefaultOutcome.

Section PoolOrder.
Context {V E : Type}.
Implicit Types (inp : input V E) (opts : option Options).
Implicit Types (ts : list (thunk V E)) (st : V2.pool V E).

Lemma pool_run_shape mode ts sched st :
  pool_shape ts st → pool_shape ts (foldl (V2.pool_step mode ts) st sched).
Proof.
  revert st. induction sched as [|i sched IH]; intros st Hs; [done|].
  simpl. by apply IH, pool_step_shape.
Qed.

Lemma eager_run_started mode (ps : list (option (Result V E))) sched est :
  (∀ i, e_status est !! i ≠ Some NotStarted) →
  ∀ i, e_status (eager_run mode ps est sched) !! i ≠ Some NotStarted.
Proof.
  revert est. induction sched as [|j sched IH]; intros est Hs; [done|].
  simpl. apply IH. intros i. rewrite eager_step_status.
  destruct (e_status est !! j) as [[]|] eqn:Hj; try apply Hs.
  destruct (settles_to ps j); [|apply Hs].
  destruct (decide (i = j)) as [->|Hne].
  - rewrite list_lookup_insert_eq by (by eapply lookup_lt_Some). done.
  - rewrite list_lookup_insert_ne by done. apply Hs.
Qed.

Lemma V2_allEager_started mode (ps : list (option (Result V E))) i :
  e_status (V2.allEager ps mode) !! i ≠ Some NotStarted.
Proof. apply (ec_started _ _ _ (V2_allEager_clean mode ps)). Qed.

(** The shape of the statuses of a call of [all]: the tasks are started
    in index order. *)
Lemma V2_started_in_order inp opts sched i j :
  V2.statuses (V2.run (V2.all inp opts) sched) !! i = Some NotStarted →
  i ≤ j → j < input_length inp →
  V2.statuses (V2.run (V2.all inp opts) sched) !! j = Some NotStarted.
Proof.
  destruct (V2_all_cases inp opts) as [Heq|(ts & k & -> & Hne & Hk & Heq)];
    rewrite Heq; clear Heq.
  - rewrite V2_run_eager. cbn [V2.statuses]. intros Hi.
    by destruct (eager_run_started (mode_of opts) (as_promises inp) sched
                   _ (V2_allEager_started (mode_of opts) (as_promises inp)) i).
  - rewrite V2_run_lazy. cbn [V2.statuses input_length].
    intros Hi Hij Hj.
    assert (pool_shape ts
              (foldl (V2.pool_step (mode_of opts) ts)
                 (Nat.iter (poolSize k (length ts))
                    (V2.runNext (length ts)) (V2.pool_init (length ts)))
                 sched)) as Hs.
    { apply pool_run_shape, pool_started_shape; [done|apply poolSize_le]. }
    apply (ps_unstarted _ _ Hs); [|done].
    destruct (decide (V2.nextIndex
                        (foldl (V2.pool_step (mode_of opts) ts)
                           (Nat.iter (poolSize k (length ts))
                              (V2.runNext (length ts))
                              (V2.pool_init (length ts))) sched) ≤ i))
      as [Hle|Hgt]; [lia|].
    by destruct (ps_started _ _ Hs i ltac:(lia)).
Qed.

(** Once the promise of [allLazy] has been resolved the flag [done] is
    set. *)
Lemma pool_step_flag mode ts st i :
  (is_Some (V2.resolved st) → V2.done st = true) →
  is_Some (V2.resolved (V2.pool_step mode ts st i)) →
  V2.done (V2.pool_step mode ts st i) = true.
Proof.
  intros Hflag.
  destruct (pool_step_cases mode ts st i) as [[-> _]|(r & Hi & Hr & ->)];
    [done|].
  assert (∀ st', (is_Some (V2.resolved st') → V2.done st' = true) →
            is_Some (V2.resolved (V2.settle_one mode (length ts) st')) →
            V2.done (V2.settle_one mode (length ts) st') = true) as Hone.
  { intros st' Hf. unfold V2.settle_one. case_decide; [done|].
    destruct (runNext_same (length ts)
                {| V2.status := V2.status st'; V2.results := V2.results st';
                   V2.nextIndex := V2.nextIndex st';
                   V2.remaining := (V2.remaining st' - 1)%Z;
                   V2.done := V2.done st';
                   V2.resolved := V2.resolved st' |})
      as (_ & _ & -> & ->).
    done. }
  unfold V2.pool_then. destruct mode; [destruct r|]; try done.
  all: by apply Hone.
Qed.

Lemma pool_run_after_return mode ts sched st :
  pool_shape ts st → V2.done st = true →
  V2.nextIndex (foldl (V2.pool_step mode ts) st sched) = V2.nextIndex st.
Proof.
  revert st. induction sched as [|i sched IH]; intros st Hs Hd; [done|].
  simpl. destruct (pool_step_done_next mode ts st i Hd) as [Hd' Hn].
  rewrite IH; [done| |done]. by apply pool_step_shape.
Qed.

Lemma pool_run_flag mode ts sched st :
  (is_Some (V2.resolved st) → V2.done st = true) →
  is_Some (V2.resolved (foldl (V2.pool_step mode ts) st sched)) →
  V2.done (foldl (V2.pool_step mode ts) st sched) = true.
Proof.
  revert st. induction sched as [|i sched IH]; intros st Hf; [done|].
  simpl. apply IH. by apply pool_step_flag.
Qed.

(** After [all] has returned, no factory is called any more. *)
Lemma V2_no_start_after_return inp opts a b x j :
  V2.returned (V2.run (V2.all inp opts) a) = Some x →
  V2.statuses (V2.run (V2.all inp opts) a) !! j = Some NotStarted →
  V2.statuses (V2.run (V2.all inp opts) (a ++ b)) !! j = Some NotStarted.
Proof.
  rewrite V2_run_app.
  destruct (V2_all_cases inp opts) as [Heq|(ts & k & -> & Hne & Hk & Heq)];
    rewrite Heq; clear Heq.
  - rewrite V2_run_eager. cbn [V2.statuses]. intros _ Hj.
    by destruct (eager_run_started (mode_of opts) (as_promises inp) a
                   _ (V2_allEager_started (mode_of opts) (as_promises inp)) j).
  - rewrite !V2_run_lazy. cbn [V2.statuses V2.returned].
    set (st0 := Nat.iter (poolSize k (length ts)) (V2.runNext (length ts))
                  (V2.pool_init (length ts))).
    set (st := foldl (V2.pool_step (mode_of opts) ts) st0 a).
    intros Hx Hj.
    assert (pool_shape ts st0) as Hs0
      by (apply pool_started_shape; [done|apply poolSize_le]).
    assert (pool_shape ts st) as Hs by (by apply pool_run_shape).
    assert (V2.done st = true) as Hd.
    { apply pool_run_flag; [|by eexists]. subst st0.
      rewrite pool_init_iter by apply poolSize_le. by intros [? ?]. }
    pose proof (pool_run_shape (mode_of opts) ts b st Hs) as Hs'.
    pose proof (pool_run_after_return (mode_of opts) ts b st Hs Hd) as Hn.
    assert (j < length ts) as Hlt.
    { rewrite <-(ps_status_len _ _ Hs). by eapply lookup_lt_Some. }
    apply (ps_unstarted _ _ Hs'); [|done]. rewrite Hn.
    destruct (decide (V2.nextIndex st ≤ j)) as [Hle|Hgt]; [done|].
    by destruct (ps_started _ _ Hs j ltac:(lia)).
Qed.

(** A concurrency that is not positive starts nothing, and the call
    never returns. *)
Lemma V2_nonpositive_hangs ts opts K sched :
  concurrency_of opts = Num K → (K ≤ 0)%Z → ts ≠ [] →
  V2.returned (V2.run (V2.all (Thunks ts) opts) sched) = None ∧
  V2.statuses (V2.run (V2.all (Thunks ts) opts) sched)
  = replicate (length ts) NotStarted.
Proof.
  intros HK Hle Hne.
  destruct (V2_all_thunks_cases ts opts K HK) as [[-> _]|[Hn Heq]];
    [done|].
  rewrite Heq, V2_run_lazy. clear Heq. cbn [V2.returned V2.statuses].
  assert (poolSize K (length ts) = 0) as -> by (unfold poolSize; lia).
  change (Nat.iter 0 (V2.runNext (length ts)) (V2.pool_init (length ts)))
    with (@V2.pool_init V E (length ts)).
  assert (foldl (V2.pool_step (mode_of opts) ts)
            (V2.pool_init (length ts)) sched
          = V2.pool_init (length ts)) as ->; [|done].
  induction sched as [|i sched IH]; [done|]. simpl.
  assert (V2.pool_step (mode_of opts) ts (V2.pool_init (length ts)) i
          = V2.pool_init (length ts)) as ->; [|done].
  unfold V2.pool_step. cbn [V2.pool_init V2.status].
  destruct (replicate (length ts) NotStarted !! i) as [s|] eqn:Hi; [|done].
  apply lookup_replicate in Hi as [-> _]. done.
Qed.
Lemma all_ok_inj (vs vs' : list V) :
  (λ v, Some (@Ok V E v)) <$> vs = (λ v, Some (Ok v)) <$> vs' → vs = vs'.
Proof.
  revert vs'. induction vs as [|v vs IH]; intros [|v' vs'] Heq;
    simplify_eq/=; [done|]. f_equal. by apply IH.
Qed.
End PoolOrder.
Section V1More.
Context {V E : Type}.
Implicit Types (inp : input V E) (opts : option Options).
Implicit Types (ts : list (thunk V E)) (st : V1.loop V E) (K : Z).

Lemma loop_start_relay K ts : loop_relay (V1.iterate K (V1.loop_init ts)).
Proof.
  apply iterate_relay; [|done]. split.
  - intros w Hw. by apply elem_of_nil in Hw.
  - done.
Qed.

Lemma loop_run_relay mode K ts acts st :
  loop_inv K ts st → loop_once st → loop_relay st →
  loop_relay (foldl (V1.loop_step mode K ts) st acts).
Proof.
  revert st. induction acts as [|a acts IH]; intros st Hinv Honce Hrel;
    [done|].
  simpl. apply IH.
  - by apply loop_step_inv.
  - destruct a as [i|]; cbn [V1.loop_step];
      [by apply settle_once|by apply tick_once].
  - destruct a as [i|]; cbn [V1.loop_step];
      [by apply settle_relay|by eapply tick_relay].
Qed.

(** In default mode the function returns a Result. *)
Lemma loop_run_result K ts acts st :
  (∀ a, V1.returned st ≠ Some (RetArray a)) →
  ∀ a, V1.returned (foldl (V1.loop_step Default K ts) st acts)
       ≠ Some (RetArray a).
Proof.
  revert st. induction acts as [|act acts IH]; intros st Hst; [done|].
  simpl. apply IH. intros a.
  destruct act as [i|]; cbn [V1.loop_step].
  - by destruct (settle_cases ts i st) as [->|(rs & r & _ & _ & ->)].
  - unfold V1.tick. destruct (V1.jobs st) as [|j js]; [done|].
    destruct j as [[|k0] i r|w]; cbn [V1.run_job]; [done| |].
    + unfold V1.race_react. cbn [V1.set_jobs V1.races].
      by destruct (V1.races st !! k0) as [[|]|].
    + unfold V1.resume. destruct w; [|done].
      case_decide; [|done]. by rewrite iterate_returned.
Qed.

(** A concurrency that is not positive: the loop starts nothing and
    awaits a race without members. *)
Lemma loop_nonpositive mode K ts acts :
  (K ≤ 0)%Z →
  foldl (V1.loop_step mode K ts) (V1.iterate K (V1.loop_init ts)) acts
  = {| V1.promises := []; V1.executing := []; V1.queue := ts;
       V1.results := []; V1.index := 0; V1.races := [false];
       V1.jobs := []; V1.returned := None |}.
Proof.
  intros HK.
  assert (V1.iterate K (V1.loop_init ts)
          = {| V1.promises := []; V1.executing := []; V1.queue := ts;
               V1.results := []; V1.index := 0; V1.races := [false];
               V1.jobs := []; V1.returned := None |}) as ->.
  { unfold V1.iterate. cbn [V1.loop_init V1.queue].
    assert (V1.fill K ts (V1.loop_init ts) = V1.loop_init ts) as ->; [|done].
    destruct ts; cbn [V1.fill V1.loop_init V1.executing length];
      by rewrite decide_False by lia. }
  induction acts as [|a acts IH]; [done|]. simpl.
  destruct a as [i|]; cbn [V1.loop_step]; [|done].
  unfold V1.settle. cbn [V1.promises]. by rewrite lookup_nil.
Qed.

Lemma V1_nonpositive_hangs ts opts K acts :
  concurrency_of opts = Num K → (K ≤ 0)%Z → ts ≠ [] →
  V1.outcome (V1.run (V1.all (Thunks ts) opts) acts) = None ∧
  V1.started_tasks (V1.run (V1.all (Thunks ts) opts) acts) = 0.
Proof.
  intros HK Hle Hne.
  destruct (V1_all_thunks_cases ts opts K HK) as [[-> _]|[_ Heq]]; [done|].
  rewrite Heq, V1_run_lazy. cbn [V1.outcome V1.started_tasks].
  by rewrite loop_nonpositive.
Qed.

(** The three shapes of a call of [all] in [src/src/all.ts]. *)
Lemma V1_all_cases inp opts :
  (first_is_function inp = false ∨ concurrency_of opts = Unbounded) ∨
  ∃ t ts K, inp = Thunks (t :: ts) ∧ concurrency_of opts = Num K.
Proof.
  destruct inp as [ps|[|t ts]]; [left; by left..|].
  destruct (concurrency_of opts) as [|K]; [left; by right|].
  right. by exists t, ts, K.
Qed.

(** Default mode in [src/src/all.ts]: what [all] returns is the error
    of one of the tasks, or [Ok] of an array; every task is one that
    settles then, and the array holds the value of each task that
    resolved to [Ok] at the task's index and nothing at the index of a
    task that failed. *)
Lemma V1_default_outcome inp opts acts x :
  mode_of opts = Default →
  V1.outcome (V1.run (V1.all inp opts) acts) = Some x →
  (∃ i e, settles_to (as_promises inp) i = Some (Err e) ∧
          x = RetResult (Err e)) ∨
  (∃ data, x = RetResult (Ok data) ∧ length data ≤ input_length inp ∧
           ∀ i, i < input_length inp →
                ∃ r, settles_to (as_promises inp) i = Some r ∧
                     slot data i = cell Default r).
Proof.
  intros Hm.
  destruct (V1_all_cases inp opts) as [Heager|(t & ts & K & -> & HK)].
  - rewrite V1_all_eager by done. rewrite Hm, V1_run_eager.
    cbn [V1.outcome]. intros Hx.
    destruct (eager_run_clean_or_failed (as_promises inp) (settlements acts)
                _ (V1_allEager_clean Default _)) as [Hc|(i & e & Hi & He)].
    + right. destruct (eager_clean_ok _ _ _ Hc Hx) as (vs & Hvs & ->).
      eexists. split; [done|]. rewrite <-as_promises_length, Hvs.
      rewrite !length_fmap. split; [done|]. intros i Hi.
      destruct (lookup_lt_is_Some_2 vs i Hi) as [v Hv].
      exists (Ok v). unfold settles_to, slot.
      rewrite !list_lookup_fmap, Hv. done.
    + left. exists i, e. split; [done|]. congruence.
  - destruct (decide (1 ≤ K)%Z) as [H1|H0]; cycle 1.
    { destruct (V1_nonpositive_hangs (t :: ts) opts K acts) as [Hnone _];
        [done|lia|done|]. by rewrite Hnone. }
    destruct (V1_all_thunks_cases (t :: ts) opts K HK) as [[? _]|[_ Heq]];
      [done|].
    rewrite Heq, Hm, V1_run_lazy. clear Heq. cbn [V1.outcome].
    destruct (loop_start_live K (t :: ts) H1 ltac:(done)) as [Hinv0 _].
    pose proof (loop_run_inv Default K (t :: ts) acts _ Hinv0) as Hinv.
    pose proof (loop_run_default K (t :: ts) acts _ Hinv0
                  (loop_start_default K (t :: ts) ltac:(lia))) as Hdef.
    pose proof (loop_run_relay Default K (t :: ts) acts _ Hinv0
                  (loop_start_once K (t :: ts))
                  (loop_start_relay K (t :: ts))) as Hrel.
    pose proof (loop_run_result K (t :: ts) acts
                  (V1.iterate K (V1.loop_init (t :: ts)))) as Hres.
    intros Hx. destruct x as [[data|e]|a].
    + right. exists data. split; [done|].
      destruct (loop_default_returned K _ _ data Hinv Hdef Hx)
        as (_ & Hlen & Hcells).
      split; [done|]. intros i Hi. cbn [as_promises].
      rewrite settles_to_thunks. by apply Hcells.
    + left. destruct (lr_returned _ Hrel e Hx) as [j Hj].
      exists j, e. split; [|done]. cbn [as_promises].
      rewrite settles_to_thunks. by apply (li_fulfilled _ _ _ Hinv).
    + destruct (Hres ltac:(by rewrite iterate_returned) a Hx).
Qed.

(** When no task fails, [all] of [src/src/all.ts] returns nothing but
    [Ok] of the values of all tasks in index order. *)
Lemma V1_no_failure inp opts acts x :
  mode_of opts = Default →
  (∀ i r, settles_to (as_promises inp) i = Some r → isErr r = false) →
  V1.outcome (V1.run (V1.all inp opts) acts) = Some x →
  ∃ vs, as_promises inp = (λ v, Some (Ok v)) <$> vs ∧
        x = RetResult (Ok ((λ v, Some (AVal v)) <$> vs)).
Proof.
  intros Hm Hok Hx.
  destruct (V1_default_outcome inp opts acts x Hm Hx)
    as [(i & e & Hi & _)|(data & -> & Hlen & Hcells)].
  { by specialize (Hok i _ Hi). }
  destruct (slots_all_ok (as_promises inp) data) as (vs & Hvs & ->).
  - by rewrite as_promises_length.
  - intros i Hi. rewrite as_promises_length in Hi.
    destruct (Hcells i Hi) as (r & Hr & Hs).
    exists r. split_and!; [|by eapply Hok|done].
    unfold settles_to in Hr.
    destruct (as_promises inp !! i) as [[r'|]|]; by simplify_eq/=.
  - by exists vs.
Qed.

(** After [all] has returned, what it returned does not change and no
    factory is called. *)
Lemma V1_after_return inp opts a b x :
  V1.outcome (V1.run (V1.all inp opts) a) = Some x →
  V1.outcome (V1.run (V1.all inp opts) (a ++ b)) = Some x ∧
  V1.started_tasks (V1.run (V1.all inp opts) (a ++ b))
  = V1.started_tasks (V1.run (V1.all inp opts) a).
Proof.
  rewrite V1_run_app.
  destruct (V1_all_cases inp opts) as [Heager|(t & ts & K & -> & HK)].
  - rewrite V1_all_eager by done. rewrite !V1_run_eager.
    cbn [V1.outcome V1.started_tasks]. intros Hx. split.
    + by apply eager_run_resolved.
    + pose proof (ec_started _ _ _
                    (V1_allEager_clean (mode_of opts) (as_promises inp)))
        as Hs0.
      rewrite !started_all.
      * clear. induction (settlements b) as [|i l IH] using rev_ind;
          [done|].
        unfold eager_run in *. rewrite foldl_app. simpl.
        by rewrite eager_step_status_length.
      * by apply eager_run_started.
      * by do 2 apply eager_run_started.
  - destruct (V1_all_thunks_cases (t :: ts) opts K HK) as [[? _]|[_ Heq]];
      [done|].
    rewrite Heq, !V1_run_lazy. clear Heq.
    cbn [V1.outcome V1.started_tasks]. intros Hx.
    apply loop_run_after_return; [|done].
    apply loop_run_once, loop_start_once.
Qed.
End V1More.
Section V1Lone.
Context {V E : Type}.
Implicit Types (ts : list (thunk V E)) (st : V1.loop V E) (K : Z).

Lemma ticks_rest mode K ts st n :
  V1.jobs st = [] →
  foldl (V1.loop_step mode K ts) st (replicate n V1.Tick) = st.
Proof.
  intros Hj. induction n as [|n IH]; [done|].
  simpl. unfold V1.tick. by rewrite Hj.
Qed.

(** The reaction jobs of one promise run one after the other; the one
    of the last race resolves it, when it is unresolved, and queues the
    continuation behind what is queued already. *)
Lemma drain_reactions mode K ts i r rs : ∀ st js,
  V1.jobs st = ((λ rc, V1.JReact rc i r) <$> rs) ++ js →
  let st' := foldl (V1.loop_step mode K ts) st
               (replicate (length rs) V1.Tick) in
  V1.returned st' = V1.returned st ∧
  V1.jobs st'
  = js ++ (if decide (racing st ∧ V1.RRace (current st) ∈ rs)
           then [V1.JResume r] else []).
Proof.
  induction rs as [|rc rs IH]; intros st js Hj; cbn zeta.
  - simpl in *. rewrite Hj. split; [done|].
    rewrite decide_False; [by rewrite app_nil_r|].
    intros [_ H]. by apply elem_of_nil in H.
  - cbn [length replicate foldl V1.loop_step].
    unfold V1.tick. rewrite Hj. cbn [fmap list_fmap app V1.run_job].
    destruct rc as [|k]; cbn [V1.run_job].
    + edestruct (IH (V1.loop_then mode i r
                       (V1.set_jobs
                          (((λ rc, V1.JReact rc i r) <$> rs) ++ js) st)) js)
        as [Hret Hjobs]; [done|].
      split; [done|]. rewrite Hjobs. f_equal.
      apply decide_ext. unfold racing, current. cbn.
      rewrite elem_of_cons. intuition congruence.
    + unfold V1.race_react. cbn [V1.set_jobs V1.races V1.jobs].
      destruct (V1.races st !! k) as [[|]|] eqn:Hk.
      * edestruct (IH (V1.set_jobs
                         (((λ rc, V1.JReact rc i r) <$> rs) ++ js) st) js)
          as [Hret Hjobs]; [done|].
        split; [done|]. rewrite Hjobs. f_equal.
        apply decide_ext. unfold racing, current. cbn.
        rewrite elem_of_cons. split; [intuition auto|].
        intros [Hr [Heq|Hin]]; [exfalso|done]. injection Heq as Heq.
        rewrite Heq in Hr. congruence.
      * cbn [V1.set_jobs V1.promises V1.executing V1.queue V1.results
               V1.index V1.races V1.jobs V1.returned].
        destruct (decide (S k = length (V1.races st))) as [Hcur|Hold].
        -- edestruct (IH {| V1.promises := V1.promises st;
                            V1.executing := V1.executing st;
                            V1.queue := V1.queue st;
                            V1.results := V1.results st;
                            V1.index := V1.index st;
                            V1.races := <[k:=true]> (V1.races st);
                            V1.jobs :=
                              (((λ rc, V1.JReact rc i r) <$> rs) ++ js)
                              ++ [V1.JResume r];
                            V1.returned := V1.returned st |}
                        (js ++ [V1.JResume r]))
             as [Hret Hjobs]; [by rewrite <-app_assoc|].
           split; [done|]. rewrite Hjobs.
           assert (k = current st) as -> by (unfold current; lia).
           rewrite decide_False, decide_True, app_nil_r; [done| |].
           ++ split; [done|]. apply elem_of_cons. by left.
           ++ intros [Hr _]. unfold racing, current in Hr. cbn in Hr.
              rewrite length_insert in Hr.
              rewrite list_lookup_insert_eq in Hr; [done|].
              unfold current. by apply lookup_lt_Some in Hk.
        -- edestruct (IH {| V1.promises := V1.promises st;
                            V1.executing := V1.executing st;
                            V1.queue := V1.queue st;
                            V1.results := V1.results st;
                            V1.index := V1.index st;
                            V1.races := <[k:=true]> (V1.races st);
                            V1.jobs :=
                              ((λ rc, V1.JReact rc i r) <$> rs) ++ js;
                            V1.returned := V1.returned st |} js)
             as [Hret Hjobs]; [done|].
           split; [done|]. rewrite Hjobs. f_equal.
           assert (k ≠ current st).
           { apply lookup_lt_Some in Hk. unfold current. lia. }
           apply decide_ext. unfold racing, current. cbn.
           rewrite length_insert, elem_of_cons.
           rewrite list_lookup_insert_ne by done.
           split; [intros [? ?]; split; [done|by right]|].
           intros [? [Heq|?]]; [|done]. by injection Heq.
      * edestruct (IH (V1.set_jobs
                         (((λ rc, V1.JReact rc i r) <$> rs) ++ js) st) js)
          as [Hret Hjobs]; [done|].
        split; [done|]. rewrite Hjobs. f_equal.
        apply decide_ext. unfold racing, current. cbn.
        rewrite elem_of_cons. split; [intuition auto|].
        intros [Hr [Heq|Hin]]; [exfalso|done]. injection Heq as Heq.
        rewrite Heq in Hr. congruence.
Qed.

(** A task that fails while nothing else is going on: the function
    returns its error as soon as the job queue has run. *)
Lemma loop_lone_error K ts st i e n :
  (1 ≤ K)%Z → loop_inv K ts st → loop_live K st → loop_order st →
  V1.jobs st = [] → V1.returned st = None → V1.is_pending st i →
  (ts !! i) ≫= thunk_outcome = Some (Err e) →
  let st' := foldl (V1.loop_step Default K ts) st
               (V1.Settle i :: replicate n V1.Tick) in
  V1.jobs st' = [] → V1.returned st' = Some (RetResult (Err e)).
Proof.
  intros HK Hinv Hlive Hord Hjobs Hret [rs Hrs] He. cbn zeta.
  cbn [foldl V1.loop_step]. unfold V1.settle. rewrite Hrs, He. cbn.
  rewrite Hjobs. cbn [app].
  set (st1 := {| V1.promises := _ |}).
  assert (racing st ∧ V1.RRace (current st) ∈ rs) as Hsub.
  { destruct (ll_token _ _ Hlive Hret) as [[w Hw]|[Hr _]].
    - rewrite Hjobs in Hw. by apply elem_of_nil in Hw.
    - split; [done|].
      pose proof (ll_subscribed _ _ Hlive Hret Hr i
                    (li_pending _ _ _ Hinv _ _ Hrs)) as Hs.
      unfold subscribed in Hs. by rewrite Hrs in Hs. }
  assert (∀ m, m ≤ length rs →
            V1.returned (foldl (V1.loop_step Default K ts) st1
                           (replicate m V1.Tick)) = None ∧
            V1.jobs (foldl (V1.loop_step Default K ts) st1
                       (replicate m V1.Tick))
            = ((λ rc, V1.JReact rc i (Err e)) <$> drop m rs)
              ++ (if decide (racing st1 ∧
                             V1.RRace (current st1) ∈ take m rs)
                  then [V1.JResume (Err e)] else [])) as Hdrain.
  { intros m Hm.
    pose proof (drain_reactions Default K ts i (Err e) (take m rs) st1
                  ((λ rc, V1.JReact rc i (Err e)) <$> drop m rs)) as Hd.
    cbn zeta in Hd. rewrite length_take, Nat.min_l in Hd by done.
    destruct Hd as [Hd1 Hd2].
    { subst st1. cbn [V1.jobs]. by rewrite <-fmap_app, take_drop. }
    split; [by rewrite Hd1|done]. }
  destruct (decide (n ≤ length rs)) as [Hn|Hn].
  - destruct (Hdrain n Hn) as [_ Hj]. intros Hrest. exfalso.
    rewrite Hj in Hrest.
    destruct (decide (n = length rs)) as [->|Hlt].
    + rewrite firstn_all, decide_True in Hrest.
      * by destruct ((λ rc, V1.JReact rc i (Err e)) <$> drop (length rs) rs).
      * done.
    + destruct (drop n rs) as [|rc rest] eqn:Hdrop; [|done].
      apply (f_equal length) in Hdrop. rewrite length_drop in Hdrop.
      simpl in Hdrop. lia.
  - intros _.
    replace n with (length rs + S (n - length rs - 1)) by lia.
    rewrite replicate_add, foldl_app.
    destruct (Hdrain (length rs) ltac:(lia)) as [Hr Hj].
    rewrite drop_all, firstn_all, decide_True in Hj by done.
    cbn [fmap list_fmap app] in Hj.
    set (st2 := foldl _ st1 (replicate (length rs) V1.Tick)) in *.
    assert (V1.tick Default K st2
            = V1.finish (RetResult (Err e)) (V1.set_jobs [] st2)) as Ht.
    { unfold V1.tick. by rewrite Hj. }
    cbn [replicate foldl V1.loop_step]. rewrite Ht.
    by rewrite ticks_rest.
Qed.

(** In the bounded loop of [src/src/all.ts] the error of a task that
    settles while the job queue is empty is returned when the queue has
    run empty again, if no other task settles before. *)
Lemma V1_lone_error ts opts K acts i e n :
  mode_of opts = Default → concurrency_of opts = Num K → (1 ≤ K)%Z →
  V1.at_rest (V1.run (V1.all (Thunks ts) opts) acts) →
  V1.outcome (V1.run (V1.all (Thunks ts) opts) acts) = None →
  task_pending (V1.run (V1.all (Thunks ts) opts) acts) i →
  (ts !! i) ≫= thunk_outcome = Some (Err e) →
  V1.at_rest (V1.run (V1.all (Thunks ts) opts)
                (acts ++ V1.Settle i :: replicate n V1.Tick)) →
  V1.outcome (V1.run (V1.all (Thunks ts) opts)
                (acts ++ V1.Settle i :: replicate n V1.Tick))
  = Some (RetResult (Err e)).
Proof.
  intros Hm HK H1. rewrite V1_run_app.
  destruct (V1_all_thunks_cases ts opts K HK) as [[-> _]|[Hne Heq]];
    [by rewrite lookup_nil|].
  rewrite Heq, Hm, !V1_run_lazy. clear Heq.
  cbn [V1.at_rest V1.outcome task_pending].
  destruct (loop_start_live K ts H1 Hne) as [Hinv0 Hlive0].
  destruct (loop_run_live Default K ts acts _ H1 Hinv0 Hlive0)
    as [Hinv Hlive].
  pose proof (loop_run_order Default K ts acts _ Hinv0
                (loop_start_order K ts ltac:(lia))) as Hord.
  intros Hrest Hret Hpend He.
  by apply (loop_lone_error K ts _ i e n).
Qed.
End V1Lone.
Section Shared.
Context {V E : Type}.
Implicit Types (ts : list (thunk V E)) (s : V1.loop V E) (g : V1S.loop V E).
Implicit Types (K : Z).

Lemma register_race_refines k s g i :
  refines s g → refines (V1.subscribe k s i) (V1S.register (V1S.RRace k) g i).
Proof.
  intros [Hp Hc He Hq Hr Hi Hra Hj Hret Hlen Hmem].
  unfold V1.subscribe, V1S.register. rewrite Hp.
  destruct (V1.promises s !! i) as [[rs|r]|] eqn:Hs; cbn.
  - split; cbn; try done.
    + intros i'. destruct (decide (i' = i)) as [->|Hne].
      * rewrite !list_lookup_insert_eq; first (cbn; by rewrite fmap_app).
        -- by apply lookup_lt_Some in Hs.
        -- rewrite Hc. by apply lookup_lt_Some in Hs.
      * by rewrite !list_lookup_insert_ne.
    + by rewrite !length_insert.
    + by rewrite length_insert.
  - split; cbn; try done. by rewrite Hj, fmap_app.
  - by split.
Qed.

Lemma start_refines t rest s g :
  refines s g →
  refines (V1.start t rest s)
    (V1S.start (V1S.Own t) (V1S.Own <$> rest) g).
Proof.
  intros [Hp Hc He Hq Hr Hi Hra Hj Hret Hlen Hmem].
  unfold V1.start, V1S.start, V1S.register. cbn.
  rewrite He, Hi. rewrite decide_False; cycle 1.
  { intros Hin. apply Hmem in Hin. lia. }
  rewrite lookup_app_r by (rewrite Hc; lia).
  rewrite Hc, Hlen, Nat.sub_diag.
  assert (∀ (x : V1.promise V E) y i,
            y = Some (lift_promise (length (V1.promises s)) x) →
            (V1S.promises g ++ [y]) !! i
            = (λ p, Some (lift_promise i p))
                <$> ((V1.promises s ++ [x]) !! i)) as Happ.
  { intros x y i ->. destruct (decide (i < length (V1.promises s))).
    - rewrite !lookup_app_l by lia. apply Hp.
    - rewrite !lookup_app_r by lia. rewrite Hc.
      destruct (i - length (V1.promises s)) as [|m] eqn:Hm; [|done].
      assert (i = length (V1.promises s)) as -> by lia. done. }
  assert (∀ i, i ∈ V1.executing s ++ [length (V1.promises s)] →
               i < S (length (V1.promises s))) as Hmem'.
  { intros i [Hin| ->%list_elem_of_singleton]%elem_of_app; [|lia].
    apply Hmem in Hin. lia. }
  destruct t as [r|o]; cbn.
  - split; cbn; try done.
    + intros i. by apply Happ.
    + rewrite !length_app. cbn. lia.
    + by rewrite Hj, fmap_app.
    + rewrite length_app. cbn. lia.
  - split; cbn; try done.
    + intros i.
      rewrite <-(Happ (V1.PPending [V1.RThen])
                   (Some (V1S.PPending [V1S.RThen (length (V1.promises s))])))
        by done.
      rewrite <-Hc. clear.
      rewrite insert_app_r_alt by lia. by rewrite Nat.sub_diag.
    + rewrite length_insert, !length_app. cbn. lia.
    + by rewrite app_nil_r.
    + rewrite length_app. cbn. lia.
Qed.

Lemma fill_refines K q : ∀ s g,
  refines s g → refines (V1.fill K q s) (V1S.fill K (V1S.Own <$> q) g).
Proof.
  induction q as [|t rest IH]; intros s g Href; cbn [V1.fill V1S.fill fmap list_fmap];
    rewrite (rf_executing _ _ Href); case_decide; try done.
  apply IH. by apply start_refines.
Qed.

Lemma registers_refines k l : ∀ s g,
  refines s g →
  refines (foldl (V1.subscribe k) s l) (foldl (V1S.register (V1S.RRace k)) g l).
Proof.
  induction l as [|i l IH]; intros s g Href; [done|].
  simpl. apply IH. by apply register_race_refines.
Qed.

Lemma race_refines s g : refines s g → refines (V1.race s) (V1S.race g).
Proof.
  intros Href. unfold V1.race, V1S.race.
  rewrite (rf_executing _ _ Href), (rf_races _ _ Href).
  apply registers_refines.
  destruct Href as [Hp Hc He Hq Hr Hi Hra Hj Hret Hlen Hmem].
  split; cbn; try done. all: by rewrite ?Hra.
Qed.

Lemma iterate_refines K s g :
  refines s g → refines (V1.iterate K s) (V1S.iterate K g).
Proof.
  intros Href. unfold V1.iterate, V1S.iterate.
  rewrite (rf_queue _ _ Href). by apply race_refines, fill_refines.
Qed.

Lemma set_jobs_refines s g js :
  refines s g → refines (V1.set_jobs js s) (V1S.set_jobs (lift_job <$> js) g).
Proof. intros []. by split. Qed.

Lemma loop_then_refines mode i r s g :
  refines s g →
  refines (V1.loop_then mode i r s) (V1S.loop_then mode i i r g).
Proof.
  intros [Hp Hc He Hq Hr Hi Hra Hj Hret Hlen Hmem].
  split; cbn; try done.
  - by rewrite He.
  - by rewrite Hr.
  - intros j [_ Hin]%list_elem_of_filter. by apply Hmem.
Qed.

Lemma race_react_refines k r s g :
  refines s g → refines (V1.race_react k r s) (V1S.race_react k r g).
Proof.
  intros [Hp Hc He Hq Hr Hi Hra Hj Hret Hlen Hmem].
  unfold V1.race_react, V1S.race_react. rewrite Hra.
  destruct (V1.races s !! k) as [[|]|]; try by split.
  split; cbn; try done.
  case_decide; [|done]. by rewrite Hj, fmap_app.
Qed.

Lemma finish_refines x s g :
  refines s g → refines (V1.finish x s) (V1S.finish x g).
Proof. intros []. by split. Qed.

Lemma resume_refines mode K w s g :
  refines s g → refines (V1.resume mode K w s) (V1S.resume mode K w g).
Proof.
  intros Href. unfold V1.resume, V1S.resume.
  rewrite (rf_executing _ _ Href), (rf_queue _ _ Href),
    (rf_results _ _ Href), length_fmap.
  destruct mode, w; try by apply finish_refines.
  all: case_decide; first [by apply iterate_refines|by apply finish_refines].
Qed.

Lemma tick_refines mode K s g :
  refines s g → refines (V1.tick mode K s) (V1S.tick mode K g).
Proof.
  intros Href. unfold V1.tick, V1S.tick. rewrite (rf_jobs _ _ Href).
  destruct (V1.jobs s) as [|j js]; [done|]. cbn [fmap list_fmap].
  pose proof (set_jobs_refines s g js Href) as Hset.
  destruct j as [[|k] i r|w]; cbn.
  - by apply loop_then_refines.
  - by apply race_react_refines.
  - by apply resume_refines.
Qed.

Lemma settle_refines ts i s g :
  refines s g →
  refines (V1.settle ts i s) (V1S.settle (V1S.Own <$> ts) i g).
Proof.
  intros [Hp Hc He Hq Hr Hi Hra Hj Hret Hlen Hmem].
  unfold V1.settle, V1S.settle. rewrite Hp, list_lookup_fmap.
  destruct (V1.promises s !! i) as [[rs|r]|] eqn:Hs; cbn; try by split.
  destruct (ts !! i) as [t|]; cbn; [|by split].
  destruct (thunk_outcome t) as [r|]; [|by split].
  split; cbn; try done.
  - intros i'. destruct (decide (i' = i)) as [->|Hne].
    + rewrite !list_lookup_insert_eq; first done.
      * by apply lookup_lt_Some in Hs.
      * rewrite Hc. by apply lookup_lt_Some in Hs.
    + by rewrite !list_lookup_insert_ne.
  - by rewrite !length_insert.
  - rewrite Hj, fmap_app. f_equal. rewrite <-!list_fmap_compose.
    by apply list_fmap_ext.
  - by rewrite length_insert.
Qed.

Lemma loop_step_refines mode K ts a s g :
  refines s g →
  refines (V1.loop_step mode K ts s a)
    (V1S.loop_step mode K (V1S.Own <$> ts) g a).
Proof.
  destruct a; [apply settle_refines|apply tick_refines].
Qed.

Lemma loop_init_refines ts :
  refines (V1.loop_init ts) (V1S.loop_init (V1S.Own <$> ts)).
Proof. split; cbn; try done. intros i Hi. by apply elem_of_nil in Hi. Qed.

(** For factories that return promises of their own, the loop of [V1]
    is the loop of [V1S]. *)
Lemma shared_refines mode K ts acts :
  refines
    (foldl (V1.loop_step mode K ts) (V1.iterate K (V1.loop_init ts)) acts)
    (V1S.run mode K (V1S.Own <$> ts) acts).
Proof.
  unfold V1S.run, V1S.allLazy.
  assert (refines (V1.iterate K (V1.loop_init ts))
            (V1S.iterate K (V1S.loop_init (V1S.Own <$> ts)))) as H0.
  { apply iterate_refines, loop_init_refines. }
  revert H0. generalize (V1.iterate K (V1.loop_init ts)).
  generalize (V1S.iterate K (V1S.loop_init (V1S.Own <$> ts))).
  induction acts as [|a acts IH]; intros g s Href; [done|].
  simpl. apply IH. by apply loop_step_refines.
Qed.

Lemma promise_of_own ts i : V1S.promise_of (V1S.Own <$> ts) i = i.
Proof.
  unfold V1S.promise_of. rewrite list_lookup_fmap.
  by destruct (ts !! i).
Qed.

Lemma refines_pending s g i :
  refines s g → V1S.is_pending g i ↔ V1.is_pending s i.
Proof.
  intros Href. unfold V1S.is_pending, V1.is_pending.
  rewrite (rf_promises _ _ Href).
  destruct (V1.promises s !! i) as [[rs|r]|]; cbn.
  - split; intros _; by eexists.
  - split; intros [? ?]; done.
  - split; intros [? ?]; done.
Qed.

Lemma refines_in_flight ts s g :
  refines s g →
  V1S.tasks_in_flight (V1S.Own <$> ts) g = V1.pending s.
Proof.
  intros Href. unfold V1S.tasks_in_flight, V1.pending, V1.in_flight_tasks.
  rewrite (rf_created _ _ Href). f_equal.
  apply list_filter_iff. intros i. rewrite promise_of_own.
  by apply refines_pending.
Qed.

Lemma own_promises_fmap (fs : list (V1S.factory V E)) :
  own_promises fs → ∃ ts, fs = V1S.Own <$> ts.
Proof.
  induction fs as [|f fs IH]; intros Hown; [by exists []|].
  destruct (Hown f) as [t ->]; [by left|].
  destruct IH as [ts ->].
  { intros f Hf. apply Hown. by right. }
  by exists (t :: ts).
Qed.

Lemma shared_run_app mode K (fs : list (V1S.factory V E)) a b :
  V1S.run mode K fs (a ++ b)
  = foldl (V1S.loop_step mode K fs) (V1S.run mode K fs a) b.
Proof. unfold V1S.run. by rewrite foldl_app. Qed.

(** With promises of their own the tasks in flight are members of
    [executing], which has at most [concurrency] members. *)
Lemma own_promises_bound mode K ts acts :
  (1 ≤ K)%Z → ts ≠ [] →
  V1S.tasks_in_flight (V1S.Own <$> ts) (V1S.run mode K (V1S.Own <$> ts) acts)
  ≤ length (V1S.executing (V1S.run mode K (V1S.Own <$> ts) acts)) ∧
  (Z.of_nat (length (V1S.executing (V1S.run mode K (V1S.Own <$> ts) acts)))
   ≤ K)%Z.
Proof.
  intros H1 Hn. pose proof (shared_refines mode K ts acts) as Href.
  rewrite (refines_in_flight ts _ _ Href), (rf_executing _ _ Href).
  destruct (loop_start_live K ts H1 Hn) as [Hinv0 _].
  pose proof (loop_run_inv mode K ts acts _ Hinv0) as Hinv.
  split; [by eapply loop_pending_le|by destruct Hinv].
Qed.

Lemma own_promises_start K ts :
  (0 ≤ K)%Z →
  V1S.started_tasks (V1S.allLazy (V1S.Own <$> ts) K)
  = Z.to_nat (Z.min K (Z.of_nat (length ts))).
Proof.
  intros HK. pose proof (shared_refines Default K ts []) as Href.
  unfold V1S.started_tasks.
  change (V1S.allLazy (V1S.Own <$> ts) K)
    with (V1S.run Default K (V1S.Own <$> ts) []).
  rewrite (rf_created _ _ Href). by apply loop_started_count.
Qed.

Lemma own_promises_rest mode K ts acts :
  (1 ≤ K)%Z → ts ≠ [] →
  V1S.jobs (V1S.run mode K (V1S.Own <$> ts) acts) = [] →
  length (V1S.executing (V1S.run mode K (V1S.Own <$> ts) acts))
  = V1S.tasks_in_flight (V1S.Own <$> ts)
      (V1S.run mode K (V1S.Own <$> ts) acts).
Proof.
  intros H1 Hn. pose proof (shared_refines mode K ts acts) as Href.
  rewrite (refines_in_flight ts _ _ Href), (rf_executing _ _ Href),
    (rf_jobs _ _ Href).
  intros Hrest%fmap_nil_inv.
  destruct (loop_start_live K ts H1 Hn) as [Hinv0 _].
  symmetry. eapply loop_rest_executing; [| | |done].
  - by apply loop_run_inv.
  - apply loop_run_order; [done|]. apply loop_start_order. lia.
  - eapply loop_run_executing_NoDup; [done|].
    apply loop_start_executing_NoDup. lia.
Qed.

Lemma own_promises_full mode K ts acts :
  (1 ≤ K)%Z → ts ≠ [] →
  V1S.returned (V1S.run mode K (V1S.Own <$> ts) acts) = None →
  V1S.jobs (V1S.run mode K (V1S.Own <$> ts) acts) = [] →
  Z.of_nat (V1S.tasks_in_flight (V1S.Own <$> ts)
              (V1S.run mode K (V1S.Own <$> ts) acts)) = K ∨
  V1S.queue (V1S.run mode K (V1S.Own <$> ts) acts) = [].
Proof.
  intros H1 Hn Hnone Hrest.
  rewrite <-(own_promises_rest mode K ts acts) by done.
  pose proof (shared_refines mode K ts acts) as Href.
  rewrite (rf_returned _ _ Href) in Hnone.
  rewrite (rf_jobs _ _ Href) in Hrest. apply fmap_nil_inv in Hrest.
  rewrite (rf_executing _ _ Href), (rf_queue _ _ Href).
  destruct (loop_start_live K ts H1 Hn) as [Hinv0 Hlive0].
  destruct (loop_run_live mode K ts acts _ H1 Hinv0 Hlive0)
    as [Hinv [_ Htok]].
  destruct (Htok Hnone) as [[w Hw]|[_ [[_ Hfull]|(i & r & Hi)]]].
  - rewrite Hrest in Hw. by apply not_elem_of_nil in Hw.
  - destruct Hfull as [?|Hq]; [by left|right]. by rewrite Hq.
  - rewrite Hrest in Hi. by apply not_elem_of_nil in Hi.
Qed.

(** The job queue runs empty, or the function returns, after finitely
    many jobs when no promise settles meanwhile. *)
Lemma own_promises_drain mode K ts acts :
  (1 ≤ K)%Z → ts ≠ [] →
  ∃ m,
    is_Some (V1S.returned
               (V1S.run mode K (V1S.Own <$> ts)
                  (acts ++ replicate m V1.Tick))) ∨
    V1S.jobs (V1S.run mode K (V1S.Own <$> ts)
                (acts ++ replicate m V1.Tick)) = [].
Proof.
  intros H1 Hn.
  destruct (loop_start_live K ts H1 Hn) as [Hinv0 _].
  pose proof (loop_run_inv mode K ts acts _ Hinv0) as Hinv.
  pose proof (loop_run_order mode K ts acts _ Hinv0
                (loop_start_order K ts ltac:(lia))) as Hord.
  destruct (loop_drain mode K ts _ _ (Nat.le_refl _) Hinv Hord)
    as (m & Hm & _).
  exists m.
  pose proof (shared_refines mode K ts (acts ++ replicate m V1.Tick))
    as Href.
  rewrite (rf_returned _ _ Href), (rf_jobs _ _ Href), foldl_app.
  destruct Hm as [Hm|Hm]; [by left|right]. by rewrite Hm.
Qed.
End Shared.
Section TryFacts.
Context {W T X E : Type}.
Implicit Types (op : W → (T + X) * W) (catch : option (X → E + X)).
Implicit Types (pol : Try.RetryPolicy X E) (w : W).

Lemma nth_try_S op k w :
  Try.nth_try op (S k) w = Try.nth_try op k (snd (op w)).
Proof. done. Qed.

Lemma fails_with_S op catch k w e :
  Try.fails_with op catch (S k) w e
  ↔ Try.fails_with op catch k (snd (op w)) e.
Proof. done. Qed.

(** The operation is invoked at least once and no more often than
    there are tries. *)
Lemma attempt_invocations timed op catch p left n w ws :
  n ≤ Try.invocations (Try.attempt timed op catch p left n w ws) ∧
  Try.invocations (Try.attempt timed op catch p left n w ws) ≤ n + left.
Proof.
  revert n w ws. induction left as [|left IH]; intros n w ws;
    cbn [Try.attempt]; destruct (op w) as [[v|x] w'];
    try destruct (Try.classify catch x) as [e|y];
    try destruct p as [pol|]; try destruct (Try.allows pol e n);
    cbn [Try.invocations]; try lia.
  specialize (IH (S n) w' (if timed then ws ++ [Try.delay pol n] else ws)).
  lia.
Qed.

(** The state that the wrapper leaves is the state after as many
    executions of the operation as it counts invocations. *)
Lemma attempt_world timed op catch p left n w ws :
  Try.world (Try.attempt timed op catch p left n w ws)
  = Try.world_before op
      (S (Try.invocations (Try.attempt timed op catch p left n w ws) - n)) w.
Proof.
  revert n w ws. induction left as [|left IH]; intros n w ws.
  - cbn [Try.attempt Try.world_before].
    destruct (op w) as [[v|x] w'] eqn:Hop;
      try destruct (Try.classify catch x) as [e|y];
      try destruct p as [pol|];
      cbn [Try.invocations Try.world]; rewrite Nat.sub_diag; done.
  - pose proof (attempt_invocations timed op catch p left (S n)
                  (snd (op w))) as Hinv.
    cbn [Try.attempt Try.world_before].
    destruct (op w) as [[v|x] w'] eqn:Hop;
      [cbn [Try.invocations Try.world]; rewrite Nat.sub_diag; done|].
    destruct (Try.classify catch x) as [e|y];
      [|cbn [Try.invocations Try.world]; rewrite Nat.sub_diag; done].
    destruct p as [pol|];
      [|cbn [Try.invocations Try.world]; rewrite Nat.sub_diag; done].
    destruct (Try.allows pol e n);
      [|cbn [Try.invocations Try.world]; rewrite Nat.sub_diag; done].
    cbn [snd] in Hinv.
    specialize (Hinv (if timed then ws ++ [Try.delay pol n] else ws)).
    rewrite IH.
    replace (Try.invocations _ - n) with (S (Try.invocations
      (Try.attempt timed op catch (Some pol) left (S n) w'
         (if timed then ws ++ [Try.delay pol n] else ws)) - S n)) by lia.
    done.
Qed.

(** The attempts from try number [n] on, with [left] tries after it. *)
Lemma attempt_spec timed op catch pol left n w ws :
  (∀ e k, Try.allows pol e k = true) →
  let rep := Try.attempt timed op catch (Some pol) left n w ws in
  (∀ k v, k ≤ left →
     (∀ j, j < k → ∃ e, Try.fails_with op catch j w e) →
     Try.nth_try op k w = inl v →
     Try.outcome rep = Try.Returned (Ok v) ∧ Try.invocations rep = n + k) ∧
  (∀ e, (∀ j, j < left → ∃ e', Try.fails_with op catch j w e') →
     Try.fails_with op catch left w e →
     Try.outcome rep = Try.Returned (Err e) ∧
     Try.invocations rep = n + left).
Proof.
  intros Hallow. revert n w ws.
  induction left as [|left IH]; intros n w ws rep; subst rep;
    cbn [Try.attempt].
  - split.
    + intros k v Hk _ Hv. assert (k = 0) as -> by lia.
      unfold Try.nth_try in Hv. simpl in Hv.
      destruct (op w) as [[v'|x] w']; cbn [fst snd] in *; simplify_eq.
      split; [done|simpl; lia].
    + intros e _ (x & Hx & Hc).
      unfold Try.nth_try in Hx. cbn [Try.world_before] in Hx.
      destruct (op w) as [[v'|x'] w']; cbn [fst snd] in *; simplify_eq.
      rewrite Hc. split; [done|simpl; lia].
  - split.
    + intros k v Hk Hbefore Hv. destruct k as [|k].
      * unfold Try.nth_try in Hv. simpl in Hv.
        destruct (op w) as [[v'|x] w']; cbn [fst snd] in *; simplify_eq.
        split; [done|simpl; lia].
      * destruct (Hbefore 0) as (e & x & Hx & Hc); [lia|].
        unfold Try.nth_try in Hx. cbn [Try.world_before] in Hx.
        rewrite nth_try_S in Hv.
        destruct (op w) as [[v'|x'] w'] eqn:Hop; cbn [fst snd] in *;
          simplify_eq.
        rewrite Hc, Hallow.
        destruct (IH (S n) w'
                    (if timed then ws ++ [Try.delay pol n] else ws))
          as [Hfirst _].
        destruct (Hfirst k v) as [-> ->]; [lia| |done|split; [done|lia]].
        intros j Hj. destruct (Hbefore (S j)) as [e' He']; [lia|].
        apply (proj1 (fails_with_S _ _ _ _ _)) in He'.
        rewrite Hop in He'. eauto.
    + intros e Hbefore Hlast.
      destruct (Hbefore 0) as (e0 & x & Hx & Hc); [lia|].
      unfold Try.nth_try in Hx. cbn [Try.world_before] in Hx.
      apply (proj1 (fails_with_S _ _ _ _ _)) in Hlast.
      destruct (op w) as [[v'|x'] w'] eqn:Hop; cbn [fst snd] in *;
        simplify_eq.
      rewrite Hc, Hallow.
      destruct (IH (S n) w'
                  (if timed then ws ++ [Try.delay pol n] else ws))
        as [_ Hnone].
      destruct (Hnone e) as [-> ->]; [|done|split; [done|lia]].
      intros j Hj. destruct (Hbefore (S j)) as [e' He']; [lia|].
      apply (proj1 (fails_with_S _ _ _ _ _)) in He'.
      rewrite Hop in He'. eauto.
Qed.
End TryFacts.

Section GenFacts.
Context {W V T E X : Type}.
Implicit Types (steps : list (Gen.Step W V E)) (w : W) (vals : list V).
Implicit Types (terminal : list V → W → W * Result T E).

(** The driver stops at a yielded error: the rest of the sequence is
    never resumed. *)
Lemma drive_error_ignores_rest w (e : E)
    (resume resume' : V → W → Gen.Suspended W V T E X) cleanup :
  Gen.drive (Gen.Yielded w (Err e) resume cleanup)
  = Gen.drive (Gen.Yielded w (Err e) resume' cleanup).
Proof. done. Qed.

(** The driver resumes the sequence through the steps that yield
    [Ok]. *)
Lemma drive_steps_ok steps more terminal vals w vals' w' :
  Gen.steps_ok steps vals w vals' w' →
  Gen.drive (X:=X) (Gen.sequence (steps ++ more) terminal vals w)
  = Gen.drive (Gen.sequence more terminal vals' w').
Proof.
  induction 1 as [|s rest vals w w1 v vals' w' Hs Hrest IH]; [done|].
  cbn [app Gen.sequence]. rewrite Hs. cbn [Gen.drive]. apply IH.
Qed.
End GenFacts.
(* ================================================================== *)
(** * The tests of [src/src/all.test.ts], on both embeddings *)
(* ================================================================== *)

Example test_eager_default_in_order :
  let promises : input nat nat :=
    Promises [Some (Ok 1); Some (Ok 2); Some (Ok 3)] in
  V1.outcome (V1.run (V1.all promises None)
                [V1.Settle 0; V1.Settle 1; V1.Settle 2])
    = Some (RetResult (Ok [Some (AVal 1); Some (AVal 2); Some (AVal 3)])) ∧
  V2.returned (V2.run (V2.all promises None) [0; 1; 2])
    = Some (RetResult (Ok [Some (AVal 1); Some (AVal 2); Some (AVal 3)])).
Proof. split; vm_compute; reflexivity. Qed.

(** [new Promise(() => {})] never settles. *)
Example test_eager_short_circuit :
  let promises : input nat nat := Promises [None; Some (Err 2)] in
  V1.outcome (V1.run (V1.all promises None) [V1.Settle 1])
    = Some (RetResult (Err 2)) ∧
  V2.returned (V2.run (V2.all promises None) [1])
    = Some (RetResult (Err 2)).
Proof. split; vm_compute; reflexivity. Qed.

Example test_eager_settled :
  let promises : input nat nat :=
    Promises [Some (Ok 1); Some (Err 2); Some (Ok 3)] in
  let results : ret nat nat :=
    RetArray [Some (ARes (Ok 1)); Some (ARes (Err 2)); Some (ARes (Ok 3))] in
  V1.outcome (V1.run (V1.all promises Tests.settled)
                [V1.Settle 0; V1.Settle 1; V1.Settle 2]) = Some results ∧
  V2.returned (V2.run (V2.all promises Tests.settled) [0; 1; 2])
    = Some results.
Proof. split; vm_compute; reflexivity. Qed.

(** "returns result in order and adheres to concurrency": the mock has
    been called twice, then three times, then four times. *)
Example test_lazy_default_V1 :
  let p0 := V1.all Tests.four_ok Tests.concurrency2 in
  let p1 := V1.run p0 (V1.Settle 0 :: Tests.immediate) in
  let p2 := V1.run p1 (V1.Settle 1 :: Tests.immediate) in
  let p3 := V1.run p2 (V1.Settle 2 :: V1.Settle 3 :: Tests.immediate) in
  V1.started_tasks p0 = 2 ∧ V1.started_tasks p1 = 3 ∧
  V1.started_tasks p2 = 4 ∧
  V1.outcome p3
    = Some (RetResult
              (Ok [Some (AVal 1); Some (AVal 2); Some (AVal 3);
                   Some (AVal 4)])).
Proof. split_and!; vm_compute; reflexivity. Qed.

Example test_lazy_default_V2 :
  let p0 := V2.all Tests.four_ok Tests.concurrency2 in
  started (V2.statuses p0) = 2 ∧
  started (V2.statuses (V2.run p0 [0])) = 3 ∧
  started (V2.statuses (V2.run p0 [0; 1])) = 4 ∧
  V2.returned (V2.run p0 [0; 1; 2; 3])
    = Some (RetResult
              (Ok [Some (AVal 1); Some (AVal 2); Some (AVal 3);
                   Some (AVal 4)])).
Proof. split_and!; vm_compute; reflexivity. Qed.

(** "short circuits on first error": the second promise is not resolved
    before the aggregate has returned, and the fourth factory is never
    called. *)
Example test_lazy_short_circuit_V1 :
  let p0 := V1.all Tests.with_error Tests.concurrency2 in
  let p1 := V1.run p0 (V1.Settle 0 :: Tests.immediate) in
  let p2 := V1.run p1 (V1.Settle 1 :: V1.Settle 3 :: Tests.immediate) in
  V1.started_tasks p0 = 2 ∧
  V1.outcome p1 = Some (RetResult (Err 3)) ∧
  V1.started_tasks p2 = 3 ∧
  V1.outcome p2 = Some (RetResult (Err 3)).
Proof. split_and!; vm_compute; reflexivity. Qed.

Example test_lazy_short_circuit_V2 :
  let p0 := V2.all Tests.with_error Tests.concurrency2 in
  started (V2.statuses p0) = 2 ∧
  V2.returned (V2.run p0 [0; 2]) = Some (RetResult (Err 3)) ∧
  V2.statuses (V2.run p0 [0; 2; 1; 3])
    = [Done; Done; Done; NotStarted] ∧
  V2.returned (V2.run p0 [0; 2; 1; 3]) = Some (RetResult (Err 3)).
Proof. split_and!; vm_compute; reflexivity. Qed.

Example test_lazy_settled_V1 :
  let p0 := V1.all Tests.four_mixed Tests.settled2 in
  let p1 := V1.run p0 (V1.Settle 0 :: Tests.immediate) in
  let p2 := V1.run p1 (V1.Settle 1 :: Tests.immediate) in
  let p3 := V1.run p2 (V1.Settle 2 :: V1.Settle 3 :: Tests.immediate) in
  V1.started_tasks p0 = 2 ∧ V1.started_tasks p1 = 3 ∧
  V1.started_tasks p2 = 4 ∧
  V1.outcome p3
    = Some (RetArray
              [Some (ARes (Ok 1)); Some (ARes (Err 2)); Some (ARes (Ok 3));
               Some (ARes (Ok 4))]).
Proof. split_and!; vm_compute; reflexivity. Qed.

Example test_lazy_settled_V2 :
  let p0 := V2.all Tests.four_mixed Tests.settled2 in
  started (V2.statuses p0) = 2 ∧
  started (V2.statuses (V2.run p0 [0])) = 3 ∧
  started (V2.statuses (V2.run p0 [0; 1])) = 4 ∧
  V2.returned (V2.run p0 [0; 1; 2; 3])
    = Some (RetArray
              [Some (ARes (Ok 1)); Some (ARes (Err 2)); Some (ARes (Ok 3));
               Some (ARes (Ok 4))]).
Proof. split_and!; vm_compute; reflexivity. Qed.
(* ================================================================== *)
(** * The properties stated by the specification *)
(* ================================================================== *)

(** C1.  In default mode [all] is to return the error of the task that
    fails first in settlement order, without waiting for what is still
    pending.  The bounded loop of [allLazy] in [src/src/all.ts] does not:
    it looks at the winner of each [Promise.race] only, and the callback
    that removes a settled task from [executing] runs before the loop is
    resumed, so the error of a task that settles in the same turn of the
    job queue as the winner is never looked at.
    [all([() => Promise.resolve(Result.ok(1)),
          () => Promise.resolve(Result.err(2))], { concurrency: 2 })]
    has returned [Ok [1]] after five jobs, although task 1 has settled
    with [Err 2]; two tasks that start pending and settle one after
    the other before the job queue runs give the same; and nothing that
    happens later changes what was returned. *)
Theorem bounded_loop_loses_error :
  let opts := Some {| opt_mode := None; opt_concurrency := Some (Num 2) |} in
  let resolved : input nat nat :=
    Thunks [Resolved (Ok 1); Resolved (Err 2)] in
  let deferred : input nat nat :=
    Thunks [Deferred (Some (Ok 1)); Deferred (Some (Err 2))] in
  let p := V1.run (V1.all resolved opts) (replicate 5 V1.Tick) in
  let q := V1.run (V1.all deferred opts)
             ([V1.Settle 0; V1.Settle 1] ++ replicate 5 V1.Tick) in
  mode_of opts = Default ∧
  settles_to (as_promises resolved) 1 = Some (Err 2) ∧
  settles_to (as_promises deferred) 1 = Some (Err 2) ∧
  V1.outcome p = Some (RetResult (Ok [Some (AVal 1)])) ∧
  V1.outcome q = Some (RetResult (Ok [Some (AVal 1)])) ∧
  V1.tasks_in_flight p = 0 ∧ V1.tasks_in_flight q = 0 ∧
  (∀ acts, V1.run p acts = p) ∧
  (∀ acts, V1.run q acts = q).
Proof.
  intros opts resolved deferred p q.
  split_and!; [vm_compute; reflexivity..| |].
  - intros acts. apply V1_quiet_run.
    intros [[|[|i]]|]; vm_compute; reflexivity.
  - intros acts. apply V1_quiet_run.
    intros [[|[|i]]|]; vm_compute; reflexivity.
Qed.

(** C2.  For every list of N tasks whose operations each resolve to
    [Ok v_i], [all] in default mode with unbounded concurrency returns
    [Ok [v_0, ..., v_{N-1}]], the values in index order, whatever the
    order in which the operations complete: for every settlement order
    in which every task settles.  This holds for an array of promises and
    for an array of factories, in [src/src/all.ts] and in the rewritten
    [all.ts]. *)
Theorem all_ok_in_index_order {V E : Type} (vs : list V) (inp : input V E)
    (opts : option Options) (sched : list nat) (acts : list V1.action) :
  as_promises inp = (λ v, Some (Ok v)) <$> vs →
  mode_of opts = Default →
  concurrency_of opts = Unbounded →
  (∀ i, i < length vs → i ∈ sched) →
  (∀ i, i < length vs → V1.Settle i ∈ acts) →
  V2.returned (V2.run (V2.all inp opts) sched)
    = Some (RetResult (Ok ((λ v, Some (AVal v)) <$> vs))) ∧
  V1.outcome (V1.run (V1.all inp opts) acts)
    = Some (RetResult (Ok ((λ v, Some (AVal v)) <$> vs))).
Proof.
  intros Hinp Hm Hc Hsched Hacts. split.
  - rewrite V2_all_eager by auto. rewrite Hm, V2_run_eager. simpl.
    by apply allEager_all_ok.
  - rewrite V1_all_eager by auto. rewrite Hm, V1_run_eager.
    cbn [V1.outcome]. rewrite allEager_V1_V2.
    apply allEager_all_ok; [done|].
    intros i Hi. apply elem_of_settlements. by apply Hacts.
Qed.

(** [all([p0, p1, p2])] where the promises resolve to [Ok 10], [Ok 20],
    [Ok 30] and settle in the order 2, 0, 1. *)
Lemma all_ok_in_index_order_witness :
  V2.returned
    (V2.run (V2.all (Promises [Some (Ok 10); Some (Ok 20); Some (Ok 30)])
               None) [2; 0; 1])
    = Some (RetResult
              (@Ok _ nat [Some (AVal 10); Some (AVal 20); Some (AVal 30)])) ∧
  V1.outcome
    (V1.run (V1.all (Promises [Some (Ok 10); Some (Ok 20); Some (Ok 30)])
               None) [V1.Settle 2; V1.Tick; V1.Settle 0; V1.Settle 1])
    = Some (RetResult
              (@Ok _ nat [Some (AVal 10); Some (AVal 20); Some (AVal 30)])).
Proof.
  apply (all_ok_in_index_order [10; 20; 30]);
    [reflexivity | reflexivity | reflexivity | |].
  - intros i Hi. destruct i as [|[|[|i]]]; [repeat constructor..|simpl in Hi; lia].
  - intros i Hi. destruct i as [|[|[|i]]]; [repeat constructor..|simpl in Hi; lia].
Defined.

(** C3.  In settled mode [all] never returns early, for an array of
    promises or of factories and with unbounded or positive bounded
    concurrency: whenever the aggregate has returned, every task has been
    started and has completed, and the returned array holds at index [j]
    the Result of task [j], so it has length N, whatever the order of
    completion.  And it does return: when all tasks settle, every run,
    of the rewritten [all.ts] and of [src/src/all.ts], can be continued
    to one in which the aggregate has returned. *)
Theorem settled_mode_waits_for_all {V E : Type} (inp : input V E)
    (opts : option Options) :
  mode_of opts = Settled →
  match concurrency_of opts with Unbounded => True | Num k => (1 ≤ k)%Z end →
  (∀ sched x,
     V2.returned (V2.run (V2.all inp opts) sched) = Some x →
     (∀ i, i < input_length inp →
           V2.statuses (V2.run (V2.all inp opts) sched) !! i = Some Done) ∧
     ∃ rs, as_promises inp = Some <$> rs ∧
           x = RetArray ((λ r, Some (ARes r)) <$> rs)) ∧
  (∀ acts x,
     V1.outcome (V1.run (V1.all inp opts) acts) = Some x →
     V1.started_tasks (V1.run (V1.all inp opts) acts) = input_length inp ∧
     V1.tasks_in_flight (V1.run (V1.all inp opts) acts) = 0 ∧
     ∃ rs, as_promises inp = Some <$> rs ∧
           x = RetArray ((λ r, Some (ARes r)) <$> rs)) ∧
  ((∀ i, i < input_length inp → is_Some (settles_to (as_promises inp) i)) →
   (∀ sched, ∃ more,
      is_Some (V2.returned (V2.run (V2.all inp opts) (sched ++ more)))) ∧
   (∀ acts, ∃ more,
      is_Some (V1.outcome (V1.run (V1.all inp opts) (acts ++ more))))).
Proof.
  intros Hm HK. split_and!.
  - intros sched. apply V2_settled_waits_for_all. done.
  - intros acts. by apply V1_settled_waits_for_all.
  - intros Hall. split.
    + intros sched. by apply V2_completes.
    + intros acts. by apply V1_completes.
Qed.

(** Three factories, the second of which fails, in settled mode with
    concurrency 2. *)
Lemma settled_mode_waits_for_all_witness :
  let inp : input nat nat :=
    Thunks [Deferred (Some (Ok 1)); Deferred (Some (Err 2));
            Deferred (Some (Ok 3))] in
  let opts :=
    Some {| opt_mode := Some Settled; opt_concurrency := Some (Num 2) |} in
  mode_of opts = Settled ∧
  (∀ acts x,
     V1.outcome (V1.run (V1.all inp opts) acts) = Some x →
     V1.started_tasks (V1.run (V1.all inp opts) acts) = input_length inp ∧
     V1.tasks_in_flight (V1.run (V1.all inp opts) acts) = 0 ∧
     ∃ rs, as_promises inp = Some <$> rs ∧
           x = RetArray ((λ r, Some (ARes r)) <$> rs)).
Proof.
  intros inp opts. split; [reflexivity|].
  apply (settled_mode_waits_for_all inp opts); [reflexivity|simpl; lia].
Defined.

(** C4.  With a positive concurrency [K] at most [K] tasks are to be
    in flight, and [min K N] of them are started at first.
    [src/src/all.ts] bounds the size of [executing], a [Set] of promise
    objects, and not the number of calls: when factories return the
    same object, [executing.add(promise)] leaves the size what it was
    and the inner loop goes on calling factories.  For
    [const p = <pending>; all([() => p, () => p, () => p],
    { concurrency: 2 })] all three factories have been called when the
    function reaches its first [await]: three tasks are in flight,
    [executing] has one member, and so it stays while [p] is pending;
    when [p] has settled to [Ok 1] the call returns [Ok [1, 1, 1]].
    With promises of their own two of three factories are called. *)
Theorem shared_promise_exceeds_concurrency :
  let g := V1S.allLazy one_shared_promise 2 in
  V1S.started_tasks g = 3 ∧
  V1S.tasks_in_flight one_shared_promise g = 3 ∧
  ¬ (Z.of_nat (V1S.tasks_in_flight one_shared_promise g) ≤ 2)%Z ∧
  V1S.executing g = [0] ∧
  V1S.queue g = [] ∧
  V1S.returned g = None ∧
  (∀ n, V1S.run Default 2 one_shared_promise (replicate n V1.Tick) = g) ∧
  V1S.returned
    (V1S.run Default 2 one_shared_promise
       (V1.Settle 0 :: replicate 5 V1.Tick))
  = Some (RetResult (Ok [Some (AVal 1); Some (AVal 1); Some (AVal 1)])) ∧
  V1S.started_tasks (V1S.allLazy three_own_promises 2) = 2 ∧
  V1S.tasks_in_flight three_own_promises
    (V1S.allLazy three_own_promises 2) = 2.
Proof.
  intros g. split_and!; try (vm_compute; reflexivity).
  - vm_compute. by intros H.
  - intros n. unfold V1S.run. fold g.
    induction n as [|n IH]; [done|]. exact IH.
Qed.

(** C5.  The composition engine [Result.gen], on a straight-line
    sequence of steps.  When the steps [before] all yield [Ok] in the
    run from the state [w], leaving the state [w'] and the unwrapped
    values [vals']: if they are all the steps and the terminal step
    returns [Ok x], the composition is [Ok x]; and if the next step
    yields [Err e], the composition is [Err e] and ends in the state
    that this step leaves, whatever steps [after] and whatever terminal
    step follow: none of them runs. *)
Theorem gen_runs_steps_until_first_error {W V T E X : Type}
    (before : list (Gen.Step W V E)) (w : W) (vals' : list V) (w' : W) :
  Gen.steps_ok before [] w vals' w' →
  (∀ (terminal : list V → W → W * Result T E) w'' x,
     terminal vals' w' = (w'', Ok x) →
     Gen.gen (X:=X) (Gen.sequence before terminal []) w
     = (w'', Gen.Completed (Ok x))) ∧
  (∀ (s : Gen.Step W V E) (after : list (Gen.Step W V E))
     (terminal : list V → W → W * Result T E) w'' e,
     s vals' w' = (w'', Err e) →
     Gen.gen (X:=X) (Gen.sequence (before ++ s :: after) terminal []) w
     = (w'', Gen.Completed (Err e))).
Proof.
  intros Hok. unfold Gen.gen. split.
  - intros terminal w'' x Hterm.
    rewrite <-(app_nil_r before).
    rewrite (drive_steps_ok before [] terminal [] w vals' w' Hok).
    cbn [Gen.sequence]. by rewrite Hterm.
  - intros s after terminal w'' e Hs.
    rewrite (drive_steps_ok before (s :: after) terminal [] w vals' w' Hok).
    cbn [Gen.sequence]. by rewrite Hs.
Qed.

(** The two compositions of the tests: [getA], [getB], [getC] yield
    [Ok 1], [Ok 2], [Ok 3] and the composition returns [Ok 3]; and when
    [getA] fails, [getB], which would set the flag, is not called. *)
Lemma gen_runs_steps_until_first_error_witness :
  let getA : Gen.Step bool nat nat := λ _ w, (w, Ok 1) in
  let next : Gen.Step bool nat nat :=
    λ vals w, (w, Ok (S (last vals 0))) in
  let failA : Gen.Step bool nat nat := λ _ w, (w, Err 7) in
  let setB : Gen.Step bool nat nat := λ _ _, (true, Ok 2) in
  let ret : list nat → bool → bool * Result nat nat :=
    λ vals w, (w, Ok (last vals 0)) in
  Gen.gen (X:=unit) (Gen.sequence [getA; next; next] ret []) false
  = (false, Gen.Completed (Ok 3)) ∧
  Gen.gen (X:=unit) (Gen.sequence [failA; setB] ret []) false
  = (false, Gen.Completed (Err 7)).
Proof.
  intros getA next failA setB ret. split.
  - apply (gen_runs_steps_until_first_error (X:=unit)
             [getA; next; next] false [1; 2; 3] false); [|reflexivity].
    eapply Gen.steps_ok_cons; [reflexivity|].
    eapply Gen.steps_ok_cons; [reflexivity|].
    eapply Gen.steps_ok_cons; [reflexivity|].
    apply Gen.steps_ok_nil.
  - apply (gen_runs_steps_until_first_error (X:=unit)
             [] false [] false (Gen.steps_ok_nil [] false)
           ).
    reflexivity.
Defined.

(** C6.  A concurrency [K >= N] is to behave like unbounded
    concurrency.  In [src/src/all.ts] it does not in default mode: for
    three tasks that resolve to [Ok 1], [Err 2], [Ok 3] the call with
    [concurrency: 3] has returned [Ok [1, <hole>, 3]] after seven jobs,
    for good, while the call with unbounded concurrency returns nothing
    but [Err 2]. *)
Theorem wide_loop_differs_from_unbounded :
  let tasks : input nat nat :=
    Thunks [Resolved (Ok 1); Resolved (Err 2); Resolved (Ok 3)] in
  let bounded :=
    Some {| opt_mode := None; opt_concurrency := Some (Num 3) |} in
  let unbounded :=
    Some {| opt_mode := None; opt_concurrency := Some Unbounded |} in
  let p := V1.run (V1.all tasks bounded) (replicate 7 V1.Tick) in
  (Z.of_nat (input_length tasks) ≤ 3)%Z ∧
  V1.outcome p
    = Some (RetResult (Ok [Some (AVal 1); None; Some (AVal 3)])) ∧
  (∀ acts, V1.run p acts = p) ∧
  (∀ acts x,
     V1.outcome (V1.run (V1.all tasks unbounded) acts) = Some x →
     x = RetResult (Err 2)) ∧
  V1.outcome (V1.run (V1.all tasks unbounded)
                [V1.Settle 0; V1.Settle 1; V1.Settle 2])
    = Some (RetResult (Err 2)).
Proof.
  intros tasks bounded unbounded p.
  split_and!.
  - vm_compute. discriminate.
  - vm_compute. reflexivity.
  - intros acts. apply V1_quiet_run.
    intros [[|[|[|i]]]|]; vm_compute; reflexivity.
  - intros acts x Hx.
    assert (V1.outcome (V1.run (V1.all tasks unbounded) acts)
            = Some (RetResult (Err 2))) as Hone.
    { apply (V1_eager_single_error_returned tasks unbounded 1 2 acts).
      - right. reflexivity.
      - reflexivity.
      - reflexivity.
      - intros [|[|[|j]]] r Hj Hr; vm_compute in Hr; by simplify_eq.
      - by exists x. }
    rewrite Hone in Hx. by simplify_eq.
  - vm_compute. reflexivity.
Qed.

(** C7.  When exactly one task fails, with [Err e], default mode is
    to return [Err e].  The bounded loop of [allLazy] in
    [src/src/all.ts] does not: for three tasks that resolve to [Ok 1],
    [Err 2], [Ok 3] and [concurrency: 2] the call has returned
    [Ok [1, <hole>, 3]] after eight jobs, for good; all three tasks were
    started. *)
Theorem single_error_lost_in_bounded_loop :
  let tasks : input nat nat :=
    Thunks [Resolved (Ok 1); Resolved (Err 2); Resolved (Ok 3)] in
  let opts := Some {| opt_mode := None; opt_concurrency := Some (Num 2) |} in
  let p := V1.run (V1.all tasks opts) (replicate 8 V1.Tick) in
  as_promises tasks = [Some (Ok 1); Some (Err 2); Some (Ok 3)] ∧
  V1.outcome (V1.run (V1.all tasks opts) (replicate 7 V1.Tick)) = None ∧
  V1.outcome p
    = Some (RetResult (Ok [Some (AVal 1); None; Some (AVal 3)])) ∧
  V1.started_tasks p = 3 ∧
  (∀ acts, V1.run p acts = p).
Proof.
  intros tasks opts p.
  split_and!; [vm_compute; reflexivity..|].
  intros acts. apply V1_quiet_run.
  intros [[|[|[|i]]]|]; vm_compute; reflexivity.
Qed.

(** C8.  [Result.try] and [Result.tryPromise] with a retry policy of
    [attempts] tries whose [shouldRetry] always allows a retry: the
    operation is invoked at most [attempts] times, and the state it
    leaves is the state after exactly as many executions as are counted
    ([Try.world_before op n w] is the state after [n] executions from
    [w]); if the tries before try number [k + 1] fail and that try
    succeeds, with [v], the wrapper returns [Ok v], has invoked the
    operation exactly [k + 1] times and leaves the state after [k + 1]
    executions, so no try follows the success; if all [attempts] tries
    fail, it returns the error of the last one and the operation has
    been executed [attempts] times. *)
Theorem retry_returns_first_ok {W T X E : Type} (op : W → (T + X) * W)
    (catch : option (X → E + X)) (pol : Try.RetryPolicy X E) (w : W)
    (timed : bool) :
  1 ≤ Try.attempts pol →
  (∀ e k, Try.allows pol e k = true) →
  let rep :=
    if timed then Try.tryPromise op catch (Some pol) w
    else Try.try op catch (Some pol) w in
  Try.invocations rep ≤ Try.attempts pol ∧
  Try.world rep = Try.world_before op (Try.invocations rep) w ∧
  (∀ k v, k < Try.attempts pol →
     (∀ j, j < k → ∃ e, Try.fails_with op catch j w e) →
     Try.nth_try op k w = inl v →
     Try.outcome rep = Try.Returned (Ok v) ∧ Try.invocations rep = S k ∧
     Try.world rep = Try.world_before op (S k) w) ∧
  (∀ e,
     (∀ j, j < Try.attempts pol - 1 → ∃ e', Try.fails_with op catch j w e') →
     Try.fails_with op catch (Try.attempts pol - 1) w e →
     Try.outcome rep = Try.Returned (Err e) ∧
     Try.invocations rep = Try.attempts pol ∧
     Try.world rep = Try.world_before op (Try.attempts pol) w).
Proof.
  intros Hn Hallow rep.
  assert (rep = Try.attempt timed op catch (Some pol)
                  (Try.attempts pol - 1) 1 w []) as ->.
  { subst rep. by destruct timed. }
  destruct (attempt_spec timed op catch pol (Try.attempts pol - 1) 1 w []
              Hallow) as [Hfirst Hnone].
  pose proof (attempt_invocations timed op catch (Some pol)
                (Try.attempts pol - 1) 1 w []) as Hinv.
  assert (Try.world (Try.attempt timed op catch (Some pol)
                       (Try.attempts pol - 1) 1 w [])
          = Try.world_before op
              (Try.invocations (Try.attempt timed op catch (Some pol)
                                  (Try.attempts pol - 1) 1 w [])) w)
    as Hworld.
  { rewrite attempt_world. f_equal. lia. }
  split_and!.
  - lia.
  - exact Hworld.
  - intros k v Hk Hbefore Hv.
    destruct (Hfirst k v) as [Hout Hcount]; [lia|done..|].
    rewrite Hworld, Hcount. split_and!; [done|lia|f_equal; lia].
  - intros e Hbefore Hlast.
    destruct (Hnone e) as [Hout Hcount]; [done..|].
    rewrite Hworld, Hcount. split_and!; [done|lia|f_equal; lia].
Qed.

(** The operation of the tests: it counts its invocations in its own
    state, fails on the first two and succeeds on the third, under a
    policy of three attempts; the count it holds at the end is 3. *)
Lemma retry_returns_first_ok_witness :
  let op : nat → (nat + nat) * nat :=
    λ n, (if decide (S n < 3) then inr 0 else inl 42, S n) in
  let pol : Try.RetryPolicy nat nat :=
    {| Try.attempts := 3; Try.delayMs := 10;
       Try.backoff := Try.Exponential; Try.shouldRetry := None |} in
  Try.outcome (Try.tryPromise op None (Some pol) 0)
    = Try.Returned (Ok 42) ∧
  Try.invocations (Try.tryPromise op None (Some pol) 0) = 3 ∧
  Try.world (Try.tryPromise op None (Some pol) 0) = 3 ∧
  Try.outcome (Try.try op None (Some pol) 0) = Try.Returned (Ok 42) ∧
  Try.invocations (Try.try op None (Some pol) 0) = 3 ∧
  Try.world (Try.try op None (Some pol) 0) = 3.
Proof.
  intros op pol.
  assert (∀ timed : bool,
    let rep := if timed then Try.tryPromise op None (Some pol) 0
               else Try.try op None (Some pol) 0 in
    Try.outcome rep = Try.Returned (Ok 42) ∧ Try.invocations rep = 3 ∧
    Try.world rep = 3)
    as Hboth.
  { intros timed.
    destruct (retry_returns_first_ok op None pol 0 timed)
      as (_ & _ & Hfirst & _).
    - simpl. lia.
    - reflexivity.
    - apply (Hfirst 2 42).
      + simpl. lia.
      + intros [|[|j]] Hj; [by eexists _, _..|lia].
      + reflexivity. }
  destruct (Hboth true) as (? & ? & ?), (Hboth false) as (? & ? & ?). done.
Defined.

(** C9.  For an empty input list [all] resolves at once, before any
    promise settles and without starting any task: to [Ok []] in default
    mode and to [[]] in settled mode.  An empty array is an empty array of
    promises or of factories; either goes down the eager path whatever
    the options are. *)
Theorem all_empty_resolves_at_once {V E : Type} (opts : option Options) :
  let empty : ret V E :=
    match mode_of opts with
    | Default => RetResult (Ok [])
    | Settled => RetArray []
    end in
  (V2.returned (V2.all (Promises []) opts) = Some empty ∧
   V2.statuses (V2.all (@Promises V E []) opts) = []) ∧
  (V2.returned (V2.all (Thunks []) opts) = Some empty ∧
   V2.statuses (V2.all (@Thunks V E []) opts) = []) ∧
  (V1.outcome (V1.all (Promises []) opts) = Some empty ∧
   V1.started_tasks (V1.all (@Promises V E []) opts) = 0) ∧
  (V1.outcome (V1.all (Thunks []) opts) = Some empty ∧
   V1.started_tasks (V1.all (@Thunks V E []) opts) = 0).
Proof.
  unfold V2.all, V1.all, V2.allEager, V1.allEager. simpl.
  by destruct (mode_of opts).
Qed.

(** C10.  [all] chooses between [allLazy] and [allEager] by looking at
    the first element of its input only: an array whose first element is
    a factory goes to [allLazy], every other input to [allEager].  So a
    numeric [concurrency] given with an array of promises changes
    nothing: the call is the call with unbounded concurrency, every
    promise is in flight from the start, and no error is raised; and an
    empty array of factories is handled by [allEager], like an empty
    array of promises.  An array of factories is handled lazily: with a
    positive [concurrency] [K] the rewritten [all.ts] has called
    [min K N] of the [N] factories when it reaches its first [await],
    and with [concurrency: 1] both versions have called one. *)
Theorem all_dispatches_on_first_element {V E : Type} :
  (∀ (t : thunk V E) ts, first_is_function (Thunks (t :: ts)) = true) ∧
  (∀ ps : list (option (Result V E)),
     first_is_function (Promises ps) = false) ∧
  first_is_function (@Thunks V E []) = false ∧
  (∀ (inp : input V E) opts,
     V1.all inp opts =
       (if first_is_function inp
        then V1.allLazy (as_thunks inp) (mode_of opts) (concurrency_of opts)
        else V1.PEager (mode_of opts) (as_promises inp)
               (V1.allEager (as_promises inp) (mode_of opts))) ∧
     V2.all inp opts =
       (if first_is_function inp
        then V2.allLazy (as_thunks inp) (mode_of opts) (concurrency_of opts)
        else V2.PEager (mode_of opts) (as_promises inp)
               (V2.allEager (as_promises inp) (mode_of opts)))) ∧
  (∀ (ps : list (option (Result V E))) m k,
     let bounded :=
       Some {| opt_mode := m; opt_concurrency := Some (Num k) |} in
     let unbounded :=
       Some {| opt_mode := m; opt_concurrency := Some Unbounded |} in
     let default := Some {| opt_mode := m; opt_concurrency := None |} in
     V1.all (Promises ps) bounded = V1.all (Promises ps) unbounded ∧
     V1.all (Promises ps) bounded = V1.all (Promises ps) default ∧
     V2.all (Promises ps) bounded = V2.all (Promises ps) unbounded ∧
     V2.all (Promises ps) bounded = V2.all (Promises ps) default ∧
     (ps ≠ [] →
      in_flight (V2.statuses (V2.all (Promises ps) bounded)) = length ps ∧
      V1.started_tasks (V1.all (Promises ps) bounded) = length ps)) ∧
  (∀ (t : thunk V E) ts m,
     let one := Some {| opt_mode := m; opt_concurrency := Some (Num 1) |} in
     V1.started_tasks (V1.all (Thunks (t :: ts)) one) = 1 ∧
     started (V2.statuses (V2.all (Thunks (t :: ts)) one)) = 1 ∧
     ∀ k, (1 ≤ k)%Z →
       started (V2.statuses
                  (V2.all (Thunks (t :: ts))
                     (Some {| opt_mode := m;
                              opt_concurrency := Some (Num k) |})))
       = Z.to_nat (Z.min k (Z.of_nat (S (length ts))))) ∧
  (∀ opts,
     V1.all (@Thunks V E []) opts
       = V1.PEager (mode_of opts) [] (V1.allEager [] (mode_of opts)) ∧
     V2.all (@Thunks V E []) opts
       = V2.PEager (mode_of opts) [] (V2.allEager [] (mode_of opts)) ∧
     V1.all (@Thunks V E []) opts = V1.all (Promises []) opts ∧
     V2.all (@Thunks V E []) opts = V2.all (Promises []) opts).
Proof.
  split_and!; try done.
  - intros ps m k. simpl. split_and!; try done.
    intros Hne. assert (length ps ≠ 0) as Hn by (by destruct ps).
    unfold V2.all, V1.all, V2.allEager, V1.allEager. simpl.
    rewrite !decide_False by done.
    destruct (mode_of _); simpl;
      by rewrite ?in_flight_replicate_Pending, ?started_replicate_Pending.
  - intros t ts m one.
    assert (∀ k, (1 ≤ k)%Z →
              started (V2.statuses
                         (V2.all (Thunks (t :: ts))
                            (Some {| opt_mode := m;
                                     opt_concurrency := Some (Num k) |})))
              = Z.to_nat (Z.min k (Z.of_nat (S (length ts))))) as Hpool.
    { intros k Hk.
      by apply (V2_pool_bound (t :: ts)
                  (Some {| opt_mode := m; opt_concurrency := Some (Num k) |})
                  k []). }
    split_and!; [| |exact Hpool].
    + destruct (V1_loop_bound (t :: ts) one 1 []) as (_ & -> & _);
        [done|lia|]. simpl. lia.
    + subst one. rewrite (Hpool 1%Z) by lia. simpl. lia.
Qed.

(** Two promises with [concurrency: 1]: both are in flight at once.
    Two factories with [concurrency: 1]: one has been called. *)
Lemma all_dispatches_on_first_element_witness :
  let ps : list (option (Result nat nat)) := [Some (Ok 1); None] in
  let ts : list (thunk nat nat) := [Deferred (Some (Ok 1)); Deferred None] in
  let bounded :=
    Some {| opt_mode := None; opt_concurrency := Some (Num 1) |} in
  in_flight (V2.statuses (V2.all (Promises ps) bounded)) = 2 ∧
  V1.started_tasks (V1.all (Promises ps) bounded) = 2 ∧
  V1.started_tasks (V1.all (Thunks ts) bounded) = 1 ∧
  started (V2.statuses (V2.all (Thunks ts) bounded)) = 1.
Proof.
  intros ps ts bounded.
  destruct (@all_dispatches_on_first_element nat nat)
    as (_ & _ & _ & _ & Hnum & Hfun & _).
  destruct (Hnum ps None 1%Z) as (_ & _ & _ & _ & Hfull).
  destruct (Hfull ltac:(done)) as [Hp2 Hp1].
  destruct (Hfun (Deferred (Some (Ok 1))) [Deferred None] None)
    as (Hf1 & Hf2 & _).
  split_and!; [exact Hp2|exact Hp1|exact Hf1|exact Hf2].
Defined.

(* ================================================================== *)
(** * Further properties of [all] *)
(* ================================================================== *)

(** X1.  The rewritten [all.ts], default mode, for promises and for
    factories with any concurrency: when the tasks that have settled so
    far all resolved to [Ok] and a task that is in flight settles with
    [Err e], [all] has returned [Err e], whatever settles later. *)
Theorem rewritten_first_error_wins {V E : Type} (inp : input V E)
    (opts : option Options) (pre : list nat) (i : nat) (e : E)
    (post : list nat) :
  mode_of opts = Default →
  (∀ j r, j ∈ pre → settles_to (as_promises inp) j = Some r →
          isErr r = false) →
  V2.statuses (V2.run (V2.all inp opts) pre) !! i = Some Pending →
  settles_to (as_promises inp) i = Some (Err e) →
  V2.returned (V2.run (V2.all inp opts) (pre ++ i :: post))
  = Some (RetResult (Err e)).
Proof. apply V2_first_error_wins. Qed.

(** Three factories with [concurrency: 2]; task 0 resolves to [Ok 1],
    then task 2 fails before task 1 does. *)
Lemma rewritten_first_error_wins_witness :
  let inp := Thunks ok1_err2_err3 in
  let opts := with_concurrency 2 in
  V2.statuses (V2.run (V2.all inp opts) [0]) !! 2 = Some Pending ∧
  V2.returned (V2.run (V2.all inp opts) ([0] ++ 2 :: [1]))
  = Some (RetResult (Err 3)).
Proof.
  intros inp opts. split; [vm_compute; reflexivity|].
  apply (rewritten_first_error_wins inp opts [0] 2 3 [1]);
    [reflexivity| |vm_compute; reflexivity|reflexivity].
  intros j r Hj Hr. list_cases Hj. subst j.
  vm_compute in Hr. by simplify_eq.
Defined.

(** X2.  [src/src/all.ts], default mode, for promises and for factories
    with unbounded concurrency: when the tasks that have settled so far
    all resolved to [Ok] and a task that has not settled yet settles
    with [Err e], [all] has returned [Err e], whatever happens later. *)
Theorem eager_path_first_error_wins {V E : Type} (inp : input V E)
    (opts : option Options) (pre : list V1.action) (i : nat) (e : E)
    (post : list V1.action) :
  first_is_function inp = false ∨ concurrency_of opts = Unbounded →
  mode_of opts = Default →
  (∀ j r, V1.Settle j ∈ pre → settles_to (as_promises inp) j = Some r →
          isErr r = false) →
  V1.Settle i ∉ pre → i < input_length inp →
  settles_to (as_promises inp) i = Some (Err e) →
  V1.outcome (V1.run (V1.all inp opts) (pre ++ V1.Settle i :: post))
  = Some (RetResult (Err e)).
Proof. apply V1_eager_first_error_wins. Qed.

(** Three promises; the first resolves to [Ok 1], then the third fails
    before the second does. *)
Lemma eager_path_first_error_wins_witness :
  let inp : input nat nat :=
    Promises [Some (Ok 1); Some (Err 2); Some (Err 3)] in
  V1.outcome
    (V1.run (V1.all inp None)
       ([V1.Settle 0; V1.Tick] ++ V1.Settle 2 :: [V1.Settle 1]))
  = Some (RetResult (Err 3)).
Proof.
  intros inp.
  apply (eager_path_first_error_wins inp None [V1.Settle 0; V1.Tick] 2 3
           [V1.Settle 1]);
    [by left|reflexivity| | |simpl; lia|reflexivity].
  - intros j r Hj Hr. list_cases Hj; [|done].
    injection Hj as ->. vm_compute in Hr. by simplify_eq.
  - intros Hin. list_cases Hin; done.
Defined.

(** X3.  The rewritten [all.ts]: with a concurrency that is at least
    the number of factories, [allLazy] behaves as with unbounded
    concurrency: in every settlement order it has returned the same and
    the same tasks are in flight. *)
Theorem wide_pool_is_unbounded {V E : Type} (ts : list (thunk V E))
    (mode : ModeSetting) (K : Z) (sched : list nat) :
  (Z.of_nat (length ts) ≤ K)%Z →
  V2.returned (V2.run (V2.allLazy ts mode (Num K)) sched)
    = V2.returned (V2.run (V2.allLazy ts mode Unbounded) sched) ∧
  V2.statuses (V2.run (V2.allLazy ts mode (Num K)) sched)
    = V2.statuses (V2.run (V2.allLazy ts mode Unbounded) sched).
Proof. apply V2_wide_pool_is_unbounded. Qed.

(** Three factories with [concurrency: 3], of which the second fails
    after the third has resolved. *)
Lemma wide_pool_is_unbounded_witness :
  V2.returned (V2.run (V2.allLazy ok1_err2_ok3 Default (Num 3)) [2; 1])
    = Some (RetResult (Err 2)) ∧
  V2.returned (V2.run (V2.allLazy ok1_err2_ok3 Default Unbounded) [2; 1])
    = Some (RetResult (Err 2)).
Proof.
  destruct (wide_pool_is_unbounded ok1_err2_ok3 Default 3 [2; 1])
    as [Hret _]; [simpl; lia|].
  split; [|vm_compute; reflexivity].
  rewrite Hret. vm_compute. reflexivity.
Defined.

(** X4.  The rewritten [all.ts], default mode: when exactly one task
    fails, with [Err e], then [all] has returned [Err e] as soon as
    that task has settled, and it never returns anything else. *)
Theorem rewritten_single_error_returned {V E : Type} (inp : input V E)
    (opts : option Options) (i : nat) (e : E) (sched : list nat) :
  mode_of opts = Default →
  settles_to (as_promises inp) i = Some (Err e) →
  (∀ j r, j ≠ i → settles_to (as_promises inp) j = Some r →
          isErr r = false) →
  (V2.statuses (V2.run (V2.all inp opts) sched) !! i = Some Done →
   V2.returned (V2.run (V2.all inp opts) sched)
   = Some (RetResult (Err e))) ∧
  (∀ x, V2.returned (V2.run (V2.all inp opts) sched) = Some x →
        x = RetResult (Err e)).
Proof.
  intros Hm He Hothers.
  destruct (V2_single_error_returned inp opts i e sched Hm He Hothers)
    as [Hdone Hret].
  split; [done|]. intros x Hx.
  rewrite Hret in Hx by (by exists x). by simplify_eq.
Qed.

(** Three factories with [concurrency: 2], the second of which fails
    last. *)
Lemma rewritten_single_error_returned_witness :
  let inp := Thunks ok1_err2_ok3 in
  let opts := with_concurrency 2 in
  V2.statuses (V2.run (V2.all inp opts) [0; 2; 1]) !! 1 = Some Done ∧
  V2.returned (V2.run (V2.all inp opts) [0; 2; 1])
  = Some (RetResult (Err 2)).
Proof.
  intros inp opts.
  assert (V2.statuses (V2.run (V2.all inp opts) [0; 2; 1]) !! 1
          = Some Done) as Hdone by (vm_compute; reflexivity).
  split; [done|].
  destruct (rewritten_single_error_returned inp opts 1 2 [0; 2; 1])
    as [Hret _]; [reflexivity|reflexivity| |by apply Hret].
  intros [|[|[|j]]] r Hj Hr; vm_compute in Hr; by simplify_eq.
Defined.

(** X5.  The rewritten [all.ts], default mode with [concurrency: 1]:
    when the factory at index [i] fails, no factory behind it is ever
    called. *)
Theorem pool_sequential_stops {V E : Type} (ts : list (thunk V E))
    (opts : option Options) (i : nat) (e : E) (sched : list nat)
    (j : nat) :
  mode_of opts = Default →
  concurrency_of opts = Num 1 →
  (ts !! i) ≫= thunk_outcome = Some (Err e) →
  i < j → j < length ts →
  V2.statuses (V2.run (V2.all (Thunks ts) opts) sched) !! j
  = Some NotStarted.
Proof. apply V2_sequential_stops. Qed.

(** Three factories run one at a time; the first fails. *)
Lemma pool_sequential_stops_witness :
  let ts : list (thunk nat nat) :=
    [Deferred (Some (Err 1)); Deferred (Some (Ok 2));
     Deferred (Some (Ok 3))] in
  V2.statuses (V2.run (V2.all (Thunks ts) (with_concurrency 1)) [0; 1; 2])
    !! 2 = Some NotStarted.
Proof.
  intros ts.
  apply (pool_sequential_stops ts (with_concurrency 1) 0 1 [0; 1; 2] 2);
    [reflexivity|reflexivity|reflexivity|lia|simpl; lia].
Defined.

(** X6.  [src/src/all.ts], default mode with [concurrency: 1]: the
    bounded loop runs the factories one after the other.  When the
    factory at index [i] fails, at most [i + 1] factories are ever
    called; and when it is the only one that fails, [all] returns
    nothing but its error. *)
Theorem loop_sequential_stops {V E : Type} (ts : list (thunk V E))
    (opts : option Options) (i : nat) (e : E) (acts : list V1.action) :
  mode_of opts = Default → concurrency_of opts = Num 1 →
  (ts !! i) ≫= thunk_outcome = Some (Err e) →
  V1.started_tasks (V1.run (V1.all (Thunks ts) opts) acts) ≤ S i ∧
  ((∀ j r, j ≠ i → (ts !! j) ≫= thunk_outcome = Some r →
           isErr r = false) →
   ∀ x, V1.outcome (V1.run (V1.all (Thunks ts) opts) acts) = Some x →
        x = RetResult (Err e)).
Proof. apply V1_sequential_stops. Qed.

(** Three factories run one at a time; the second fails. *)
Lemma loop_sequential_stops_witness :
  let p := V1.all (Thunks ok1_err2_ok3) (with_concurrency 1) in
  let acts :=
    [V1.Settle 0; V1.Tick; V1.Tick; V1.Tick; V1.Settle 1; V1.Tick;
     V1.Tick; V1.Tick; V1.Settle 2; V1.Tick] in
  V1.started_tasks (V1.run p acts) ≤ 2 ∧
  V1.outcome (V1.run p acts) = Some (RetResult (Err 2)).
Proof.
  intros p acts.
  destruct (loop_sequential_stops ok1_err2_ok3 (with_concurrency 1) 1 2
              acts) as [Hstarted Hret];
    [reflexivity|reflexivity|reflexivity|].
  split; [exact Hstarted|].
  assert (∃ x, V1.outcome (V1.run p acts) = Some x) as [x Hx].
  { eexists. vm_compute. reflexivity. }
  rewrite Hx. f_equal. apply Hret; [|exact Hx].
  intros [|[|[|j]]] r Hj Hr; vm_compute in Hr; by simplify_eq.
Defined.

(** X7.  [src/src/all.ts] returns: in both modes, for promises and for
    factories with unbounded or positive concurrency, when every task
    settles, every run can be continued to one in which [all] has
    returned; the loop around [await Promise.race(executing)] comes to
    an end. *)
Theorem loop_all_returns {V E : Type} (inp : input V E)
    (opts : option Options) (acts : list V1.action) :
  match concurrency_of opts with Unbounded => True | Num k => (1 ≤ k)%Z end →
  (∀ i, i < input_length inp → is_Some (settles_to (as_promises inp) i)) →
  ∃ more,
    is_Some (V1.outcome (V1.run (V1.all inp opts) (acts ++ more))).
Proof. apply V1_completes. Qed.

(** Three factories without a failure, [concurrency: 2], default
    mode, after the first has settled. *)
Lemma loop_all_returns_witness :
  ∃ more,
    is_Some (V1.outcome
               (V1.run (V1.all (Thunks ok1_ok2_ok3) (with_concurrency 2))
                  ([V1.Settle 0] ++ more))).
Proof.
  apply (loop_all_returns (Thunks ok1_ok2_ok3) (with_concurrency 2)
           [V1.Settle 0]); [simpl; lia|].
  intros [|[|[|i]]] Hi; [by eexists..|simpl in Hi; lia].
Defined.

(** X8.  The rewritten [all.ts] returns: in both modes, for promises
    and for factories with unbounded or positive concurrency, when
    every task settles, every run can be continued to one in which
    [all] has returned. *)
Theorem pool_all_returns {V E : Type} (inp : input V E)
    (opts : option Options) (sched : list nat) :
  match concurrency_of opts with Unbounded => True | Num k => (1 ≤ k)%Z end →
  (∀ i, i < input_length inp → is_Some (settles_to (as_promises inp) i)) →
  ∃ more,
    is_Some (V2.returned (V2.run (V2.all inp opts) (sched ++ more))).
Proof. apply V2_completes. Qed.

(** Three factories of which the second fails, [concurrency: 2],
    default mode, after the first has settled. *)
Lemma pool_all_returns_witness :
  ∃ more,
    is_Some (V2.returned
               (V2.run (V2.all (Thunks ok1_err2_ok3) (with_concurrency 2))
                  ([0] ++ more))).
Proof.
  apply (pool_all_returns (Thunks ok1_err2_ok3) (with_concurrency 2) [0]);
    [simpl; lia|].
  intros [|[|[|i]]] Hi; [by eexists..|simpl in Hi; lia].
Defined.

(** X9.  [src/src/all.ts] with a concurrency that is zero or negative
    and at least one factory: the inner loop starts nothing and the
    function awaits [Promise.race] of an empty set, so no factory is
    ever called and [all] never returns, in either mode. *)
Theorem loop_nonpositive_concurrency_hangs {V E : Type}
    (ts : list (thunk V E)) (opts : option Options) (K : Z)
    (acts : list V1.action) :
  concurrency_of opts = Num K → (K ≤ 0)%Z → ts ≠ [] →
  V1.outcome (V1.run (V1.all (Thunks ts) opts) acts) = None ∧
  V1.started_tasks (V1.run (V1.all (Thunks ts) opts) acts) = 0.
Proof. apply V1_nonpositive_hangs. Qed.

(** One factory that resolves at once, with [concurrency: 0]. *)
Lemma loop_nonpositive_concurrency_hangs_witness :
  V1.outcome
    (V1.run (V1.all (Thunks [Resolved (@Ok nat nat 1)])
               (with_concurrency 0)) [V1.Tick; V1.Settle 0; V1.Tick])
  = None.
Proof.
  apply (loop_nonpositive_concurrency_hangs [Resolved (@Ok nat nat 1)]
           (with_concurrency 0) 0 [V1.Tick; V1.Settle 0; V1.Tick]);
    [reflexivity|lia|done].
Defined.

(** X10.  The rewritten [all.ts] with a concurrency that is zero or
    negative and at least one factory: the pool is empty, so no factory
    is ever called and [all] never returns, in either mode. *)
Theorem pool_nonpositive_concurrency_hangs {V E : Type}
    (ts : list (thunk V E)) (opts : option Options) (K : Z)
    (sched : list nat) :
  concurrency_of opts = Num K → (K ≤ 0)%Z → ts ≠ [] →
  V2.returned (V2.run (V2.all (Thunks ts) opts) sched) = None ∧
  V2.statuses (V2.run (V2.all (Thunks ts) opts) sched)
  = replicate (length ts) NotStarted.
Proof. apply V2_nonpositive_hangs. Qed.

(** One factory that resolves at once, with [concurrency: 0]. *)
Lemma pool_nonpositive_concurrency_hangs_witness :
  V2.returned
    (V2.run (V2.all (Thunks [Resolved (@Ok nat nat 1)])
               (with_concurrency 0)) [0; 0])
  = None.
Proof.
  apply (pool_nonpositive_concurrency_hangs [Resolved (@Ok nat nat 1)]
           (with_concurrency 0) 0 [0; 0]); [reflexivity|lia|done].
Defined.

(** X11.  The rewritten [all.ts], default mode: whatever [all] returns
    is either [Ok] of the values of all tasks in index order, and then
    every task resolved to [Ok], or the error of one of the tasks. *)
Theorem pool_default_outcome {V E : Type} (inp : input V E)
    (opts : option Options) (sched : list nat) (x : ret V E) :
  mode_of opts = Default →
  V2.returned (V2.run (V2.all inp opts) sched) = Some x →
  (∃ vs, as_promises inp = (λ v, Some (Ok v)) <$> vs ∧
         x = RetResult (Ok ((λ v, Some (AVal v)) <$> vs))) ∨
  (∃ i e, settles_to (as_promises inp) i = Some (Err e) ∧
          x = RetResult (Err e)).
Proof. apply V2_default_outcome. Qed.

(** Three factories, [concurrency: 2]; the third fails first. *)
Lemma pool_default_outcome_witness :
  let inp := Thunks ok1_err2_err3 in
  let opts := with_concurrency 2 in
  let x : ret nat nat := RetResult (Err 3) in
  V2.returned (V2.run (V2.all inp opts) [0; 2]) = Some x ∧
  ((∃ vs, as_promises inp = (λ v, Some (Ok v)) <$> vs ∧
          x = RetResult (Ok ((λ v, Some (AVal v)) <$> vs))) ∨
   (∃ i e, settles_to (as_promises inp) i = Some (Err e) ∧
           x = RetResult (Err e))).
Proof.
  intros inp opts x.
  assert (V2.returned (V2.run (V2.all inp opts) [0; 2]) = Some x) as Hret
    by (vm_compute; reflexivity).
  split; [exact Hret|].
  apply (pool_default_outcome inp opts [0; 2]); [reflexivity|exact Hret].
Defined.

(** X12.  [src/src/all.ts], default mode, any concurrency: whatever
    [all] returns is the error of one of the tasks, or [Ok] of an
    array that is not longer than the input and holds, for every task,
    the task's value at the task's index when it resolved to [Ok] and
    nothing there when it failed; none of the tasks is one that never
    settles then. *)
Theorem loop_default_outcome {V E : Type} (inp : input V E)
    (opts : option Options) (acts : list V1.action) (x : ret V E) :
  mode_of opts = Default →
  V1.outcome (V1.run (V1.all inp opts) acts) = Some x →
  (∃ i e, settles_to (as_promises inp) i = Some (Err e) ∧
          x = RetResult (Err e)) ∨
  (∃ data, x = RetResult (Ok data) ∧ length data ≤ input_length inp ∧
           ∀ i, i < input_length inp →
                ∃ r, settles_to (as_promises inp) i = Some r ∧
                     slot data i = cell Default r).
Proof. apply V1_default_outcome. Qed.

(** Two factories that have resolved already, to [Ok 1] and [Err 2],
    with [concurrency: 2]: the array that is returned has nothing at
    index 1. *)
Lemma loop_default_outcome_witness :
  let inp : input nat nat := Thunks [Resolved (Ok 1); Resolved (Err 2)] in
  let opts := with_concurrency 2 in
  let x : ret nat nat := RetResult (Ok [Some (AVal 1)]) in
  V1.outcome (V1.run (V1.all inp opts) (replicate 5 V1.Tick)) = Some x ∧
  ((∃ i e, settles_to (as_promises inp) i = Some (Err e) ∧
           x = RetResult (Err e)) ∨
   (∃ data, x = RetResult (Ok data) ∧ length data ≤ input_length inp ∧
            ∀ i, i < input_length inp →
                 ∃ r, settles_to (as_promises inp) i = Some r ∧
                      slot data i = cell Default r)).
Proof.
  intros inp opts x.
  assert (V1.outcome (V1.run (V1.all inp opts) (replicate 5 V1.Tick))
          = Some x) as Hret by (vm_compute; reflexivity).
  split; [exact Hret|].
  apply (loop_default_outcome inp opts (replicate 5 V1.Tick));
    [reflexivity|exact Hret].
Defined.

(** X13.  [src/src/all.ts], default mode, promises or factories with
    unbounded or positive concurrency: when every task resolves to
    [Ok v_i], [all] returns nothing but [Ok [v_0, ..., v_{N-1}]], the
    values in index order, and every run can be continued to one in
    which it has returned that. *)
Theorem loop_all_ok_in_index_order {V E : Type} (vs : list V)
    (inp : input V E) (opts : option Options) (acts : list V1.action) :
  as_promises inp = (λ v, Some (Ok v)) <$> vs →
  mode_of opts = Default →
  match concurrency_of opts with Unbounded => True | Num k => (1 ≤ k)%Z end →
  (∀ x, V1.outcome (V1.run (V1.all inp opts) acts) = Some x →
        x = RetResult (Ok ((λ v, Some (AVal v)) <$> vs))) ∧
  ∃ more,
    V1.outcome (V1.run (V1.all inp opts) (acts ++ more))
    = Some (RetResult (Ok ((λ v, Some (AVal v)) <$> vs))).
Proof.
  intros Hinp Hm HK.
  assert (∀ acts' x, V1.outcome (V1.run (V1.all inp opts) acts') = Some x →
            x = RetResult (Ok ((λ v, Some (AVal v)) <$> vs))) as Hall.
  { intros acts' x Hx.
    destruct (V1_no_failure inp opts acts' x Hm) as (vs' & Hvs' & ->);
      [|done|].
    - intros i r. unfold settles_to. rewrite Hinp, list_lookup_fmap.
      destruct (vs !! i); intros; by simplify_eq/=.
    - rewrite Hinp in Hvs'.
      apply all_ok_inj in Hvs'. by subst vs'. }
  split; [by apply Hall|].
  destruct (V1_completes inp opts acts HK) as [more [x Hx]].
  - intros i Hi. unfold settles_to.
    rewrite <-as_promises_length, Hinp, length_fmap in Hi.
    rewrite Hinp, list_lookup_fmap.
    destruct (lookup_lt_is_Some_2 vs i Hi) as [v ->]. by eexists.
  - exists more. rewrite Hx. f_equal. by eapply Hall.
Qed.

(** Three factories with [concurrency: 2]; the second settles first. *)
Lemma loop_all_ok_in_index_order_witness :
  let acts :=
    [V1.Settle 1; V1.Tick; V1.Tick; V1.Tick; V1.Settle 0; V1.Settle 2;
     V1.Tick; V1.Tick; V1.Tick; V1.Tick; V1.Tick; V1.Tick; V1.Tick] in
  ∃ x,
    V1.outcome
      (V1.run (V1.all (Thunks ok1_ok2_ok3) (with_concurrency 2)) acts)
    = Some x ∧
    x = RetResult (Ok [Some (AVal 1); Some (AVal 2); Some (AVal 3)]).
Proof.
  intros acts. eexists. split; [vm_compute; reflexivity|].
  destruct (loop_all_ok_in_index_order [1; 2; 3] (Thunks ok1_ok2_ok3)
              (with_concurrency 2) acts) as [Hall _];
    [reflexivity|reflexivity|simpl; lia|].
  apply Hall. vm_compute. reflexivity.
Defined.

(** X14.  The rewritten [all.ts], default mode, promises or factories
    with unbounded or positive concurrency: when every task resolves to
    [Ok v_i], [all] returns nothing but [Ok [v_0, ..., v_{N-1}]], the
    values in index order, and every run can be continued to one in
    which it has returned that. *)
Theorem pool_all_ok_in_index_order {V E : Type} (vs : list V)
    (inp : input V E) (opts : option Options) (sched : list nat) :
  as_promises inp = (λ v, Some (Ok v)) <$> vs →
  mode_of opts = Default →
  match concurrency_of opts with Unbounded => True | Num k => (1 ≤ k)%Z end →
  (∀ x, V2.returned (V2.run (V2.all inp opts) sched) = Some x →
        x = RetResult (Ok ((λ v, Some (AVal v)) <$> vs))) ∧
  ∃ more,
    V2.returned (V2.run (V2.all inp opts) (sched ++ more))
    = Some (RetResult (Ok ((λ v, Some (AVal v)) <$> vs))).
Proof.
  intros Hinp Hm HK.
  assert (∀ sched' x,
            V2.returned (V2.run (V2.all inp opts) sched') = Some x →
            x = RetResult (Ok ((λ v, Some (AVal v)) <$> vs))) as Hall.
  { intros sched' x Hx.
    destruct (V2_default_outcome inp opts sched' x Hm Hx)
      as [(vs' & Hvs' & ->)|(i & e & Hi & _)].
    - rewrite Hinp in Hvs'.
      apply all_ok_inj in Hvs'. by subst vs'.
    - unfold settles_to in Hi. rewrite Hinp, list_lookup_fmap in Hi.
      destruct (vs !! i); by simplify_eq/=. }
  split; [by apply Hall|].
  destruct (V2_completes inp opts sched HK) as [more [x Hx]].
  - intros i Hi. unfold settles_to.
    rewrite <-as_promises_length, Hinp, length_fmap in Hi.
    rewrite Hinp, list_lookup_fmap.
    destruct (lookup_lt_is_Some_2 vs i Hi) as [v ->]. by eexists.
  - exists more. rewrite Hx. f_equal. by eapply Hall.
Qed.

(** Three factories with [concurrency: 2]; the second settles first. *)
Lemma pool_all_ok_in_index_order_witness :
  ∃ x,
    V2.returned
      (V2.run (V2.all (Thunks ok1_ok2_ok3) (with_concurrency 2)) [1; 0; 2])
    = Some x ∧
    x = RetResult (Ok [Some (AVal 1); Some (AVal 2); Some (AVal 3)]).
Proof.
  eexists. split; [vm_compute; reflexivity|].
  destruct (pool_all_ok_in_index_order [1; 2; 3] (Thunks ok1_ok2_ok3)
              (with_concurrency 2) [1; 0; 2]) as [Hall _];
    [reflexivity|reflexivity|simpl; lia|].
  apply Hall. vm_compute. reflexivity.
Defined.

(** X15.  [src/src/all.ts]: what [all] has returned is final.  After
    it has returned, in either mode and on every path, nothing that
    settles or runs later changes the returned value, and no further
    factory is called. *)
Theorem loop_result_is_final {V E : Type} (inp : input V E)
    (opts : option Options) (a b : list V1.action) (x : ret V E) :
  V1.outcome (V1.run (V1.all inp opts) a) = Some x →
  V1.outcome (V1.run (V1.all inp opts) (a ++ b)) = Some x ∧
  V1.started_tasks (V1.run (V1.all inp opts) (a ++ b))
  = V1.started_tasks (V1.run (V1.all inp opts) a).
Proof. apply V1_after_return. Qed.

(** Three factories run one at a time, of which the second fails: the
    third is not started when the second has failed and the queue runs
    on. *)
Lemma loop_result_is_final_witness :
  let p := V1.all (Thunks ok1_err2_ok3) (with_concurrency 1) in
  let a :=
    [V1.Settle 0; V1.Tick; V1.Tick; V1.Tick; V1.Settle 1; V1.Tick;
     V1.Tick; V1.Tick] in
  let b := [V1.Settle 2; V1.Tick; V1.Tick; V1.Tick] in
  V1.outcome (V1.run p a) = Some (RetResult (Err 2)) ∧
  V1.outcome (V1.run p (a ++ b)) = Some (RetResult (Err 2)) ∧
  V1.started_tasks (V1.run p (a ++ b)) = V1.started_tasks (V1.run p a).
Proof.
  intros p a b.
  assert (V1.outcome (V1.run p a) = Some (RetResult (Err 2))) as Hret
    by (vm_compute; reflexivity).
  split; [exact Hret|].
  apply (loop_result_is_final (Thunks ok1_err2_ok3) (with_concurrency 1)
           a b). exact Hret.
Defined.

(** X16.  The rewritten [all.ts]: what [all] has returned is final.
    After it has returned, in either mode and on every path, nothing
    that settles later changes the returned value, and a factory that
    has not been called is never called. *)
Theorem pool_result_is_final {V E : Type} (inp : input V E)
    (opts : option Options) (a b : list nat) (x : ret V E) :
  V2.returned (V2.run (V2.all inp opts) a) = Some x →
  V2.returned (V2.run (V2.all inp opts) (a ++ b)) = Some x ∧
  ∀ j, V2.statuses (V2.run (V2.all inp opts) a) !! j = Some NotStarted →
       V2.statuses (V2.run (V2.all inp opts) (a ++ b)) !! j
       = Some NotStarted.
Proof.
  intros Hx. split.
  - rewrite V2_run_app. by apply V2_run_returned.
  - intros j. by apply V2_no_start_after_return with x.
Qed.

(** Three factories with [concurrency: 1], of which the first fails:
    the settlements that follow start nothing. *)
Lemma pool_result_is_final_witness :
  let p := V2.all (Thunks ok1_err2_err3) (with_concurrency 1) in
  V2.returned (V2.run p [0; 1]) = Some (RetResult (Err 2)) ∧
  V2.returned (V2.run p ([0; 1] ++ [2; 1])) = Some (RetResult (Err 2)) ∧
  V2.statuses (V2.run p ([0; 1] ++ [2; 1])) !! 2 = Some NotStarted.
Proof.
  intros p.
  assert (V2.returned (V2.run p [0; 1]) = Some (RetResult (Err 2))) as Hret
    by (vm_compute; reflexivity).
  destruct (pool_result_is_final (Thunks ok1_err2_err3)
              (with_concurrency 1) [0; 1] [2; 1] _ Hret) as [Hfin Hno].
  split_and!; [exact Hret|exact Hfin|].
  apply Hno. vm_compute. reflexivity.
Defined.

(** X17.  The rewritten [all.ts] calls the factories in index order:
    at every instant the factories that have not been called are the
    last ones of the array. *)
Theorem pool_starts_in_index_order {V E : Type} (inp : input V E)
    (opts : option Options) (sched : list nat) (i j : nat) :
  V2.statuses (V2.run (V2.all inp opts) sched) !! i = Some NotStarted →
  i ≤ j → j < input_length inp →
  V2.statuses (V2.run (V2.all inp opts) sched) !! j = Some NotStarted.
Proof. apply V2_started_in_order. Qed.

(** Four factories with [concurrency: 2] before anything has settled:
    the third has not been called, so the fourth has not. *)
Lemma pool_starts_in_index_order_witness :
  let ts : list (thunk nat nat) :=
    [Deferred (Some (Ok 1)); Deferred (Some (Ok 2));
     Deferred (Some (Ok 3)); Deferred (Some (Ok 4))] in
  V2.statuses (V2.run (V2.all (Thunks ts) (with_concurrency 2)) []) !! 2
  = Some NotStarted ∧
  V2.statuses (V2.run (V2.all (Thunks ts) (with_concurrency 2)) []) !! 3
  = Some NotStarted.
Proof.
  intros ts.
  assert (V2.statuses (V2.run (V2.all (Thunks ts) (with_concurrency 2)) [])
            !! 2 = Some NotStarted) as Hthird by (vm_compute; reflexivity).
  split; [exact Hthird|].
  apply (pool_starts_in_index_order (Thunks ts) (with_concurrency 2) []
           2 3); [exact Hthird|lia|simpl; lia].
Defined.

(** X18.  For an array of promises, and for factories with unbounded
    concurrency, [src/src/all.ts] and the rewritten [all.ts] behave
    alike: after the same settlements they have returned the same and
    the same number of tasks is in flight. *)
Theorem eager_paths_agree {V E : Type} (inp : input V E)
    (opts : option Options) (acts : list V1.action) :
  first_is_function inp = false ∨ concurrency_of opts = Unbounded →
  V1.outcome (V1.run (V1.all inp opts) acts)
  = V2.returned (V2.run (V2.all inp opts) (settlements acts)) ∧
  V1.tasks_in_flight (V1.run (V1.all inp opts) acts)
  = in_flight (V2.statuses (V2.run (V2.all inp opts) (settlements acts))).
Proof.
  intros Heager.
  rewrite V1_all_eager, V2_all_eager by done.
  rewrite V1_run_eager, V2_run_eager, allEager_V1_V2. done.
Qed.

(** Three factories with unbounded concurrency, in settled mode. *)
Lemma eager_paths_agree_witness :
  let opts :=
    Some {| opt_mode := Some Settled; opt_concurrency := None |} in
  let acts := [V1.Settle 2; V1.Tick; V1.Settle 0; V1.Settle 1] in
  V1.outcome (V1.run (V1.all (Thunks ok1_err2_ok3) opts) acts)
  = V2.returned (V2.run (V2.all (Thunks ok1_err2_ok3) opts) [2; 0; 1]).
Proof.
  intros opts acts.
  destruct (eager_paths_agree (Thunks ok1_err2_ok3) opts acts) as [Hret _];
    [by right|exact Hret].
Defined.

(** X19.  The bounded loop of [src/src/all.ts], default mode: the
    error of a task that settles while the job queue is empty is
    returned, if no other task settles before the job queue has run
    empty again. *)
Theorem loop_lone_error_is_returned {V E : Type} (ts : list (thunk V E))
    (opts : option Options) (K : Z) (acts : list V1.action) (i : nat)
    (e : E) (n : nat) :
  mode_of opts = Default → concurrency_of opts = Num K → (1 ≤ K)%Z →
  V1.at_rest (V1.run (V1.all (Thunks ts) opts) acts) →
  V1.outcome (V1.run (V1.all (Thunks ts) opts) acts) = None →
  task_pending (V1.run (V1.all (Thunks ts) opts) acts) i →
  (ts !! i) ≫= thunk_outcome = Some (Err e) →
  V1.at_rest (V1.run (V1.all (Thunks ts) opts)
                (acts ++ V1.Settle i :: replicate n V1.Tick)) →
  V1.outcome (V1.run (V1.all (Thunks ts) opts)
                (acts ++ V1.Settle i :: replicate n V1.Tick))
  = Some (RetResult (Err e)).
Proof. apply V1_lone_error. Qed.

(** Three factories with [concurrency: 3]: the second fails while the
    others are pending, and three jobs run. *)
Lemma loop_lone_error_is_returned_witness :
  let p := V1.all (Thunks ok1_err2_ok3) (with_concurrency 3) in
  task_pending (V1.run p []) 1 ∧
  V1.outcome (V1.run p ([] ++ V1.Settle 1 :: replicate 3 V1.Tick))
  = Some (RetResult (Err 2)).
Proof.
  intros p.
  assert (task_pending (V1.run p []) 1) as Hpending.
  { eexists. vm_compute. reflexivity. }
  split; [exact Hpending|].
  apply (loop_lone_error_is_returned ok1_err2_ok3 (with_concurrency 3) 3 []
           1 2 3);
    [reflexivity|reflexivity|lia|vm_compute; reflexivity|
     vm_compute; reflexivity|exact Hpending|reflexivity|
     vm_compute; reflexivity].
Defined.

(** X20.  [src/src/all.ts], default mode, promises or factories with
    unbounded concurrency: when exactly one task fails, with [Err e],
    [all] returns nothing but [Err e]. *)
Theorem eager_path_single_error {V E : Type} (inp : input V E)
    (opts : option Options) (i : nat) (e : E) (acts : list V1.action)
    (x : ret V E) :
  first_is_function inp = false ∨ concurrency_of opts = Unbounded →
  mode_of opts = Default →
  settles_to (as_promises inp) i = Some (Err e) →
  (∀ j r, j ≠ i → settles_to (as_promises inp) j = Some r →
          isErr r = false) →
  V1.outcome (V1.run (V1.all inp opts) acts) = Some x →
  x = RetResult (Err e).
Proof.
  intros Heager Hm He Hothers Hx.
  rewrite (V1_eager_single_error_returned inp opts i e acts) in Hx;
    [by simplify_eq|done..|by exists x].
Qed.

(** Three factories with unbounded concurrency, the second of which
    fails last. *)
Lemma eager_path_single_error_witness :
  let acts := [V1.Settle 0; V1.Settle 2; V1.Settle 1] in
  ∃ x, V1.outcome (V1.run (V1.all (Thunks ok1_err2_ok3) None) acts)
       = Some x ∧ x = RetResult (Err 2).
Proof.
  intros acts. eexists. split; [vm_compute; reflexivity|].
  apply (eager_path_single_error (Thunks ok1_err2_ok3) None 1 2 acts);
    [by right|reflexivity|reflexivity| |vm_compute; reflexivity].
  intros [|[|[|j]]] r Hj Hr; vm_compute in Hr; by simplify_eq.
Defined.

(** X21.  The bounded loop of [src/src/all.ts] with a positive
    concurrency, for factories that each return a promise of their own:
    whenever the job queue is empty, [executing] holds exactly the
    tasks that have been started and have not settled.  (When factories
    return the same promise this fails: three calls that return one
    pending promise leave one member in [executing].) *)
Theorem loop_executing_is_pending {V E : Type}
    (fs : list (V1S.factory V E)) (mode : ModeSetting) (K : Z)
    (acts : list V1.action) :
  own_promises fs → fs ≠ [] → (1 ≤ K)%Z →
  V1S.jobs (V1S.run mode K fs acts) = [] →
  length (V1S.executing (V1S.run mode K fs acts))
  = V1S.tasks_in_flight fs (V1S.run mode K fs acts).
Proof.
  intros [ts ->]%own_promises_fmap Hne HK.
  apply own_promises_rest; [done|]. by destruct ts.
Qed.

(** Three factories with [concurrency: 2], after the first has settled
    and its jobs have run: the second and the third are executing. *)
Lemma loop_executing_is_pending_witness :
  let g :=
    V1S.run Default 2 three_own_promises
      [V1.Settle 0; V1.Tick; V1.Tick; V1.Tick] in
  V1S.jobs g = [] ∧ V1S.executing g = [1; 2] ∧
  length (V1S.executing g) = V1S.tasks_in_flight three_own_promises g.
Proof.
  intros g.
  assert (V1S.jobs g = []) as Hrest by (vm_compute; reflexivity).
  split_and!; [exact Hrest|vm_compute; reflexivity|].
  apply (loop_executing_is_pending three_own_promises Default 2
           [V1.Settle 0; V1.Tick; V1.Tick; V1.Tick]);
    [|done|lia|exact Hrest].
  intros f Hf. list_cases Hf; subst f; by eexists.
Defined.

(** X22.  The bounded loop of [src/src/all.ts] with a positive
    concurrency [K], for factories that each return a promise of their
    own: the tasks in flight are members of [executing], which never
    has more than [K] members; [min K N] factories have been called
    when the function reaches its first [await]; whenever the job queue
    is empty and the function has not returned, [K] tasks are in flight
    or no factory is left to call; and from every state the job queue
    runs empty, or the function returns, after finitely many jobs. *)
Theorem loop_keeps_bound_for_own_promises {V E : Type}
    (fs : list (V1S.factory V E)) (mode : ModeSetting) (K : Z) :
  own_promises fs → fs ≠ [] → (1 ≤ K)%Z →
  V1S.started_tasks (V1S.allLazy fs K)
    = Z.to_nat (Z.min K (Z.of_nat (length fs))) ∧
  ∀ acts,
    V1S.tasks_in_flight fs (V1S.run mode K fs acts)
      ≤ length (V1S.executing (V1S.run mode K fs acts)) ∧
    (Z.of_nat (length (V1S.executing (V1S.run mode K fs acts))) ≤ K)%Z ∧
    (V1S.returned (V1S.run mode K fs acts) = None →
     V1S.jobs (V1S.run mode K fs acts) = [] →
     Z.of_nat (V1S.tasks_in_flight fs (V1S.run mode K fs acts)) = K ∨
     V1S.queue (V1S.run mode K fs acts) = []) ∧
    ∃ m,
      is_Some (V1S.returned
                 (V1S.run mode K fs (acts ++ replicate m V1.Tick))) ∨
      V1S.jobs (V1S.run mode K fs (acts ++ replicate m V1.Tick)) = [].
Proof.
  intros [ts ->]%own_promises_fmap Hne HK.
  assert (ts ≠ []) as Hts by (by destruct ts).
  split.
  - rewrite own_promises_start by lia. by rewrite length_fmap.
  - intros acts. split_and!.
    + by apply own_promises_bound.
    + by apply own_promises_bound.
    + by apply own_promises_full.
    + by apply own_promises_drain.
Qed.

(** Three factories with [concurrency: 2]: two are called at first;
    after the first has settled the job queue runs empty in three jobs,
    and then the third has been called and two tasks are in flight. *)
Lemma loop_keeps_bound_for_own_promises_witness :
  let fs := three_own_promises in
  V1S.started_tasks (V1S.allLazy fs 2) = 2 ∧
  V1S.tasks_in_flight fs (V1S.run Default 2 fs [V1.Settle 0]) = 1 ∧
  V1S.jobs
    (V1S.run Default 2 fs ([V1.Settle 0] ++ replicate 3 V1.Tick)) = [] ∧
  V1S.started_tasks
    (V1S.run Default 2 fs ([V1.Settle 0] ++ replicate 3 V1.Tick)) = 3 ∧
  Z.of_nat
    (V1S.tasks_in_flight fs
       (V1S.run Default 2 fs ([V1.Settle 0] ++ replicate 3 V1.Tick)))
  = 2%Z.
Proof.
  intros fs.
  destruct (loop_keeps_bound_for_own_promises fs Default 2)
    as [Hstart Hruns]; [|done|lia|].
  { intros f Hf. list_cases Hf; subst f; by eexists. }
  destruct (Hruns ([V1.Settle 0] ++ replicate 3 V1.Tick))
    as (_ & _ & Hfull & _).
  split_and!; [exact Hstart|vm_compute; reflexivity..|].
  destruct Hfull as [Hk|Hq]; [vm_compute; reflexivity..|exact Hk|].
  vm_compute. reflexivity.
Defined.

(** X23.  The rewritten [all.ts] with a positive concurrency [K]: after
    every settlement at most [K] tasks are in flight; [min K N]
    factories have been called when the function reaches its first
    [await]; and the pool is kept full: as long as [all] has not
    returned, [K] tasks are in flight or every factory has been
    called. *)
Theorem pool_keeps_bound {V E : Type} (ts : list (thunk V E))
    (opts : option Options) (K : Z) :
  concurrency_of opts = Num K → (1 ≤ K)%Z →
  started (V2.statuses (V2.all (Thunks ts) opts))
    = Z.to_nat (Z.min K (Z.of_nat (length ts))) ∧
  ∀ sched,
    (Z.of_nat (in_flight (V2.statuses
                            (V2.run (V2.all (Thunks ts) opts) sched)))
       ≤ K)%Z ∧
    (V2.returned (V2.run (V2.all (Thunks ts) opts) sched) = None →
     Z.of_nat (in_flight (V2.statuses
                            (V2.run (V2.all (Thunks ts) opts) sched)))
       = K ∨
     ∀ i, V2.statuses (V2.run (V2.all (Thunks ts) opts) sched) !! i
          ≠ Some NotStarted).
Proof.
  intros HK Hpos. split.
  - by apply (V2_pool_bound ts opts K []).
  - intros sched. split; by apply V2_pool_bound.
Qed.

(** Four factories with [concurrency: 2], as in the test of
    [src/src/all.test.ts]: two are called at first, and after the
    second has settled two are in flight again. *)
Lemma pool_keeps_bound_witness :
  let ts : list (thunk nat nat) :=
    [Deferred (Some (Ok 1)); Deferred (Some (Ok 2));
     Deferred (Some (Ok 3)); Deferred (Some (Ok 4))] in
  let p := V2.all (Thunks ts) (with_concurrency 2) in
  started (V2.statuses p) = 2 ∧
  V2.statuses (V2.run p [1]) = [Pending; Done; Pending; NotStarted] ∧
  Z.of_nat (in_flight (V2.statuses (V2.run p [1]))) = 2%Z.
Proof.
  intros ts p.
  destruct (pool_keeps_bound ts (with_concurrency 2) 2 eq_refl ltac:(lia))
    as [Hstart Hruns].
  destruct (Hruns [1]) as [_ Hfull].
  split_and!; [exact Hstart|vm_compute; reflexivity|].
  destruct Hfull as [Hk|Hall]; [vm_compute; reflexivity|exact Hk|].
  exfalso. apply (Hall 3). vm_compute. reflexivity.
Defined.

(** X24.  For factories that each return a promise of their own, the
    bounded loop of [src/src/all.ts] with [executing] as a set of
    promise objects ([V1S]) and the loop in which every call has its
    own promise ([V1]) are the same: after the same actions they have
    returned the same, have called as many factories, have as many
    tasks in flight, as many members in [executing] and as many
    factories queued, and the job queue of one is empty when that of
    the other is. *)
Theorem own_promises_loop_agrees {V E : Type} (ts : list (thunk V E))
    (opts : option Options) (K : Z) (acts : list V1.action) :
  concurrency_of opts = Num K → ts ≠ [] →
  let p := V1.run (V1.all (Thunks ts) opts) acts in
  let g := V1S.run (mode_of opts) K (V1S.Own <$> ts) acts in
  V1.outcome p = V1S.returned g ∧
  V1.started_tasks p = V1S.started_tasks g ∧
  V1.tasks_in_flight p = V1S.tasks_in_flight (V1S.Own <$> ts) g ∧
  V1.executing_size p = length (V1S.executing g) ∧
  V1.queue_length p = length (V1S.queue g) ∧
  (V1.at_rest p ↔ V1S.jobs g = []).
Proof.
  intros HK Hne p g. subst p g.
  destruct (V1_all_thunks_cases ts opts K HK) as [[? _]|[_ Heq]]; [done|].
  rewrite Heq, V1_run_lazy. clear Heq.
  pose proof (shared_refines (mode_of opts) K ts acts) as Href.
  cbn [V1.outcome V1.started_tasks V1.tasks_in_flight V1.executing_size
       V1.queue_length V1.at_rest].
  unfold V1S.started_tasks.
  rewrite (refines_in_flight ts _ _ Href), (rf_executing _ _ Href),
    (rf_queue _ _ Href), (rf_returned _ _ Href), (rf_created _ _ Href),
    (rf_jobs _ _ Href), length_fmap.
  split_and!; try done. split; [by intros ->|by intros ?%fmap_nil_inv].
Qed.

(** Three factories with [concurrency: 2], of which the second fails
    after the first has resolved. *)
Lemma own_promises_loop_agrees_witness :
  let acts :=
    [V1.Settle 0; V1.Tick; V1.Tick; V1.Tick; V1.Settle 1; V1.Tick;
     V1.Tick; V1.Tick; V1.Tick] in
  let p := V1.run (V1.all (Thunks ok1_err2_ok3) (with_concurrency 2)) acts in
  let g := V1S.run Default 2 (V1S.Own <$> ok1_err2_ok3) acts in
  V1.outcome p = Some (RetResult (Err 2)) ∧
  V1S.returned g = Some (RetResult (Err 2)) ∧
  V1.started_tasks p = V1S.started_tasks g.
Proof.
  intros acts p g.
  destruct (own_promises_loop_agrees ok1_err2_ok3 (with_concurrency 2) 2
              acts eq_refl ltac:(done)) as (Hret & Hstarted & _).
  split_and!; [vm_compute; reflexivity| |exact Hstarted].
  transitivity (V1.outcome p); [symmetry; exact Hret|].
  vm_compute. reflexivity.
Defined.
